(** * A shallow embedding of the JIT core: caching device allocator, type
      unification, graph IR and alias analysis.

    Each module embeds one source file.  Pointers become indices into
    explicit heaps, [size_t] and [uint64_t] become [Z] with the wrap-around
    written out, C++ exceptions become the [Err] result of a small
    state-and-exception monad which keeps the state reached when the
    exception is thrown. *)

From Stdlib Require Import ZArith Lia List Bool String Ascii DecimalString.
From stdpp Require Import base option list gmap strings sorting.

Set Default Proof Using "Type".

(** ** Results and the state-and-exception monad *)

Inductive Result (E A : Type) : Type :=
| Ok (a : A)
| Err (e : E).
Arguments Ok {E A} a.
Arguments Err {E A} e.

Definition M (E S A : Type) : Type := S -> Result E A * S.

Definition ret {E S A} (a : A) : M E S A := fun s => (Ok a, s).

Definition bind {E S A B} (m : M E S A) (k : A -> M E S B) : M E S B :=
  fun s => match m s with
           | (Ok a, s') => k a s'
           | (Err e, s') => (Err e, s')
           end.

Definition throw {E S A} (e : E) : M E S A := fun s => (Err e, s).
Definition get {E S} : M E S S := fun s => (Ok s, s).
Definition gets {E S A} (f : S -> A) : M E S A := fun s => (Ok (f s), s).
Definition modify {E S} (f : S -> S) : M E S unit := fun s => (Ok tt, f s).

#[global] Instance M_ret {E S} : MRet (M E S) := fun A => @ret E S A.
#[global] Instance M_bind {E S} : MBind (M E S) := fun A B k m => @bind E S A B m k.

(** [for (x : l) body(x)] *)
Definition forM_ {E S A} (l : list A) (body : A -> M E S unit) : M E S unit :=
  (fix loop (l : list A) : M E S unit :=
     match l with
     | [] => mret tt
     | x :: l' => body x;; loop l'
     end) l.

(** [for (x : l) acc = body(acc, x)] *)
Fixpoint foldM {E S A B} (body : B -> A -> M E S B) (acc : B) (l : list A) : M E S B :=
  match l with
  | [] => mret acc
  | x :: l' => acc' ← body acc x; foldM body acc' l'
  end.

(** [fmap(l, f)] for an [f] that reads or writes state and may throw. *)
Definition mapM {E S A B} (f : A -> M E S B) : list A -> M E S (list B) :=
  fix go (l : list A) : M E S (list B) :=
    match l with
    | [] => mret []
    | x :: l' => y ← f x; ys ← go l'; mret (y :: ys)
    end.

(** A computation whose exceptions all satisfy [Q]. *)
Definition OnlyThrows {E S A} (Q : E -> Prop) (m : M E S A) : Prop :=
  forall s, match fst (m s) with Ok _ => True | Err e => Q e end.

(** A computation that relates the state it starts in to the state it
    leaves, whether it returns or throws. *)
Definition Frame {E S A} (R : S -> S -> Prop) (m : M E S A) : Prop :=
  forall s, R s (snd (m s)).

(** 64-bit unsigned arithmetic ([size_t], [uint64_t], [uintptr_t]). *)
Definition wrap64 (z : Z) : Z := (z mod 2 ^ 64)%Z.

Definition in_u64 (z : Z) : Prop := (0 <= z < 2 ^ 64)%Z.

Lemma wrap64_small z : in_u64 z -> wrap64 z = z.
Proof. intros H. unfold wrap64. apply Z.mod_small. exact H. Qed.

Lemma wrap64_range z : in_u64 (wrap64 z).
Proof. unfold in_u64, wrap64. apply Z.mod_pos_bound. lia. Qed.

(** Rules to reason about computations piece by piece. *)
Section MonadRules.
Context {E S : Type}.
Implicit Types (Q : E -> Prop) (R : S -> S -> Prop).

Lemma bind_eq {A B} (m : M E S A) (k : A -> M E S B) s :
  (m ≫= k) s =
  match m s with (Ok a, s') => k a s' | (Err e, s') => (Err e, s') end.
Proof. reflexivity. Qed.

Lemma bind_Ok {A B} (m : M E S A) (k : A -> M E S B) s a s' :
  m s = (Ok a, s') -> (m ≫= k) s = k a s'.
Proof. intros H. rewrite bind_eq, H. reflexivity. Qed.

Lemma bind_Ok_inv {A B} (m : M E S A) (k : A -> M E S B) s b s2 :
  (m ≫= k) s = (Ok b, s2) ->
  exists a s1, m s = (Ok a, s1) /\ k a s1 = (Ok b, s2).
Proof.
  rewrite bind_eq. destruct (m s) as [[a | e] s1]; [eauto | discriminate].
Qed.

Lemma forM__cons {A} (x : A) (l : list A) (body : A -> M E S unit) :
  forM_ (x :: l) body = (body x;; forM_ l body).
Proof. reflexivity. Qed.

Lemma bind_ret {A B} (a : A) (k : A -> M E S B) s : (mret a ≫= k) s = k a s.
Proof. reflexivity. Qed.

Lemma bind_gets {A B} (f : S -> A) (k : A -> M E S B) s :
  (gets f ≫= k) s = k (f s) s.
Proof. reflexivity. Qed.

Lemma bind_get {B} (k : S -> M E S B) s : (get ≫= k) s = k s s.
Proof. reflexivity. Qed.

Lemma bind_modify {B} (f : S -> S) (k : unit -> M E S B) s :
  (modify f ≫= k) s = k tt (f s).
Proof. reflexivity. Qed.

Lemma bind_throw {A B} (e : E) (k : A -> M E S B) s :
  (throw e ≫= k) s = (Err e, s).
Proof. reflexivity. Qed.

Lemma bind_assoc {A B C} (m : M E S A) (k : A -> M E S B) (k' : B -> M E S C) s :
  ((m ≫= k) ≫= k') s = (m ≫= (fun a => k a ≫= k')) s.
Proof. rewrite !bind_eq. destruct (m s) as [[a | e] s1]; reflexivity. Qed.

Lemma OnlyThrows_ret Q {A} (a : A) : OnlyThrows Q (mret a : M E S A).
Proof. intros s. exact I. Qed.

Lemma OnlyThrows_throw Q {A} e : Q e -> OnlyThrows Q (throw e : M E S A).
Proof. intros H s. exact H. Qed.

Lemma OnlyThrows_gets Q {A} (f : S -> A) : OnlyThrows Q (gets f : M E S A).
Proof. intros s. exact I. Qed.

Lemma OnlyThrows_get Q : OnlyThrows Q (get : M E S S).
Proof. intros s. exact I. Qed.

Lemma OnlyThrows_modify Q (f : S -> S) : OnlyThrows Q (modify f : M E S unit).
Proof. intros s. exact I. Qed.

Lemma OnlyThrows_bind Q {A B} (m : M E S A) (k : A -> M E S B) :
  OnlyThrows Q m -> (forall a, OnlyThrows Q (k a)) -> OnlyThrows Q (m ≫= k).
Proof.
  intros Hm Hk s. rewrite bind_eq. specialize (Hm s).
  destruct (m s) as [[a | e] s1]; simpl in *; [apply Hk | exact Hm].
Qed.

Lemma OnlyThrows_weaken Q Q' {A} (m : M E S A) :
  (forall e, Q e -> Q' e) -> OnlyThrows Q m -> OnlyThrows Q' m.
Proof.
  intros HQ Hm s. specialize (Hm s). destruct (fst (m s)); auto.
Qed.

Lemma Frame_ret R `{!Reflexive R} {A} (a : A) : Frame R (mret a : M E S A).
Proof. intros s. simpl. reflexivity. Qed.

Lemma Frame_throw R `{!Reflexive R} {A} e : Frame R (throw e : M E S A).
Proof. intros s. simpl. reflexivity. Qed.

Lemma Frame_gets R `{!Reflexive R} {A} (f : S -> A) : Frame R (gets f : M E S A).
Proof. intros s. simpl. reflexivity. Qed.

Lemma Frame_get R `{!Reflexive R} : Frame R (get : M E S S).
Proof. intros s. simpl. reflexivity. Qed.

Lemma Frame_modify R (f : S -> S) :
  (forall s, R s (f s)) -> Frame R (modify f : M E S unit).
Proof. intros H s. apply H. Qed.

Lemma Frame_bind R `{!Transitive R} {A B} (m : M E S A) (k : A -> M E S B) :
  Frame R m -> (forall a, Frame R (k a)) -> Frame R (m ≫= k).
Proof.
  intros Hm Hk s. rewrite bind_eq. specialize (Hm s).
  destruct (m s) as [[a | e] s1]; simpl in *; [| exact Hm].
  etransitivity; [exact Hm | apply Hk].
Qed.
Lemma Frame_weaken R R' {A} (m : M E S A) :
  (forall s s', R s s' -> R' s s') -> Frame R m -> Frame R' m.
Proof. intros HR Hm s. apply HR, Hm. Qed.

Lemma Frame_run R {A} (m : M E S A) s r s' :
  Frame R m -> m s = (r, s') -> R s s'.
Proof. intros Hm H. specialize (Hm s). rewrite H in Hm. exact Hm. Qed.
End MonadRules.

(** ** aten/src/THC/THCCachingAllocator.cpp *)

Module THC.
Local Open Scope Z_scope.

Definition kRoundSmall : Z := 512.     (* round up small allocs to 512 bytes *)
Definition kRoundLarge : Z := 131072.  (* round up large allocs to 128 KiB *)
Definition kSmallAlloc : Z := 1048576. (* largest "small" allocation is 1 MiB *)

(** [size_t round_size(size_t size)] *)
Definition round_size (size : Z) : Z :=
  if size <? kRoundSmall then kRoundSmall
  else if size <? kSmallAlloc then
    wrap64 (size + wrap64 (wrap64 (kRoundSmall - 1) - wrap64 (size - 1) mod kRoundSmall))
  else
    wrap64 (size + wrap64 (wrap64 (kRoundLarge - 1) - wrap64 (size - 1) mod kRoundLarge)).

(** *** The CUDA runtime the allocator consumes

    The driver is an external collaborator: its calls are oracles over an
    abstract driver state [W]; the allocator never looks inside it. *)

Inductive cudaError_t :=
| cudaSuccess
| cudaErrorMemoryAllocation
| cudaErrorNotReady
| cudaErrorOther (code : Z).

Definition is_cudaSuccess (e : cudaError_t) : bool :=
  match e with cudaSuccess => true | _ => false end.

Record CudaRuntime (W : Type) := {
  cudaGetDevice : W -> cudaError_t * Z * W;
  cudaSetDevice : Z -> W -> cudaError_t * W;
  cudaMalloc : Z -> W -> cudaError_t * Z * W;
  cudaFree : Z -> W -> cudaError_t * W;
  cudaGetLastError : W -> cudaError_t * W;
  cudaMemGetInfo : W -> cudaError_t * (Z * Z) * W;
  cudaEventCreateWithFlags : W -> cudaError_t * Z * W;
  cudaEventRecord : Z -> Z -> W -> cudaError_t * W;
  cudaEventQuery : Z -> W -> cudaError_t * W;
  cudaEventDestroy : Z -> W -> cudaError_t * W
}.
Arguments cudaGetDevice {W}. Arguments cudaSetDevice {W}.
Arguments cudaMalloc {W}. Arguments cudaFree {W}.
Arguments cudaGetLastError {W}. Arguments cudaMemGetInfo {W}.
Arguments cudaEventCreateWithFlags {W}. Arguments cudaEventRecord {W}.
Arguments cudaEventQuery {W}. Arguments cudaEventDestroy {W}.

(** What the allocator throws. *)
Inductive Exception :=
| CudaCheckFailed (err : cudaError_t)   (* AT_CUDA_CHECK *)
| AssertFailed                          (* THAssert *)
| OutOfMemory (alloc_size device device_total allocated device_free cached : Z)
| InvalidPointer (ptr : Z).             (* "invalid device pointer: " *)

(** *** Data *)

Record DeviceStats := mkDeviceStats {
  amount_allocated : Z;      (* total amount allocated in bytes *)
  max_amount_allocated : Z;  (* max total amount allocated in bytes *)
  amount_cached : Z;         (* total amount in cache in bytes *)
  max_amount_cached : Z      (* max total amount in cache in bytes *)
}.

Definition DeviceStats_new : DeviceStats := mkDeviceStats 0 0 0 0.

Definition increaseAllocated (delta : Z) (st : DeviceStats) : DeviceStats :=
  let a := wrap64 (amount_allocated st + delta) in
  mkDeviceStats a (Z.max (max_amount_allocated st) a)
                (amount_cached st) (max_amount_cached st).

Definition decreaseAllocated (delta : Z) (st : DeviceStats) : DeviceStats :=
  mkDeviceStats (wrap64 (amount_allocated st - delta)) (max_amount_allocated st)
                (amount_cached st) (max_amount_cached st).

Definition increaseCached (delta : Z) (st : DeviceStats) : DeviceStats :=
  let c := wrap64 (amount_cached st + delta) in
  mkDeviceStats (amount_allocated st) (max_amount_allocated st)
                c (Z.max (max_amount_cached st) c).

Definition decreaseCached (delta : Z) (st : DeviceStats) : DeviceStats :=
  mkDeviceStats (amount_allocated st) (max_amount_allocated st)
                (wrap64 (amount_cached st - delta)) (max_amount_cached st).

(** A [THCStream]: its address, its device and its [cudaStream_t]. *)
Record THCStream := mkTHCStream {
  THCStream_addr : Z;
  THCStream_device : Z;
  THCStream_stream : Z
}.

(** A [Block*] is an index into the heap of [Block] objects. *)
Abbreviation BlockPtr := positive (only parsing).

Record Block := mkBlock {
  device : Z;                   (* gpu *)
  stream : Z;                   (* allocation stream *)
  stream_uses : list THCStream; (* streams on which the block was used *)
  size : Z;                     (* block size in bytes *)
  ptr : Z;                      (* memory address *)
  allocated : bool;             (* in-use flag *)
  prev : option BlockPtr;       (* prev block if split from a larger allocation *)
  next : option BlockPtr;       (* next block if split from a larger allocation *)
  event_count : Z               (* number of outstanding CUDA events *)
}.

(** [Block(int device, cudaStream_t stream, size_t size, char* ptr=NULL)] *)
Definition Block_new (device stream size ptr : Z) : Block :=
  mkBlock device stream [] size ptr false None None 0.

#[global] Instance Block_inhabited : Inhabited Block := populate (Block_new 0 0 0 0).

Definition BlockComparator (a b : Block) : bool :=
  if negb (device a =? device b) then device a <? device b
  else if negb (stream a =? stream b) then stream a <? stream b
  else if negb (size a =? size b) then size a <? size b
  else ptr a <? ptr b.

Definition set_stream_uses (v : list THCStream) (b : Block) : Block :=
  mkBlock (device b) (stream b) v (size b) (ptr b) (allocated b) (prev b) (next b) (event_count b).
Definition set_size (v : Z) (b : Block) : Block :=
  mkBlock (device b) (stream b) (stream_uses b) v (ptr b) (allocated b) (prev b) (next b) (event_count b).
Definition set_ptr (v : Z) (b : Block) : Block :=
  mkBlock (device b) (stream b) (stream_uses b) (size b) v (allocated b) (prev b) (next b) (event_count b).
Definition set_allocated (v : bool) (b : Block) : Block :=
  mkBlock (device b) (stream b) (stream_uses b) (size b) (ptr b) v (prev b) (next b) (event_count b).
Definition set_prev (v : option BlockPtr) (b : Block) : Block :=
  mkBlock (device b) (stream b) (stream_uses b) (size b) (ptr b) (allocated b) v (next b) (event_count b).
Definition set_next (v : option BlockPtr) (b : Block) : Block :=
  mkBlock (device b) (stream b) (stream_uses b) (size b) (ptr b) (allocated b) (prev b) v (event_count b).
Definition set_event_count (v : Z) (b : Block) : Block :=
  mkBlock (device b) (stream b) (stream_uses b) (size b) (ptr b) (allocated b) (prev b) (next b) v.

(** *** [FreeBlocks = std::set<Block*, Comparison>]

    A free pool is the list of its elements in comparator order; the
    comparator reads the blocks through the heap [h]. *)
Section FreeBlocks.
Variable h : gmap positive Block.

Definition less (p q : BlockPtr) : bool := BlockComparator (h !!! p) (h !!! q).

(** [lower_bound(key)] as the (possibly empty) rest of the set from the
    first element that is not less than [key]. *)
Fixpoint lower_bound (key : Block) (l : list BlockPtr) : list BlockPtr :=
  match l with
  | [] => []
  | q :: l' => if BlockComparator (h !!! q) key then lower_bound key l' else l
  end.

(** the elements before [lower_bound(key)] *)
Fixpoint before_bound (key : Block) (l : list BlockPtr) : list BlockPtr :=
  match l with
  | [] => []
  | q :: l' => if BlockComparator (h !!! q) key then q :: before_bound key l' else []
  end.

(** [insert(p)]: nothing is inserted when an equivalent element is there. *)
Fixpoint set_insert (p : BlockPtr) (l : list BlockPtr) : list BlockPtr :=
  match l with
  | [] => [p]
  | q :: l' =>
      if less q p then q :: set_insert p l'
      else if less p q then p :: l
      else l
  end.

(** [erase(const key_type&)]: removes the element equivalent to [p]. *)
Fixpoint set_erase (p : BlockPtr) (l : list BlockPtr) : list BlockPtr :=
  match l with
  | [] => []
  | q :: l' =>
      if less q p then q :: set_erase p l'
      else if less p q then l
      else l'
  end.
End FreeBlocks.

(** [erase(iterator)]: removes the element the iterator points at. *)
Fixpoint erase_at (p : BlockPtr) (l : list BlockPtr) : list BlockPtr :=
  match l with
  | [] => []
  | q :: l' => if Pos.eqb q p then l' else q :: erase_at p l'
  end.

(** *** The allocator object, the heap of blocks and the driver state *)

Record State (W : Type) := mkState {
  device_stats : list DeviceStats;     (* device statistics *)
  large_blocks : list BlockPtr;        (* cached blocks larger than 1 MB *)
  small_blocks : list BlockPtr;        (* cached blocks 1 MB or smaller *)
  allocated_blocks : gmap Z BlockPtr;  (* allocated blocks by device pointer *)
  cuda_events : list (Z * BlockPtr);   (* outstanding cuda events *)
  heap : gmap positive Block;          (* the Block objects alive *)
  cuda : W                             (* the driver *)
}.
Arguments mkState {W}. Arguments device_stats {W}. Arguments large_blocks {W}.
Arguments small_blocks {W}. Arguments allocated_blocks {W}.
Arguments cuda_events {W}. Arguments heap {W}. Arguments cuda {W}.

(** [THCCachingAllocator()] *)
Definition THCCachingAllocator_new {W} (w : W) : State W :=
  mkState [] [] [] ∅ [] ∅ w.

(** *** The member functions *)

Section Allocator.
Context {W : Type} (rt : CudaRuntime W).

Abbreviation Alloc := (M Exception (State W)).

Definition set_device_stats (v : list DeviceStats) (s : State W) : State W :=
  mkState v (large_blocks s) (small_blocks s) (allocated_blocks s) (cuda_events s) (heap s) (cuda s).
Definition set_large_blocks (v : list BlockPtr) (s : State W) : State W :=
  mkState (device_stats s) v (small_blocks s) (allocated_blocks s) (cuda_events s) (heap s) (cuda s).
Definition set_small_blocks (v : list BlockPtr) (s : State W) : State W :=
  mkState (device_stats s) (large_blocks s) v (allocated_blocks s) (cuda_events s) (heap s) (cuda s).
Definition set_allocated_blocks (v : gmap Z BlockPtr) (s : State W) : State W :=
  mkState (device_stats s) (large_blocks s) (small_blocks s) v (cuda_events s) (heap s) (cuda s).
Definition set_cuda_events (v : list (Z * BlockPtr)) (s : State W) : State W :=
  mkState (device_stats s) (large_blocks s) (small_blocks s) (allocated_blocks s) v (heap s) (cuda s).
Definition set_heap (v : gmap positive Block) (s : State W) : State W :=
  mkState (device_stats s) (large_blocks s) (small_blocks s) (allocated_blocks s) (cuda_events s) v (cuda s).
Definition set_cuda (v : W) (s : State W) : State W :=
  mkState (device_stats s) (large_blocks s) (small_blocks s) (allocated_blocks s) (cuda_events s) (heap s) v.

(** A driver call that returns a status and a value. *)
Definition call {A} (f : W -> cudaError_t * A * W) : Alloc (cudaError_t * A) :=
  fun s => let '(e, a, w) := f (cuda s) in (Ok (e, a), set_cuda w s).

(** A driver call that returns a status only. *)
Definition call_ (f : W -> cudaError_t * W) : Alloc cudaError_t :=
  fun s => let '(e, w) := f (cuda s) in (Ok e, set_cuda w s).

Definition AT_CUDA_CHECK (e : cudaError_t) : Alloc unit :=
  if is_cudaSuccess e then mret tt else throw (CudaCheckFailed e).

Definition THAssert (b : bool) : Alloc unit :=
  if b then mret tt else throw AssertFailed.

(** Reading and writing through a [Block*]. *)
Definition deref (p : BlockPtr) : Alloc Block := gets (fun s => heap s !!! p).

Definition update (p : BlockPtr) (f : Block -> Block) : Alloc unit :=
  modify (fun s => set_heap (<[p := f (heap s !!! p)]> (heap s)) s).

(** [new Block(...)] *)
Definition new_Block (b : Block) : Alloc BlockPtr :=
  fun s => let p := fresh (dom (heap s)) in (Ok p, set_heap (<[p := b]> (heap s)) s).

(** [delete p] *)
Definition delete_Block (p : BlockPtr) : Alloc unit :=
  modify (fun s => set_heap (delete p (heap s)) s).

(** The two free pools, selected as [small ? small_blocks : large_blocks]. *)
Definition pool (small : bool) (s : State W) : list BlockPtr :=
  if small then small_blocks s else large_blocks s.

Definition set_pool (small : bool) (v : list BlockPtr) (s : State W) : State W :=
  if small then set_small_blocks v s else set_large_blocks v s.

Definition modify_pool (small : bool)
    (f : gmap positive Block -> list BlockPtr -> list BlockPtr) : Alloc unit :=
  modify (fun s => set_pool small (f (heap s) (pool small s)) s).

(** [DeviceStats &get_stats_for_device(int device)]: the reference it
    returns is the element [device] of [device_stats]. *)
Definition get_stats_for_device (device : Z) : Alloc unit :=
  THAssert (0 <=? device);;
  modify (fun s =>
    if Z.of_nat (length (device_stats s)) <=? device
    then set_device_stats
           (resize (Z.to_nat (device + 1)) DeviceStats_new (device_stats s)) s
    else s).

Definition stats_of (device : Z) (s : State W) : DeviceStats :=
  default DeviceStats_new (device_stats s !! Z.to_nat device).

Definition modify_stats (device : Z) (f : DeviceStats -> DeviceStats) : Alloc unit :=
  modify (fun s => set_device_stats (alter f (Z.to_nat device) (device_stats s)) s).

(** [void try_merge_blocks(Block* dst, Block* src, FreeBlocks& free_blocks)] *)
Definition try_merge_blocks (dst : BlockPtr) (src : option BlockPtr) (small : bool)
    : Alloc unit :=
  match src with
  | None => mret tt
  | Some src =>
      sb ← deref src;
      if allocated sb || (0 <? event_count sb) then mret tt
      else
        db ← deref dst;
        (if bool_decide (prev db = Some src) then
           update dst (set_ptr (ptr sb));;
           update dst (set_prev (prev sb));;
           match prev sb with
           | Some pp => update pp (set_next (Some dst))
           | None => mret tt
           end
         else
           update dst (set_next (next sb));;
           match next sb with
           | Some nn => update nn (set_prev (Some dst))
           | None => mret tt
           end);;
        update dst (fun b => set_size (wrap64 (size b + size sb)) b);;
        modify_pool small (fun h l => set_erase h src l);;
        delete_Block src
  end.

(** [void free_block(Block* block)]: moves a block into the free block list *)
Definition free_block (block : BlockPtr) : Alloc unit :=
  b ← deref block;
  THAssert (negb (allocated b) && (event_count b =? 0));;
  let small := size b <=? kSmallAlloc in
  try_merge_blocks block (prev b) small;;
  b' ← deref block;
  try_merge_blocks block (next b') small;;
  modify_pool small (fun h l => set_insert h block l).

(** [void process_events()].  Each turn of the loop removes the front of
    [cuda_events] and nothing else touches the queue, so the loop is a
    recursion over the queue it starts with. *)
Fixpoint process_events_loop (events : list (Z * BlockPtr)) : Alloc unit :=
  match events with
  | [] => mret tt
  | (event, block) :: rest =>
      err ← call_ (cudaEventQuery rt event);
      match err with
      | cudaErrorNotReady => mret tt
      | _ =>
          AT_CUDA_CHECK err;;
          e ← call_ (cudaEventDestroy rt event);
          AT_CUDA_CHECK e;;
          update block (fun b => set_event_count (event_count b - 1) b);;
          b ← deref block;
          (if event_count b =? 0 then free_block block else mret tt);;
          modify (set_cuda_events rest);;
          process_events_loop rest
      end
  end.

Definition process_events : Alloc unit :=
  events ← gets cuda_events;
  process_events_loop events.

(** [void insert_events(Block* block)] *)
Fixpoint insert_events_loop (block : BlockPtr) (streams : list THCStream) : Alloc unit :=
  match streams with
  | [] => mret tt
  | stream :: rest =>
      e ← call_ (cudaSetDevice rt (THCStream_device stream));
      AT_CUDA_CHECK e;;
      '(e, event) ← call (cudaEventCreateWithFlags rt);
      AT_CUDA_CHECK e;;
      e ← call_ (cudaEventRecord rt event (THCStream_stream stream));
      AT_CUDA_CHECK e;;
      update block (fun b => set_event_count (event_count b + 1) b);;
      modify (fun s => set_cuda_events (cuda_events s ++ [(event, block)]) s);;
      insert_events_loop block rest
  end.

Definition insert_events (block : BlockPtr) : Alloc unit :=
  '(e, prev_device) ← call (cudaGetDevice rt);
  AT_CUDA_CHECK e;;
  b ← deref block;
  let streams := stream_uses b in
  update block (set_stream_uses []);;
  insert_events_loop block streams;;
  _ ← call_ (cudaSetDevice rt prev_device);
  mret tt.

(** [void free_blocks(FreeBlocks& blocks, iterator it, iterator end)]:
    frees all non-split blocks between [it] and [end]; [range] lists the
    elements between the two iterators. *)
Fixpoint free_blocks (small : bool) (range : list BlockPtr) : Alloc unit :=
  match range with
  | [] => mret tt
  | block :: rest =>
      b ← deref block;
      match prev b, next b with
      | None, None =>
          e ← call_ (cudaFree rt (ptr b));
          AT_CUDA_CHECK e;;
          get_stats_for_device (device b);;
          modify_stats (device b) (decreaseCached (size b));;
          modify_pool small (fun _ l => erase_at block l);;
          delete_Block block;;
          free_blocks small rest
      | _, _ => free_blocks small rest
      end
  end.

(** [void free_cached_blocks(int device)] *)
Definition free_cached_blocks (device : Z) : Alloc unit :=
  let lower := Block_new device 0 0 0 in
  let upper := Block_new (device + 1) 0 0 0 in
  s ← get;
  free_blocks false
    (before_bound (heap s) upper (lower_bound (heap s) lower (large_blocks s)));;
  s ← get;
  free_blocks true
    (before_bound (heap s) upper (lower_bound (heap s) lower (small_blocks s))).

(** [void emptyCache()] *)
Definition emptyCache : Alloc unit :=
  s ← get;
  free_blocks false (large_blocks s);;
  s ← get;
  free_blocks true (small_blocks s).

(** [cudaError_t cuda_malloc_retry(int device, void** devPtr, size_t size)] *)
Definition cuda_malloc_retry (device : Z) (size : Z) : Alloc (cudaError_t * Z) :=
  '(err, devPtr) ← call (cudaMalloc rt size);
  if is_cudaSuccess err then mret (cudaSuccess, devPtr)
  else
    _ ← call_ (cudaGetLastError rt);
    free_cached_blocks device;;
    '(err, devPtr) ← call (cudaMalloc rt size);
    if is_cudaSuccess err then mret (cudaSuccess, devPtr)
    else mret (err, devPtr).

(** [Block* find_allocated_block(void *ptr)] *)
Definition find_allocated_block (ptr : Z) : Alloc (option BlockPtr) :=
  gets (fun s => allocated_blocks s !! ptr).

(** [malloc], the part that obtains a new segment from the driver when no
    cached block fits. *)
Definition malloc_new_block (device stream size : Z) (small : bool) : Alloc BlockPtr :=
  let alloc_size := if small then kSmallAlloc else size in
  '(err, ptr) ← cuda_malloc_retry device alloc_size;
  (if is_cudaSuccess err then mret tt
   else
     match err with
     | cudaErrorMemoryAllocation =>
         _ ← call_ (cudaGetLastError rt);  (* clear CUDA error *)
         '(e, (device_free, device_total)) ← call (cudaMemGetInfo rt);
         AT_CUDA_CHECK e;;
         get_stats_for_device device;;
         stats ← gets (stats_of device);
         throw (OutOfMemory alloc_size device device_total
                  (amount_allocated stats) device_free
                  (wrap64 (amount_cached stats - amount_allocated stats)))
     | _ => AT_CUDA_CHECK err
     end);;
  modify_stats device (increaseCached alloc_size);;
  new_Block (Block_new device stream alloc_size ptr).

(** The threshold of the split test: [small ? kRoundSmall : kSmallAlloc + 1]. *)
Definition split_threshold (small : bool) : Z :=
  if small then kRoundSmall else kSmallAlloc + 1.

(** [malloc], the part that splits the chosen block. *)
Definition malloc_split (device stream size : Z) (small : bool) (block : BlockPtr)
    : Alloc BlockPtr :=
  b ← deref block;
  if split_threshold small <=? wrap64 (THC.size b - size) then
    let remaining := block in
    block ← new_Block (Block_new device stream size (ptr b));
    update block (set_prev (prev b));;
    match prev b with
    | Some pp => update pp (set_next (Some block))
    | None => mret tt
    end;;
    update block (set_next (Some remaining));;
    update remaining (set_prev (Some block));;
    update remaining (fun r => set_ptr (wrap64 (ptr r + size)) r);;
    update remaining (fun r => set_size (wrap64 (THC.size r - size)) r);;
    modify_pool small (fun h l => set_insert h remaining l);;
    mret block
  else mret block.

(** [void malloc(void** devPtr, size_t size, cudaStream_t stream)]:
    allocates a block which is safe to use from the provided stream *)
Definition malloc (size : Z) (stream : Z) : Alloc Z :=
  '(e, device) ← call (cudaGetDevice rt);
  AT_CUDA_CHECK e;;
  process_events;;
  let size := round_size size in
  let small := size <=? kSmallAlloc in
  get_stats_for_device device;;
  let search_key := Block_new device stream size 0 in
  s ← get;
  let it := lower_bound (heap s) search_key (pool small s) in
  block ← match it with
          | found :: _ =>
              let fb := heap s !!! found in
              if (THC.device fb =? device) && (THC.stream fb =? stream) then
                modify_pool small (fun _ l => erase_at found l);;
                mret found
              else malloc_new_block device stream size small
          | [] => malloc_new_block device stream size small
          end;
  block ← malloc_split device stream size small block;
  update block (set_allocated true);;
  b ← deref block;
  modify (fun s => set_allocated_blocks (<[ptr b := block]> (allocated_blocks s)) s);;
  modify_stats device (increaseAllocated (THC.size b));;
  mret (ptr b).

(** [void free(void* ptr)] *)
Definition free (ptr : Z) : Alloc unit :=
  if ptr =? 0 then mret tt
  else
    it ← gets (fun s => allocated_blocks s !! ptr);
    match it with
    | None => throw (InvalidPointer ptr)
    | Some block =>
        modify (fun s => set_allocated_blocks (delete ptr (allocated_blocks s)) s);;
        update block (set_allocated false);;
        b ← deref block;
        get_stats_for_device (device b);;
        modify_stats (device b) (decreaseAllocated (size b));;
        if negb (bool_decide (stream_uses b = [])) then insert_events block
        else free_block block
    end.

(** [stream_uses.insert(...)]: a [std::set] of stream pointers, ordered by
    address. *)
Fixpoint stream_set_insert (x : THCStream) (l : list THCStream) : list THCStream :=
  match l with
  | [] => [x]
  | y :: l' =>
      if THCStream_addr y <? THCStream_addr x then y :: stream_set_insert x l'
      else if THCStream_addr x <? THCStream_addr y then x :: l
      else l
  end.

(** [void recordStream(void* ptr, THCStream* stream)] *)
Definition recordStream (ptr : Z) (stream : THCStream) : Alloc unit :=
  block ← find_allocated_block ptr;
  match block with
  | None => throw (InvalidPointer ptr)
  | Some block =>
      b ← deref block;
      if THCStream_stream stream =? THC.stream b then mret tt
      else update block (fun b => set_stream_uses (stream_set_insert stream (stream_uses b)) b)
  end.

(** [void cacheInfoAux(FreeBlocks& blocks, int dev_id, size_t* total, size_t* largest)]:
    the loop from the iterator [it] on.  [total] and [largest] are read and
    written through the two pointers; the elements of a pool are never
    null. *)
Fixpoint cacheInfoAux_loop (h : gmap positive Block) (dev_id : Z) (it : list BlockPtr)
    (total largest : Z) : Z * Z :=
  match it with
  | [] => (total, largest)
  | q :: rest =>
      if device (h !!! q) =? dev_id then
        let blocksize := size (h !!! q) in
        cacheInfoAux_loop h dev_id rest (wrap64 (total + blocksize))
          (if largest <? blocksize then blocksize else largest)
      else (total, largest)
  end.

Definition cacheInfoAux (small : bool) (dev_id : Z) (total largest : Z)
    : Alloc (Z * Z) :=
  let search_key := Block_new dev_id 0 0 0 in
  s ← get;
  mret (cacheInfoAux_loop (heap s) dev_id
          (lower_bound (heap s) search_key (pool small s)) total largest).

(** [void cacheInfo(int dev_id, size_t* total, size_t* largest)] *)
Definition cacheInfo (dev_id : Z) (total largest : Z) : Alloc (Z * Z) :=
  '(total, largest) ← cacheInfoAux false dev_id total largest;
  cacheInfoAux true dev_id total largest.

End Allocator.

(** [r] is the least multiple of [m] that is at least [s]. *)
Definition least_multiple_ge (m s r : Z) : Prop :=
  (m | r) /\ s <= r /\ forall r', (m | r') -> s <= r' -> r <= r'.

(** The rounding rule as the specification words it. *)
Definition rounding_rule (s r : Z) : Prop :=
  (s < 512 -> r = 512) /\
  (512 <= s < 1048576 -> least_multiple_ge 512 s r) /\
  (1048576 <= s -> least_multiple_ge 131072 s r).

(** The claim of the specification for [free] on unknown pointers, as worded. *)
Definition free_unknown_claim {W} (rt : CudaRuntime W) : Prop :=
  forall (s : State W) (p : Z),
    allocated_blocks s !! p = None -> free rt p s = (Err (InvalidPointer p), s).

(** *** A driver for the examples

    Device 0, a bump allocator starting at a non-null address, every call
    succeeds; the driver state is the next free address. *)
Definition bump_driver : CudaRuntime Z := {|
  cudaGetDevice w := (cudaSuccess, 0, w);
  cudaSetDevice _ w := (cudaSuccess, w);
  cudaMalloc n w := (cudaSuccess, w, w + n);
  cudaFree _ w := (cudaSuccess, w);
  cudaGetLastError w := (cudaSuccess, w);
  cudaMemGetInfo w := (cudaSuccess, (0, 0), w);
  cudaEventCreateWithFlags w := (cudaSuccess, 1, w);
  cudaEventRecord _ _ w := (cudaSuccess, w);
  cudaEventQuery _ w := (cudaSuccess, w);
  cudaEventDestroy _ w := (cudaSuccess, w)
|}.

Definition fresh_allocator : State Z := THCCachingAllocator_new 4096.

(** The state after one allocation of 1000 bytes on stream 7. *)
Definition one_allocation : State Z := snd (malloc bump_driver 1000 7 fresh_allocator).

(** The split rule of the specification, as worded: the chosen block is
    split exactly when the leftover exceeds 512 bytes (small requests) or
    1 MiB + 1 bytes (large requests). *)
Definition worded_threshold (small : bool) : Z :=
  if small then 512 else 1048576 + 1.

Definition split_claim : Prop :=
  forall (s : State Z) (device stream size : Z) (block head : positive) (s' : State Z),
    is_Some (heap s !! block) ->
    malloc_split device stream size (size <=? kSmallAlloc) block s = (Ok head, s') ->
    (head <> block <->
     worded_threshold (size <=? kSmallAlloc) < wrap64 (THC.size (heap s !!! block) - size)).

(** A fresh 1 MiB segment at address 4096, about to serve 1048064 bytes. *)
Definition one_segment : State Z :=
  mkState [] [] [] ∅ [] {[ 1%positive := Block_new 0 7 1048576 4096 ]} 0.

(** *** Rounding *)

Lemma round_up_least (m s : Z) :
  0 < m -> 1 <= s ->
  least_multiple_ge m s (s + (m - 1 - (s - 1) mod m)).
Proof.
  intros Hm Hs.
  pose proof (Z.div_mod (s - 1) m ltac:(lia)) as Hdm.
  pose proof (Z.mod_pos_bound (s - 1) m Hm) as Hb.
  repeat split.
  - exists ((s - 1) / m + 1). lia.
  - lia.
  - intros r' [k ->] Hle.
    assert ((s - 1) / m < k) by nia.
    nia.
Qed.

Example round_size_1 : round_size 1 = 512.
Proof. reflexivity. Qed.

Example round_size_513 : round_size 513 = 1024.
Proof. reflexivity. Qed.

Example round_size_1MiB : round_size 1048576 = 1048576.
Proof. reflexivity. Qed.

Example round_size_above_1MiB : round_size 1048577 = 1179648.
Proof. reflexivity. Qed.

Lemma round_size_wraps_at_max : round_size (2 ^ 64 - 1) = 0.
Proof. reflexivity. Qed.

(** C2, as worded: every [size_t] request is rounded by the rule.  This
    fails at the top of the range, where the addition in [round_size] wraps. *)
Lemma round_size_claim_fails :
  ~ (forall s, in_u64 s -> rounding_rule s (round_size s)).
Proof.
  intros H.
  destruct (H (2 ^ 64 - 1)) as (_ & _ & H3); [unfold in_u64; lia |].
  destruct H3 as (_ & Hle & _); [lia |].
  rewrite round_size_wraps_at_max in Hle. lia.
Qed.

(** C2, amended: for every requested size [s] whose rounded value fits in
    [size_t] ([s <= 2^64 - 131072]), [round_size] returns 512 if [s < 512],
    the least multiple of 512 that is [>= s] if [s < 1 MiB], and otherwise
    the least multiple of 128 KiB that is [>= s]. *)
Theorem round_size_rounds_up (s : Z) :
  0 <= s <= 2 ^ 64 - 131072 -> rounding_rule s (round_size s).
Proof.
  intros Hs. unfold rounding_rule, round_size, kRoundSmall, kSmallAlloc, kRoundLarge.
  destruct (Z.ltb_spec s 512) as [H1 | H1].
  { repeat split; intros; lia. }
  destruct (Z.ltb_spec s 1048576) as [H2 | H2].
  - split; [lia |]. split; [| lia]. intros _.
    pose proof (Z.mod_pos_bound (s - 1) 512 ltac:(lia)) as Hb.
    rewrite (wrap64_small (512 - 1)) by (unfold in_u64; lia).
    rewrite (wrap64_small (s - 1)) by (unfold in_u64; lia).
    rewrite (wrap64_small (512 - 1 - _)) by (unfold in_u64; lia).
    rewrite wrap64_small by (unfold in_u64; lia).
    apply round_up_least; lia.
  - split; [lia |]. split; [lia |]. intros _.
    pose proof (Z.mod_pos_bound (s - 1) 131072 ltac:(lia)) as Hb.
    rewrite (wrap64_small (131072 - 1)) by (unfold in_u64; lia).
    rewrite (wrap64_small (s - 1)) by (unfold in_u64; lia).
    rewrite (wrap64_small (131072 - 1 - _)) by (unfold in_u64; lia).
    rewrite wrap64_small by (unfold in_u64; lia).
    apply round_up_least; lia.
Qed.

Lemma round_size_rounds_up_witness :
  0 <= 1000 <= 2 ^ 64 - 131072 /\ rounding_rule 1000 (round_size 1000).
Proof. split; [lia | apply (round_size_rounds_up 1000); lia]. Defined.

(** *** [free] *)

(** C9: [free] of the null pointer returns without raising and leaves the
    whole allocator state (allocated-blocks map, free pools, statistics,
    event queue, blocks, driver) unchanged, recorded or not. *)
Theorem free_null_is_noop {W} (rt : CudaRuntime W) (s : State W) :
  free rt 0 s = (Ok tt, s).
Proof. reflexivity. Qed.

(** C6, as worded: every pointer that is not recorded makes [free] raise.
    The null pointer is never recorded and [free] returns normally on it. *)
Lemma free_unknown_claim_fails : ~ free_unknown_claim bump_driver.
Proof.
  intros H. specialize (H fresh_allocator 0 (lookup_empty _)).
  unfold free in H. cbn [Z.eqb] in H. discriminate H.
Qed.

Definition is_cuda_failure (e : Exception) : Prop :=
  match e with CudaCheckFailed _ => True | _ => False end.

Definition never (e : Exception) : Prop := False.

Section AllocatorFacts.
Context {W : Type} (rt : CudaRuntime W).
Implicit Types (Q : Exception -> Prop) (s : State W).

Lemma OnlyThrows_call Q {A} (f : W -> cudaError_t * A * W) :
  OnlyThrows Q (call f : M Exception (State W) _).
Proof. intros s. unfold call. destruct (f (cuda s)) as [[e a] w]. exact I. Qed.

Lemma OnlyThrows_call_ Q (f : W -> cudaError_t * W) :
  OnlyThrows Q (call_ f : M Exception (State W) _).
Proof. intros s. unfold call_. destruct (f (cuda s)) as [e w]. exact I. Qed.

Lemma OnlyThrows_AT_CUDA_CHECK e :
  OnlyThrows is_cuda_failure (AT_CUDA_CHECK e : M Exception (State W) _).
Proof. intros s. unfold AT_CUDA_CHECK. destruct (is_cudaSuccess e); exact I. Qed.

Lemma OnlyThrows_deref Q p : OnlyThrows Q (deref p : M Exception (State W) _).
Proof. apply OnlyThrows_gets. Qed.

Lemma OnlyThrows_update Q p f : OnlyThrows Q (update p f : M Exception (State W) _).
Proof. apply OnlyThrows_modify. Qed.

Lemma OnlyThrows_modify_pool Q small f :
  OnlyThrows Q (modify_pool small f : M Exception (State W) _).
Proof. apply OnlyThrows_modify. Qed.

Lemma OnlyThrows_delete_Block Q p :
  OnlyThrows Q (delete_Block p : M Exception (State W) _).
Proof. apply OnlyThrows_modify. Qed.

Lemma try_merge_blocks_never_throws dst src small :
  OnlyThrows never (try_merge_blocks dst src small : M Exception (State W) _).
Proof.
  unfold try_merge_blocks. destruct src as [src |]; [| apply OnlyThrows_ret].
  apply OnlyThrows_bind; [apply OnlyThrows_deref |]. intros sb.
  destruct (allocated sb || (0 <? event_count sb)); [apply OnlyThrows_ret |].
  apply OnlyThrows_bind; [apply OnlyThrows_deref |]. intros db.
  repeat (apply OnlyThrows_bind; [| intros _]);
    try apply OnlyThrows_update; try apply OnlyThrows_modify_pool;
    try apply OnlyThrows_delete_Block.
  destruct (bool_decide (prev db = Some src)).
  - repeat (apply OnlyThrows_bind; [| intros _]); try apply OnlyThrows_update.
    destruct (prev sb); [apply OnlyThrows_update | apply OnlyThrows_ret].
  - repeat (apply OnlyThrows_bind; [| intros _]); try apply OnlyThrows_update.
    destruct (next sb); [apply OnlyThrows_update | apply OnlyThrows_ret].
Qed.

Lemma insert_events_loop_throws block streams :
  OnlyThrows is_cuda_failure (insert_events_loop rt block streams).
Proof.
  induction streams as [| stream rest IH]; [apply OnlyThrows_ret |].
  simpl.
  apply OnlyThrows_bind; [apply OnlyThrows_call_ | intros e1].
  apply OnlyThrows_bind; [apply OnlyThrows_AT_CUDA_CHECK | intros _].
  apply OnlyThrows_bind; [apply OnlyThrows_call | intros [e2 event]].
  apply OnlyThrows_bind; [apply OnlyThrows_AT_CUDA_CHECK | intros _].
  apply OnlyThrows_bind; [apply OnlyThrows_call_ | intros e3].
  apply OnlyThrows_bind; [apply OnlyThrows_AT_CUDA_CHECK | intros _].
  apply OnlyThrows_bind; [apply OnlyThrows_update | intros _].
  apply OnlyThrows_bind; [apply OnlyThrows_modify | intros _].
  exact IH.
Qed.

Lemma insert_events_throws block :
  OnlyThrows is_cuda_failure (insert_events rt block).
Proof.
  unfold insert_events.
  apply OnlyThrows_bind; [apply OnlyThrows_call | intros [e d]].
  apply OnlyThrows_bind; [apply OnlyThrows_AT_CUDA_CHECK | intros _].
  apply OnlyThrows_bind; [apply OnlyThrows_deref | intros b].
  apply OnlyThrows_bind; [apply OnlyThrows_update | intros _].
  apply OnlyThrows_bind; [apply insert_events_loop_throws | intros _].
  apply OnlyThrows_bind; [apply OnlyThrows_call_ | intros _].
  apply OnlyThrows_ret.
Qed.

Lemma free_block_succeeds block s :
  allocated (heap s !!! block) = false ->
  event_count (heap s !!! block) = 0 ->
  exists s', free_block block s = (Ok tt, s').
Proof.
  intros Ha He.
  assert (OnlyThrows never
    (let b := heap s !!! block in
     let small := size b <=? kSmallAlloc in
     try_merge_blocks block (prev b) small;;
     b' ← deref block;
     try_merge_blocks block (next b') small;;
     modify_pool small (fun h l => set_insert h block l)
     : M Exception (State W) unit)) as Hrest.
  { cbv zeta.
    apply OnlyThrows_bind; [apply try_merge_blocks_never_throws | intros _].
    apply OnlyThrows_bind; [apply OnlyThrows_deref | intros b'].
    apply OnlyThrows_bind; [apply try_merge_blocks_never_throws | intros _].
    apply OnlyThrows_modify_pool. }
  specialize (Hrest s).
  unfold free_block. rewrite bind_eq. unfold deref at 1, gets at 1.
  rewrite bind_eq. unfold THAssert. rewrite Ha, He. simpl negb. simpl andb.
  cbv zeta in Hrest.
  match goal with |- exists s', ?m = _ => change m with
    ((try_merge_blocks block (prev (heap s !!! block)) (size (heap s !!! block) <=? kSmallAlloc);;
      b' ← deref block;
      try_merge_blocks block (next b') (size (heap s !!! block) <=? kSmallAlloc);;
      modify_pool (size (heap s !!! block) <=? kSmallAlloc)
        (fun h l => set_insert h block l) : M Exception (State W) unit) s) end.
  match type of Hrest with match fst ?x with _ => _ end =>
    destruct x as [[[] | e] s'] end; simpl in Hrest; [eauto | destruct Hrest].
Qed.

Lemma bind_deref {B} p (k : Block -> M Exception (State W) B) s :
  (deref p ≫= k) s = k (heap s !!! p) s.
Proof. reflexivity. Qed.

Lemma bind_update {B} p f (k : unit -> M Exception (State W) B) s :
  (update p f ≫= k) s = k tt (set_heap (<[p := f (heap s !!! p)]> (heap s)) s).
Proof. reflexivity. Qed.

Lemma bind_get_stats_for_device {B} d (k : unit -> M Exception (State W) B) s :
  0 <= d ->
  (get_stats_for_device d ≫= k) s =
  k tt (if Z.of_nat (length (device_stats s)) <=? d
        then set_device_stats
               (resize (Z.to_nat (d + 1)) DeviceStats_new (device_stats s)) s
        else s).
Proof.
  intros Hd. unfold get_stats_for_device, THAssert.
  destruct (Z.leb_spec 0 d); [reflexivity | lia].
Qed.

Lemma bind_modify_stats {B} d f (k : unit -> M Exception (State W) B) s :
  (modify_stats d f ≫= k) s =
  k tt (set_device_stats (alter f (Z.to_nat d) (device_stats s)) s).
Proof. reflexivity. Qed.

End AllocatorFacts.

(** *** What the member functions leave alone *)

Create HintDb frames.

Section Frames.
Context {W : Type} (rt : CudaRuntime W).
Implicit Types (s : State W).

(** The statistics are untouched. *)
Definition same_stats s s' : Prop := device_stats s' = device_stats s.

(** No device loses its entry and every [amount_allocated] is untouched. *)
Definition same_allocated s s' : Prop :=
  (length (device_stats s) <= length (device_stats s'))%nat /\
  forall d, amount_allocated (stats_of d s') = amount_allocated (stats_of d s).

#[global] Instance same_stats_refl : Reflexive same_stats.
Proof. intros s. reflexivity. Qed.
#[global] Instance same_stats_trans : Transitive same_stats.
Proof. intros s1 s2 s3 H1 H2. unfold same_stats in *. congruence. Qed.
#[global] Instance same_allocated_refl : Reflexive same_allocated.
Proof. intros s. split; [lia | reflexivity]. Qed.
#[global] Instance same_allocated_trans : Transitive same_allocated.
Proof.
  intros s1 s2 s3 [L1 H1] [L2 H2]. split; [lia |].
  intros d. rewrite H2. apply H1.
Qed.

Lemma same_stats_allocated s s' : same_stats s s' -> same_allocated s s'.
Proof.
  unfold same_stats, same_allocated, stats_of. intros ->. split; [lia | reflexivity].
Qed.

Ltac frame_step :=
  match goal with
  | |- Frame _ (_ ≫= _) => apply Frame_bind; [typeclasses eauto | | intros ?]
  | |- Frame _ (mret _) => apply Frame_ret; typeclasses eauto
  | |- Frame _ (throw _) => apply Frame_throw; typeclasses eauto
  | |- Frame _ (gets _) => apply Frame_gets; typeclasses eauto
  | |- Frame _ get => apply Frame_get; typeclasses eauto
  | |- Frame _ (match ?x with _ => _ end) => destruct x
  | |- Frame _ (let '(_, _) := ?x in _) => destruct x
  end.

Lemma Frame_call R `{!Reflexive R} {A} (f : W -> cudaError_t * A * W) :
  (forall s w, R s (set_cuda w s)) ->
  Frame R (call f : M Exception (State W) _).
Proof. intros H s. unfold call. destruct (f (cuda s)) as [[e a] w]. apply H. Qed.

Lemma Frame_call_ R `{!Reflexive R} (f : W -> cudaError_t * W) :
  (forall s w, R s (set_cuda w s)) ->
  Frame R (call_ f : M Exception (State W) _).
Proof. intros H s. unfold call_. destruct (f (cuda s)) as [e w]. apply H. Qed.

Lemma same_stats_call {A} (f : W -> cudaError_t * A * W) :
  Frame same_stats (call f : M Exception (State W) _).
Proof. apply Frame_call; [typeclasses eauto | reflexivity]. Qed.

Lemma same_stats_call_ (f : W -> cudaError_t * W) :
  Frame same_stats (call_ f : M Exception (State W) _).
Proof. apply Frame_call_; [typeclasses eauto | reflexivity]. Qed.

Lemma same_stats_AT_CUDA_CHECK e :
  Frame same_stats (AT_CUDA_CHECK e : M Exception (State W) _).
Proof. unfold AT_CUDA_CHECK. repeat frame_step. Qed.

Lemma same_stats_THAssert b :
  Frame same_stats (THAssert b : M Exception (State W) _).
Proof. unfold THAssert. repeat frame_step. Qed.

Lemma same_stats_deref p : Frame same_stats (deref p : M Exception (State W) _).
Proof. unfold deref. repeat frame_step. Qed.

Lemma same_stats_update p f : Frame same_stats (update p f : M Exception (State W) _).
Proof. apply Frame_modify. reflexivity. Qed.

Lemma same_stats_new_Block b : Frame same_stats (new_Block b : M Exception (State W) _).
Proof. intros s. reflexivity. Qed.

Lemma same_stats_delete_Block p :
  Frame same_stats (delete_Block p : M Exception (State W) _).
Proof. apply Frame_modify. reflexivity. Qed.

Lemma same_stats_modify_pool small f :
  Frame same_stats (modify_pool small f : M Exception (State W) _).
Proof. apply Frame_modify. intros s. destruct small; reflexivity. Qed.

Hint Resolve same_stats_call same_stats_call_ same_stats_AT_CUDA_CHECK
  same_stats_THAssert same_stats_deref same_stats_update same_stats_new_Block
  same_stats_delete_Block same_stats_modify_pool : frames.

Ltac frames := repeat first [frame_step | solve [auto with frames]].

Lemma same_stats_try_merge_blocks dst src small :
  Frame same_stats (try_merge_blocks dst src small : M Exception (State W) _).
Proof. unfold try_merge_blocks. frames. Qed.
Hint Resolve same_stats_try_merge_blocks : frames.

Lemma same_stats_free_block block :
  Frame same_stats (free_block block : M Exception (State W) _).
Proof. unfold free_block. frames. Qed.
Hint Resolve same_stats_free_block : frames.

Lemma same_stats_process_events_loop events :
  Frame same_stats (process_events_loop rt events).
Proof.
  induction events as [| [event block] rest IH]; simpl; frames.
  all: apply Frame_modify; reflexivity.
Qed.
Hint Resolve same_stats_process_events_loop : frames.

Lemma same_stats_process_events : Frame same_stats (process_events rt).
Proof. unfold process_events. frames. Qed.

Lemma same_stats_insert_events_loop block streams :
  Frame same_stats (insert_events_loop rt block streams).
Proof.
  induction streams as [| stream rest IH]; simpl; frames.
  apply Frame_modify; reflexivity.
Qed.
Hint Resolve same_stats_insert_events_loop : frames.

Lemma same_stats_insert_events block : Frame same_stats (insert_events rt block).
Proof. unfold insert_events. frames. Qed.

Lemma same_stats_malloc_split device stream size small block :
  Frame same_stats (malloc_split device stream size small block
                      : M Exception (State W) _).
Proof. unfold malloc_split. frames. Qed.

Lemma stats_of_resize n s :
  (length (device_stats s) <= n)%nat ->
  forall d, stats_of d (set_device_stats (resize n DeviceStats_new (device_stats s)) s)
            = stats_of d s.
Proof.
  intros Hn d. unfold stats_of. cbn [device_stats set_device_stats].
  destruct (decide (Z.to_nat d < length (device_stats s))%nat) as [Hlt | Hge].
  - rewrite lookup_resize by lia. reflexivity.
  - rewrite (lookup_ge_None_2 (device_stats s)) by lia.
    destruct (decide (Z.to_nat d < n)%nat).
    + rewrite lookup_resize_new by lia. reflexivity.
    + rewrite lookup_resize_old by lia. reflexivity.
Qed.

Lemma same_allocated_get_stats_for_device d :
  Frame same_allocated (get_stats_for_device d : M Exception (State W) _).
Proof.
  unfold get_stats_for_device.
  apply Frame_bind; [typeclasses eauto | |].
  { eapply Frame_weaken; [apply same_stats_allocated | apply same_stats_THAssert]. }
  intros _. apply Frame_modify. intros s.
  destruct (Z.leb_spec (Z.of_nat (length (device_stats s))) d); [| reflexivity].
  split.
  - cbn [device_stats set_device_stats]. rewrite length_resize. lia.
  - intros d'. rewrite stats_of_resize by lia. reflexivity.
Qed.

Lemma same_allocated_modify_stats d f :
  (forall st, amount_allocated (f st) = amount_allocated st) ->
  Frame same_allocated (modify_stats d f : M Exception (State W) _).
Proof.
  intros Hf. apply Frame_modify. intros s. split.
  - cbn [device_stats set_device_stats]. rewrite length_alter. lia.
  - intros d'. unfold stats_of. cbn [device_stats set_device_stats].
    rewrite list_lookup_alter. case_decide as Heq; [| reflexivity].
    rewrite Heq. destruct (device_stats s !! Z.to_nat d'); simpl; [apply Hf | reflexivity].
Qed.

Lemma get_stats_for_device_Ok d s r s' :
  get_stats_for_device d s = (r, s') ->
  r = Ok tt -> 0 <= d /\ (Z.to_nat d < length (device_stats s'))%nat.
Proof.
  unfold get_stats_for_device, THAssert. intros H ->.
  destruct (Z.leb_spec 0 d) as [Hd | Hd]; [| discriminate H].
  rewrite bind_ret in H. unfold modify in H. injection H as <-.
  split; [exact Hd |].
  destruct (Z.leb_spec (Z.of_nat (length (device_stats s))) d).
  - cbn [device_stats set_device_stats]. rewrite length_resize. lia.
  - lia.
Qed.

Hint Resolve same_allocated_get_stats_for_device : frames.

Ltac lift_same_stats :=
  eapply Frame_weaken; [apply same_stats_allocated | solve [auto with frames]].

Ltac frames_allocated :=
  repeat first [frame_step | solve [auto with frames] | lift_same_stats].

Lemma same_allocated_free_blocks small range :
  Frame same_allocated (free_blocks rt small range).
Proof.
  induction range as [| block rest IH]; simpl; frames_allocated.
  apply same_allocated_modify_stats. reflexivity.
Qed.
Hint Resolve same_allocated_free_blocks : frames.

Lemma same_allocated_free_cached_blocks device :
  Frame same_allocated (free_cached_blocks rt device).
Proof. unfold free_cached_blocks. frames_allocated. Qed.
Hint Resolve same_allocated_free_cached_blocks : frames.

Lemma same_allocated_cuda_malloc_retry device size :
  Frame same_allocated (cuda_malloc_retry rt device size).
Proof. unfold cuda_malloc_retry. frames_allocated. Qed.
Hint Resolve same_allocated_cuda_malloc_retry : frames.

Lemma same_allocated_malloc_new_block device stream size small :
  Frame same_allocated (malloc_new_block rt device stream size small).
Proof.
  unfold malloc_new_block. frames_allocated.
  all: apply same_allocated_modify_stats; reflexivity.
Qed.

(** The device of a block never changes once the block is made. *)
Lemma device_update (h : gmap positive Block) q f x :
  (forall b, device (f b) = device b) ->
  device (<[q := f (h !!! q)]> h !!! x) = device (h !!! x).
Proof.
  intros Hf. destruct (decide (q = x)) as [-> | Hne].
  - rewrite lookup_total_insert_eq. apply Hf.
  - rewrite lookup_total_insert_ne by exact Hne. reflexivity.
Qed.

Lemma heap_set_pool small v s : heap (set_pool small v s) = heap s.
Proof. destruct small; reflexivity. Qed.

Lemma bind_new_Block {B} b (k : positive -> M Exception (State W) B) s :
  (new_Block b ≫= k) s =
  k (fresh (dom (heap s))) (set_heap (<[fresh (dom (heap s)) := b]> (heap s)) s).
Proof. reflexivity. Qed.

Lemma bind_modify_pool {B} small f (k : unit -> M Exception (State W) B) s :
  (modify_pool small f ≫= k) s = k tt (set_pool small (f (heap s) (pool small s)) s).
Proof. reflexivity. Qed.

Lemma malloc_new_block_device device stream size small s p s' :
  malloc_new_block rt device stream size small s = (Ok p, s') ->
  THC.device (heap s' !!! p) = device.
Proof.
  unfold malloc_new_block. intros H.
  apply bind_Ok_inv in H as ([err ptr] & s1 & _ & H).
  apply bind_Ok_inv in H as ([] & s2 & _ & H).
  rewrite bind_modify_stats in H. unfold new_Block in H.
  injection H as <- <-. cbn [heap set_heap].
  rewrite lookup_total_insert_eq. reflexivity.
Qed.

Lemma malloc_split_device device stream size small block s r s' :
  malloc_split device stream size small block s = (Ok r, s') ->
  THC.device (heap s !!! block) = device ->
  THC.device (heap s' !!! r) = device.
Proof.
  unfold malloc_split. rewrite bind_deref. intros H Hdev.
  destruct (split_threshold small <=? _).
  - rewrite bind_new_Block, bind_update in H.
    set (head := fresh (dom (heap s))) in *.
    assert (Hrest : forall s0,
      THC.device (heap s0 !!! head) = device ->
      (update head (set_next (Some block));;
       update block (set_prev (Some head));;
       update block (fun r => set_ptr (wrap64 (ptr r + size)) r);;
       update block (fun r => set_size (wrap64 (THC.size r - size)) r);;
       modify_pool small (fun h l => set_insert h block l);;
       mret head : M Exception (State W) _) s0 = (Ok r, s') ->
      THC.device (heap s' !!! r) = device).
    { intros s0 H0 Hrun.
      rewrite !bind_update, bind_modify_pool in Hrun.
      injection Hrun as <- <-.
      rewrite heap_set_pool. cbn [heap set_heap].
      rewrite !device_update by (intros []; reflexivity). exact H0. }
    destruct (prev (heap s !!! block)) as [pp |].
    + rewrite bind_update in H. apply Hrest in H; [exact H |].
      cbn [heap set_heap].
      rewrite !device_update by (intros []; reflexivity).
      rewrite lookup_total_insert_eq. reflexivity.
    + rewrite bind_ret in H. apply Hrest in H; [exact H |].
      cbn [heap set_heap].
      rewrite !device_update by (intros []; reflexivity).
      rewrite lookup_total_insert_eq. reflexivity.
  - injection H as <- <-. exact Hdev.
Qed.

Lemma stats_of_alter d n f s :
  stats_of d (set_device_stats (alter f n (device_stats s)) s) =
  if decide (n = Z.to_nat d)
  then (if decide (n < length (device_stats s))%nat then f (stats_of d s)
        else stats_of d s)
  else stats_of d s.
Proof.
  unfold stats_of. cbn [device_stats set_device_stats].
  rewrite list_lookup_alter. case_decide as Heq; [| reflexivity].
  rewrite <- Heq. case_decide as Hlt.
  - destruct (lookup_lt_is_Some_2 (device_stats s) n Hlt) as [st ->]. reflexivity.
  - rewrite (lookup_ge_None_2 (device_stats s)) by lia. reflexivity.
Qed.

Lemma stats_of_in_range d s :
  Forall (fun st => in_u64 (amount_allocated st)) (device_stats s) ->
  in_u64 (amount_allocated (stats_of d s)).
Proof.
  intros Hall. unfold stats_of.
  destruct (device_stats s !! Z.to_nat d) as [st |] eqn:Hst; simpl.
  - eapply (proj1 (Forall_lookup _ _)) in Hall; [exact Hall | exact Hst].
  - unfold in_u64. simpl. lia.
Qed.

Lemma wrap64_add_sub a b : in_u64 a -> wrap64 (wrap64 (a + b) - b) = a.
Proof.
  intros Ha. unfold wrap64. rewrite Zminus_mod_idemp_l.
  replace (a + b - b) with a by lia. apply Z.mod_small. exact Ha.
Qed.

End Frames.

(** C8: when an allocation succeeds and the pointer it returned is then
    freed, with nothing else happening in between, [malloc] has increased the
    [amount_allocated] of the block's device by exactly the size of the
    allocated block, [free] has decreased it by exactly the same amount, and
    every device's [amount_allocated] after the free equals its value before
    the allocation.  The driver never hands out the null address, and the
    statistics are [uint64_t] values. *)
Theorem malloc_free_restores_amount_allocated {W} (rt : CudaRuntime W)
    (s s1 s2 : State W) (sz stream p : Z) :
  Forall (fun st => in_u64 (amount_allocated st)) (device_stats s) ->
  malloc rt sz stream s = (Ok p, s1) ->
  p <> 0 ->
  free rt p s1 = (Ok tt, s2) ->
  exists block,
    allocated_blocks s1 !! p = Some block /\
    let b := heap s1 !!! block in
    amount_allocated (stats_of (device b) s1)
      = wrap64 (amount_allocated (stats_of (device b) s) + size b) /\
    amount_allocated (stats_of (device b) s2)
      = wrap64 (amount_allocated (stats_of (device b) s1) - size b) /\
    forall d, amount_allocated (stats_of d s2) = amount_allocated (stats_of d s).
Proof.
  intros Hrange Hm Hp Hf. unfold malloc in Hm.
  apply bind_Ok_inv in Hm as ([e dev] & sa & Hcall & Hm).
  apply bind_Ok_inv in Hm as ([] & sa' & Hchk & Hm).
  apply bind_Ok_inv in Hm as ([] & sb & Hpe & Hm).
  cbv beta zeta in Hm.
  set (rs := round_size sz) in Hm. set (small := rs <=? kSmallAlloc) in Hm.
  apply bind_Ok_inv in Hm as ([] & sc & Hgs & Hm).
  rewrite bind_get in Hm.
  apply bind_Ok_inv in Hm as (block & sd & Hchoose & Hm).
  apply bind_Ok_inv in Hm as (block' & se & Hsplit & Hm).
  rewrite bind_update, bind_deref, bind_modify, bind_modify_stats in Hm.
  cbn [heap set_heap set_allocated_blocks] in Hm.
  rewrite lookup_total_insert_eq in Hm.
  injection Hm as Hptr Hs1.
  (* what the steps before the bookkeeping leave alone *)
  assert (Hse : same_allocated s se /\ (Z.to_nat dev < length (device_stats se))%nat
                /\ 0 <= dev /\ device (heap se !!! block') = dev).
  { pose proof (Frame_run _ _ _ _ _ (same_stats_call _) Hcall) as F1.
    pose proof (Frame_run _ _ _ _ _ (same_stats_AT_CUDA_CHECK _) Hchk) as F2.
    pose proof (Frame_run _ _ _ _ _ (same_stats_process_events rt) Hpe) as F3.
    pose proof (Frame_run _ _ _ _ _ (same_allocated_get_stats_for_device _) Hgs) as F4.
    pose proof (get_stats_for_device_Ok _ _ _ _ Hgs eq_refl) as [Hdev0 Hlen].
    pose proof (Frame_run _ _ _ _ _
                  (same_stats_malloc_split dev stream rs small block) Hsplit) as F6.
    assert (same_allocated sc sd /\ device (heap sd !!! block) = dev) as [F5 Hdev].
    { destruct (lower_bound (heap sc) _ _) as [| found rest].
      - split; [exact (Frame_run _ _ _ _ _
                         (same_allocated_malloc_new_block rt _ _ _ _) Hchoose) |].
        eapply malloc_new_block_device; exact Hchoose.
      - destruct (_ && _) eqn:Hmatch.
        + rewrite bind_modify_pool in Hchoose. injection Hchoose as <- <-.
          split; [apply same_stats_allocated; destruct small; reflexivity |].
          rewrite heap_set_pool. apply andb_true_iff in Hmatch as [Hd _].
          apply Z.eqb_eq in Hd. exact Hd.
        + split; [exact (Frame_run _ _ _ _ _
                           (same_allocated_malloc_new_block rt _ _ _ _) Hchoose) |].
          eapply malloc_new_block_device; exact Hchoose. }
    split; [| split; [| split]].
    - apply same_stats_allocated in F1, F2, F3, F6.
      repeat (etransitivity; [eassumption |]). reflexivity.
    - destruct F5 as [L5 _]. unfold same_stats in F6. rewrite F6. lia.
    - exact Hdev0.
    - eapply malloc_split_device; eassumption. }
  destruct Hse as ([_ Hsame] & Hlen & Hdev0 & Hdev).
  set (b := set_allocated true (heap se !!! block')) in *.
  assert (Hb_dev : device b = dev) by exact Hdev.
  (* the free *)
  unfold free in Hf. destruct (Z.eqb_spec p 0) as [| _]; [contradiction |].
  rewrite bind_gets in Hf.
  assert (Hlook : allocated_blocks s1 !! p = Some block').
  { rewrite <- Hs1, <- Hptr. cbn [allocated_blocks set_device_stats set_allocated_blocks].
    apply lookup_insert_eq. }
  rewrite Hlook in Hf.
  rewrite bind_modify, bind_update, bind_deref in Hf.
  cbn [heap set_heap set_allocated_blocks] in Hf.
  rewrite lookup_total_insert_eq in Hf.
  assert (Hheap1 : heap s1 !!! block' = b).
  { rewrite <- Hs1. cbn [heap set_device_stats set_allocated_blocks set_heap].
    apply lookup_total_insert_eq. }
  rewrite Hheap1 in Hf.
  cbn [device size stream_uses set_allocated b] in Hf.
  fold (device (heap se !!! block')) in Hf. rewrite Hdev in Hf.
  rewrite bind_get_stats_for_device in Hf by exact Hdev0.
  rewrite bind_modify_stats in Hf.
  assert (Hstats1 : device_stats s1
            = alter (increaseAllocated (size b)) (Z.to_nat dev) (device_stats se)).
  { rewrite <- Hs1. reflexivity. }
  assert (Hstats2 : device_stats s2
            = alter (decreaseAllocated (size b)) (Z.to_nat dev) (device_stats s1)).
  { match type of Hf with ?m ?x = _ =>
      assert (Hfr : same_stats x s2) by
        (eapply (Frame_run same_stats m); [| exact Hf];
         destruct (negb _);
           [apply same_stats_insert_events | apply same_stats_free_block])
    end.
    unfold same_stats in Hfr.
    match type of Hfr with context [if ?c then _ else _] => destruct c eqn:Hc end.
    - apply Z.leb_le in Hc. cbn [device_stats set_heap set_allocated_blocks] in Hc.
      rewrite Hstats1, length_alter in Hc. lia.
    - rewrite Hfr. reflexivity. }
  assert (Hs1_of : forall d, stats_of d s1 =
            if decide (Z.to_nat dev = Z.to_nat d)
            then increaseAllocated (size b) (stats_of d se) else stats_of d se).
  { intros d. pose proof (stats_of_alter d (Z.to_nat dev) (increaseAllocated (size b)) se) as Ha.
    unfold stats_of in *. rewrite Hstats1. cbn [device_stats set_device_stats] in Ha.
    rewrite Ha. repeat case_decide; try reflexivity; lia. }
  assert (Hs2_of : forall d, stats_of d s2 =
            if decide (Z.to_nat dev = Z.to_nat d)
            then decreaseAllocated (size b) (stats_of d s1) else stats_of d s1).
  { intros d. pose proof (stats_of_alter d (Z.to_nat dev) (decreaseAllocated (size b)) s1) as Ha.
    unfold stats_of in *. rewrite Hstats2. cbn [device_stats set_device_stats] in Ha.
    rewrite Ha. rewrite Hstats1, length_alter.
    repeat case_decide; try reflexivity; lia. }
  exists block'. split; [exact Hlook |].
  cbv zeta. rewrite Hheap1, Hb_dev.
  split; [| split].
  - rewrite Hs1_of. rewrite decide_True by reflexivity.
    cbn [amount_allocated increaseAllocated]. rewrite Hsame. reflexivity.
  - rewrite Hs2_of. rewrite decide_True by reflexivity. reflexivity.
  - intros d. rewrite Hs2_of, Hs1_of. case_decide.
    + cbn [amount_allocated increaseAllocated decreaseAllocated].
      rewrite Hsame. apply wrap64_add_sub. apply stats_of_in_range. exact Hrange.
    + apply Hsame.
Qed.

Lemma malloc_free_restores_amount_allocated_witness :
  exists block,
    allocated_blocks one_allocation !! 4096 = Some block /\
    let b := heap one_allocation !!! block in
    amount_allocated (stats_of (device b) one_allocation)
      = wrap64 (amount_allocated (stats_of (device b) fresh_allocator) + size b) /\
    amount_allocated (stats_of (device b) (snd (free bump_driver 4096 one_allocation)))
      = wrap64 (amount_allocated (stats_of (device b) one_allocation) - size b) /\
    forall d, amount_allocated (stats_of d (snd (free bump_driver 4096 one_allocation)))
              = amount_allocated (stats_of d fresh_allocator).
Proof.
  apply (malloc_free_restores_amount_allocated bump_driver fresh_allocator
           one_allocation (snd (free bump_driver 4096 one_allocation)) 1000 7 4096).
  - apply Forall_nil. exact I.
  - vm_compute. reflexivity.
  - discriminate.
  - vm_compute. reflexivity.
Defined.

(** *** Splitting *)

(** C3, as worded: fails when the leftover is exactly 512 bytes, where the
    block is split although the leftover does not exceed 512. *)
Lemma split_claim_fails : ~ split_claim.
Proof.
  intros H.
  destruct (malloc_split 0 7 1048064 (1048064 <=? kSmallAlloc) 1%positive one_segment)
    as [r s'] eqn:Hrun.
  vm_compute in Hrun. injection Hrun as <- <-.
  specialize (H one_segment 0 7 1048064 1%positive 2%positive _
                (ex_intro _ _ eq_refl) eq_refl).
  destruct H as [H _]. specialize (H ltac:(discriminate)).
  vm_compute in H. discriminate H.
Qed.

(** C3, amended: the chosen block (size [B]) is split for a rounded request
    of size [s] exactly when the leftover [B - s] is at least the threshold,
    512 bytes for small requests (rounded size <= 1 MiB) and 1 MiB + 1 bytes
    for large ones; the split makes a new allocated head of size [s] at the
    block's address, keeps the old block as the free tail of size [B - s]
    behind it, links the two through [next]/[prev], and inserts the tail into
    the free pool; otherwise the block is returned unsplit and nothing
    changes. *)
Theorem malloc_split_rule {W} (s : State W) (device stream size : Z) (block : positive) :
  is_Some (heap s !! block) ->
  let b := heap s !!! block in
  let small := size <=? kSmallAlloc in
  let leftover := wrap64 (THC.size b - size) in
  (split_threshold small <= leftover ->
     exists head s',
       malloc_split device stream size small block s = (Ok head, s') /\
       head <> block /\
       THC.size (heap s' !!! head) = size /\
       ptr (heap s' !!! head) = ptr b /\
       prev (heap s' !!! head) = prev b /\
       next (heap s' !!! head) = Some block /\
       THC.size (heap s' !!! block) = leftover /\
       ptr (heap s' !!! block) = wrap64 (ptr b + size) /\
       prev (heap s' !!! block) = Some head /\
       pool small s' = set_insert (heap s') block (pool small s)) /\
  (leftover < split_threshold small ->
     malloc_split device stream size small block s = (Ok block, s)).
Proof.
  intros Hin b small leftover. split; intros Hthr.
  - set (head := fresh (dom (heap s))).
    assert (Hne : head <> block).
    { intros Heq. apply (is_fresh (dom (heap s))). fold head. rewrite Heq.
      apply elem_of_dom. exact Hin. }
    exists head.
    unfold malloc_split. rewrite bind_deref. fold b. fold leftover.
    destruct (Z.leb_spec (split_threshold small) leftover) as [_ | Hlt]; [| lia].
    rewrite bind_new_Block, bind_update. fold head.
    destruct (prev b) as [pp |] eqn:Hprev.
    + rewrite !bind_update, bind_modify_pool.
      eexists. split; [reflexivity |].
      rewrite heap_set_pool. cbn [heap set_heap].
      split; [exact Hne |].
      repeat split.
      all: try (destruct small; reflexivity).
      all: repeat (rewrite lookup_total_insert; case_decide; subst;
                   try contradiction; try congruence; cbn).
      all: try reflexivity; try (fold b; congruence).
    + rewrite bind_ret, !bind_update, bind_modify_pool.
      eexists. split; [reflexivity |].
      rewrite heap_set_pool. cbn [heap set_heap].
      split; [exact Hne |].
      repeat split.
      all: try (destruct small; reflexivity).
      all: repeat (rewrite lookup_total_insert; case_decide; subst;
                   try contradiction; try congruence; cbn).
      all: try reflexivity; try (fold b; congruence).
  - unfold malloc_split. rewrite bind_deref. fold b. fold leftover.
    destruct (Z.leb_spec (split_threshold small) leftover) as [Hle | _]; [lia |].
    reflexivity.
Qed.

(** The same through [malloc]: a request of 1048064 bytes on a fresh
    allocator takes a 1 MiB segment from the driver, returns its first
    1048064 bytes and keeps the last 512 in the small pool. *)
Example malloc_splits_at_512 :
  let '(r, s) := malloc bump_driver 1048064 7 fresh_allocator in
  r = Ok 4096 /\
  map (fun b => (ptr (heap s !!! b), size (heap s !!! b))) (small_blocks s)
  = [(4096 + 1048064, 512)] /\
  (fun b => (size b, allocated b)) <$> (heap s !! 2%positive)
  = Some (1048064, true).
Proof. vm_compute. split; [| split]; reflexivity. Qed.

Lemma malloc_split_rule_witness :
  exists head s',
    malloc_split 0 7 1048064 true 1%positive one_segment = (Ok head, s') /\
    head <> 1%positive /\
    THC.size (heap s' !!! 1%positive) = 512.
Proof.
  destruct (malloc_split_rule one_segment 0 7 1048064 1%positive) as [Hsplit _].
  - exists (Block_new 0 7 1048576 4096). reflexivity.
  - destruct Hsplit as (head & s' & Hrun & Hne & _ & _ & _ & _ & Hsize & _).
    + apply Z.leb_le. reflexivity.
    + exists head, s'. repeat split; assumption.
Defined.

(** C6, amended: for every non-null pointer that is not recorded in the
    allocated-blocks map, [free] raises the invalid-pointer error and leaves
    the allocator state unchanged; for every recorded pointer whose block is
    on a valid device with no outstanding events, [free] returns normally,
    unless the driver fails while events are recorded for the block's stream
    uses. *)
Theorem free_unknown_pointer {W} (rt : CudaRuntime W) (s : State W) (p : Z) :
  (p <> 0 -> allocated_blocks s !! p = None ->
     free rt p s = (Err (InvalidPointer p), s)) /\
  (forall block, allocated_blocks s !! p = Some block ->
     0 <= device (heap s !!! block) ->
     event_count (heap s !!! block) = 0 ->
     match fst (free rt p s) with
     | Ok _ => True
     | Err e => is_cuda_failure e /\ stream_uses (heap s !!! block) <> []
     end).
Proof.
  split.
  - intros Hp Hnone. unfold free.
    destruct (Z.eqb_spec p 0) as [| _]; [contradiction |].
    rewrite bind_gets, Hnone. reflexivity.
  - intros block Hsome Hdev Hev. unfold free.
    destruct (Z.eqb_spec p 0) as [| _]; [exact I |].
    rewrite bind_gets, Hsome.
    rewrite bind_modify, bind_update, bind_deref.
    cbn [heap set_heap set_allocated_blocks].
    rewrite lookup_total_insert_eq.
    cbn [device size stream_uses set_allocated].
    rewrite bind_get_stats_for_device by exact Hdev.
    rewrite bind_modify_stats.
    match goal with |- match fst (_ ?x) with _ => _ end => set (s' := x) end.
    assert (Hb : heap s' !!! block = set_allocated false (heap s !!! block)).
    { subst s'. destruct (Z.of_nat (length _) <=? _); cbn; apply lookup_total_insert_eq. }
    destruct (bool_decide_reflect (stream_uses (heap s !!! block) = [])) as [Hnil | Hne]; cbn [negb].
    + destruct (free_block_succeeds block s') as [s'' Hok].
      * rewrite Hb. reflexivity.
      * rewrite Hb. exact Hev.
      * rewrite Hok. exact I.
    + pose proof (insert_events_throws rt block s') as Hthrows.
      destruct (fst (insert_events rt block s')); [exact I | split; assumption].
Qed.

(** A recorded pointer whose [free] raises: the block was used on a second
    stream and the driver fails to create the event. *)
Definition no_events_driver : CudaRuntime Z := {|
  cudaGetDevice := cudaGetDevice bump_driver;
  cudaSetDevice := cudaSetDevice bump_driver;
  cudaMalloc := cudaMalloc bump_driver;
  cudaFree := cudaFree bump_driver;
  cudaGetLastError := cudaGetLastError bump_driver;
  cudaMemGetInfo := cudaMemGetInfo bump_driver;
  cudaEventCreateWithFlags w := (cudaErrorOther 30, 0, w);
  cudaEventRecord := cudaEventRecord bump_driver;
  cudaEventQuery := cudaEventQuery bump_driver;
  cudaEventDestroy := cudaEventDestroy bump_driver
|}.

Example free_recorded_pointer_raises :
  let used_on_stream_9 :=
    snd (recordStream 4096 (mkTHCStream 64 0 9) one_allocation) in
  allocated_blocks used_on_stream_9 !! 4096 = Some 2%positive /\
  fst (free no_events_driver 4096 used_on_stream_9)
  = Err (CudaCheckFailed (cudaErrorOther 30)).
Proof. split; vm_compute; reflexivity. Qed.

Lemma free_unknown_pointer_witness :
  free bump_driver 8 fresh_allocator = (Err (InvalidPointer 8), fresh_allocator) /\
  fst (free bump_driver 4096 one_allocation) = Ok tt.
Proof.
  destruct (free_unknown_pointer bump_driver fresh_allocator 8) as [H1 _].
  destruct (free_unknown_pointer bump_driver one_allocation 4096) as [_ H2].
  split.
  - apply H1; [discriminate | apply lookup_empty].
  - specialize (H2 2%positive eq_refl).
    destruct (fst (free bump_driver 4096 one_allocation)) as [[] | e].
    + reflexivity.
    + destruct H2 as [_ H2].
      * apply Z.leb_le. reflexivity.
      * reflexivity.
      * exfalso. apply H2. reflexivity.
Defined.

(** *** The order of the free pools *)

(** The blocks of [l] that live on device [dev]. *)
Definition on_device (h : gmap positive Block) (dev : Z) (l : list positive) : list Block :=
  filter (fun b => device b = dev) ((fun q => h !!! q) <$> l).

(** The fields the comparator reads as unsigned values. *)
Definition unsigned_fields (b : Block) : Prop :=
  0 <= stream b /\ 0 <= size b /\ 0 <= ptr b.

(** [b] can serve a request of [key]'s size on [key]'s device and stream. *)
Definition fits (key b : Block) : Prop :=
  device b = device key /\ stream b = stream key /\ size key <= size b.

Definition three_cached : gmap positive Block :=
  {[ 1%positive := Block_new 0 7 512 4096;
     2%positive := Block_new 0 7 2048 8192;
     3%positive := Block_new 1 7 1024 4096 ]}.

Lemma BlockComparator_spec a b :
  BlockComparator a b = true <->
  device a < device b \/
  device a = device b /\
    (stream a < stream b \/
     stream a = stream b /\
       (size a < size b \/ size a = size b /\ ptr a < ptr b)).
Proof.
  unfold BlockComparator.
  destruct (Z.eqb_spec (device a) (device b)); cbn [negb];
    [| rewrite Z.ltb_lt; lia].
  destruct (Z.eqb_spec (stream a) (stream b)); cbn [negb];
    [| rewrite Z.ltb_lt; lia].
  destruct (Z.eqb_spec (size a) (size b)); cbn [negb];
    rewrite Z.ltb_lt; lia.
Qed.

Lemma BlockComparator_false a b :
  BlockComparator a b = false <->
  device b < device a \/
  device a = device b /\
    (stream b < stream a \/
     stream a = stream b /\
       (size b < size a \/ size a = size b /\ ptr b <= ptr a)).
Proof.
  rewrite <- not_true_iff_false, BlockComparator_spec. lia.
Qed.

(** X1: [BlockComparator] is a strict order (irreflexive and transitive),
    and two blocks are unordered by it exactly when they agree on device,
    stream, size and address: a free pool holds at most one block for each
    such key. *)
Theorem BlockComparator_strict_weak_order :
  (forall a, BlockComparator a a = false) /\
  (forall a b c, BlockComparator a b = true -> BlockComparator b c = true ->
                 BlockComparator a c = true) /\
  (forall a b, BlockComparator a b = false /\ BlockComparator b a = false <->
               device a = device b /\ stream a = stream b /\
               size a = size b /\ ptr a = ptr b).
Proof.
  split; [| split].
  - intros a. apply BlockComparator_false. lia.
  - intros a b c. rewrite !BlockComparator_spec. lia.
  - intros a b. rewrite !BlockComparator_false. lia.
Qed.

Lemma lower_bound_suffix h key l : suffix (lower_bound h key l) l.
Proof.
  induction l as [| q l IH]; simpl; [reflexivity |].
  destruct (BlockComparator (h !!! q) key); [| reflexivity].
  apply suffix_cons_r, IH.
Qed.

Lemma lower_bound_head h key l found rest :
  lower_bound h key l = found :: rest ->
  BlockComparator (h !!! found) key = false.
Proof.
  induction l as [| q l IH]; simpl; [discriminate |].
  destruct (BlockComparator (h !!! q) key) eqn:Hq; [exact IH |].
  intros [= -> _]. exact Hq.
Qed.

Lemma lower_bound_skipped h key l q :
  q ∈ l -> BlockComparator (h !!! q) key = false ->
  StronglySorted (fun p q => less h p q = true) l ->
  q ∈ lower_bound h key l.
Proof.
  intros Hin Hq Hs. induction Hs as [| p l Hs IH Hall]; simpl; [exact Hin |].
  destruct (BlockComparator (h !!! p) key) eqn:Hp; [| exact Hin].
  apply elem_of_cons in Hin as [-> | Hin]; [congruence |].
  apply IH. exact Hin.
Qed.

(** X2: in a pool that is in comparator order, the [lower_bound] search of
    [malloc] (key: device, stream, rounded size, null address) finds a best
    fit.  When the block found passes [malloc]'s device and stream test, it
    is in the pool, is on the key's device and stream, is at least as large
    as the request, and no pool block that fits is smaller; when the search
    finds nothing or the test fails, no block of the pool fits. *)
Theorem lower_bound_best_fit (h : gmap positive Block) (key : Block) (l : list positive) :
  StronglySorted (fun p q => less h p q = true) l ->
  ptr key = 0 ->
  (forall q, q ∈ l -> 0 <= ptr (h !!! q)) ->
  match lower_bound h key l with
  | found :: _ =>
      let fb := h !!! found in
      if (device fb =? device key) && (stream fb =? stream key)
      then found ∈ l /\ fits key fb /\
           forall q, q ∈ l -> fits key (h !!! q) -> size fb <= size (h !!! q)
      else forall q, q ∈ l -> ~ fits key (h !!! q)
  | [] => forall q, q ∈ l -> ~ fits key (h !!! q)
  end.
Proof.
  intros Hs Hkey Hptr.
  assert (Hin : forall q, q ∈ l -> fits key (h !!! q) -> q ∈ lower_bound h key l).
  { intros q Hq (Hd & Hst & Hsz). apply lower_bound_skipped; [exact Hq | | exact Hs].
    apply BlockComparator_false. specialize (Hptr q Hq). lia. }
  pose proof (lower_bound_suffix h key l) as Hsuf.
  destruct (lower_bound h key l) as [| found rest] eqn:Hlb.
  { intros q Hq Hfit. specialize (Hin q Hq Hfit). inversion Hin. }
  pose proof (lower_bound_head _ _ _ _ _ Hlb) as Hhead.
  apply BlockComparator_false in Hhead.
  assert (Hrest : forall q, q ∈ rest -> less h found q = true).
  { destruct Hsuf as [pre ->]. apply StronglySorted_app_1_r in Hs.
    apply StronglySorted_inv in Hs as [_ Hall]. intros q Hq.
    exact (proj1 (Forall_forall _ _) Hall q Hq). }
  cbv zeta.
  destruct (Z.eqb_spec (device (h !!! found)) (device key)) as [Hd | Hd]; cbn [andb];
    [destruct (Z.eqb_spec (stream (h !!! found)) (stream key)) as [Hst | Hst] |].
  - split; [| split].
    + destruct Hsuf as [pre ->]. apply elem_of_app. right. left.
    + unfold fits. lia.
    + intros q Hq Hfit. specialize (Hin q Hq Hfit).
      apply elem_of_cons in Hin as [-> | Hin]; [lia |].
      specialize (Hrest q Hin). unfold less in Hrest.
      apply BlockComparator_spec in Hrest. destruct Hfit as (? & ? & ?). lia.
  - intros q Hq Hfit. specialize (Hin q Hq Hfit).
    apply elem_of_cons in Hin as [-> | Hin]; [destruct Hfit; lia |].
    specialize (Hrest q Hin). unfold less in Hrest.
    apply BlockComparator_spec in Hrest. destruct Hfit as (? & ? & ?). lia.
  - intros q Hq Hfit. specialize (Hin q Hq Hfit).
    apply elem_of_cons in Hin as [-> | Hin]; [destruct Hfit; lia |].
    specialize (Hrest q Hin). unfold less in Hrest.
    apply BlockComparator_spec in Hrest. destruct Hfit as (? & ? & ?). lia.
Qed.

Lemma three_cached_sorted :
  StronglySorted (fun p q => less three_cached p q = true) [1; 2; 3]%positive.
Proof.
  repeat constructor; vm_compute; reflexivity.
Qed.

Lemma lower_bound_best_fit_witness :
  2%positive ∈ [1; 2; 3]%positive /\
  fits (Block_new 0 7 1024 0) (three_cached !!! 2%positive) /\
  forall q, q ∈ [1; 2; 3]%positive -> fits (Block_new 0 7 1024 0) (three_cached !!! q) ->
            2048 <= size (three_cached !!! q).
Proof.
  apply (lower_bound_best_fit three_cached (Block_new 0 7 1024 0) [1; 2; 3]%positive).
  - exact three_cached_sorted.
  - reflexivity.
  - intros q Hq. 
    repeat (apply elem_of_cons in Hq as [-> | Hq]; [vm_compute; discriminate |]).
    inversion Hq.
Defined.

Definition total_size (bs : list Block) : Z := foldr (fun b acc => size b + acc) 0 bs.

Definition largest_size (largest : Z) (bs : list Block) : Z :=
  foldl (fun acc b => Z.max acc (size b)) largest bs.

Lemma less_device h p q : less h p q = true -> device (h !!! p) <= device (h !!! q).
Proof. unfold less. rewrite BlockComparator_spec. lia. Qed.

Lemma on_device_cons h dev q l :
  on_device h dev (q :: l) =
  if decide (device (h !!! q) = dev) then (h !!! q) :: on_device h dev l
  else on_device h dev l.
Proof. unfold on_device. rewrite fmap_cons, filter_cons. reflexivity. Qed.

Lemma on_device_above h dev l :
  Forall (fun q => dev < device (h !!! q)) l -> on_device h dev l = [].
Proof.
  induction 1 as [| q l Hq _ IH]; [reflexivity |].
  rewrite on_device_cons, decide_False by lia. exact IH.
Qed.

Lemma wrap64_add_l a b : wrap64 (wrap64 a + b) = wrap64 (a + b).
Proof. unfold wrap64. apply Zplus_mod_idemp_l. Qed.

Lemma cacheInfoAux_loop_sorted h dev l :
  StronglySorted (fun p q => less h p q = true) l ->
  Forall (fun q => dev <= device (h !!! q)) l ->
  forall total largest,
    cacheInfoAux_loop h dev l total largest =
    (if decide (on_device h dev l = []) then total
     else wrap64 (total + total_size (on_device h dev l)),
     largest_size largest (on_device h dev l)).
Proof.
  intros Hs. induction Hs as [| q l Hs IH Hall]; intros Hdev total largest.
  { reflexivity. }
  apply Forall_cons in Hdev as [Hq Hdev]. simpl cacheInfoAux_loop.
  rewrite on_device_cons.
  destruct (Z.eqb_spec (device (h !!! q)) dev) as [Heq | Hne];
    destruct (decide (device (h !!! q) = dev)) as [Heq' | Hne']; try contradiction.
  - rewrite IH by exact Hdev.
    rewrite (decide_False (P := _ :: _ = [])) by discriminate.
    f_equal.
    + case_decide as Hnil.
      * rewrite Hnil. simpl. f_equal. lia.
      * rewrite wrap64_add_l. simpl. f_equal. lia.
    + simpl. f_equal. destruct (Z.ltb_spec largest (size (h !!! q))); lia.
  - rewrite on_device_above; [reflexivity |].
    eapply Forall_impl; [exact Hall |]. intros p Hp. cbv beta in Hp.
    apply less_device in Hp. lia.
Qed.

Lemma cacheInfoAux_loop_lower_bound h dev l :
  StronglySorted (fun p q => less h p q = true) l ->
  Forall (fun q => unsigned_fields (h !!! q)) l ->
  forall total largest,
    cacheInfoAux_loop h dev (lower_bound h (Block_new dev 0 0 0) l) total largest =
    (if decide (on_device h dev l = []) then total
     else wrap64 (total + total_size (on_device h dev l)),
     largest_size largest (on_device h dev l)).
Proof.
  intros Hs. induction Hs as [| q l Hs IH Hall]; intros Hu total largest.
  { reflexivity. }
  apply Forall_cons in Hu as [(Hst & Hsz & Hp) Hu].
  simpl lower_bound.
  destruct (BlockComparator (h !!! q) (Block_new dev 0 0 0)) eqn:Hq.
  - apply BlockComparator_spec in Hq.
    cbn [device stream size ptr Block_new] in Hq.
    rewrite on_device_cons.
    destruct (decide (device (h !!! q) = dev)); [lia |]. apply IH. exact Hu.
  - apply BlockComparator_false in Hq.
    cbn [device stream size ptr Block_new] in Hq.
    apply cacheInfoAux_loop_sorted; [constructor; assumption |].
    constructor; [lia |].
    eapply Forall_impl; [exact Hall |]. intros p Hlt. cbv beta in Hlt.
    apply less_device in Hlt. lia.
Qed.

Section CacheInfo.
Context {W : Type}.

(** Both pools are in comparator order and hold unsigned streams, sizes
    and addresses. *)
Definition pools_sorted (s : State W) : Prop :=
  forall small,
    StronglySorted (fun p q => less (heap s) p q = true) (pool small s) /\
    Forall (fun q => unsigned_fields (heap s !!! q)) (pool small s).

(** X10: with both pools in comparator order, [cacheInfo] adds to [*total]
    (modulo 2^64) the sizes of all cached blocks of device [dev_id], large
    pool and small pool, raises [*largest] to the largest of these sizes if
    one exceeds it, and leaves the allocator unchanged. *)
Theorem cacheInfo_totals (s : State W) (dev total largest : Z) :
  pools_sorted s ->
  in_u64 total ->
  let cached := on_device (heap s) dev (large_blocks s) ++
                on_device (heap s) dev (small_blocks s) in
  cacheInfo dev total largest s =
  (Ok (wrap64 (total + total_size cached), largest_size largest cached), s).
Proof.
  intros Hsorted Htotal cached. unfold cacheInfo, cacheInfoAux.
  destruct (Hsorted false) as [Hl Hlu], (Hsorted true) as [Hs Hsu].
  cbn [pool] in *.
  rewrite bind_eq, bind_get.
  rewrite cacheInfoAux_loop_lower_bound by assumption.
  unfold mret at 1, M_ret at 1, ret at 1. cbv beta iota. rewrite bind_get.
  rewrite cacheInfoAux_loop_lower_bound by assumption.
  unfold mret, M_ret, ret.
  subst cached.
  generalize (on_device (heap s) dev (large_blocks s)) as L1.
  generalize (on_device (heap s) dev (small_blocks s)) as L2.
  intros L2 L1.
  assert (Hsum : total_size (L1 ++ L2) = total_size L1 + total_size L2).
  { unfold total_size. induction L1 as [| b L1 IH1]; simpl; lia. }
  assert (Hmax : largest_size largest (L1 ++ L2)
                 = largest_size (largest_size largest L1) L2).
  { unfold largest_size. apply foldl_app. }
  rewrite Hsum, Hmax.
  assert (Htot : (if decide (L2 = []) then if decide (L1 = []) then total
                    else wrap64 (total + total_size L1)
                  else wrap64 ((if decide (L1 = []) then total
                                else wrap64 (total + total_size L1)) + total_size L2))
                 = wrap64 (total + (total_size L1 + total_size L2))).
  { repeat case_decide; subst; cbn [total_size foldr];
      rewrite ?wrap64_add_l, ?Z.add_0_r, ?Z.add_0_l, ?Z.add_assoc;
      try reflexivity.
    symmetry. apply wrap64_small. exact Htotal. }
  rewrite Htot. reflexivity.
Qed.
End CacheInfo.

Definition three_cached_state : State Z :=
  mkState [] [] [1; 2; 3]%positive ∅ [] three_cached 0.

Lemma cacheInfo_totals_witness :
  cacheInfo 0 0 0 three_cached_state = (Ok (2560, 2048), three_cached_state).
Proof.
  apply (cacheInfo_totals three_cached_state 0 0 0).
  - intros [|]; split; cbn [pool three_cached_state small_blocks large_blocks heap].
    + exact three_cached_sorted.
    + repeat constructor; vm_compute; discriminate.
    + constructor.
    + constructor.
  - unfold in_u64. lia.
Defined.

(** *** Fields a member function leaves alone *)

Section FreeFacts.
Context {W : Type} (rt : CudaRuntime W).
Implicit Types (s : State W).

(** The field [f] of the allocator is the same before and after. *)
Definition keeps {A} (f : State W -> A) : relation (State W) :=
  fun s s' => f s' = f s.

#[global] Instance keeps_refl {A} (f : State W -> A) : Reflexive (keeps f).
Proof. intros s. reflexivity. Qed.
#[global] Instance keeps_trans {A} (f : State W -> A) : Transitive (keeps f).
Proof. intros s1 s2 s3 H1 H2. unfold keeps in *. congruence. Qed.

Ltac keeps_step :=
  match goal with
  | |- Frame _ (_ ≫= _) => apply Frame_bind; [typeclasses eauto | | intros ?]
  | |- Frame _ (mret _) => apply Frame_ret; typeclasses eauto
  | |- Frame _ (throw _) => apply Frame_throw; typeclasses eauto
  | |- Frame _ (gets _) => apply Frame_gets; typeclasses eauto
  | |- Frame _ (deref _) => apply Frame_gets; typeclasses eauto
  | |- Frame _ get => apply Frame_get; typeclasses eauto
  | |- Frame _ (AT_CUDA_CHECK _) => unfold AT_CUDA_CHECK
  | |- Frame _ (THAssert _) => unfold THAssert
  | |- Frame (keeps _) (call _) =>
      apply Frame_call; [typeclasses eauto | intros ? ?; reflexivity]
  | |- Frame (keeps _) (call_ _) =>
      apply Frame_call_; [typeclasses eauto | intros ? ?; reflexivity]
  | |- Frame (keeps _) (update _ _) => apply Frame_modify; intros ?; reflexivity
  | |- Frame (keeps _) (delete_Block _) => apply Frame_modify; intros ?; reflexivity
  | |- Frame (keeps _) (modify_stats _ _) => apply Frame_modify; intros ?; reflexivity
  | |- Frame (keeps _) (modify_pool ?small _) =>
      apply Frame_modify; intros ?; destruct small; reflexivity
  | |- Frame (keeps _) (modify _) => apply Frame_modify; intros ?; reflexivity
  | |- Frame _ (match ?x with _ => _ end) => destruct x
  | |- Frame _ (let '(_, _) := ?x in _) => destruct x
  end.

Ltac keeps := repeat keeps_step.

Lemma keeps_get_stats_for_device {A} (f : State W -> A) d :
  (forall s v, f (set_device_stats v s) = f s) ->
  Frame (keeps f) (get_stats_for_device d : M Exception (State W) _).
Proof.
  intros Hf. unfold get_stats_for_device. keeps.
  apply Frame_modify. intros s. unfold keeps.
  destruct (_ <=? _); [apply Hf | reflexivity].
Qed.

Lemma try_merge_blocks_keeps_allocated_blocks dst src small :
  Frame (keeps allocated_blocks)
        (try_merge_blocks dst src small : M Exception (State W) _).
Proof. unfold try_merge_blocks. keeps. Qed.

Lemma free_block_keeps_allocated_blocks block :
  Frame (keeps allocated_blocks) (free_block block : M Exception (State W) _).
Proof.
  unfold free_block. keeps; apply try_merge_blocks_keeps_allocated_blocks.
Qed.

Lemma insert_events_loop_keeps_allocated_blocks block streams :
  Frame (keeps allocated_blocks) (insert_events_loop rt block streams).
Proof.
  induction streams as [| stream rest IH]; simpl; keeps. exact IH.
Qed.

Lemma insert_events_keeps_allocated_blocks block :
  Frame (keeps allocated_blocks) (insert_events rt block).
Proof.
  unfold insert_events. keeps. apply insert_events_loop_keeps_allocated_blocks.
Qed.

(** X5: a successful [free] of a non-null pointer removes exactly that
    pointer from the allocated-blocks map, so freeing the same pointer again
    raises the invalid-pointer error and changes nothing. *)
Theorem double_free_is_detected (s s' : State W) (p : Z) :
  p <> 0 ->
  free rt p s = (Ok tt, s') ->
  allocated_blocks s' = delete p (allocated_blocks s) /\
  free rt p s' = (Err (InvalidPointer p), s').
Proof.
  intros Hp Hfree.
  assert (Hmap : allocated_blocks s' = delete p (allocated_blocks s)).
  { unfold free in Hfree. destruct (Z.eqb_spec p 0) as [| _]; [contradiction |].
    rewrite bind_gets in Hfree.
    destruct (allocated_blocks s !! p) as [block |]; [| discriminate Hfree].
    rewrite bind_modify in Hfree.
    match type of Hfree with ?m ?x = _ =>
      assert (Hk : keeps allocated_blocks x s') by
        (eapply (Frame_run _ m); [| exact Hfree]; keeps;
         [apply keeps_get_stats_for_device; reflexivity
         | apply insert_events_keeps_allocated_blocks
         | apply free_block_keeps_allocated_blocks])
    end.
    exact Hk. }
  split; [exact Hmap |].
  unfold free. destruct (Z.eqb_spec p 0) as [| _]; [contradiction |].
  rewrite bind_gets, Hmap, lookup_delete_eq. reflexivity.
Qed.

(** *** [recordStream] *)

Lemma stream_set_insert_idem x l :
  stream_set_insert x (stream_set_insert x l) = stream_set_insert x l.
Proof.
  induction l as [| y l IH]; simpl.
  - rewrite Z.ltb_irrefl. reflexivity.
  - destruct (Z.ltb_spec (THCStream_addr y) (THCStream_addr x)) as [Hyx | Hyx]; simpl.
    + destruct (Z.ltb_spec (THCStream_addr y) (THCStream_addr x)); [| lia].
      rewrite IH. reflexivity.
    + destruct (Z.ltb_spec (THCStream_addr x) (THCStream_addr y)) as [Hxy | Hxy]; simpl.
      * rewrite Z.ltb_irrefl. reflexivity.
      * destruct (Z.ltb_spec (THCStream_addr y) (THCStream_addr x)); [lia |].
        destruct (Z.ltb_spec (THCStream_addr x) (THCStream_addr y)); [lia |].
        reflexivity.
Qed.

(** X6: [recordStream] is idempotent: once it has returned, recording the
    same stream for the same pointer again changes nothing.  It never
    changes the allocated-blocks map nor any block other than the
    pointer's. *)
Theorem recordStream_idempotent (s s' : State W) (p : Z) (stream : THCStream) :
  recordStream p stream s = (Ok tt, s') ->
  recordStream p stream s' = (Ok tt, s') /\
  allocated_blocks s' = allocated_blocks s /\
  forall block, allocated_blocks s !! p = Some block ->
    forall q, q <> block -> heap s' !! q = heap s !! q.
Proof.
  unfold recordStream, find_allocated_block. rewrite !bind_gets.
  destruct (allocated_blocks s !! p) as [block |] eqn:Hp; [| discriminate].
  rewrite bind_deref.
  destruct (Z.eqb_spec (THCStream_stream stream) (THC.stream (heap s !!! block)))
    as [Heq | Hne].
  - intros [= <-]. rewrite Hp, bind_deref.
    destruct (Z.eqb_spec (THCStream_stream stream) (THC.stream (heap s !!! block)));
      [| contradiction].
    split; [reflexivity |]. split; [reflexivity |]. reflexivity.
  - intros [= <-]. cbn [allocated_blocks set_heap heap]. rewrite Hp, bind_deref.
    cbn [allocated_blocks set_heap heap].
    rewrite lookup_total_insert_eq. cbn [THC.stream set_stream_uses].
    destruct (Z.eqb_spec (THCStream_stream stream) (THC.stream (heap s !!! block)));
      [contradiction |].
    split; [| split; [reflexivity |]].
    + unfold update, modify. f_equal. cbn [heap set_heap].
      rewrite lookup_total_insert_eq, insert_insert_eq.
      cbn [set_stream_uses stream_uses device THC.stream size ptr allocated prev next event_count].
      rewrite stream_set_insert_idem. destruct s; reflexivity.
    + intros block' [= <-] q Hq. apply lookup_insert_ne. congruence.
Qed.
End FreeFacts.

Lemma double_free_is_detected_witness :
  allocated_blocks (snd (free bump_driver 4096 one_allocation))
    = delete 4096 (allocated_blocks one_allocation) /\
  free bump_driver 4096 (snd (free bump_driver 4096 one_allocation))
    = (Err (InvalidPointer 4096), snd (free bump_driver 4096 one_allocation)).
Proof.
  apply (double_free_is_detected bump_driver one_allocation _ 4096).
  - discriminate.
  - vm_compute. reflexivity.
Defined.

Definition stream_9 : THCStream := mkTHCStream 64 0 9.

Lemma recordStream_idempotent_witness :
  let s' := snd (recordStream 4096 stream_9 one_allocation) in
  recordStream 4096 stream_9 s' = (Ok tt, s') /\
  allocated_blocks s' = allocated_blocks one_allocation /\
  forall block, allocated_blocks one_allocation !! 4096 = Some block ->
    forall q, q <> block -> heap s' !! q = heap one_allocation !! q.
Proof.
  apply (recordStream_idempotent one_allocation _ 4096 stream_9).
  vm_compute. reflexivity.
Defined.

(** A block that is part of a split segment. *)
Definition is_split (b : Block) : bool :=
  match prev b, next b with
  | None, None => false
  | _, _ => true
  end.

Lemma erase_at_NoDup p l : NoDup l -> erase_at p l = filter (fun q => q <> p) l.
Proof.
  induction 1 as [| q l Hq Hnd IH]; simpl; [reflexivity |].
  rewrite filter_cons. destruct (Pos.eqb_spec q p) as [-> | Hne].
  - rewrite decide_False by tauto.
    clear IH. induction l as [| x l IHl]; [reflexivity |].
    rewrite filter_cons. apply not_elem_of_cons in Hq as [Hx Hq].
    apply NoDup_cons in Hnd as [_ Hnd].
    rewrite decide_True by congruence. f_equal. apply IHl; assumption.
  - rewrite decide_True by exact Hne. f_equal. exact IH.
Qed.

Section EventFacts.
Context {W : Type} (rt : CudaRuntime W).
Implicit Types (s : State W).

Definition heap_blind {A} (f : State W -> A) : Prop := forall s h, f (set_heap h s) = f s.
Definition pool_blind {A} (f : State W -> A) : Prop :=
  forall s small v, f (set_pool small v s) = f s.

Lemma keeps_update {A} (f : State W -> A) p g :
  heap_blind f -> Frame (keeps f) (update p g : M Exception (State W) _).
Proof. intros Hf. apply Frame_modify. intros s. apply Hf. Qed.

Lemma keeps_delete_Block {A} (f : State W -> A) p :
  heap_blind f -> Frame (keeps f) (delete_Block p : M Exception (State W) _).
Proof. intros Hf. apply Frame_modify. intros s. apply Hf. Qed.

Lemma keeps_modify_pool {A} (f : State W -> A) small g :
  pool_blind f -> Frame (keeps f) (modify_pool small g : M Exception (State W) _).
Proof. intros Hf. apply Frame_modify. intros s. apply Hf. Qed.

Ltac blind_step :=
  match goal with
  | |- Frame _ (_ ≫= _) => apply Frame_bind; [typeclasses eauto | | intros ?]
  | |- Frame _ (mret _) => apply Frame_ret; typeclasses eauto
  | |- Frame _ (throw _) => apply Frame_throw; typeclasses eauto
  | |- Frame _ (deref _) => apply Frame_gets; typeclasses eauto
  | |- Frame _ (THAssert _) => unfold THAssert
  | |- Frame _ (update _ _) => apply keeps_update; assumption
  | |- Frame _ (delete_Block _) => apply keeps_delete_Block; assumption
  | |- Frame _ (modify_pool _ _) => apply keeps_modify_pool; assumption
  | |- Frame _ (match ?x with _ => _ end) => destruct x
  end.

Lemma try_merge_blocks_keeps {A} (f : State W -> A) dst src small :
  heap_blind f -> pool_blind f ->
  Frame (keeps f) (try_merge_blocks dst src small : M Exception (State W) _).
Proof. intros Hh Hp. unfold try_merge_blocks. repeat blind_step. Qed.

Lemma free_block_keeps {A} (f : State W -> A) block :
  heap_blind f -> pool_blind f ->
  Frame (keeps f) (free_block block : M Exception (State W) _).
Proof.
  intros Hh Hp. unfold free_block.
  repeat first [apply try_merge_blocks_keeps; assumption | blind_step].
Qed.

Lemma call__state (f : W -> cudaError_t * W) s r s1 :
  call_ f s = (r, s1) -> exists w, s1 = set_cuda w s.
Proof. unfold call_. destruct (f (cuda s)) as [e w]. intros [= _ <-]. eauto. Qed.

Lemma call_state {A} (f : W -> cudaError_t * A * W) s r s1 :
  call f s = (r, s1) -> exists w, s1 = set_cuda w s.
Proof. unfold call. destruct (f (cuda s)) as [[e a] w]. intros [= _ <-]. eauto. Qed.

Lemma AT_CUDA_CHECK_state e s r s1 :
  AT_CUDA_CHECK e s = (r, s1) -> s1 = s.
Proof. unfold AT_CUDA_CHECK. destruct (is_cudaSuccess e); intros [= _ <-]; reflexivity. Qed.

Lemma process_events_loop_suffix events :
  forall s, cuda_events s = events ->
    cuda_events (snd (process_events_loop rt events s)) `suffix_of` events.
Proof.
  induction events as [| [event block] rest IH]; intros s Hs.
  { simpl. rewrite Hs. reflexivity. }
  assert (Hhere : forall (m : M Exception (State W) unit) s0,
            cuda_events s0 = (event, block) :: rest ->
            Frame (keeps cuda_events) m ->
            cuda_events (snd (m s0)) `suffix_of` (event, block) :: rest).
  { intros m s0 H0 Hm. specialize (Hm s0). unfold keeps in Hm. rewrite Hm, H0. reflexivity. }
  cbn [process_events_loop]. rewrite bind_eq.
  destruct (call_ (cudaEventQuery rt event) s) as [[err | e] s1] eqn:Hq;
    [| apply call__state in Hq as [w ->]; cbn; rewrite Hs; reflexivity].
  apply call__state in Hq as [w ->].
  set (s1 := set_cuda w s).
  assert (Hs1 : cuda_events s1 = (event, block) :: rest) by exact Hs.
  assert (Hgo : cuda_events (snd
            ((AT_CUDA_CHECK err;;
              e ← call_ (cudaEventDestroy rt event);
              AT_CUDA_CHECK e;;
              update block (fun b => set_event_count (event_count b - 1) b);;
              b ← deref block;
              (if event_count b =? 0 then free_block block else mret tt);;
              modify (set_cuda_events rest);;
              process_events_loop rt rest) s1)) `suffix_of` (event, block) :: rest).
  { rewrite bind_eq.
    destruct (AT_CUDA_CHECK err s1) as [[[] | e] s2] eqn:H2;
      apply AT_CUDA_CHECK_state in H2 as ->; [| cbn; rewrite Hs; reflexivity].
    rewrite bind_eq.
    destruct (call_ (cudaEventDestroy rt event) s1) as [[e3 | e] s3] eqn:H3;
      apply call__state in H3 as [w3 ->]; [| cbn; rewrite Hs; reflexivity].
    rewrite bind_eq.
    destruct (AT_CUDA_CHECK e3 (set_cuda w3 s1)) as [[[] | e] s4] eqn:H4;
      apply AT_CUDA_CHECK_state in H4 as ->; [| cbn; rewrite Hs; reflexivity].
    rewrite bind_update, bind_deref. rewrite bind_eq.
    match goal with |- context [(if ?c then free_block block else mret tt) ?x] =>
      destruct ((if c then free_block block else mret tt) x) as [[[] | e] s5] eqn:H5;
      assert (Hk : keeps cuda_events x s5) by
        (eapply (Frame_run _ (if c then free_block block else mret tt)); [| exact H5];
         destruct c; [apply free_block_keeps; intros ? ?; try intros ?;
                       try reflexivity; destruct small; reflexivity
                     | apply Frame_ret; typeclasses eauto])
    end.
    - rewrite bind_modify. apply suffix_cons_r. apply IH. reflexivity.
    - cbn. unfold keeps in Hk. rewrite Hk. cbn. rewrite Hs. reflexivity. }
  destruct err; exact Hgo.
Qed.

(** X8: whether it returns or throws, [process_events] leaves a suffix of
    the event queue it started with: events are only removed, and only from
    the front. *)
Theorem process_events_pops_a_prefix (s : State W) :
  cuda_events (snd (process_events rt s)) `suffix_of` cuda_events s.
Proof.
  unfold process_events. rewrite bind_gets. apply process_events_loop_suffix. reflexivity.
Qed.
End EventFacts.

Section ReleaseFacts.
Context {W : Type} (rt : CudaRuntime W).
Implicit Types (s : State W).

Lemma insert_events_loop_spec block streams :
  forall s s',
    insert_events_loop rt block streams s = (Ok tt, s') ->
    (forall q, q <> block -> heap s' !! q = heap s !! q) /\
    heap s' !!! block =
      set_event_count (event_count (heap s !!! block) + Z.of_nat (length streams))
                      (heap s !!! block) /\
    exists events,
      cuda_events s' = cuda_events s ++ events /\
      length events = length streams /\
      Forall (fun e => e.2 = block) events.
Proof.
  induction streams as [| stream rest IH]; intros s s' H.
  - injection H as <-. split; [reflexivity |]. split.
    + rewrite Z.add_0_r. destruct (heap s !!! block). reflexivity.
    + exists []. rewrite app_nil_r. repeat split. constructor.
  - cbn [insert_events_loop] in H.
    apply bind_Ok_inv in H as (e1 & s1 & H1 & H). apply call__state in H1 as [w1 ->].
    apply bind_Ok_inv in H as ([] & s2 & H2 & H). apply AT_CUDA_CHECK_state in H2 as ->.
    apply bind_Ok_inv in H as ([e3 event] & s3 & H3 & H). apply call_state in H3 as [w3 ->].
    apply bind_Ok_inv in H as ([] & s4 & H4 & H). apply AT_CUDA_CHECK_state in H4 as ->.
    apply bind_Ok_inv in H as (e5 & s5 & H5 & H). apply call__state in H5 as [w5 ->].
    apply bind_Ok_inv in H as ([] & s6 & H6 & H). apply AT_CUDA_CHECK_state in H6 as ->.
    rewrite bind_update, bind_modify in H.
    apply IH in H as (Hother & Hblock & events & Hq & Hlen & Hall).
    cbn [heap set_heap set_cuda set_cuda_events cuda_events] in *.
    split; [| split].
    + intros q Hq'. rewrite Hother by exact Hq'. apply lookup_insert_ne. congruence.
    + rewrite Hblock, lookup_total_insert_eq. unfold set_event_count.
      cbn [event_count device THC.stream stream_uses size ptr allocated prev next].
      f_equal. cbn [length]. lia.
    + exists ((event, block) :: events). rewrite Hq, <- app_assoc. split; [reflexivity |].
      split; [cbn [length]; lia | constructor; [reflexivity | exact Hall]].
Qed.

(** X7: when [insert_events] returns, the block's stream uses are cleared,
    its event count has grown by the number of stream uses it had, exactly
    that many events, all for this block, were appended to the event queue,
    and no other block changed. *)
Theorem insert_events_one_event_per_stream (block : positive) (s s' : State W) :
  insert_events rt block s = (Ok tt, s') ->
  let b := heap s !!! block in
  heap s' !!! block =
    set_event_count (event_count b + Z.of_nat (length (stream_uses b)))
                    (set_stream_uses [] b) /\
  (forall q, q <> block -> heap s' !! q = heap s !! q) /\
  exists events,
    cuda_events s' = cuda_events s ++ events /\
    length events = length (stream_uses b) /\
    Forall (fun e => e.2 = block) events.
Proof.
  intros H b. unfold insert_events in H.
  apply bind_Ok_inv in H as ([e1 d] & s1 & H1 & H). apply call_state in H1 as [w1 ->].
  apply bind_Ok_inv in H as ([] & s2 & H2 & H). apply AT_CUDA_CHECK_state in H2 as ->.
  rewrite bind_deref, bind_update in H.
  apply bind_Ok_inv in H as ([] & s3 & H3 & H).
  apply bind_Ok_inv in H as (e4 & s4 & H4 & H). apply call__state in H4 as [w4 ->].
  injection H as <-.
  apply insert_events_loop_spec in H3 as (Hother & Hblock & events & Hq & Hlen & Hall).
  cbn [heap set_heap set_cuda set_cuda_events cuda_events] in *.
  rewrite lookup_total_insert_eq in Hblock.
  split; [exact Hblock | split].
  - intros q Hq'. rewrite Hother by exact Hq'. apply lookup_insert_ne. congruence.
  - exists events. auto.
Qed.

(** *** Returning cached blocks to the driver *)

Lemma is_split_delete (h : gmap positive Block) p q :
  is_split (h !!! p) = false ->
  is_split (delete p h !!! q) = is_split (h !!! q).
Proof.
  intros Hp. destruct (decide (q = p)) as [-> | Hne].
  - rewrite lookup_total_delete_eq. rewrite Hp. reflexivity.
  - rewrite lookup_total_delete_ne by congruence. reflexivity.
Qed.

Lemma get_stats_for_device_state d s r s1 :
  get_stats_for_device d s = (r, s1) -> exists v, s1 = set_device_stats v s.
Proof.
  unfold get_stats_for_device, THAssert. destruct (0 <=? d).
  - rewrite bind_ret. unfold modify. intros [= _ <-].
    destruct (_ <=? _); [eauto |]. exists (device_stats s). destruct s; reflexivity.
  - intros [= _ <-]. exists (device_stats s). destruct s; reflexivity.
Qed.

Lemma filter_ext_in {A} (P Q : A -> Prop) `{!forall x, Decision (P x)}
    `{!forall x, Decision (Q x)} (l : list A) :
  (forall x, x ∈ l -> P x <-> Q x) -> filter P l = filter Q l.
Proof.
  induction l as [| x l IH]; intros Hext; [reflexivity |].
  rewrite !filter_cons.
  assert (Hl : filter P l = filter Q l).
  { apply IH. intros y Hy. apply Hext. right. exact Hy. }
  rewrite Hl. pose proof (Hext x ltac:(left)) as Hx.
  repeat case_decide; tauto.
Qed.

Lemma filter_all {A} (P : A -> Prop) `{!forall x, Decision (P x)} (l : list A) :
  (forall x, x ∈ l -> P x) -> filter P l = l.
Proof.
  induction l as [| x l IH]; intros Hall; [reflexivity |].
  rewrite filter_cons, decide_True by (apply Hall; left).
  f_equal. apply IH. intros y Hy. apply Hall. right. exact Hy.
Qed.

Lemma free_blocks_spec small range :
  forall s s',
    NoDup (pool small s) ->
    free_blocks rt small range s = (Ok tt, s') ->
    pool small s' =
      filter (fun q => ~ (q ∈ range /\ is_split (heap s !!! q) = false)) (pool small s) /\
    pool (negb small) s' = pool (negb small) s /\
    (forall q, heap s' !! q =
       if decide (q ∈ range /\ is_split (heap s !!! q) = false) then None
       else heap s !! q) /\
    allocated_blocks s' = allocated_blocks s.
Proof.
  induction range as [| block rest IH]; intros s s' Hnd H.
  { injection H as <-. split; [| split; [| split]]; try reflexivity.
    symmetry. apply filter_all. intros q _ [Hin _]. inversion Hin. }
  cbn [free_blocks] in H. rewrite bind_deref in H.
  destruct (is_split (heap s !!! block)) eqn:Hsplit.
  - assert (H' : free_blocks rt small rest s = (Ok tt, s')).
    { unfold is_split in Hsplit.
      destruct (prev (heap s !!! block)), (next (heap s !!! block));
        try exact H; discriminate Hsplit. }
    clear H. apply IH in H' as (Hpool & Hother & Hheap & Hmap); [| exact Hnd].
    split; [| split; [| split]]; try assumption.
    + rewrite Hpool. apply list_filter_iff. intros q.
      rewrite elem_of_cons. split; intros Hq [Hin Hun].
      * destruct Hin as [-> | Hin]; [congruence | tauto].
      * tauto.
    + intros q. rewrite Hheap. repeat case_decide; try reflexivity.
      * rewrite elem_of_cons in *. tauto.
      * rewrite elem_of_cons in *. destruct H0 as [[-> | Hin] Hun]; [congruence | tauto].
  - assert (Hnone : prev (heap s !!! block) = None /\ next (heap s !!! block) = None).
    { unfold is_split in Hsplit.
      destruct (prev (heap s !!! block)), (next (heap s !!! block));
        try discriminate Hsplit. split; reflexivity. }
    destruct Hnone as [Hprev Hnext]. rewrite Hprev, Hnext in H.
    apply bind_Ok_inv in H as (e1 & s1 & H1 & H). apply call__state in H1 as [w1 ->].
    apply bind_Ok_inv in H as ([] & s2 & H2 & H). apply AT_CUDA_CHECK_state in H2 as ->.
    apply bind_Ok_inv in H as ([] & s3 & H3 & H).
    apply get_stats_for_device_state in H3 as [v ->].
    rewrite bind_modify_stats, bind_modify_pool in H.
    unfold delete_Block in H. rewrite bind_modify in H.
    apply IH in H as (Hpool & Hother & Hheap & Hmap).
    2:{ destruct small; cbn; cbn in Hnd;
        rewrite erase_at_NoDup by exact Hnd; apply NoDup_filter, Hnd. }
    assert (Hp1 : pool small s' =
      filter (fun q => ~ (q ∈ rest /\ is_split (delete block (heap s) !!! q) = false))
        (erase_at block (pool small s))).
    { rewrite Hpool. destruct small; reflexivity. }
    assert (Hh1 : forall q, heap s' !! q =
       if decide (q ∈ rest /\ is_split (delete block (heap s) !!! q) = false) then None
       else delete block (heap s) !! q).
    { intros q. rewrite Hheap. destruct small; reflexivity. }
    clear Hpool Hheap.
    split; [| split; [| split]].
    + rewrite Hp1, erase_at_NoDup by exact Hnd. rewrite list_filter_filter.
      apply list_filter_iff. intros q. rewrite is_split_delete by exact Hsplit.
      rewrite elem_of_cons. split.
      * intros [Hq Hne] [[-> | Hin] Hun]; tauto.
      * intros Hq. split; [tauto |]. intros ->. tauto.
    + rewrite Hother. destruct small; reflexivity.
    + intros q. rewrite Hh1. rewrite is_split_delete by exact Hsplit.
      destruct (decide (q = block)) as [-> | Hne].
      * rewrite lookup_delete_eq. rewrite (decide_True (P := block ∈ block :: rest /\ _));
          [destruct (decide _); reflexivity |]. split; [left | exact Hsplit].
      * rewrite lookup_delete_ne by congruence.
        repeat case_decide; try reflexivity; rewrite elem_of_cons in *; tauto.
    + rewrite Hmap. destruct small; reflexivity.
Qed.

(** X9: when [emptyCache] returns, exactly the unsplit blocks (no [prev],
    no [next]) of the two pools have been removed from their pool and
    deleted; split blocks stay cached, every other block is untouched, and
    the allocated-blocks map is unchanged. *)
Theorem emptyCache_frees_unsplit_blocks (s s' : State W) :
  NoDup (large_blocks s) -> NoDup (small_blocks s) ->
  emptyCache rt s = (Ok tt, s') ->
  large_blocks s' = filter (fun q => is_split (heap s !!! q) = true) (large_blocks s) /\
  small_blocks s' = filter (fun q => is_split (heap s !!! q) = true) (small_blocks s) /\
  (forall q, heap s' !! q =
     if decide (q ∈ large_blocks s ++ small_blocks s /\ is_split (heap s !!! q) = false)
     then None else heap s !! q) /\
  allocated_blocks s' = allocated_blocks s.
Proof.
  intros Hl Hs H. unfold emptyCache in H. rewrite bind_get in H.
  apply bind_Ok_inv in H as ([] & s1 & H1 & H2). rewrite bind_get in H2.
  apply free_blocks_spec in H1 as (Hp1 & Ho1 & Hh1 & Hm1); [| exact Hl].
  cbn [pool negb] in Hp1, Ho1.
  apply free_blocks_spec in H2 as (Hp2 & Ho2 & Hh2 & Hm2); [| cbn [pool]; rewrite Ho1; exact Hs].
  cbn [pool negb] in Hp2, Ho2.
  assert (Hsplit1 : forall q, is_split (heap s1 !!! q) = is_split (heap s !!! q)).
  { intros q. rewrite (lookup_total_alt (heap s1)), Hh1.
    case_decide as Hq; [| rewrite <- lookup_total_alt; reflexivity].
    destruct Hq as [_ Hq]. rewrite Hq. reflexivity. }
  split; [| split; [| split]].
  - rewrite Ho2, Hp1. apply filter_ext_in. intros q Hq.
    destruct (is_split (heap s !!! q)); split; try tauto; try congruence.
    intros _ [_ ?]. discriminate.
  - rewrite Hp2, Ho1. apply filter_ext_in. intros q Hq. rewrite Hsplit1.
    destruct (is_split (heap s !!! q)); split; try tauto; try congruence.
    intros _ [_ ?]. discriminate.
  - intros q. rewrite Hh2, Hh1.
    repeat case_decide; try reflexivity;
      rewrite ?Hsplit1, ?Ho1, ?elem_of_app in *; tauto.
  - congruence.
Qed.
End ReleaseFacts.

(** The state after one allocation of 1000 bytes has been freed again. *)
Definition cached_once : State Z := snd (free bump_driver 4096 one_allocation).

(** The one allocation, used on a second stream. *)
Definition used_twice : State Z := snd (recordStream 4096 stream_9 one_allocation).

Lemma insert_events_one_event_per_stream_witness :
  let s' := snd (insert_events bump_driver 2%positive used_twice) in
  let b := heap used_twice !!! 2%positive in
  heap s' !!! 2%positive =
    set_event_count (event_count b + Z.of_nat (length (stream_uses b)))
                    (set_stream_uses [] b) /\
  (forall q, q <> 2%positive -> heap s' !! q = heap used_twice !! q) /\
  exists events,
    cuda_events s' = cuda_events used_twice ++ events /\
    length events = length (stream_uses b) /\
    Forall (fun e => e.2 = 2%positive) events.
Proof.
  apply (insert_events_one_event_per_stream bump_driver 2%positive used_twice).
  vm_compute. reflexivity.
Defined.

Lemma emptyCache_frees_unsplit_blocks_witness :
  let s := cached_once in
  let s' := snd (emptyCache bump_driver cached_once) in
  large_blocks s' = filter (fun q => is_split (heap s !!! q) = true) (large_blocks s) /\
  small_blocks s' = filter (fun q => is_split (heap s !!! q) = true) (small_blocks s) /\
  (forall q, heap s' !! q =
     if decide (q ∈ large_blocks s ++ small_blocks s /\ is_split (heap s !!! q) = false)
     then None else heap s !! q) /\
  allocated_blocks s' = allocated_blocks s.
Proof.
  apply (emptyCache_frees_unsplit_blocks bump_driver cached_once).
  - vm_compute. constructor.
  - vm_compute. apply NoDup_singleton.
  - vm_compute. reflexivity.
Defined.

Section MallocFacts.
Context {W : Type} (rt : CudaRuntime W).
Implicit Types (s : State W).

Lemma round_size_range sz : in_u64 (round_size sz).
Proof.
  unfold round_size. destruct (_ <? _); [unfold in_u64, kRoundSmall; lia |].
  destruct (_ <? _); apply wrap64_range.
Qed.

Lemma malloc_new_block_block device stream size small s block s' :
  malloc_new_block rt device stream size small s = (Ok block, s') ->
  exists p, heap s' !! block =
            Some (Block_new device stream (if small then kSmallAlloc else size) p).
Proof.
  unfold malloc_new_block. intros H.
  apply bind_Ok_inv in H as ([err p] & s1 & _ & H).
  apply bind_Ok_inv in H as ([] & s2 & _ & H).
  rewrite bind_modify_stats in H. unfold new_Block in H.
  injection H as <- <-. cbn [heap set_heap]. exists p. apply lookup_insert_eq.
Qed.

Lemma malloc_split_head device stream size small block s head s' :
  is_Some (heap s !! block) ->
  malloc_split device stream size small block s = (Ok head, s') ->
  let b := heap s !!! block in
  (split_threshold small <= wrap64 (THC.size b - size) /\
   THC.size (heap s' !!! head) = size /\ THC.stream (heap s' !!! head) = stream /\
   allocated (heap s' !!! head) = false) \/
  (wrap64 (THC.size b - size) < split_threshold small /\ head = block /\ s' = s).
Proof.
  intros Hin H b. unfold malloc_split in H. rewrite bind_deref in H. fold b in H.
  destruct (Z.leb_spec (split_threshold small) (wrap64 (THC.size b - size))) as [Hle | Hlt].
  - left. split; [exact Hle |].
    rewrite bind_new_Block, bind_update in H.
    set (fr := fresh (dom (heap s))) in *.
    assert (Hne : fr <> block).
    { intros Heq. apply (is_fresh (dom (heap s))). fold fr. rewrite Heq.
      apply elem_of_dom. exact Hin. }
    assert (Hkeep : forall (h : gmap positive Block) q (f : Block -> Block),
              (forall x, THC.size (f x) = THC.size x /\ THC.stream (f x) = THC.stream x /\
                         allocated (f x) = allocated x) ->
              THC.size (<[q := f (h !!! q)]> h !!! fr) = THC.size (h !!! fr) /\
              THC.stream (<[q := f (h !!! q)]> h !!! fr) = THC.stream (h !!! fr) /\
              allocated (<[q := f (h !!! q)]> h !!! fr) = allocated (h !!! fr)).
    { intros h q f Hf. destruct (decide (q = fr)) as [-> | Hq].
      - rewrite lookup_total_insert_eq. apply Hf.
      - rewrite lookup_total_insert_ne by exact Hq. auto. }
    assert (Hother : forall (h : gmap positive Block) (x : Block),
              <[block := x]> h !!! fr = h !!! fr).
    { intros h x. apply lookup_total_insert_ne. congruence. }
    assert (Hrest : forall s0,
      (update fr (set_next (Some block));;
       update block (set_prev (Some fr));;
       update block (fun r => set_ptr (wrap64 (ptr r + size)) r);;
       update block (fun r => set_size (wrap64 (THC.size r - size)) r);;
       modify_pool small (fun h l => set_insert h block l);;
       mret fr : M Exception (State W) _) s0 = (Ok head, s') ->
      head = fr /\ heap s' !!! fr = set_next (Some block) (heap s0 !!! fr)).
    { intros s0 Hrun. rewrite !bind_update, bind_modify_pool in Hrun.
      injection Hrun as <- <-. split; [reflexivity |].
      rewrite heap_set_pool. cbn [heap set_heap].
      rewrite !Hother. apply lookup_total_insert_eq. }
    destruct (prev b) as [pp |].
    + rewrite bind_update in H. apply Hrest in H as [-> ->].
      cbn [heap set_heap THC.size THC.stream allocated set_next].
      destruct (Hkeep (<[fr := set_prev (Some pp)
                   (<[fr := Block_new device stream size (ptr b)]> (heap s) !!! fr)]>
                 (<[fr := Block_new device stream size (ptr b)]> (heap s)))
                pp (set_next (Some fr))) as (-> & -> & ->); [intros []; auto |].
      rewrite !lookup_total_insert_eq. auto.
    + rewrite bind_ret in H. apply Hrest in H as [-> ->].
      cbn [heap set_heap THC.size THC.stream allocated set_next].
      rewrite !lookup_total_insert_eq. auto.
  - right. injection H as <- <-. auto.
Qed.

(** X3: with no events outstanding and pools that hold live blocks, a
    successful [malloc] records the returned pointer in the allocated-blocks
    map; its block is marked allocated, starts at the returned pointer,
    belongs to the requested stream, is at least as large as the rounded
    request, and exceeds it by less than the split threshold. *)
Theorem malloc_block_fits (s s1 : State W) (sz stream p : Z) :
  cuda_events s = [] ->
  (forall small q, q ∈ pool small s ->
     is_Some (heap s !! q) /\ in_u64 (size (heap s !!! q))) ->
  malloc rt sz stream s = (Ok p, s1) ->
  exists block,
    allocated_blocks s1 !! p = Some block /\
    let b := heap s1 !!! block in
    let small := round_size sz <=? kSmallAlloc in
    allocated b = true /\ ptr b = p /\ THC.stream b = stream /\
    round_size sz <= size b /\
    size b - round_size sz < split_threshold small.
Proof.
  intros Hev Hpool Hm. unfold malloc in Hm.
  apply bind_Ok_inv in Hm as ([e dev] & sa & Hcall & Hm).
  apply call_state in Hcall as [w ->].
  apply bind_Ok_inv in Hm as ([] & sa' & Hchk & Hm).
  apply AT_CUDA_CHECK_state in Hchk as ->.
  unfold process_events in Hm. rewrite bind_eq, bind_gets in Hm.
  cbn [cuda_events set_cuda] in Hm. rewrite Hev in Hm.
  cbn [process_events_loop] in Hm.
  unfold mret at 1, M_ret at 1, ret at 1 in Hm. cbv beta iota zeta in Hm.
  set (rs := round_size sz) in *. set (small := rs <=? kSmallAlloc) in *.
  pose proof (round_size_range sz) as Hrs. fold rs in Hrs.
  apply bind_Ok_inv in Hm as ([] & sc & Hgs & Hm).
  apply get_stats_for_device_state in Hgs as [v ->].
  rewrite bind_get in Hm.
  apply bind_Ok_inv in Hm as (block & sd & Hchoose & Hm).
  apply bind_Ok_inv in Hm as (block' & se & Hsplit & Hm).
  rewrite bind_update, bind_deref, bind_modify, bind_modify_stats in Hm.
  cbn [heap set_heap set_allocated_blocks] in Hm.
  rewrite lookup_total_insert_eq in Hm.
  injection Hm as Hptr Hs1.
  (* the block chosen *)
  assert (Hblock : exists b0, heap sd !! block = Some b0 /\ THC.stream b0 = stream /\
                     rs <= size b0 /\ in_u64 (size b0)).
  { cbn [heap set_device_stats set_cuda pool] in Hchoose.
    destruct (lower_bound (heap s) _ _) as [| found rest] eqn:Hlb.
    - apply malloc_new_block_block in Hchoose as [q Hq].
      eexists. split; [exact Hq |]. cbn [THC.stream size Block_new].
      split; [reflexivity |]. subst small. unfold kSmallAlloc in *.
      destruct (Z.leb_spec rs 1048576); unfold in_u64 in *; lia.
    - destruct (_ && _) eqn:Hmatch.
      + rewrite bind_modify_pool in Hchoose. injection Hchoose as <- <-.
        rewrite heap_set_pool. cbn [heap set_device_stats set_cuda].
        pose proof (lower_bound_head _ _ _ _ _ Hlb) as Hhead.
        apply BlockComparator_false in Hhead.
        cbn [device THC.stream size ptr Block_new] in Hhead.
        apply andb_true_iff in Hmatch as [Hd Hst].
        apply Z.eqb_eq in Hd, Hst.
        assert (Hin : found ∈ pool small s).
        { pose proof (lower_bound_suffix (heap s) (Block_new dev stream rs 0)
                        (pool small s)) as [pre Hpre].
          destruct small; cbn [pool] in *;
            cbn [small_blocks large_blocks set_device_stats set_cuda] in Hlb;
            rewrite Hlb in Hpre; rewrite Hpre;
            apply elem_of_app; right; left. }
        destruct (Hpool _ _ Hin) as [[b0 Hb0] Hu].
        exists b0. split; [exact Hb0 |].
        rewrite (lookup_total_correct _ _ _ Hb0) in *.
        split; [exact Hst |]. split; [lia | exact Hu].
      + apply malloc_new_block_block in Hchoose as [q Hq].
        eexists. split; [exact Hq |]. cbn [THC.stream size Block_new].
        split; [reflexivity |]. subst small. unfold kSmallAlloc in *.
        destruct (Z.leb_spec rs 1048576); unfold in_u64 in *; lia. }
  destruct Hblock as (b0 & Hb0 & Hst0 & Hsz0 & Hu0).
  apply malloc_split_head in Hsplit; [| eexists; exact Hb0].
  rewrite (lookup_total_correct _ _ _ Hb0) in Hsplit. cbv zeta in Hsplit.
  exists block'. split.
  { rewrite <- Hs1, <- Hptr. cbn [allocated_blocks set_device_stats set_allocated_blocks].
    apply lookup_insert_eq. }
  assert (Hheap1 : heap s1 !!! block' = set_allocated true (heap se !!! block')).
  { rewrite <- Hs1. cbn [heap set_device_stats set_allocated_blocks set_heap].
    apply lookup_total_insert_eq. }
  cbv zeta. rewrite Hheap1. cbn [allocated ptr THC.stream size set_allocated].
  split; [reflexivity |]. split; [exact Hptr |].
  destruct Hsplit as [(Hthr & Hsize & Hstream & _) | (Hthr & -> & ->)].
  - rewrite Hsize, Hstream. split; [reflexivity |]. split; [lia |].
    unfold split_threshold, kRoundSmall, kSmallAlloc. destruct small; lia.
  - rewrite (lookup_total_correct _ _ _ Hb0).
    split; [exact Hst0 |]. split; [exact Hsz0 |].
    rewrite wrap64_small in Hthr by (unfold in_u64 in *; lia). exact Hthr.
Qed.
End MallocFacts.

Lemma malloc_block_fits_witness :
  exists block,
    allocated_blocks one_allocation !! 4096 = Some block /\
    let b := heap one_allocation !!! block in
    let small := round_size 1000 <=? kSmallAlloc in
    allocated b = true /\ ptr b = 4096 /\ THC.stream b = 7 /\
    round_size 1000 <= size b /\
    size b - round_size 1000 < split_threshold small.
Proof.
  apply (malloc_block_fits bump_driver fresh_allocator one_allocation 1000 7 4096).
  - reflexivity.
  - intros [|] q Hq; inversion Hq.
  - vm_compute. reflexivity.
Defined.

Section Coalesce.
Context {W : Type}.
Implicit Types (s : State W).

Lemma bind_THAssert_true {B} (k : unit -> M Exception (State W) B) s :
  (THAssert true ≫= k) s = k tt s.
Proof. reflexivity. Qed.

Lemma try_merge_blocks_in_use dst src small s :
  allocated (heap s !!! src) = true ->
  try_merge_blocks dst (Some src) small s = (Ok tt, s).
Proof.
  intros Ha. unfold try_merge_blocks. rewrite bind_deref, Ha. reflexivity.
Qed.

(** X4: freeing the head of a split at once undoes the split.  For a free
    block with no outstanding events whose [prev] neighbour, if any, is in
    use: [malloc_split] splits it, [free_block] on the new head merges the
    tail back and deletes the tail's [Block], and the head ends up with the
    size, address, [prev] and [next] the block had before the split. *)
Theorem split_then_free_block_coalesces (s : State W)
    (device stream size : Z) (block : positive) :
  let b := heap s !!! block in
  let small := size <=? kSmallAlloc in
  is_Some (heap s !! block) ->
  allocated b = false -> event_count b = 0 ->
  in_u64 (THC.size b) -> 0 <= size ->
  split_threshold small <= THC.size b - size ->
  (forall pp, prev b = Some pp ->
     is_Some (heap s !! pp) /\ allocated (heap s !!! pp) = true) ->
  (forall nn, next b = Some nn -> is_Some (heap s !! nn)) ->
  exists head s1 s2,
    malloc_split device stream size small block s = (Ok head, s1) /\
    free_block head s1 = (Ok tt, s2) /\
    heap s2 !! block = None /\
    heap s2 !!! head =
      mkBlock device stream [] (THC.size b) (ptr b) false (prev b) (next b) 0.
Proof.
  intros b small Hin Halloc Hev Hu Hsize Hthr Hprev Hnext.
  assert (Hthr0 : 0 <= split_threshold small).
  { unfold split_threshold, kRoundSmall, kSmallAlloc. destruct small; lia. }
  set (head := fresh (dom (heap s))).
  assert (Hfresh : forall q, is_Some (heap s !! q) -> q <> head).
  { intros q Hq Heq. apply (is_fresh (dom (heap s))). fold head. rewrite <- Heq.
    apply elem_of_dom. exact Hq. }
  pose proof (Hfresh _ Hin) as Hne.
  assert (Hleft : wrap64 (THC.size b - size) = THC.size b - size).
  { apply wrap64_small. unfold in_u64 in *. lia. }
  assert (Hsplit : exists s1,
    malloc_split device stream size small block s = (Ok head, s1) /\
    heap s1 !!! head =
      mkBlock device stream [] size (ptr b) false (prev b) (Some block) 0 /\
    heap s1 !!! block =
      mkBlock (THC.device b) (THC.stream b) (stream_uses b) (THC.size b - size)
              (wrap64 (ptr b + size)) false (Some head) (next b) 0 /\
    (forall pp, prev b = Some pp -> allocated (heap s1 !!! pp) = true) /\
    (forall q, is_Some (heap s !! q) -> is_Some (heap s1 !! q))).
  { unfold malloc_split. rewrite bind_deref. fold b. rewrite Hleft.
    destruct (Z.leb_spec (split_threshold small) (THC.size b - size)) as [_ | Hlt]; [| lia].
    rewrite bind_new_Block, bind_update. fold head.
    destruct (prev b) as [pp |] eqn:Hpp.
    - destruct (Hprev pp eq_refl) as [Hpin Hpa].
      pose proof (Hfresh _ Hpin) as Hpne.
      assert (Hpb : pp <> block) by (intros ->; fold b in Hpa; congruence).
      rewrite !bind_update, bind_modify_pool. eexists. split; [reflexivity |].
      rewrite heap_set_pool. cbn [heap set_heap].
      repeat split.
      + rewrite !(lookup_total_insert_ne _ block head) by congruence.
        rewrite lookup_total_insert_eq.
        rewrite (lookup_total_insert_ne _ pp head) by congruence.
        rewrite !lookup_total_insert_eq. reflexivity.
      + rewrite !lookup_total_insert_eq.
        rewrite (lookup_total_insert_ne _ head block) by congruence.
        rewrite (lookup_total_insert_ne _ pp block) by congruence.
        rewrite !(lookup_total_insert_ne _ head block) by congruence.
        fold b. unfold set_size, set_ptr, set_prev.
        cbn [THC.device THC.stream stream_uses THC.size ptr allocated prev next event_count].
        rewrite Hleft, Halloc, Hev. reflexivity.
      + intros pp' [= <-].
        rewrite !(lookup_total_insert_ne _ block pp) by congruence.
        rewrite (lookup_total_insert_ne _ head pp) by congruence.
        rewrite lookup_total_insert_eq.
        rewrite !(lookup_total_insert_ne _ head pp) by congruence.
        cbn [allocated set_next]. exact Hpa.
      + intros q [x Hq].
        repeat (apply lookup_insert_is_Some'; right). eauto.
    - rewrite bind_ret, !bind_update, bind_modify_pool. eexists. split; [reflexivity |].
      rewrite heap_set_pool. cbn [heap set_heap].
      repeat split.
      + rewrite !(lookup_total_insert_ne _ block head) by congruence.
        rewrite !lookup_total_insert_eq. reflexivity.
      + rewrite !lookup_total_insert_eq.
        rewrite !(lookup_total_insert_ne _ head block) by congruence.
        fold b. unfold set_size, set_ptr, set_prev.
        cbn [THC.device THC.stream stream_uses THC.size ptr allocated prev next event_count].
        rewrite Hleft, Halloc, Hev. reflexivity.
      + intros pp' [=].
      + intros q [x Hq].
        repeat (apply lookup_insert_is_Some'; right). eauto. }
  destruct Hsplit as (s1 & Hrun & Hhead1 & Htail1 & Hpp1 & Hlive1).
  cut (exists s2, free_block head s1 = (Ok tt, s2) /\ heap s2 !! block = None /\
         heap s2 !!! head =
           mkBlock device stream [] (THC.size b) (ptr b) false (prev b) (next b) 0).
  { intros (s2 & Hfree & Hgone & Hwhole). exists head, s1, s2. auto. }
  clear Hrun.
  (* the free *)
  destruct (free_block head s1) as [r s2] eqn:Hfree. exists s2.
  unfold free_block in Hfree. rewrite bind_deref, Hhead1 in Hfree.
  cbn [allocated event_count THC.size prev next negb andb Z.eqb] in Hfree.
  rewrite bind_THAssert_true in Hfree. fold small in Hfree.
  assert (Hfirst : try_merge_blocks head (prev b) small s1 = (Ok tt, s1)).
  { destruct (prev b) as [pp |] eqn:Hpp; [| reflexivity].
    apply try_merge_blocks_in_use. apply Hpp1. reflexivity. }
  rewrite (bind_Ok _ _ _ _ _ Hfirst) in Hfree. cbv beta in Hfree.
  rewrite bind_deref, Hhead1 in Hfree. cbn [next] in Hfree.
  unfold try_merge_blocks in Hfree. cbv beta iota in Hfree.
  rewrite bind_assoc, bind_deref, Htail1 in Hfree.
  cbn [allocated event_count prev next THC.size ptr orb Z.ltb Z.compare] in Hfree.
  rewrite bind_assoc, bind_deref, Hhead1 in Hfree.
  cbn [allocated event_count prev next THC.size ptr orb Z.ltb Z.compare] in Hfree.
  assert (Hnot : bool_decide (prev b = Some block) = false).
  { apply bool_decide_eq_false. intros Hpb. destruct (Hprev _ Hpb) as [_ Ha].
    fold b in Ha. congruence. }
  rewrite Hnot in Hfree. unfold delete_Block in Hfree.
  assert (Hsum : wrap64 (size + (THC.size b - size)) = THC.size b).
  { replace (size + (THC.size b - size)) with (THC.size b) by lia.
    apply wrap64_small. exact Hu. }
  destruct (next b) as [nn |] eqn:Hnn.
  - pose proof (Hfresh _ (Hnext nn eq_refl)) as Hnh.
    repeat (rewrite ?bind_assoc, ?bind_update, ?bind_modify_pool, ?bind_modify in Hfree;
            cbv beta in Hfree).
    unfold modify_pool, modify in Hfree. injection Hfree as <- <-.
    split; [reflexivity |].
    rewrite !heap_set_pool. cbn [heap set_heap]. split.
    + apply lookup_delete_eq.
    + rewrite lookup_total_delete_ne by congruence.
      rewrite lookup_total_insert_eq.
      rewrite (lookup_total_insert_ne _ nn head) by congruence.
      rewrite lookup_total_insert_eq, Hhead1.
      cbn. rewrite Hsum. reflexivity.
  - repeat (rewrite ?bind_assoc, ?bind_update, ?bind_modify_pool, ?bind_modify,
              ?bind_ret in Hfree; cbv beta in Hfree).
    unfold modify_pool, modify in Hfree. injection Hfree as <- <-.
    split; [reflexivity |].
    rewrite !heap_set_pool. cbn [heap set_heap]. split.
    + apply lookup_delete_eq.
    + rewrite lookup_total_delete_ne by congruence.
      rewrite !lookup_total_insert_eq, Hhead1.
      cbn. rewrite Hsum. reflexivity.
Qed.
End Coalesce.

Lemma split_then_free_block_coalesces_witness :
  exists head s1 s2,
    malloc_split 0 7 1048064 true 1%positive one_segment = (Ok head, s1) /\
    free_block head s1 = (Ok tt, s2) /\
    heap s2 !! 1%positive = None /\
    heap s2 !!! head = mkBlock 0 7 [] 1048576 4096 false None None 0.
Proof.
  apply (split_then_free_block_coalesces one_segment 0 7 1048064 1%positive).
  - exists (Block_new 0 7 1048576 4096). reflexivity.
  - reflexivity.
  - reflexivity.
  - vm_compute. split; [discriminate | reflexivity].
  - lia.
  - vm_compute. discriminate.
  - intros pp Hpp. vm_compute in Hpp. discriminate Hpp.
  - intros nn Hnn. vm_compute in Hnn. discriminate Hnn.
Defined.

(** *** [getBaseAllocation] *)

(** What a call of [getBaseAllocation] ends with when it does not return:
    an exception, or no end at all, when the [prev] or [next] links of the
    blocks form a cycle. *)
Inductive GetBaseError :=
| Thrown (e : Exception)
| NeverReturns.

Section GetBase.
Context {W : Type}.

(** [while (block->prev) block = block->prev;]: more turns than there are
    blocks means the links form a cycle. *)
Fixpoint first_of_segment (h : gmap positive Block) (fuel : nat) (block : BlockPtr)
    : option BlockPtr :=
  match prev (h !!! block) with
  | None => Some block
  | Some p =>
      match fuel with
      | O => None
      | S fuel' => first_of_segment h fuel' p
      end
  end.

(** [while (block) { size += block->size; block = block->next; }] *)
Fixpoint size_of_segment (h : gmap positive Block) (fuel : nat) (block : option BlockPtr)
    (size : Z) : option Z :=
  match block with
  | None => Some size
  | Some b =>
      match fuel with
      | O => None
      | S fuel' =>
          size_of_segment h fuel' (next (h !!! b)) (wrap64 (size + THC.size (h !!! b)))
      end
  end.

(** [void* getBaseAllocation(void* ptr, size_t* outSize)]; [outSize] tells
    whether the pointer [outSize] is non-null, and the size written through
    it is returned with the base pointer. *)
Definition getBaseAllocation (ptr : Z) (outSize : bool)
    : M GetBaseError (State W) (Z * option Z) :=
  block ← gets (fun s => allocated_blocks s !! ptr);
  match block with
  | None => throw (Thrown (InvalidPointer ptr))
  | Some block =>
      s ← get;
      let h := heap s in
      match first_of_segment h (base.size h) block with
      | None => throw NeverReturns
      | Some block =>
          let basePtr := THC.ptr (h !!! block) in
          if outSize then
            match size_of_segment h (base.size h) (Some block) 0 with
            | None => throw NeverReturns
            | Some size => mret (basePtr, Some size)
            end
          else mret (basePtr, None)
      end
  end.

(** The blocks [l] are linked one after another, the first one after
    [before]. *)
Fixpoint linked (h : gmap positive Block) (before : option BlockPtr) (l : list BlockPtr)
    : Prop :=
  match l with
  | [] => True
  | b :: l' =>
      prev (h !!! b) = before /\ next (h !!! b) = head l' /\ linked h (Some b) l'
  end.

(** The blocks [l] are the pieces of one segment, in address order. *)
Definition segment (h : gmap positive Block) (l : list BlockPtr) : Prop :=
  linked h None l /\ NoDup l /\ forall b, b ∈ l -> is_Some (h !! b).

Definition total_of (h : gmap positive Block) (l : list BlockPtr) : Z :=
  foldr (fun b acc => THC.size (h !!! b) + acc) 0 l.

Lemma first_of_segment_linked h : forall l1 l2 b fuel,
  linked h None (l1 ++ b :: l2) ->
  (length l1 <= fuel)%nat ->
  first_of_segment h fuel b = Some (default b (head l1)).
Proof.
  induction l1 as [| a l1 IH] using rev_ind; intros l2 b fuel Hl Hfuel.
  - cbn [app linked] in Hl. destruct Hl as (Hprev & _).
    destruct fuel; cbn [first_of_segment]; rewrite Hprev; reflexivity.
  - rewrite <- app_assoc in Hl. cbn [app] in Hl.
    assert (Hprev : prev (h !!! b) = Some a).
    { clear -Hl. revert Hl. generalize (@None BlockPtr).
      induction l1 as [| c l1 IH]; intros before Hl.
      - cbn [app linked] in Hl. apply Hl.
      - cbn [app linked] in Hl. destruct Hl as (_ & _ & Hl). eapply IH, Hl. }
    rewrite length_app in Hfuel. cbn [length] in Hfuel.
    destruct fuel as [| fuel]; [lia |]. cbn [first_of_segment]. rewrite Hprev.
    rewrite (IH (b :: l2) a fuel Hl) by lia.
    destruct l1; reflexivity.
Qed.

Lemma wrap64_add_wrap a b : wrap64 (wrap64 a + b) = wrap64 (a + b).
Proof. unfold wrap64. rewrite Zplus_mod_idemp_l. reflexivity. Qed.

Lemma size_of_segment_linked h : forall l before fuel acc,
  linked h before l ->
  (length l <= fuel)%nat ->
  size_of_segment h fuel (head l) (wrap64 acc) = Some (wrap64 (acc + total_of h l)).
Proof.
  induction l as [| b l IH]; intros before fuel acc Hl Hfuel.
  - cbn [head total_of foldr]. destruct fuel; cbn [size_of_segment];
      rewrite Z.add_0_r; reflexivity.
  - cbn [head]. destruct fuel as [| fuel]; [cbn [length] in Hfuel; lia |].
    cbn [size_of_segment]. destruct Hl as (_ & Hnext & Hl). rewrite Hnext.
    rewrite wrap64_add_wrap. rewrite (IH (Some b) fuel _ Hl) by (cbn [length] in Hfuel; lia).
    cbn [total_of foldr]. f_equal. f_equal. unfold total_of. lia.
Qed.

Lemma segment_length_le_size h l : segment h l -> (length l <= base.size h)%nat.
Proof.
  intros (_ & Hnd & Hlive).
  rewrite <- size_dom, <- (size_list_to_set (C := gset positive) l) by exact Hnd.
  apply subseteq_size. intros b Hb. apply elem_of_list_to_set in Hb.
  apply elem_of_dom. apply Hlive, Hb.
Qed.

(** X30: [getBaseAllocation] finds the segment of a piece.  For a pointer
    the allocator does not know it raises [InvalidPointer] and changes
    nothing.  For the pointer of a block that is a piece of a segment, it
    returns the address of the first piece and, when asked for it, the sum
    of the sizes of all pieces (in 64-bit arithmetic), and changes
    nothing. *)
Theorem getBaseAllocation_of_a_piece (s : State W) (ptr : Z) :
  (allocated_blocks s !! ptr = None ->
   forall outSize,
     getBaseAllocation ptr outSize s = (Err (Thrown (InvalidPointer ptr)), s)) /\
  (forall (l1 l2 : list BlockPtr) (block : BlockPtr),
     allocated_blocks s !! ptr = Some block ->
     segment (heap s) (l1 ++ block :: l2) ->
     getBaseAllocation ptr true s
     = (Ok (THC.ptr (heap s !!! default block (head l1)),
            Some (wrap64 (total_of (heap s) (l1 ++ block :: l2)))), s) /\
     getBaseAllocation ptr false s
     = (Ok (THC.ptr (heap s !!! default block (head l1)), None), s)).
Proof.
  split.
  { intros Hptr outSize. unfold getBaseAllocation. rewrite bind_gets, Hptr. reflexivity. }
  intros l1 l2 block Hptr Hseg. pose proof (segment_length_le_size _ _ Hseg) as Hlen.
  destruct Hseg as (Hl & Hnd & Hlive).
  rewrite length_app in Hlen. cbn [length] in Hlen.
  assert (Hfirst : first_of_segment (heap s) (base.size (heap s)) block
                   = Some (default block (head l1))).
  { apply (first_of_segment_linked (heap s) l1 l2); [exact Hl | lia]. }
  assert (Hsize : size_of_segment (heap s) (base.size (heap s))
                    (Some (default block (head l1))) 0
                  = Some (wrap64 (total_of (heap s) (l1 ++ block :: l2)))).
  { pose proof (size_of_segment_linked (heap s) (l1 ++ block :: l2) None
                  (base.size (heap s)) 0 Hl) as H.
    replace (head (l1 ++ block :: l2)) with (Some (default block (head l1))) in H
      by (destruct l1; reflexivity).
    apply H. rewrite length_app. cbn [length]. lia. }
  unfold getBaseAllocation. rewrite !bind_gets, Hptr, !bind_get. cbv zeta.
  rewrite Hfirst, Hsize. split; reflexivity.
Qed.

End GetBase.

Lemma one_allocation_segment : segment (heap one_allocation) ([] ++ 2%positive :: [1%positive]).
Proof.
  split; [| split].
  - cbn [app linked]. repeat split; vm_compute; reflexivity.
  - cbn [app]. apply NoDup_cons. split; [| apply NoDup_singleton].
    intros Hin. apply list_elem_of_singleton in Hin. discriminate Hin.
  - intros b Hb. cbn [app] in Hb.
    apply elem_of_cons in Hb as [-> | Hb];
      [| apply list_elem_of_singleton in Hb as ->]; vm_compute; eexists; reflexivity.
Qed.

Lemma getBaseAllocation_of_a_piece_witness :
  getBaseAllocation 8 true one_allocation
  = (Err (Thrown (InvalidPointer 8)), one_allocation) /\
  getBaseAllocation 4096 true one_allocation
  = (Ok (4096, Some 1048576), one_allocation).
Proof.
  split.
  - apply (getBaseAllocation_of_a_piece one_allocation 8). vm_compute. reflexivity.
  - destruct (getBaseAllocation_of_a_piece one_allocation 4096) as [_ H].
    destruct (H [] [1%positive] 2%positive) as [Hsize _].
    + vm_compute. reflexivity.
    + apply one_allocation_segment.
    + rewrite Hsize. f_equal.
Defined.

End THC.


(** ** aten/src/ATen/core/type.cpp *)

Module Types.

Inductive TypeKind :=
| DynamicTypeKind | TensorTypeKind | CompleteTensorTypeKind | UndefinedTensorTypeKind
| NumberTypeKind | IntTypeKind | FloatTypeKind | BoolTypeKind | NoneTypeKind
| StringTypeKind | GeneratorTypeKind | TupleTypeKind | ListTypeKind
| OptionalTypeKind | FutureTypeKind | VarTypeKind.

(** The closed variant of types the IR consumes. *)
#[warnings="-register-all"]
Inductive TypePtr :=
| DynamicType
| TensorType (scalarType : Z) (dim : Z)
| CompleteTensorType (scalarType : Z) (sizes strides : list Z)
| UndefinedTensorType
| NumberType
| IntType
| FloatType
| BoolType
| NoneType
| StringType
| GeneratorType
| TupleType (elements : list TypePtr)
| ListType (elem : TypePtr)
| OptionalType (elem : TypePtr)
| FutureType (elem : TypePtr)
| VarType (name : string).

#[global] Instance TypeKind_eq_dec : EqDecision TypeKind.
Proof. solve_decision. Defined.

Definition kind (t : TypePtr) : TypeKind :=
  match t with
  | DynamicType => DynamicTypeKind
  | TensorType _ _ => TensorTypeKind
  | CompleteTensorType _ _ _ => CompleteTensorTypeKind
  | UndefinedTensorType => UndefinedTensorTypeKind
  | NumberType => NumberTypeKind
  | IntType => IntTypeKind
  | FloatType => FloatTypeKind
  | BoolType => BoolTypeKind
  | NoneType => NoneTypeKind
  | StringType => StringTypeKind
  | GeneratorType => GeneratorTypeKind
  | TupleType _ => TupleTypeKind
  | ListType _ => ListTypeKind
  | OptionalType _ => OptionalTypeKind
  | FutureType _ => FutureTypeKind
  | VarType _ => VarTypeKind
  end.

(** The element-wise unification of two tuples, [None] unless the arities
    agree and every pair unifies under [unify]. *)
Fixpoint elementwise (unify : TypePtr -> TypePtr -> option TypePtr)
    (xs ys : list TypePtr) : option (list TypePtr) :=
  match xs, ys with
  | [], [] => Some []
  | x :: xs', y :: ys' =>
      match unify x y, elementwise unify xs' ys' with
      | Some e, Some es => Some (e :: es)
      | _, _ => None
      end
  | _, _ => None
  end.

(** The loop of [unifyTypes] over two tuples of the same size: it pushes
    each unified element to [elements] and gives up at the first failure. *)
Fixpoint unify_elements (unify : TypePtr -> TypePtr -> option TypePtr)
    (l1 l2 elements : list TypePtr) : option TypePtr :=
  match l1, l2 with
  | a :: l1', b :: l2' =>
      match unify a b with
      | Some elem => unify_elements unify l1' l2' (elements ++ [elem])
      | None => None
      end
  | _, _ => Some (TupleType elements)
  end.

Section Unify.
(** Modelled from the spec: [Type::isSubtypeOf], the subtype check that
    every type implements, is declared in ATen/core/jit_type.h, which is not
    among the sources.  It is a parameter here. *)
Variable isSubtypeOf : TypePtr -> TypePtr -> bool.

(** [c10::optional<TypePtr> unifyTypes(const TypePtr& t1, const TypePtr& t2)] *)
Fixpoint unifyTypes (t1 t2 : TypePtr) {struct t1} : option TypePtr :=
  (* cases that t1 == t2, or t1 is a type refinement of t2 and vice versa *)
  if isSubtypeOf t1 t2 then Some t2
  else if isSubtypeOf t2 t1 then Some t1
  else if isSubtypeOf t1 DynamicType && isSubtypeOf t2 DynamicType then Some DynamicType
  (* if t1 is None and t2 is a concrete type, return Optional[t2] and vice versa *)
  else if isSubtypeOf t1 NoneType && negb (isSubtypeOf t2 NoneType) then Some (OptionalType t2)
  else if isSubtypeOf t2 NoneType && negb (isSubtypeOf t1 NoneType) then Some (OptionalType t1)
  else
    (* types which contain other types *)
    match t1, t2 with
    | ListType e1, ListType e2 =>
        match unifyTypes e1 e2 with
        | Some unified_type => Some (ListType unified_type)
        | None => None
        end
    | TupleType elements1, TupleType elements2 =>
        if negb (length elements1 =? length elements2)%nat then None
        else unify_elements unifyTypes elements1 elements2 []
    | _, _ => None
    end.

(** What the unification needs of the subtype check. *)
Record SubtypeFacts : Prop := {
  sub_refl : forall t, isSubtypeOf t t = true;
  sub_antisym : forall a b,
    isSubtypeOf a b = true -> isSubtypeOf b a = true -> a = b;
  sub_tuple : forall xs ys,
    isSubtypeOf (TupleType xs) (TupleType ys) = true ->
    Forall2 (fun x y => isSubtypeOf x y = true) xs ys;
  sub_list : forall a b,
    isSubtypeOf (ListType a) (ListType b) = true -> isSubtypeOf a b = true;
  sub_tuple_not_tensor : forall xs, isSubtypeOf (TupleType xs) DynamicType = false;
  sub_list_not_tensor : forall a, isSubtypeOf (ListType a) DynamicType = false;
  sub_tuple_not_none : forall xs, isSubtypeOf (TupleType xs) NoneType = false;
  sub_list_not_none : forall a, isSubtypeOf (ListType a) NoneType = false;
  sub_none_not_tensor : isSubtypeOf NoneType DynamicType = false
}.

End Unify.

(** *** A subtype check to run the code with

    Equal types, tensors below the dynamic tensor, [int] and [float] below
    [Number], [None] and [T] below [Optional[T]], covariant tuples. *)

Fixpoint type_eqb (a b : TypePtr) {struct a} : bool :=
  match a, b with
  | DynamicType, DynamicType => true
  | TensorType s d, TensorType s' d' => bool_decide (s = s') && bool_decide (d = d')
  | CompleteTensorType s sz st, CompleteTensorType s' sz' st' =>
      bool_decide (s = s') && bool_decide (sz = sz') && bool_decide (st = st')
  | UndefinedTensorType, UndefinedTensorType => true
  | NumberType, NumberType => true
  | IntType, IntType => true
  | FloatType, FloatType => true
  | BoolType, BoolType => true
  | NoneType, NoneType => true
  | StringType, StringType => true
  | GeneratorType, GeneratorType => true
  | TupleType xs, TupleType ys =>
      (fix go (xs ys : list TypePtr) {struct xs} : bool :=
         match xs, ys with
         | [], [] => true
         | x :: xs', y :: ys' => type_eqb x y && go xs' ys'
         | _, _ => false
         end) xs ys
  | ListType e, ListType e' => type_eqb e e'
  | OptionalType e, OptionalType e' => type_eqb e e'
  | FutureType e, FutureType e' => type_eqb e e'
  | VarType n, VarType n' => bool_decide (n = n')
  | _, _ => false
  end.

Definition is_tensor (t : TypePtr) : bool :=
  match t with
  | DynamicType | TensorType _ _ | CompleteTensorType _ _ _ | UndefinedTensorType => true
  | _ => false
  end.

Fixpoint subtype (t rhs : TypePtr) {struct rhs} : bool :=
  match rhs with
  | OptionalType e' =>
      match t with
      | OptionalType e => subtype e e'
      | NoneType => true
      | TupleType _ => false
      | _ => subtype t e'
      end
  | TupleType ys =>
      match t with
      | TupleType xs =>
          (fix go (ys xs : list TypePtr) {struct ys} : bool :=
             match xs, ys with
             | [], [] => true
             | x :: xs', y :: ys' => subtype x y && go ys' xs'
             | _, _ => false
             end) ys xs
      | _ => false
      end
  | DynamicType => is_tensor t
  | NumberType =>
      match t with NumberType | IntType | FloatType => true | _ => false end
  | _ => type_eqb t rhs
  end.

(** *** Facts about the types *)

Lemma TypePtr_nested_ind (P : TypePtr -> Prop) :
  P DynamicType -> (forall s d, P (TensorType s d)) ->
  (forall s sz st, P (CompleteTensorType s sz st)) ->
  P UndefinedTensorType -> P NumberType -> P IntType -> P FloatType ->
  P BoolType -> P NoneType -> P StringType -> P GeneratorType ->
  (forall xs, Forall P xs -> P (TupleType xs)) ->
  (forall e, P e -> P (ListType e)) ->
  (forall e, P e -> P (OptionalType e)) ->
  (forall e, P e -> P (FutureType e)) ->
  (forall n, P (VarType n)) ->
  forall t, P t.
Proof.
  intros HD HT HC HU HN HI HF HB HNo HS HG HTu HL HO HFu HV.
  fix IH 1. intros [ | | | | | | | | | | | xs | e | e | e | n].
  - exact HD.
  - apply HT.
  - apply HC.
  - exact HU.
  - exact HN.
  - exact HI.
  - exact HF.
  - exact HB.
  - exact HNo.
  - exact HS.
  - exact HG.
  - apply HTu. induction xs as [| x xs IHxs]; constructor; [apply IH | exact IHxs].
  - apply HL, IH.
  - apply HO, IH.
  - apply HFu, IH.
  - apply HV.
Qed.

Lemma type_eqb_eq a : forall b, type_eqb a b = true -> a = b.
Proof.
  induction a using TypePtr_nested_ind; intros [] Heq; simpl in Heq;
    try discriminate; try reflexivity.
  - apply andb_true_iff in Heq as [H1 H2].
    apply bool_decide_eq_true in H1, H2. congruence.
  - apply andb_true_iff in Heq as [H12 H3]. apply andb_true_iff in H12 as [H1 H2].
    apply bool_decide_eq_true in H1, H2, H3. congruence.
  - f_equal. revert elements Heq.
    induction H as [| x xs Hx Hxs IH]; intros [| y ys] Heq; try discriminate;
      [reflexivity |].
    apply andb_true_iff in Heq as [H1 H2]. f_equal; [apply Hx, H1 | apply IH, H2].
  - f_equal. apply IHa, Heq.
  - f_equal. apply IHa, Heq.
  - f_equal. apply IHa, Heq.
  - apply bool_decide_eq_true in Heq. congruence.
Qed.

Lemma type_eqb_refl a : type_eqb a a = true.
Proof.
  induction a using TypePtr_nested_ind; simpl; auto.
  - rewrite !bool_decide_eq_true_2 by reflexivity. reflexivity.
  - rewrite !bool_decide_eq_true_2 by reflexivity. reflexivity.
  - induction H as [| x xs Hx Hxs IH]; [reflexivity |].
    rewrite Hx. exact IH.
  - apply bool_decide_eq_true_2. reflexivity.
Qed.

Lemma subtype_refl t : subtype t t = true.
Proof.
  induction t using TypePtr_nested_ind; simpl; auto using type_eqb_refl.
  all: try (rewrite !bool_decide_eq_true_2 by reflexivity; reflexivity).
  induction H as [| x xs Hx Hxs IH]; [reflexivity |].
  rewrite Hx. exact IH.
Qed.

Lemma subtype_tuple xs : forall ys,
  subtype (TupleType xs) (TupleType ys) = true ->
  Forall2 (fun x y => subtype x y = true) xs ys.
Proof.
  simpl. induction xs as [| x xs IH]; intros [| y ys] H; try discriminate;
    constructor.
  - apply andb_true_iff in H as [H _]. exact H.
  - apply IH. apply andb_true_iff in H as [_ H]. exact H.
Qed.

Lemma subtype_antisym b : forall a,
  subtype a b = true -> subtype b a = true -> a = b.
Proof.
  induction b using TypePtr_nested_ind; intros a Hab Hba.
  all: try (destruct a; cbn [subtype is_tensor] in Hab, Hba;
            try discriminate; try reflexivity;
            solve [apply type_eqb_eq in Hab; exact Hab
                  | apply type_eqb_eq in Hba; symmetry; exact Hba]).
  - (* tuples *)
    destruct a as [ | | | | | | | | | | | ys | | | | ]; try discriminate Hab.
    apply subtype_tuple in Hab, Hba. f_equal.
    revert ys Hab Hba. induction H as [| x xs Hx Hxs IH]; intros ys Hab Hba.
    + inversion Hab. reflexivity.
    + inversion Hab as [| y ? ys' ? Hyx Hrest]; subst.
      inversion Hba as [| ? ? ? ? Hxy Hrest']; subst.
      f_equal; [apply Hx; assumption | apply IH; assumption].
  - (* optional *)
    destruct a; cbn [subtype is_tensor] in Hba; try discriminate Hba;
      try (apply type_eqb_eq in Hba; discriminate Hba).
    cbn [subtype] in Hab. f_equal. apply IHb; assumption.
Qed.

Lemma subtype_facts : SubtypeFacts subtype.
Proof.
  split.
  - apply subtype_refl.
  - intros a b. apply subtype_antisym.
  - apply subtype_tuple.
  - intros a b H. simpl in H. apply type_eqb_eq in H. rewrite H. apply subtype_refl.
  - reflexivity.
  - reflexivity.
  - reflexivity.
  - reflexivity.
  - reflexivity.
Qed.

(** *** Unification *)

Section UnifyFacts.
Variable isSubtypeOf : TypePtr -> TypePtr -> bool.
Hypothesis facts : SubtypeFacts isSubtypeOf.

Abbreviation unify := (unifyTypes isSubtypeOf).

Lemma unifyTypes_eq t1 t2 :
  unify t1 t2 =
  if isSubtypeOf t1 t2 then Some t2
  else if isSubtypeOf t2 t1 then Some t1
  else if isSubtypeOf t1 DynamicType && isSubtypeOf t2 DynamicType then Some DynamicType
  else if isSubtypeOf t1 NoneType && negb (isSubtypeOf t2 NoneType) then Some (OptionalType t2)
  else if isSubtypeOf t2 NoneType && negb (isSubtypeOf t1 NoneType) then Some (OptionalType t1)
  else
    match t1, t2 with
    | ListType e1, ListType e2 => ListType <$> unify e1 e2
    | TupleType elements1, TupleType elements2 =>
        if negb (length elements1 =? length elements2)%nat then None
        else unify_elements unify elements1 elements2 []
    | _, _ => None
    end.
Proof using Type. destruct t1; reflexivity. Qed.

Lemma unify_subtype a b : isSubtypeOf a b = true -> unify a b = Some b.
Proof using Type. intros H. rewrite unifyTypes_eq, H. reflexivity. Qed.

Lemma unify_supertype a b : isSubtypeOf b a = true -> unify a b = Some a.
Proof using facts.
  intros H. rewrite unifyTypes_eq, H.
  destruct (isSubtypeOf a b) eqn:Hab; [| reflexivity].
  f_equal. symmetry. apply (sub_antisym _ facts); assumption.
Qed.

Lemma elementwise_subtypes xs ys :
  Forall2 (fun x y => isSubtypeOf x y = true) xs ys ->
  elementwise unify xs ys = Some ys.
Proof using Type.
  induction 1 as [| x y xs ys Hxy _ IH]; simpl; [reflexivity |].
  rewrite (unify_subtype _ _ Hxy), IH. reflexivity.
Qed.

Lemma elementwise_supertypes xs ys :
  Forall2 (fun y x => isSubtypeOf y x = true) ys xs ->
  elementwise unify xs ys = Some xs.
Proof using facts.
  induction 1 as [| y x ys xs Hyx _ IH]; simpl; [reflexivity |].
  rewrite (unify_supertype _ _ Hyx), IH. reflexivity.
Qed.

Lemma elementwise_length u xs : forall ys,
  length xs <> length ys -> elementwise u xs ys = None.
Proof using Type.
  induction xs as [| x xs IH]; intros [| y ys] Hlen; simpl in *;
    try reflexivity; try congruence.
  rewrite IH by congruence. destruct (u x y); reflexivity.
Qed.

Lemma unify_elements_elementwise u xs : forall ys elements,
  length xs = length ys ->
  unify_elements u xs ys elements
  = (fun es => TupleType (elements ++ es)) <$> elementwise u xs ys.
Proof using Type.
  induction xs as [| x xs IH]; intros [| y ys] elements Hlen; simpl in *;
    try discriminate.
  - rewrite app_nil_r. reflexivity.
  - destruct (u x y) as [e |]; [| reflexivity].
    rewrite IH by congruence.
    destruct (elementwise u xs ys) as [es |]; simpl; [| reflexivity].
    rewrite <- app_assoc. reflexivity.
Qed.

End UnifyFacts.

(** C7, as worded: unifying [None] with any type [T] that is not [None]
    yields [Optional[T]], in either argument order; tuples and lists unify
    element-wise. *)
Definition unify_claim (isSubtypeOf : TypePtr -> TypePtr -> bool) : Prop :=
  (forall T,
     T <> NoneType ->
     unifyTypes isSubtypeOf NoneType T = Some (OptionalType T) /\
     unifyTypes isSubtypeOf T NoneType = Some (OptionalType T)) /\
  (forall xs ys,
     unifyTypes isSubtypeOf (TupleType xs) (TupleType ys)
     = TupleType <$> elementwise (unifyTypes isSubtypeOf) xs ys) /\
  (forall a b,
     unifyTypes isSubtypeOf (ListType a) (ListType b)
     = ListType <$> unifyTypes isSubtypeOf a b).

(** C7, as worded, fails for a type that already admits [None]: [None] is a
    subtype of [Optional[int]], and the subtype test comes first, so the
    unification of [None] and [Optional[int]] is [Optional[int]] itself, not
    [Optional[Optional[int]]]. *)
Lemma unify_claim_fails : ~ unify_claim subtype.
Proof.
  intros [Hnone _].
  destruct (Hnone (OptionalType IntType)) as [H _]; [discriminate |].
  vm_compute in H. discriminate H.
Qed.

(** C7, amended: unification is structural.  Unifying [None] with a type
    [T] that is not below [None] and does not admit [None] already ([None]
    is not a subtype of [T]) yields [Optional[T]], in either argument order;
    for a type [T] that admits [None] already, as every [Optional[..]] does,
    it yields [T] itself, in either argument order.  Two tuple types unify
    exactly when they have equal arity and every corresponding pair of
    element types unifies, and the result is the tuple of the element-wise
    unifications; two list types unify exactly when their element types
    unify, and the result is the list of the unified element type. *)
Theorem unifyTypes_structural (isSubtypeOf : TypePtr -> TypePtr -> bool) :
  SubtypeFacts isSubtypeOf ->
  (forall T,
     isSubtypeOf T NoneType = false -> isSubtypeOf NoneType T = false ->
     unifyTypes isSubtypeOf NoneType T = Some (OptionalType T) /\
     unifyTypes isSubtypeOf T NoneType = Some (OptionalType T)) /\
  (forall T,
     isSubtypeOf NoneType T = true ->
     unifyTypes isSubtypeOf NoneType T = Some T /\
     unifyTypes isSubtypeOf T NoneType = Some T) /\
  (forall xs ys,
     unifyTypes isSubtypeOf (TupleType xs) (TupleType ys)
     = TupleType <$> elementwise (unifyTypes isSubtypeOf) xs ys) /\
  (forall a b,
     unifyTypes isSubtypeOf (ListType a) (ListType b)
     = ListType <$> unifyTypes isSubtypeOf a b).
Proof.
  intros facts. split; [| split; [| split]].
  - intros T HT HN. split.
    + rewrite unifyTypes_eq, HN, HT, (sub_none_not_tensor _ facts),
        (sub_refl _ facts). reflexivity.
    + rewrite unifyTypes_eq, HN, HT, (sub_none_not_tensor _ facts),
        (sub_refl _ facts), andb_false_r. reflexivity.
  - intros T HN. split.
    + apply unify_subtype. exact HN.
    + apply (unify_supertype _ facts). exact HN.
  - intros xs ys. rewrite unifyTypes_eq.
    destruct (isSubtypeOf (TupleType xs) (TupleType ys)) eqn:H12.
    { apply (sub_tuple _ facts) in H12.
      rewrite (elementwise_subtypes _ _ _ H12). reflexivity. }
    destruct (isSubtypeOf (TupleType ys) (TupleType xs)) eqn:H21.
    { apply (sub_tuple _ facts) in H21.
      rewrite (elementwise_supertypes _ facts _ _ H21). reflexivity. }
    rewrite !(sub_tuple_not_tensor _ facts), !(sub_tuple_not_none _ facts).
    cbn [andb].
    destruct (Nat.eqb_spec (length xs) (length ys)) as [Hlen | Hlen]; cbn [negb].
    + rewrite unify_elements_elementwise by exact Hlen. reflexivity.
    + rewrite elementwise_length by exact Hlen. reflexivity.
  - intros a b. rewrite unifyTypes_eq.
    destruct (isSubtypeOf (ListType a) (ListType b)) eqn:H12.
    { apply (sub_list _ facts) in H12.
      rewrite (unify_subtype _ _ _ H12). reflexivity. }
    destruct (isSubtypeOf (ListType b) (ListType a)) eqn:H21.
    { apply (sub_list _ facts) in H21.
      rewrite (unify_supertype _ facts _ _ H21). reflexivity. }
    rewrite !(sub_list_not_tensor _ facts), !(sub_list_not_none _ facts).
    reflexivity.
Qed.

Example unify_tuples :
  unifyTypes subtype (TupleType [IntType; NoneType]) (TupleType [NumberType; BoolType])
  = Some (TupleType [NumberType; OptionalType BoolType]).
Proof. reflexivity. Qed.

Example unify_tuples_arity :
  unifyTypes subtype (TupleType [IntType]) (TupleType [IntType; IntType]) = None.
Proof. reflexivity. Qed.

Example unify_lists :
  unifyTypes subtype (ListType NoneType) (ListType FloatType)
  = Some (ListType (OptionalType FloatType)).
Proof. reflexivity. Qed.

(** A type that already admits [None] is returned as it is. *)
Example unify_none_optional :
  unifyTypes subtype NoneType (OptionalType IntType) = Some (OptionalType IntType).
Proof. reflexivity. Qed.

Lemma unifyTypes_structural_witness :
  (unifyTypes subtype NoneType IntType = Some (OptionalType IntType) /\
   unifyTypes subtype IntType NoneType = Some (OptionalType IntType)) /\
  (unifyTypes subtype NoneType (OptionalType IntType) = Some (OptionalType IntType) /\
   unifyTypes subtype (OptionalType IntType) NoneType = Some (OptionalType IntType)) /\
  unifyTypes subtype (TupleType [IntType; NoneType]) (TupleType [NumberType; BoolType])
  = TupleType <$> elementwise (unifyTypes subtype) [IntType; NoneType] [NumberType; BoolType] /\
  unifyTypes subtype (ListType NoneType) (ListType FloatType)
  = ListType <$> unifyTypes subtype NoneType FloatType.
Proof.
  destruct (unifyTypes_structural subtype subtype_facts)
    as (Hnone & Hadmits & Htuple & Hlist).
  split; [| split; [| split]].
  - apply Hnone; reflexivity.
  - apply Hadmits; reflexivity.
  - apply Htuple.
  - apply Hlist.
Defined.

(** *** Type variables *)

(** Modelled from the spec: [Type::hasFreeVariables] is declared in
    ATen/core/jit_type.h, which is not among the sources.  A type carries
    free variables when it is a named variable or contains a type that
    carries some. *)
Fixpoint hasFreeVariables (t : TypePtr) : bool :=
  match t with
  | VarType _ => true
  | TupleType elements =>
      (fix any (l : list TypePtr) : bool :=
         match l with
         | [] => false
         | x :: l' => hasFreeVariables x || any l'
         end) elements
  | ListType elem | OptionalType elem | FutureType elem => hasFreeVariables elem
  | _ => false
  end.

(** Modelled from the spec: [Type::containedTypes] (jit_type.h), the types
    a tuple, list, optional or future is made of. *)
Definition containedTypes (t : TypePtr) : list TypePtr :=
  match t with
  | TupleType elements => elements
  | ListType elem | OptionalType elem | FutureType elem => [elem]
  | _ => []
  end.

(** Modelled from the spec: [Type::withContained] (jit_type.h) rebuilds a
    type of the same kind around new contained types; it asserts that their
    number is unchanged ([None] here). *)
Definition withContained (t : TypePtr) (contained_types : list TypePtr) : option TypePtr :=
  if negb (length (containedTypes t) =? length contained_types)%nat then None
  else
    match t, contained_types with
    | TupleType _, elements => Some (TupleType elements)
    | ListType _, [elem] => Some (ListType elem)
    | OptionalType _, [elem] => Some (OptionalType elem)
    | FutureType _, [elem] => Some (FutureType elem)
    | _, _ => Some t
    end.

(** [TypeEnv = std::unordered_map<std::string, TypePtr>] *)
Abbreviation TypeEnv := (gmap string TypePtr).

(** What [matchTypeVariables] reports: the [errMsg] of a [MatchTypeReturn]
    without a type (the messages, with the types they print), or the error
    it throws for a container it does not know. *)
Inductive MatchError :=
| VarMismatch (name : string) (previous actual : TypePtr)
    (* "type variable 'name' previously matched to type ... is matched to type ..." *)
| ListMismatch (actual : TypePtr)      (* "cannot match a list to ..." *)
| TupleSizeMismatch                    (* "cannot match tuples of mismatched size" *)
| TupleMismatch (actual : TypePtr)     (* "cannot match a tuple to ..." *)
| FutureMismatch (actual : TypePtr)    (* "cannot match a future to ..." *)
| OptionalNone                         (* "cannot match an Optional[T] to None, ..." *)
| UnhandledContainer (formal : TypePtr). (* AT_ERROR("unhandled free variable container: ", ...) *)

(** What [evalTypeVariables] throws. *)
Inductive EvalError :=
| UnboundVariable (name : string)  (* "schema has unbound type variable ..." *)
| ContainedSizeMismatch.           (* the assertion of [withContained] *)

(** The loop of [matchTypeVariables] over two tuples of the same size: it
    pushes each matched element to [elements] and returns at the first
    failure. *)
Definition match_elements (matchTypeVariables : TypePtr -> TypePtr -> M MatchError TypeEnv TypePtr)
    : list TypePtr -> list TypePtr -> list TypePtr -> M MatchError TypeEnv (list TypePtr) :=
  fix loop (fs acts elements : list TypePtr) {struct fs} :=
    match fs, acts with
    | f :: fs', a :: acts' =>
        result ← matchTypeVariables f a;
        loop fs' acts' (elements ++ [result])
    | _, _ => mret elements
    end.

Section Matching.
(** Modelled from the spec: [Type::isSubtypeOf] (jit_type.h), as for
    [unifyTypes]. *)
Variable isSubtypeOf : TypePtr -> TypePtr -> bool.

(** [MatchTypeReturn matchTypeVariables(TypePtr formal, TypePtr actual, TypeEnv& type_env)] *)
Fixpoint matchTypeVariables (formal actual : TypePtr) {struct formal}
    : M MatchError TypeEnv TypePtr :=
  if negb (hasFreeVariables formal) then mret formal
  else
    match formal with
    | VarType name =>
        type_env ← get;
        match type_env !! name with
        | None =>
            modify (insert name actual);;
            mret actual
        | Some previous =>
            match unifyTypes isSubtypeOf previous actual with
            | Some unified =>
                modify (insert name unified);;
                mret unified
            | None => throw (VarMismatch name previous actual)
            end
        end
    | ListType lt_formal =>
        match actual with
        | ListType lt_actual =>
            innerType ← matchTypeVariables lt_formal lt_actual;
            mret (ListType innerType)
        | _ => throw (ListMismatch actual)
        end
    | TupleType tp_formal =>
        match actual with
        | TupleType tp_actual =>
            if negb (length tp_formal =? length tp_actual)%nat
            then throw TupleSizeMismatch
            else
              elements ← match_elements matchTypeVariables tp_formal tp_actual [];
              mret (TupleType elements)
        | _ => throw (TupleMismatch actual)
        end
    | FutureType lt_formal =>
        match actual with
        | FutureType lt_actual =>
            innerType ← matchTypeVariables lt_formal lt_actual;
            mret (FutureType innerType)
        | _ => throw (FutureMismatch actual)
        end
    | OptionalType opt_formal =>
        match actual with
        | OptionalType opt_actual =>
            optionedType ← matchTypeVariables opt_formal opt_actual;
            mret (OptionalType optionedType)
        | _ =>
            if negb (isSubtypeOf actual NoneType)
            then matchTypeVariables opt_formal actual
            else throw OptionalNone
        end
    | _ => throw (UnhandledContainer formal)
    end.
End Matching.

(** [TypePtr evalTypeVariables(TypePtr type, std::unordered_map<std::string, TypePtr>& type_env)]:
    change return types like List[List[t]] into List[List[int]].  The
    recursion over [containedTypes()] is written out kind by kind;
    [evalTypeVariables_contained] shows that it is the [fmap] of the source. *)
Fixpoint evalTypeVariables (type : TypePtr) {struct type} : M EvalError TypeEnv TypePtr :=
  if negb (hasFreeVariables type) then mret type
  else
    match type with
    | VarType name =>
        type_env ← get;
        match type_env !! name with
        | None => throw (UnboundVariable name)
        | Some t => mret t
        end
    | _ =>
        new_contained ←
          match type with
          | TupleType elements => mapM evalTypeVariables elements
          | ListType elem | OptionalType elem | FutureType elem =>
              y ← evalTypeVariables elem; mret [y]
          | _ => mret []
          end;
        match withContained type new_contained with
        | Some t => mret t
        | None => throw ContainedSizeMismatch
        end
    end.

(** The names of the variables of a type. *)
Fixpoint variables (t : TypePtr) : gset string :=
  match t with
  | VarType name => {[ name ]}
  | TupleType elements =>
      (fix all (l : list TypePtr) : gset string :=
         match l with
         | [] => ∅
         | x :: l' => variables x ∪ all l'
         end) elements
  | ListType elem | OptionalType elem | FutureType elem => variables elem
  | _ => ∅
  end.

Lemma variables_tuple_cons x xs :
  variables (TupleType (x :: xs)) = variables x ∪ variables (TupleType xs).
Proof. reflexivity. Qed.

Lemma hasFreeVariables_tuple_cons x xs :
  hasFreeVariables (TupleType (x :: xs))
  = hasFreeVariables x || hasFreeVariables (TupleType xs).
Proof. reflexivity. Qed.

Lemma no_free_variables t : hasFreeVariables t = false -> variables t = ∅.
Proof.
  induction t using TypePtr_nested_ind; simpl; try reflexivity; try discriminate; auto.
  induction H as [| x xs Hx _ IH]; [reflexivity |].
  intros Hor. apply orb_false_iff in Hor as [H1 H2].
  rewrite (Hx H1), (IH H2). set_solver.
Qed.

Section MatchFacts.
Variable isSubtypeOf : TypePtr -> TypePtr -> bool.

Abbreviation matchTV := (matchTypeVariables isSubtypeOf).

Lemma matchTypeVariables_eq formal actual :
  matchTV formal actual =
  if negb (hasFreeVariables formal) then mret formal
  else
    match formal with
    | VarType name =>
        type_env ← get;
        match type_env !! name with
        | None => modify (insert name actual);; mret actual
        | Some previous =>
            match unifyTypes isSubtypeOf previous actual with
            | Some unified => modify (insert name unified);; mret unified
            | None => throw (VarMismatch name previous actual)
            end
        end
    | ListType lt_formal =>
        match actual with
        | ListType lt_actual =>
            innerType ← matchTV lt_formal lt_actual; mret (ListType innerType)
        | _ => throw (ListMismatch actual)
        end
    | TupleType tp_formal =>
        match actual with
        | TupleType tp_actual =>
            if negb (length tp_formal =? length tp_actual)%nat
            then throw TupleSizeMismatch
            else
              elements ← match_elements matchTV tp_formal tp_actual [];
              mret (TupleType elements)
        | _ => throw (TupleMismatch actual)
        end
    | FutureType lt_formal =>
        match actual with
        | FutureType lt_actual =>
            innerType ← matchTV lt_formal lt_actual; mret (FutureType innerType)
        | _ => throw (FutureMismatch actual)
        end
    | OptionalType opt_formal =>
        match actual with
        | OptionalType opt_actual =>
            optionedType ← matchTV opt_formal opt_actual;
            mret (OptionalType optionedType)
        | _ =>
            if negb (isSubtypeOf actual NoneType)
            then matchTV opt_formal actual
            else throw OptionalNone
        end
    | _ => throw (UnhandledContainer formal)
    end.
Proof. destruct formal; reflexivity. Qed.

(** What a successful match leaves in the environment. *)
Definition binds (formal : TypePtr) : Prop :=
  forall actual env t env',
    matchTV formal actual env = (Ok t, env') ->
    dom env ⊆ dom env' /\ variables formal ⊆ dom env'.

Lemma match_elements_binds fs :
  Forall binds fs ->
  forall acts elements env r env',
    length fs = length acts ->
    match_elements matchTV fs acts elements env = (Ok r, env') ->
    dom env ⊆ dom env' /\ variables (TupleType fs) ⊆ dom env'.
Proof.
  induction 1 as [| f fs Hf _ IH]; intros [| a acts] elements env r env' Hlen Hrun;
    try discriminate Hlen.
  - injection Hrun as _ <-. split; [reflexivity | set_solver].
  - cbn [match_elements] in Hrun.
    apply bind_Ok_inv in Hrun as (result & env1 & H1 & Hrun).
    apply Hf in H1 as [Hd1 Hv1].
    apply IH in Hrun as [Hd2 Hv2]; [| simpl in Hlen; congruence].
    rewrite variables_tuple_cons. split; [etransitivity; eassumption |].
    apply union_subseteq. split; [etransitivity; eassumption | exact Hv2].
Qed.

Lemma matchTypeVariables_binds_all formal : binds formal.
Proof.
  induction formal using TypePtr_nested_ind; intros actual env t env' Hrun;
    rewrite matchTypeVariables_eq in Hrun.
  all: try (injection Hrun as _ <-; split; [reflexivity | simpl; set_solver]).
  - (* tuples *)
    destruct (hasFreeVariables (TupleType xs)) eqn:Hfree; cbn [negb] in Hrun.
    2:{ injection Hrun as _ <-. rewrite (no_free_variables _ Hfree).
        split; [reflexivity | set_solver]. }
    destruct actual; try discriminate Hrun.
    destruct (Nat.eqb_spec (length xs) (length elements)) as [Hlen | Hlen];
      cbn [negb] in Hrun; [| discriminate Hrun].
    apply bind_Ok_inv in Hrun as (els & env1 & H1 & Hrun).
    injection Hrun as _ <-.
    eapply match_elements_binds; eassumption.
  - (* lists *)
    cbn [hasFreeVariables] in Hrun. cbn [variables].
    destruct (hasFreeVariables formal) eqn:Hfree; cbn [negb] in Hrun.
    2:{ injection Hrun as _ <-. rewrite (no_free_variables _ Hfree).
        split; [reflexivity | set_solver]. }
    destruct actual; try discriminate Hrun.
    apply bind_Ok_inv in Hrun as (inner & env1 & H1 & Hrun).
    injection Hrun as _ <-. eapply IHformal. exact H1.
  - (* optionals *)
    cbn [hasFreeVariables] in Hrun. cbn [variables].
    destruct (hasFreeVariables formal) eqn:Hfree; cbn [negb] in Hrun.
    2:{ injection Hrun as _ <-. rewrite (no_free_variables _ Hfree).
        split; [reflexivity | set_solver]. }
    destruct actual;
      try (destruct (negb (isSubtypeOf _ NoneType));
           [eapply IHformal; exact Hrun | discriminate Hrun]).
    apply bind_Ok_inv in Hrun as (inner & env1 & H1 & Hrun).
    injection Hrun as _ <-. eapply IHformal. exact H1.
  - (* futures *)
    cbn [hasFreeVariables] in Hrun. cbn [variables].
    destruct (hasFreeVariables formal) eqn:Hfree; cbn [negb] in Hrun.
    2:{ injection Hrun as _ <-. rewrite (no_free_variables _ Hfree).
        split; [reflexivity | set_solver]. }
    destruct actual; try discriminate Hrun.
    apply bind_Ok_inv in Hrun as (inner & env1 & H1 & Hrun).
    injection Hrun as _ <-. eapply IHformal. exact H1.
  - (* variables *)
    cbn [hasFreeVariables negb] in Hrun. rewrite bind_get in Hrun.
    cbn [variables].
    destruct (env !! n) as [previous |] eqn:Hn.
    + destruct (unifyTypes isSubtypeOf previous actual); [| discriminate Hrun].
      rewrite bind_modify in Hrun. injection Hrun as _ <-.
      rewrite dom_insert. split; set_solver.
    + rewrite bind_modify in Hrun. injection Hrun as _ <-.
      rewrite dom_insert. split; set_solver.
Qed.
End MatchFacts.

(** *** Substitution *)

Lemma evalTypeVariables_contained type env :
  evalTypeVariables type env =
  (if negb (hasFreeVariables type) then mret type
   else
     match type with
     | VarType name =>
         type_env ← get;
         match type_env !! name with
         | None => throw (UnboundVariable name)
         | Some t => mret t
         end
     | _ =>
         new_contained ← mapM evalTypeVariables (containedTypes type);
         match withContained type new_contained with
         | Some t => mret t
         | None => throw ContainedSizeMismatch
         end
     end) env.
Proof.
  destruct type; try reflexivity.
  all: cbn [evalTypeVariables containedTypes mapM];
    destruct (negb _); [reflexivity |];
    rewrite !bind_eq; destruct (evalTypeVariables type env) as [[y | e] env1];
    reflexivity.
Qed.

Lemma mapM_total l (env : TypeEnv) :
  Forall (fun t => variables t ⊆ dom env ->
                   exists t', evalTypeVariables t env = (Ok t', env)) l ->
  variables (TupleType l) ⊆ dom env ->
  exists l', mapM evalTypeVariables l env = (Ok l', env) /\ length l' = length l.
Proof.
  induction 1 as [| t l Ht _ IH]; intros Hsub.
  - exists []. split; reflexivity.
  - rewrite variables_tuple_cons in Hsub.
    destruct Ht as [t' Ht]; [set_solver |].
    destruct IH as (l' & Hl & Hlen); [set_solver |].
    exists (t' :: l'). cbn [mapM]. rewrite (bind_Ok _ _ _ _ _ Ht).
    cbv beta. change ((fix go (l : list TypePtr) : M EvalError TypeEnv (list TypePtr) :=
           match l with
           | [] => mret []
           | x :: l' => y ← evalTypeVariables x; ys ← go l'; mret (y :: ys)
           end) l) with (mapM (E := EvalError) (S := TypeEnv) evalTypeVariables l).
    rewrite (bind_Ok _ _ _ _ _ Hl). split; [reflexivity | simpl; congruence].
Qed.

Lemma evalTypeVariables_total type (env : TypeEnv) :
  variables type ⊆ dom env ->
  exists t', evalTypeVariables type env = (Ok t', env).
Proof.
  induction type using TypePtr_nested_ind; intros Hsub;
    try (eexists; reflexivity).
  - (* tuples *)
    cbn [evalTypeVariables]. destruct (negb _); [eexists; reflexivity |].
    destruct (mapM_total xs env H Hsub) as (l' & Hl & Hlen).
    rewrite (bind_Ok _ _ _ _ _ Hl). unfold withContained. cbn [containedTypes].
    rewrite <- Hlen, Nat.eqb_refl. eexists. reflexivity.
  - cbn [evalTypeVariables]. destruct (negb _); [eexists; reflexivity |].
    destruct (IHtype Hsub) as [t' Ht]. rewrite bind_assoc, (bind_Ok _ _ _ _ _ Ht).
    eexists. reflexivity.
  - cbn [evalTypeVariables]. destruct (negb _); [eexists; reflexivity |].
    destruct (IHtype Hsub) as [t' Ht]. rewrite bind_assoc, (bind_Ok _ _ _ _ _ Ht).
    eexists. reflexivity.
  - cbn [evalTypeVariables]. destruct (negb _); [eexists; reflexivity |].
    destruct (IHtype Hsub) as [t' Ht]. rewrite bind_assoc, (bind_Ok _ _ _ _ _ Ht).
    eexists. reflexivity.
  - cbn [evalTypeVariables hasFreeVariables negb]. rewrite bind_get.
    cbn [variables] in Hsub.
    assert (Hin : n ∈ dom env) by set_solver.
    apply elem_of_dom in Hin as [t Hn]. rewrite Hn. eexists. reflexivity.
Qed.

(** X11: when [matchTypeVariables] returns a type, no name was removed
    from the environment and every variable of the formal type is bound in
    it, so that [evalTypeVariables] on the formal type then returns a type
    (it meets no unbound variable) and leaves the environment as it is. *)
Theorem match_then_eval (isSubtypeOf : TypePtr -> TypePtr -> bool)
    (formal actual t : TypePtr) (env env' : TypeEnv) :
  matchTypeVariables isSubtypeOf formal actual env = (Ok t, env') ->
  dom env ⊆ dom env' /\
  variables formal ⊆ dom env' /\
  exists t', evalTypeVariables formal env' = (Ok t', env').
Proof.
  intros Hrun. apply matchTypeVariables_binds_all in Hrun as [Hd Hv].
  split; [exact Hd |]. split; [exact Hv |].
  apply evalTypeVariables_total. exact Hv.
Qed.

Lemma match_then_eval_witness :
  let formal := TupleType [ListType (VarType "t"); OptionalType (VarType "u")] in
  let actual := TupleType [ListType IntType; FloatType] in
  let env' := snd (matchTypeVariables subtype formal actual ∅) in
  dom (∅ : TypeEnv) ⊆ dom env' /\
  variables formal ⊆ dom env' /\
  exists t', evalTypeVariables formal env' = (Ok t', env').
Proof.
  apply (match_then_eval subtype
           (TupleType [ListType (VarType "t"); OptionalType (VarType "u")])
           (TupleType [ListType IntType; FloatType])
           (TupleType [ListType IntType; FloatType]) ∅).
  vm_compute. reflexivity.
Defined.

(** Every type bound in the environment is free of variables. *)
Definition concrete_env (env : TypeEnv) : Prop :=
  forall name t, env !! name = Some t -> hasFreeVariables t = false.

Lemma mapM_concrete l (env : TypeEnv) :
  Forall (fun t => forall t' env',
            evalTypeVariables t env = (Ok t', env') ->
            hasFreeVariables t' = false /\ env' = env) l ->
  forall l' env',
    mapM evalTypeVariables l env = (Ok l', env') ->
    hasFreeVariables (TupleType l') = false /\ length l' = length l /\ env' = env.
Proof.
  induction 1 as [| t l Ht _ IH]; intros l' env' Hrun.
  - injection Hrun as <- <-. repeat split.
  - cbn [mapM] in Hrun.
    apply bind_Ok_inv in Hrun as (y & env1 & H1 & Hrun).
    apply Ht in H1 as [Hy ->].
    apply bind_Ok_inv in Hrun as (ys & env2 & H2 & Hrun).
    apply IH in H2 as (Hys & Hlen & ->).
    injection Hrun as <- <-.
    rewrite hasFreeVariables_tuple_cons, Hy, Hys. simpl. auto.
Qed.

(** X12: substitution yields a concrete type.  In an environment whose
    types are free of variables, the type [evalTypeVariables] returns has no
    free variables, and the environment is not changed. *)
Theorem evalTypeVariables_concrete (type t' : TypePtr) (env env' : TypeEnv) :
  concrete_env env ->
  evalTypeVariables type env = (Ok t', env') ->
  hasFreeVariables t' = false /\ env' = env.
Proof.
  intros Henv. revert t' env'.
  induction type using TypePtr_nested_ind; intros t' env' Hrun;
    try (injection Hrun as <- <-; split; reflexivity).
  - (* tuples *)
    cbn [evalTypeVariables] in Hrun.
    destruct (hasFreeVariables (TupleType xs)) eqn:Hfree; cbn [negb] in Hrun.
    2:{ injection Hrun as <- <-. split; [exact Hfree | reflexivity]. }
    apply bind_Ok_inv in Hrun as (l' & env1 & H1 & Hrun).
    apply mapM_concrete in H1 as (Hl' & Hlen & ->); [| exact H].
    unfold withContained in Hrun. cbn [containedTypes] in Hrun.
    rewrite <- Hlen, Nat.eqb_refl in Hrun. injection Hrun as <- <-.
    split; [exact Hl' | reflexivity].
  - cbn [evalTypeVariables hasFreeVariables] in Hrun.
    destruct (hasFreeVariables type) eqn:Hfree; cbn [negb] in Hrun.
    2:{ injection Hrun as <- <-. split; [exact Hfree | reflexivity]. }
    rewrite bind_assoc in Hrun.
    apply bind_Ok_inv in Hrun as (y & env1 & H1 & Hrun).
    apply IHtype in H1 as [Hy ->]. injection Hrun as <- <-.
    split; [exact Hy | reflexivity].
  - cbn [evalTypeVariables hasFreeVariables] in Hrun.
    destruct (hasFreeVariables type) eqn:Hfree; cbn [negb] in Hrun.
    2:{ injection Hrun as <- <-. split; [exact Hfree | reflexivity]. }
    rewrite bind_assoc in Hrun.
    apply bind_Ok_inv in Hrun as (y & env1 & H1 & Hrun).
    apply IHtype in H1 as [Hy ->]. injection Hrun as <- <-.
    split; [exact Hy | reflexivity].
  - cbn [evalTypeVariables hasFreeVariables] in Hrun.
    destruct (hasFreeVariables type) eqn:Hfree; cbn [negb] in Hrun.
    2:{ injection Hrun as <- <-. split; [exact Hfree | reflexivity]. }
    rewrite bind_assoc in Hrun.
    apply bind_Ok_inv in Hrun as (y & env1 & H1 & Hrun).
    apply IHtype in H1 as [Hy ->]. injection Hrun as <- <-.
    split; [exact Hy | reflexivity].
  - cbn [evalTypeVariables hasFreeVariables negb] in Hrun. rewrite bind_get in Hrun.
    destruct (env !! n) as [t |] eqn:Hn; [| discriminate Hrun].
    injection Hrun as <- <-. split; [exact (Henv _ _ Hn) | reflexivity].
Qed.

Definition int_for_t : TypeEnv := {[ "t" := IntType ]}.

Lemma evalTypeVariables_concrete_witness :
  hasFreeVariables (ListType (ListType IntType)) = false /\ int_for_t = int_for_t.
Proof.
  apply (evalTypeVariables_concrete (ListType (ListType (VarType "t")))
           (ListType (ListType IntType)) int_for_t int_for_t).
  - intros name t Hn. unfold int_for_t in Hn.
    apply lookup_singleton_Some in Hn as [_ <-]. reflexivity.
  - vm_compute. reflexivity.
Defined.

(** *** Unification does not depend on the order of its arguments *)

Section UnifyOrder.
Variable isSubtypeOf : TypePtr -> TypePtr -> bool.
Hypothesis facts : SubtypeFacts isSubtypeOf.


Lemma unify_tests_comm (a b : TypePtr) (rest rest' : option TypePtr) :
  rest = rest' ->
  (if isSubtypeOf a b then Some b
   else if isSubtypeOf b a then Some a
   else if isSubtypeOf a DynamicType && isSubtypeOf b DynamicType then Some DynamicType
   else if isSubtypeOf a NoneType && negb (isSubtypeOf b NoneType) then Some (OptionalType b)
   else if isSubtypeOf b NoneType && negb (isSubtypeOf a NoneType) then Some (OptionalType a)
   else rest) =
  (if isSubtypeOf b a then Some a
   else if isSubtypeOf a b then Some b
   else if isSubtypeOf b DynamicType && isSubtypeOf a DynamicType then Some DynamicType
   else if isSubtypeOf b NoneType && negb (isSubtypeOf a NoneType) then Some (OptionalType a)
   else if isSubtypeOf a NoneType && negb (isSubtypeOf b NoneType) then Some (OptionalType b)
   else rest').
Proof using facts.
  intros ->.
  destruct (isSubtypeOf a b) eqn:Hab, (isSubtypeOf b a) eqn:Hba; try reflexivity.
  { f_equal. symmetry. apply (sub_antisym _ facts); assumption. }
  rewrite (andb_comm (isSubtypeOf b DynamicType)).
  destruct (isSubtypeOf a DynamicType && isSubtypeOf b DynamicType); [reflexivity |].
  destruct (isSubtypeOf a NoneType), (isSubtypeOf b NoneType); reflexivity.
Qed.

Lemma elementwise_comm xs :
  Forall (fun x => forall y, unifyTypes isSubtypeOf x y = unifyTypes isSubtypeOf y x) xs ->
  forall ys, elementwise (unifyTypes isSubtypeOf) xs ys
             = elementwise (unifyTypes isSubtypeOf) ys xs.
Proof using Type.
  induction 1 as [| x xs Hx _ IH]; intros [| y ys]; try reflexivity.
  simpl. rewrite Hx, IH. reflexivity.
Qed.

(** X13: unification does not depend on the order of its arguments: over a
    subtype check that is antisymmetric, [unifyTypes t1 t2] and
    [unifyTypes t2 t1] give the same result, or both fail. *)
Theorem unifyTypes_commutative (t1 : TypePtr) :
  forall t2, unifyTypes isSubtypeOf t1 t2 = unifyTypes isSubtypeOf t2 t1.
Proof using facts.
  induction t1 using TypePtr_nested_ind; intros t2;
    rewrite (unifyTypes_eq _ _ t2), (unifyTypes_eq _ t2);
    apply unify_tests_comm.
  all: try (destruct t2; reflexivity).
  - (* tuples *)
    destruct t2 as [ | | | | | | | | | | | ys | | | | ]; try reflexivity.
    rewrite (Nat.eqb_sym (length ys)).
    destruct (Nat.eqb_spec (length xs) (length ys)) as [Hlen | Hlen]; [| reflexivity].
    cbn [negb]. rewrite !unify_elements_elementwise by congruence.
    rewrite (elementwise_comm _ H). reflexivity.
  - (* lists *)
    destruct t2; try reflexivity. rewrite IHt1. reflexivity.
Qed.
End UnifyOrder.

Lemma unifyTypes_commutative_witness :
  unifyTypes subtype (TupleType [IntType; NoneType]) (TupleType [NumberType; BoolType])
  = unifyTypes subtype (TupleType [NumberType; BoolType]) (TupleType [IntType; NoneType]).
Proof.
  apply (unifyTypes_commutative subtype subtype_facts).
Defined.

End Types.


(** ** torch/csrc/jit/ir.cpp *)

Module IR.
Local Open Scope Z_scope.

(** 64-bit signed arithmetic ([topo_position_t = int64_t]), two's complement. *)
Definition INT64_MIN : Z := - 2 ^ 63.
Definition INT64_MAX : Z := 2 ^ 63 - 1.
Definition wrap_i64 (z : Z) : Z := (z + 2 ^ 63) mod 2 ^ 64 - 2 ^ 63.

(** Constants relating to maintaining the topological index of nodes. *)
Definition kLowerBound : Z := INT64_MIN.
Definition kUpperBound : Z := INT64_MAX.
Definition kMidPoint : Z := 0.
(** How far away to space nodes that are appended to the graph. *)
Definition kAppendInterval : Z := 1099511627776 (* 2^40 *).

Definition kNextDirection : nat := 0.
Definition kPrevDirection : nat := 1.

(** The node kinds the sources name, and all the others. *)
Inductive NodeKind :=
| prim_Return | prim_Param
| prim_If | prim_Loop | prim_FusionGroup | prim_DifferentiableGraph
| prim_Constant | prim_ListConstruct | prim_TupleConstruct | prim_Undefined
| prim_FusedConcat | prim_TupleUnpack | prim_TupleIndex | prim_TupleSlice
| prim_ListUnpack | prim_PythonOp | prim_ConstantChunk
| aten_add | aten_sub | aten_mul | aten_div
| other_kind (name : string).

(** [Node*], [Value*] and [Block*] are indices into the populations the
    graph owns. *)
Abbreviation NodePtr := positive (only parsing).
Abbreviation ValuePtr := positive (only parsing).
Abbreviation BlockPtr := positive (only parsing).

Record Use := mkUse {
  user : NodePtr;
  offset : Z
}.

#[global] Instance Use_eq_dec : EqDecision Use.
Proof. solve_decision. Defined.

Record Value := mkValue {
  node_ : NodePtr;
  offset_ : Z;
  unique_ : Z;
  uses_ : list Use;
  unique_name_ : string;
  type_ : Types.TypePtr
}.

Record Node := mkNode {
  next_ : option NodePtr;             (* next_in_graph[kNextDirection] *)
  prev_ : option NodePtr;             (* next_in_graph[kPrevDirection] *)
  kind_ : NodeKind;
  inputs_ : list (option ValuePtr);
  outputs_ : list ValuePtr;
  blocks_ : list BlockPtr;            (* subblocks *)
  owning_block_ : option BlockPtr;
  schema_ : option Z;                 (* the cached schema, or nullptr *)
  topo_position_ : Z
}.

Record Block := mkBlock {
  output_ : NodePtr;                  (* the return node, sentinel of the node list *)
  input_ : NodePtr;                   (* the param node *)
  owning_node_ : option NodePtr       (* the node that has this block, or nullptr for root *)
}.

Record Graph := mkGraph {
  all_nodes : gmap positive Node;
  all_values : gmap positive Value;
  all_blocks : gmap positive Block;
  unique_names_ : gmap string ValuePtr;
  next_unique_ : Z;
  block_ : BlockPtr
}.

#[global] Instance Value_inhabited : Inhabited Value :=
  populate (mkValue 1 0 0 [] EmptyString Types.DynamicType).
#[global] Instance Node_inhabited : Inhabited Node :=
  populate (mkNode None None prim_Param [] [] [] None None 0).
#[global] Instance Block_inhabited : Inhabited Block :=
  populate (mkBlock 1 1 None).

Inductive Error :=
| AssertFailed              (* JIT_ASSERT, AT_ASSERT *)
| RuntimeError (what : string)
| NullPointer               (* a member access through nullptr *)
| Diverges.                 (* a walk along pointers that never reaches its end *)

Abbreviation IR := (M Error Graph).

Definition set_next_ (v : option NodePtr) (n : Node) : Node :=
  mkNode v (prev_ n) (kind_ n) (inputs_ n) (outputs_ n) (blocks_ n)
         (owning_block_ n) (schema_ n) (topo_position_ n).
Definition set_prev_ (v : option NodePtr) (n : Node) : Node :=
  mkNode (next_ n) v (kind_ n) (inputs_ n) (outputs_ n) (blocks_ n)
         (owning_block_ n) (schema_ n) (topo_position_ n).
Definition set_inputs_ (v : list (option ValuePtr)) (n : Node) : Node :=
  mkNode (next_ n) (prev_ n) (kind_ n) v (outputs_ n) (blocks_ n)
         (owning_block_ n) (schema_ n) (topo_position_ n).
Definition set_outputs_ (v : list ValuePtr) (n : Node) : Node :=
  mkNode (next_ n) (prev_ n) (kind_ n) (inputs_ n) v (blocks_ n)
         (owning_block_ n) (schema_ n) (topo_position_ n).
Definition set_blocks_ (v : list BlockPtr) (n : Node) : Node :=
  mkNode (next_ n) (prev_ n) (kind_ n) (inputs_ n) (outputs_ n) v
         (owning_block_ n) (schema_ n) (topo_position_ n).
Definition set_owning_block_ (v : option BlockPtr) (n : Node) : Node :=
  mkNode (next_ n) (prev_ n) (kind_ n) (inputs_ n) (outputs_ n) (blocks_ n)
         v (schema_ n) (topo_position_ n).
Definition set_schema_ (v : option Z) (n : Node) : Node :=
  mkNode (next_ n) (prev_ n) (kind_ n) (inputs_ n) (outputs_ n) (blocks_ n)
         (owning_block_ n) v (topo_position_ n).
Definition set_topo_position_ (v : Z) (n : Node) : Node :=
  mkNode (next_ n) (prev_ n) (kind_ n) (inputs_ n) (outputs_ n) (blocks_ n)
         (owning_block_ n) (schema_ n) v.

Definition set_offset_ (v : Z) (x : Value) : Value :=
  mkValue (node_ x) v (unique_ x) (uses_ x) (unique_name_ x) (type_ x).
Definition set_uses_ (v : list Use) (x : Value) : Value :=
  mkValue (node_ x) (offset_ x) (unique_ x) v (unique_name_ x) (type_ x).
Definition set_unique_name_ (v : string) (x : Value) : Value :=
  mkValue (node_ x) (offset_ x) (unique_ x) (uses_ x) v (type_ x).
Definition set_type_ (v : Types.TypePtr) (x : Value) : Value :=
  mkValue (node_ x) (offset_ x) (unique_ x) (uses_ x) (unique_name_ x) v.

Definition set_all_nodes (v : gmap positive Node) (g : Graph) : Graph :=
  mkGraph v (all_values g) (all_blocks g) (unique_names_ g) (next_unique_ g) (block_ g).
Definition set_all_values (v : gmap positive Value) (g : Graph) : Graph :=
  mkGraph (all_nodes g) v (all_blocks g) (unique_names_ g) (next_unique_ g) (block_ g).
Definition set_all_blocks (v : gmap positive Block) (g : Graph) : Graph :=
  mkGraph (all_nodes g) (all_values g) v (unique_names_ g) (next_unique_ g) (block_ g).
Definition set_unique_names_ (v : gmap string ValuePtr) (g : Graph) : Graph :=
  mkGraph (all_nodes g) (all_values g) (all_blocks g) v (next_unique_ g) (block_ g).
Definition set_next_unique_ (v : Z) (g : Graph) : Graph :=
  mkGraph (all_nodes g) (all_values g) (all_blocks g) (unique_names_ g) v (block_ g).
Definition set_block_ (v : BlockPtr) (g : Graph) : Graph :=
  mkGraph (all_nodes g) (all_values g) (all_blocks g) (unique_names_ g) (next_unique_ g) v.

Definition JIT_ASSERT (b : bool) : IR unit :=
  if b then mret tt else throw AssertFailed.

(** Reading and writing through the pointers. *)
Definition node (n : NodePtr) : IR Node := gets (fun g => all_nodes g !!! n).
Definition value (v : ValuePtr) : IR Value := gets (fun g => all_values g !!! v).
Definition block (b : BlockPtr) : IR Block := gets (fun g => all_blocks g !!! b).

Definition update_node (n : NodePtr) (f : Node -> Node) : IR unit :=
  modify (fun g => set_all_nodes (<[n := f (all_nodes g !!! n)]> (all_nodes g)) g).
Definition update_value (v : ValuePtr) (f : Value -> Value) : IR unit :=
  modify (fun g => set_all_values (<[v := f (all_values g !!! v)]> (all_values g)) g).

(** A member access [p->...] where [p] may be [nullptr]. *)
Definition nonnull {A} (p : option A) : IR A :=
  match p with Some a => mret a | None => throw NullPointer end.

(** *** Making nodes, values and blocks *)

(** [Node::Node(Graph * graph_, NodeKind kind_)]: the new node joins
    [all_nodes]. *)
Definition Node_new (kind : NodeKind) : IR NodePtr :=
  fun g =>
    let p := fresh (dom (all_nodes g)) in
    (Ok p, set_all_nodes
             (<[p := mkNode None None kind [] [] [] None None 0]> (all_nodes g)) g).

(** Modelled from the spec: the constructor [Value::Value(Node*, size_t)] is
    in ir.h, which is not among the sources.  The counter [next_unique]
    assigns each value a fresh integer identity; the value joins
    [all_values], unnamed, unused; its type starts as the dynamic tensor. *)
Definition Value_new (n : NodePtr) (offset : Z) : IR ValuePtr :=
  fun g =>
    let p := fresh (dom (all_values g)) in
    (Ok p, set_next_unique_ (wrap64 (next_unique_ g + 1))
             (set_all_values
                (<[p := mkValue n offset (next_unique_ g) [] EmptyString Types.DynamicType]>
                   (all_values g)) g)).

(** [Value* Node::addOutput()] *)
Definition addOutput (n : NodePtr) : IR ValuePtr :=
  nd ← node n;
  v ← Value_new n (Z.of_nat (length (outputs_ nd)));
  update_node n (fun nd => set_outputs_ (outputs_ nd ++ [v]) nd);;
  update_node n (set_schema_ None);;
  mret v.

(** [Node* Graph::create(NodeKind kind, size_t num_outputs)] *)
Definition create (kind : NodeKind) (num_outputs : nat) : IR NodePtr :=
  n ← Node_new kind;
  forM_ (seq 0 num_outputs) (fun _ => _ ← addOutput n; mret tt);;
  mret n.

(** Modelled from the spec: [Block::initOutput] is in ir.h.  The return
    node is the sentinel of the circular node list: in an empty block it is
    its own successor and predecessor. *)
Definition initOutput (p : NodePtr) : IR NodePtr :=
  update_node p (set_next_ (Some p));;
  update_node p (set_prev_ (Some p));;
  mret p.

(** [Block::Block(Graph* graph_, Node* node_)] *)
Definition Block_new (owning_node : option NodePtr) : IR BlockPtr :=
  r ← create prim_Return 0;
  output ← initOutput r;
  input ← create prim_Param 0;
  this ← (fun g =>
            let p := fresh (dom (all_blocks g)) in
            (Ok p, set_all_blocks (<[p := mkBlock output input owning_node]> (all_blocks g)) g));
  update_node output (set_owning_block_ (Some this));;
  update_node output (set_topo_position_ kUpperBound);;
  update_node input (set_owning_block_ (Some this));;
  update_node input (set_topo_position_ kLowerBound);;
  mret this.

(** Modelled from the spec: the constructor [Graph::Graph] is in ir.h.  A
    graph starts with no nodes and values but those of its one top-level
    block, and [next_unique] at 0. *)
Definition Graph_new : Graph :=
  snd ((b ← Block_new None; modify (set_block_ b) : IR unit)
         (mkGraph ∅ ∅ ∅ ∅ 0 1%positive)).

(** [Value* Node::addInput(Value * value)] *)
Definition addInput (this : NodePtr) (v : ValuePtr) : IR ValuePtr :=
  update_node this (set_schema_ None);;
  nd ← node this;
  update_value v (fun x =>
    set_uses_ (uses_ x ++ [mkUse this (Z.of_nat (length (inputs_ nd)))]) x);;
  update_node this (fun nd => set_inputs_ (inputs_ nd ++ [Some v]) nd);;
  mret v.

(** *** Names *)

Definition is_digit (c : ascii) : bool :=
  (48 <=? nat_of_ascii c)%nat && (nat_of_ascii c <=? 57)%nat.

(** [name.find_first_not_of("0123456789", pos) == std::string::npos] *)
Definition only_digits_from (pos : nat) (name : string) : bool :=
  forallb is_digit (drop pos (list_ascii_of_string name)).

(** [name.find_last_of('.')], [None] for [npos] *)
Fixpoint find_last_of_dot (pos : nat) (name : string) : option nat :=
  match name with
  | EmptyString => None
  | String c rest =>
      match find_last_of_dot (S pos) rest with
      | Some p => Some p
      | None => if Ascii.eqb c "."%char then Some pos else None
      end
  end.

(** [std::stoll] on a string of digits; it throws when the number does not
    fit [long long]. *)
Definition stoll (digits : string) : IR Z :=
  match NilZero.uint_of_string digits with
  | Some u =>
      let n := Z.of_N (N.of_uint u) in
      if n <=? INT64_MAX then mret n else throw (RuntimeError "stoll")
  | None => throw (RuntimeError "stoll")
  end.

(** [ss << name_base << "." << suffix] *)
Definition with_suffix (name_base : string) (suffix : Z) : string :=
  (name_base ++ "." ++ NilZero.string_of_uint (N.to_uint (Z.to_N suffix)))%string.

(** The loop [do { ... suffix++ ... } while (names.count(replacement_name) > 0)].
    The candidates are pairwise different, so the loop ends within one more
    turn than there are names. *)
Fixpoint replacement_name (fuel : nat) (names : gmap string ValuePtr)
    (name_base : string) (suffix : Z) : IR string :=
  let candidate := with_suffix name_base suffix in
  match names !! candidate with
  | None => mret candidate
  | Some _ =>
      match fuel with
      | O => throw Diverges
      | S fuel' => replacement_name fuel' names name_base (wrap64 (suffix + 1))
      end
  end.

(** Modelled from the spec: [Value::hasUniqueName] is in ir.h.  The empty
    string is the sentinel "unnamed". *)
Definition hasUniqueName (x : Value) : bool :=
  negb (String.eqb (unique_name_ x) EmptyString).

(** [Value* Value::setUniqueName(const std::string & name)].  It calls
    itself once, on the previous owner of [name] and with a name that is
    free, so a call at [depth] 0 never calls itself again. *)
Fixpoint setUniqueName_at (depth : nat) (this : ValuePtr) (name : string) : IR ValuePtr :=
  if (0 <? String.length name)%nat && only_digits_from 0 name then
    throw (RuntimeError ("names may not be integers: " ++ name))
  else
    (* clear any old name from the map *)
    x ← value this;
    (if hasUniqueName x then
       modify (fun g => set_unique_names_ (delete (unique_name_ x) (unique_names_ g)) g);;
       update_value this (set_unique_name_ EmptyString)
     else mret tt);;
    (* allow the empty name to clear the uniquename *)
    if String.eqb name EmptyString then mret this
    else
      (* if someone else has this name, then rename the other value *)
      names ← gets unique_names_;
      match names !! name with
      | Some old_owner_of_name =>
          let last_dot_pos := find_last_of_dot 0 name in
          '(suffix, name_base) ←
            match last_dot_pos with
            | Some pos =>
                if negb (pos + 1 =? String.length name)%nat
                   && only_digits_from (pos + 1) name
                then
                  suffix ← stoll (substring (pos + 1) (String.length name) name);
                  mret (suffix, substring 0 pos name)
                else mret (1, name)
            | None => mret (1, name)
            end;
          replacement ← replacement_name (size names) names name_base suffix;
          match depth with
          | O => throw Diverges
          | S depth' => _ ← setUniqueName_at depth' old_owner_of_name replacement; mret tt
          end
      | None => mret tt
      end;;
      modify (fun g => set_unique_names_ (<[name := this]> (unique_names_ g)) g);;
      update_value this (set_unique_name_ name);;
      mret this.

Definition setUniqueName (this : ValuePtr) (name : string) : IR ValuePtr :=
  setUniqueName_at 1 this name.

(** [void Graph::freeValue(Value * v)] *)
Definition freeValue (v : ValuePtr) : IR unit :=
  _ ← setUniqueName v EmptyString;
  g ← get;
  JIT_ASSERT (bool_decide (is_Some (all_values g !! v)));;
  modify (fun g => set_all_values (delete v (all_values g)) g).

(** [void Node::eraseOutput(size_t i)] *)
Definition eraseOutput (this : NodePtr) (i : nat) : IR unit :=
  nd ← node this;
  JIT_ASSERT (i <? length (outputs_ nd))%nat;;
  n ← nonnull (outputs_ nd !! i);
  v ← value n;
  JIT_ASSERT (bool_decide (uses_ v = []));;
  update_node this (set_schema_ None);;
  update_node this (fun nd => set_outputs_ (delete i (outputs_ nd)) nd);;
  freeValue n;;
  nd ← node this;
  forM_ (drop i (outputs_ nd))
        (fun o => update_value o (fun x => set_offset_ (wrap64 (offset_ x - 1)) x)).

(** *** The node list and the topological index *)

(** Modelled from the spec: [Node::inBlockList] is in ir.h.  A node is
    placed when it is linked into the node list of a block. *)
Definition inBlockList (n : NodePtr) : IR bool :=
  nd ← node n;
  match next_ nd with
  | None => JIT_ASSERT (bool_decide (prev_ nd = None));; mret false
  | Some _ => mret true
  end.

(** [void Block::reIndexTopology()].  [for (auto node : nodes())] walks
    from the successor of the return node until it is back at the return
    node; a walk longer than the number of nodes alive never ends. *)
Fixpoint reIndexTopology_loop (fuel : nat) (last cur : NodePtr) (curPos : Z) : IR unit :=
  if bool_decide (cur = last) then mret tt
  else
    match fuel with
    | O => throw Diverges
    | S fuel' =>
        JIT_ASSERT (curPos <=? kUpperBound - kAppendInterval);;
        let curPos := curPos + kAppendInterval in
        update_node cur (set_topo_position_ curPos);;
        nd ← node cur;
        next ← nonnull (next_ nd);
        reIndexTopology_loop fuel' last next curPos
    end.

Definition reIndexTopology (b : BlockPtr) : IR unit :=
  blk ← block b;
  out ← node (output_ blk);
  first ← nonnull (next_ out);
  g ← get;
  reIndexTopology_loop (size (all_nodes g)) (output_ blk) first kLowerBound.

(** [void Node::assignTopoPosition()] *)
Definition assignTopoPosition (this : NodePtr) : IR unit :=
  nd ← node this;
  b ← nonnull (owning_block_ nd);
  blk ← block b;
  let returnNode := output_ blk in
  prev ← nonnull (prev_ nd);
  next ← nonnull (next_ nd);
  pn ← node prev;
  nn ← node next;
  let prevPos := topo_position_ pn in
  let nextPos := topo_position_ nn in
  if bool_decide (next = returnNode) then
    (* Append to the end of the graph *)
    if bool_decide (next = prev) then
      (* the node list is empty, assign the first position *)
      update_node this (set_topo_position_ kMidPoint)
    else if kUpperBound - kAppendInterval <=? prevPos then
      (* we're running off the edge *)
      reIndexTopology b
    else update_node this (set_topo_position_ (prevPos + kAppendInterval))
  else if bool_decide (prev = returnNode) then
    (* Prepend to the graph: next() is the first element in the block list *)
    if nextPos <=? kLowerBound + kAppendInterval then
      (* we're running off the edge *)
      reIndexTopology b
    else update_node this (set_topo_position_ (nextPos - kAppendInterval))
  else
    (* insert between two existing nodes *)
    let posBetween := wrap_i64 (prevPos + wrap_i64 (nextPos - prevPos) ÷ 2) in
    if posBetween =? prevPos then
      (* There was no room *)
      reIndexTopology b
    else update_node this (set_topo_position_ posBetween).

(** [Node* Node::insertAfter(Node * n)] *)
Definition insertAfter (this : NodePtr) (n : option NodePtr) : IR NodePtr :=
  n ← nonnull n;
  a ← inBlockList this;
  b ← (if a then mret false else inBlockList n);
  JIT_ASSERT (negb a && b);;
  nn ← node n;
  JIT_ASSERT (bool_decide (owning_block_ nn <> None));;
  update_node this (set_owning_block_ (owning_block_ nn));;
  nn ← node n;
  let next := next_ nn in
  update_node n (set_next_ (Some this));;
  update_node this (set_prev_ (Some n));;
  update_node this (set_next_ next);;
  next ← nonnull next;
  update_node next (set_prev_ (Some this));;
  assignTopoPosition this;;
  mret this.

(** [Node* Node::insertBefore(Node * n)] *)
Definition insertBefore (this : NodePtr) (n : NodePtr) : IR NodePtr :=
  b ← inBlockList n;
  JIT_ASSERT b;;
  nn ← node n;
  insertAfter this (prev_ nn);;
  mret this.

(** Modelled from the spec: [Block::appendNode] is in ir.h.  Appending
    inserts the unplaced node before the return node of the block. *)
Definition appendNode (b : BlockPtr) (n : NodePtr) : IR NodePtr :=
  placed ← inBlockList n;
  JIT_ASSERT (negb placed);;
  blk ← block b;
  insertBefore n (output_ blk);;
  mret n.

(** [void Node::removeFromList()] *)
Definition removeFromList (this : NodePtr) : IR unit :=
  b ← inBlockList this;
  JIT_ASSERT b;;
  update_node this (set_owning_block_ None);;
  nd ← node this;
  let next := next_ nd in
  let prev := prev_ nd in
  prevp ← nonnull prev;
  update_node prevp (set_next_ next);;
  nextp ← nonnull next;
  update_node nextp (set_prev_ prev);;
  update_node this (set_next_ None);;
  update_node this (set_prev_ None).

(** [void Node::moveAfter(Node * n)] *)
Definition moveAfter (this n : NodePtr) : IR unit :=
  removeFromList this;;
  _ ← insertAfter this (Some n);
  mret tt.

(** [void Node::moveBefore(Node * n)] *)
Definition moveBefore (this n : NodePtr) : IR unit :=
  removeFromList this;;
  _ ← insertBefore this n;
  mret tt.

Inductive MoveSide := BEFORE | AFTER.

(** [void Node::move(Node* movePoint, MoveSide moveSide)] *)
Definition move (this movePoint : NodePtr) (moveSide : MoveSide) : IR unit :=
  match moveSide with
  | BEFORE => moveBefore this movePoint
  | AFTER => moveAfter this movePoint
  end.

(** *** Ordering queries *)

(** The inner loop of [isAfter]: walk [rhs] up its chain of owning blocks
    until it shares a block with [lhs]; [None] when the chain ends first.
    A chain longer than the number of blocks never ends. *)
Fixpoint isAfter_rhs (fuel : nat) (lhs : NodePtr) (rhs : option NodePtr) : IR (option bool) :=
  match rhs with
  | None => mret None
  | Some rhs =>
      match fuel with
      | O => throw Diverges
      | S fuel' =>
          r ← node rhs;
          JIT_ASSERT (bool_decide (owning_block_ r <> None));;
          l ← node lhs;
          if bool_decide (owning_block_ l = owning_block_ r) then
            (* lhs->isAfter(rhs), two nodes of one block *)
            mret (Some (topo_position_ r <? topo_position_ l))
          else
            rb ← nonnull (owning_block_ r);
            rblk ← block rb;
            isAfter_rhs fuel' lhs (owning_node_ rblk)
      end
  end.

(** The outer loop of [isAfter]. *)
Fixpoint isAfter_lhs (fuel : nat) (lhs : option NodePtr) (n : NodePtr) : IR bool :=
  match lhs with
  | None =>
      (* should never reach here, since both nodes are ultimately in the same graph *)
      throw AssertFailed
  | Some lhs =>
      match fuel with
      | O => throw Diverges
      | S fuel' =>
          l ← node lhs;
          JIT_ASSERT (bool_decide (owning_block_ l <> None));;
          g ← get;
          found ← isAfter_rhs (S (size (all_blocks g))) lhs (Some n);
          match found with
          | Some r => mret r
          | None =>
              lb ← nonnull (owning_block_ l);
              lblk ← block lb;
              isAfter_lhs fuel' (owning_node_ lblk) n
          end
      end
  end.

(** [bool Node::isAfter(const Node * n) const] *)
Definition isAfter (this n : NodePtr) : IR bool :=
  t ← node this;
  nn ← node n;
  if bool_decide (owning_block_ t = owning_block_ nn) then
    mret (topo_position_ nn <? topo_position_ t)
  else
    (* These nodes don't share a common block. Traverse the blockchains
       upward until we find the first common block. *)
    g ← get;
    isAfter_lhs (S (size (all_blocks g))) (Some this) n.

(** [bool Node::isBefore(const Node * n) const] *)
Definition isBefore (this n : NodePtr) : IR bool :=
  if bool_decide (this = n) then mret false
  else r ← isAfter this n; mret (negb r).

(** *** Topologically valid moves *)

Record WorkingSet := mkWorkingSet {
  nodes_ : list NodePtr;
  users_ : gmap positive Z   (* users => # of working set nodes it uses *)
}.

(** The walk of [getUsersSameBlock] from a user in a sub-block up to the
    node that shares a block with [n]. *)
Fixpoint enclosing_node (fuel : nat) (target : option BlockPtr) (curNode : NodePtr)
    : IR NodePtr :=
  c ← node curNode;
  if bool_decide (owning_block_ c = target) then mret curNode
  else
    match fuel with
    | O => throw Diverges
    | S fuel' =>
        b ← nonnull (owning_block_ c);
        blk ← block b;
        JIT_ASSERT (bool_decide (owning_node_ blk <> None));;
        up ← nonnull (owning_node_ blk);
        enclosing_node fuel' target up
    end.

(** [std::unordered_set<Node*> getUsersSameBlock(Node* n) const]: all users
    of outputs of [n], in the same block as [n]. *)
Definition getUsersSameBlock (n : NodePtr) : IR (gset positive) :=
  nd ← node n;
  foldM (fun users output =>
           v ← value output;
           foldM (fun users use =>
                    u ← node (user use);
                    if bool_decide (owning_block_ u = owning_block_ nd) then
                      mret ({[user use]} ∪ users)
                    else
                      g ← get;
                      curNode ← enclosing_node (size (all_blocks g))
                                  (owning_block_ nd) (user use);
                      mret ({[curNode]} ∪ users))
                 users (uses_ v))
        (∅ : gset positive) (outputs_ nd).

(** [void WorkingSet::add(Node* n)] *)
Definition WorkingSet_add (ws : WorkingSet) (n : NodePtr) : IR WorkingSet :=
  users ← getUsersSameBlock n;
  mret (mkWorkingSet (nodes_ ws ++ [n])
          (foldr (fun user m => <[user := wrap64 (default 0 (m !! user) + 1)]> m)
                 (users_ ws) (elements users))).

(** [explicit WorkingSet(Node* mover)] *)
Definition WorkingSet_new (mover : NodePtr) : IR WorkingSet :=
  WorkingSet_add (mkWorkingSet [] ∅) mover.

(** [void WorkingSet::eraseMover()] *)
Definition WorkingSet_eraseMover (ws : WorkingSet) : IR WorkingSet :=
  mover ← nonnull (head (nodes_ ws));
  users ← getUsersSameBlock mover;
  mret (mkWorkingSet (tail (nodes_ ws))
          (foldr (fun user m =>
                    (* If this user node only uses the mover, we can remove it *)
                    if default 0 (m !! user) =? 1 then delete user m
                    else <[user := default 0 (m !! user)]> m)
                 (users_ ws) (elements users))).

(** [bool WorkingSet::producesFor(Node* n) const] *)
Definition WorkingSet_producesFor (ws : WorkingSet) (n : NodePtr) : bool :=
  bool_decide (is_Some (users_ ws !! n)).

(** [bool WorkingSet::consumesFrom(Node* n) const] *)
Definition WorkingSet_consumesFrom (ws : WorkingSet) (n : NodePtr) : IR bool :=
  users ← getUsersSameBlock n;
  mret (existsb (fun nd => bool_decide (nd ∈ users)) (nodes_ ws)).

(** [bool WorkingSet::dependsOn(Node* n) const] *)
Definition WorkingSet_dependsOn (ws : WorkingSet) (n : NodePtr) : IR bool :=
  match nodes_ ws with
  | [] => mret false
  | front :: _ =>
      after ← isAfter n front;
      if (after : bool) then (mret (WorkingSet_producesFor ws n) : IR bool)
      else WorkingSet_consumesFrom ws n
  end.

Definition next_in_graph (direction : nat) (nd : Node) : option NodePtr :=
  if (direction =? kNextDirection)%nat then next_ nd else prev_ nd.

(** The scan of [tryMove] from [this] toward [movePoint]. *)
Fixpoint tryMove_scan (fuel : nat) (direction : nat) (movePoint : NodePtr)
    (workingSet : WorkingSet) (curNode : option NodePtr) : IR WorkingSet :=
  if bool_decide (curNode = Some movePoint) then mret workingSet
  else
    match fuel with
    | O => throw Diverges
    | S fuel' =>
        cur ← nonnull curNode;
        d ← WorkingSet_dependsOn workingSet cur;
        workingSet ← (if (d : bool) then
                        (* If we can't move past this node, add it to the working set *)
                        WorkingSet_add workingSet cur
                      else (mret workingSet : IR WorkingSet));
        c ← node cur;
        tryMove_scan fuel' direction movePoint workingSet (next_in_graph direction c)
    end.

(** [bool Node::tryMove(Node* movePoint, MoveSide moveSide)]: try to move
    [this] before/after [movePoint] while preserving value dependencies. *)
Definition tryMove (this movePoint : NodePtr) (moveSide : MoveSide) : IR bool :=
  a ← inBlockList this;
  b ← (if (a : bool) then inBlockList movePoint else (mret false : IR bool));
  JIT_ASSERT (a && b);;
  t ← node this;
  mp ← node movePoint;
  JIT_ASSERT (bool_decide (owning_block_ t = owning_block_ mp));;
  if bool_decide (this = movePoint) then mret true
  else
    (* 1. Move from `this` toward movePoint, building up the working set of
       dependencies *)
    workingSet ← WorkingSet_new this;
    after ← isAfter this movePoint;
    let direction := if (after : bool) then kPrevDirection else kNextDirection in
    t ← node this;
    g ← get;
    workingSet ← tryMove_scan (size (all_nodes g)) direction movePoint workingSet
                   (next_in_graph direction t);
    (* 2. Decide whether we can move it all to `movePoint`. *)
    before ← (match moveSide with
              | BEFORE => isBefore this movePoint
              | AFTER => (mret false : IR bool)
              end);
    after ← (match moveSide with
             | AFTER => isAfter this movePoint
             | BEFORE => (mret false : IR bool)
             end);
    let splitThisAndDeps := (before : bool) || (after : bool) in
    workingSet ← (if splitThisAndDeps then
                    (* remove `this` from dependencies to be moved past `movePoint` *)
                    WorkingSet_eraseMover workingSet
                  else (mret workingSet : IR WorkingSet));
    (* Check if we can move the working set past the move point *)
    blocked ← WorkingSet_dependsOn workingSet movePoint;
    if (blocked : bool) then (mret false : IR bool)
    else
      (* 3. Execute the move *)
      (if splitThisAndDeps then
         (* Move `this` *)
         move this movePoint moveSide;;
         (* Then move all of its dependencies on the other side of `movePoint` *)
         let reversed := match moveSide with BEFORE => AFTER | AFTER => BEFORE end in
         _ ← foldM (fun curNode toMove => move toMove curNode reversed;; mret toMove)
               movePoint (nodes_ workingSet);
         mret tt
       else
         (* Just append/prepend everything to `movePoint` *)
         _ ← foldM (fun curNode toMove => move toMove curNode moveSide;; mret toMove)
               movePoint (nodes_ workingSet);
         mret tt);;
      mret true.

(** *** [eraseOutput] *)

(** The lint invariant on the outputs of a node: the output at list index
    [j] records the offset [j]. *)
Definition outputs_indexed (g : Graph) (n : NodePtr) : Prop :=
  forall (j : nat) (o : ValuePtr),
    outputs_ (all_nodes g !!! n) !! j = Some o ->
    offset_ (all_values g !!! o) = Z.of_nat j.

(** One turn of the last loop of [eraseOutput]. *)
Definition decrement_offset (m : gmap positive Value) (o : ValuePtr) : gmap positive Value :=
  <[o := set_offset_ (wrap64 (offset_ (m !!! o) - 1)) (m !!! o)]> m.

Lemma bind_node {B} n (k : Node -> IR B) g :
  (node n ≫= k) g = k (all_nodes g !!! n) g.
Proof. reflexivity. Qed.

Lemma bind_value {B} v (k : Value -> IR B) g :
  (value v ≫= k) g = k (all_values g !!! v) g.
Proof. reflexivity. Qed.

Lemma bind_update_node {B} n f (k : unit -> IR B) g :
  (update_node n f ≫= k) g
  = k tt (set_all_nodes (<[n := f (all_nodes g !!! n)]> (all_nodes g)) g).
Proof. reflexivity. Qed.

Lemma bind_update_value {B} v f (k : unit -> IR B) g :
  (update_value v f ≫= k) g
  = k tt (set_all_values (<[v := f (all_values g !!! v)]> (all_values g)) g).
Proof. reflexivity. Qed.

Lemma bind_JIT_ASSERT_true {B} b (k : unit -> IR B) g :
  b = true -> (JIT_ASSERT b ≫= k) g = k tt g.
Proof. intros ->. reflexivity. Qed.

Lemma bind_JIT_ASSERT_false {B} b (k : unit -> IR B) g :
  b = false -> (JIT_ASSERT b ≫= k) g = (Err AssertFailed, g).
Proof. intros ->. reflexivity. Qed.

Lemma bind_nonnull_Some {A B} (a : A) (k : A -> IR B) g :
  (nonnull (Some a) ≫= k) g = k a g.
Proof. reflexivity. Qed.

Lemma setUniqueName_empty (v : ValuePtr) (g : Graph) :
  exists names' values',
    setUniqueName v EmptyString g
      = (Ok v, set_all_values values' (set_unique_names_ names' g)) /\
    delete v values' = delete v (all_values g) /\
    (is_Some (all_values g !! v) -> is_Some (values' !! v)).
Proof.
  unfold setUniqueName. cbn [setUniqueName_at String.length Nat.ltb Nat.leb andb].
  rewrite bind_value.
  destruct (hasUniqueName (all_values g !!! v)).
  - eexists _, _. split; [reflexivity |]. split.
    + apply delete_insert_eq.
    + intros _. rewrite lookup_insert_eq. eauto.
  - exists (unique_names_ g), (all_values g).
    split; [destruct g; reflexivity |]. split; [reflexivity | auto].
Qed.

Lemma freeValue_live (v : ValuePtr) (g : Graph) :
  is_Some (all_values g !! v) ->
  exists names',
    freeValue v g
      = (Ok tt, set_all_values (delete v (all_values g)) (set_unique_names_ names' g)).
Proof.
  intros Hlive.
  destruct (setUniqueName_empty v g) as (names' & values' & Hset & Hdel & Hkeep).
  exists names'. unfold freeValue.
  rewrite (bind_Ok _ _ _ _ _ Hset). cbv beta. rewrite bind_get.
  cbn [all_values set_all_values].
  rewrite bool_decide_eq_true_2 by auto.
  unfold JIT_ASSERT. rewrite bind_ret. unfold modify.
  cbn [all_values set_all_values]. rewrite Hdel. reflexivity.
Qed.

Lemma forM_decrement (l : list ValuePtr) (g : Graph) :
  forM_ l (fun o => update_value o (fun x => set_offset_ (wrap64 (offset_ x - 1)) x)) g
  = (Ok tt, set_all_values (foldl decrement_offset (all_values g) l) g).
Proof.
  revert g. induction l as [| o l IH]; intros g.
  - destruct g; reflexivity.
  - rewrite forM__cons. cbn [foldl]. rewrite bind_update_value, IH.
    destruct g; reflexivity.
Qed.

Lemma foldl_decrement_notin (l : list ValuePtr) : forall m o,
  o ∉ l -> foldl decrement_offset m l !! o = m !! o.
Proof.
  induction l as [| x l IH]; intros m o Hnotin; [reflexivity |].
  apply not_elem_of_cons in Hnotin as [Hne Hnotin].
  cbn [foldl]. rewrite IH by exact Hnotin.
  unfold decrement_offset. apply lookup_insert_ne. congruence.
Qed.

Lemma foldl_decrement_in (l : list ValuePtr) : forall m o,
  NoDup l -> o ∈ l ->
  foldl decrement_offset m l !!! o
  = set_offset_ (wrap64 (offset_ (m !!! o) - 1)) (m !!! o).
Proof.
  induction l as [| x l IH]; intros m o Hnd Hin; [inversion Hin |].
  apply NoDup_cons in Hnd as [Hx Hnd]. cbn [foldl].
  apply elem_of_cons in Hin as [-> | Hin].
  - rewrite lookup_total_alt, foldl_decrement_notin by exact Hx.
    unfold decrement_offset. rewrite lookup_insert_eq. reflexivity.
  - rewrite IH by assumption.
    assert (o <> x) by (intros ->; contradiction).
    unfold decrement_offset. rewrite lookup_total_insert_ne by congruence.
    reflexivity.
Qed.

Lemma drop_delete_same {A} (l : list A) : forall i, drop i (delete i l) = drop (S i) l.
Proof.
  induction l as [| x l IH]; intros i.
  - destruct i; reflexivity.
  - destruct i as [| i]; [reflexivity |]. cbn. apply IH.
Qed.

(** C5: [eraseOutput i] fails when output [i] has at least one use; when
    output [i] has no uses it removes that output (and frees the value) and
    decrements by one the recorded offset of every output that followed it,
    so that each remaining output at list index [j] again records the
    offset [j]. *)
Theorem eraseOutput_spec (g : Graph) (this : NodePtr) (i : nat) (v : ValuePtr) :
  outputs_ (all_nodes g !!! this) !! i = Some v ->
  (uses_ (all_values g !!! v) <> [] ->
     eraseOutput this i g = (Err AssertFailed, g)) /\
  (uses_ (all_values g !!! v) = [] ->
   is_Some (all_values g !! v) ->
   Z.of_nat (length (outputs_ (all_nodes g !!! this))) <= 2 ^ 64 ->
   outputs_indexed g this ->
   exists g',
     eraseOutput this i g = (Ok tt, g') /\
     outputs_ (all_nodes g' !!! this) = delete i (outputs_ (all_nodes g !!! this)) /\
     all_values g' !! v = None /\
     (forall j o, outputs_ (all_nodes g !!! this) !! j = Some o -> j <> i ->
        offset_ (all_values g' !!! o)
        = if (j <? i)%nat then offset_ (all_values g !!! o)
          else offset_ (all_values g !!! o) - 1) /\
     outputs_indexed g' this).
Proof.
  intros Hv.
  set (outs := outputs_ (all_nodes g !!! this)) in *.
  assert (Hlen : (i <? length outs)%nat = true).
  { apply Nat.ltb_lt. eapply lookup_lt_Some. exact Hv. }
  assert (Hstart : forall B (k : unit -> IR B),
    eraseOutput this i g
    = (JIT_ASSERT (bool_decide (uses_ (all_values g !!! v) = []));;
       update_node this (set_schema_ None);;
       update_node this (fun nd => set_outputs_ (delete i (outputs_ nd)) nd);;
       freeValue v;;
       nd ← node this;
       forM_ (drop i (outputs_ nd))
         (fun o => update_value o (fun x => set_offset_ (wrap64 (offset_ x - 1)) x))) g).
  { intros _ _. unfold eraseOutput. rewrite bind_node. fold outs.
    rewrite bind_JIT_ASSERT_true by exact Hlen.
    rewrite Hv, bind_nonnull_Some, bind_value. reflexivity. }
  specialize (Hstart unit (fun _ => mret tt)). rewrite Hstart. clear Hstart.
  split.
  - intros Huses. apply bind_JIT_ASSERT_false.
    apply bool_decide_eq_false_2. exact Huses.
  - intros Hnil Hlive Hbound Hinv.
    rewrite bind_JIT_ASSERT_true by (apply bool_decide_eq_true_2; exact Hnil).
    rewrite !bind_update_node.
    cbn [all_nodes set_all_nodes]. rewrite lookup_total_insert_eq.
    rewrite insert_insert_eq.
    cbn [outputs_ set_outputs_ set_schema_]. fold outs.
    match goal with |- context [(freeValue v ≫= _) ?g2] =>
      destruct (freeValue_live v g2 Hlive) as [names' Hfree] end.
    rewrite (bind_Ok _ _ _ _ _ Hfree). cbv beta.
    rewrite bind_node. cbn [all_nodes all_values set_all_nodes set_all_values set_unique_names_].
    rewrite lookup_total_insert_eq. cbn [outputs_ set_outputs_].
    rewrite forM_decrement, drop_delete_same.
    cbn [all_nodes all_values set_all_nodes set_all_values set_unique_names_].
    eexists. split; [reflexivity |].
    cbn [all_nodes all_values set_all_nodes set_all_values set_unique_names_].
    rewrite lookup_total_insert_eq. cbn [outputs_ set_outputs_].
    (* the outputs are pairwise different pointers *)
    assert (Hnd : NoDup outs).
    { apply NoDup_alt. intros j1 j2 o H1 H2.
      apply Hinv in H1, H2. lia. }
    assert (Hv_out : v ∉ drop (S i) outs).
    { intros Hin. apply list_elem_of_lookup in Hin as [j Hj].
      rewrite lookup_drop in Hj.
      pose proof (NoDup_lookup _ _ _ _ Hnd Hv Hj). lia. }
    assert (Hoffsets : forall j o, outs !! j = Some o -> j <> i ->
      offset_ (foldl decrement_offset (delete v (all_values g)) (drop (S i) outs) !!! o)
      = if (j <? i)%nat then offset_ (all_values g !!! o)
        else offset_ (all_values g !!! o) - 1).
    { intros j o Hj Hji.
      assert (Hov : o <> v).
      { intros ->. apply Hji. exact (NoDup_lookup _ _ _ _ Hnd Hj Hv). }
      destruct (Nat.ltb_spec j i) as [Hlt | Hge].
      - rewrite lookup_total_alt, foldl_decrement_notin.
        + rewrite lookup_delete_ne by congruence.
          rewrite <- lookup_total_alt. reflexivity.
        + intros Hin. apply list_elem_of_lookup in Hin as [j' Hj'].
          rewrite lookup_drop in Hj'.
          pose proof (NoDup_lookup _ _ _ _ Hnd Hj Hj'). lia.
      - rewrite foldl_decrement_in.
        + rewrite lookup_total_delete_ne by congruence.
          cbn [offset_ set_offset_].
          rewrite (Hinv j o Hj). apply wrap64_small.
          pose proof (lookup_lt_Some _ _ _ Hj). fold outs in Hbound.
          unfold in_u64. lia.
        + eapply sublist_NoDup; [exact Hnd | apply sublist_drop].
        + apply list_elem_of_lookup. exists (j - S i)%nat.
          rewrite lookup_drop. replace (S i + (j - S i))%nat with j by lia.
          exact Hj. }
    split; [reflexivity |]. split; [| split].
    + rewrite foldl_decrement_notin by exact Hv_out. apply lookup_delete_eq.
    + exact Hoffsets.
    + intros j o. cbn [all_nodes all_values set_all_nodes set_all_values set_unique_names_].
      rewrite lookup_total_insert_eq. cbn [outputs_ set_outputs_].
      rewrite list_lookup_delete. intros Hj.
      case_decide as Hlt.
      * rewrite (Hoffsets j o Hj) by lia.
        rewrite (proj2 (Nat.ltb_lt _ _)) by exact Hlt. apply (Hinv j o Hj).
      * rewrite (Hoffsets (S j) o Hj) by lia.
        rewrite (proj2 (Nat.ltb_ge _ _)) by lia.
        rewrite (Hinv (S j) o Hj). lia.
Qed.

(** The node made by [create prim_Constant 3] in an empty graph, with its
    three outputs. *)
Definition three_outputs : Graph := snd (create prim_Constant 3 Graph_new).

Lemma three_outputs_indexed : outputs_indexed three_outputs 3%positive.
Proof.
  intros j o.
  assert (Houts : outputs_ (all_nodes three_outputs !!! 3%positive)
                  = [1; 2; 3]%positive) by (vm_compute; reflexivity).
  rewrite Houts.
  destruct j as [| [| [| j]]]; cbn; intros [= <-]; vm_compute; reflexivity.
Qed.

Lemma eraseOutput_spec_witness :
  exists g',
    eraseOutput 3%positive 1 three_outputs = (Ok tt, g') /\
    outputs_ (all_nodes g' !!! 3%positive) = [1; 3]%positive /\
    outputs_indexed g' 3%positive.
Proof.
  destruct (eraseOutput_spec three_outputs 3%positive 1 2%positive) as [_ H].
  - reflexivity.
  - destruct H as (g' & Hrun & Houts & _ & _ & Hidx).
    + reflexivity.
    + eexists. reflexivity.
    + vm_compute. discriminate.
    + apply three_outputs_indexed.
    + exists g'. repeat split; assumption.
Defined.

(** *** The scenario "append and index" *)

(** Make a node of the given kind and append it to the top-level block. *)
Definition append_new_node (kind : NodeKind) : IR NodePtr :=
  n ← create kind 0;
  g ← get;
  appendNode (block_ g) n.

(** Append [count] nodes one after another; the nodes, in the order they
    were appended. *)
Definition append_nodes (kind : NodeKind) (count : nat) : IR (list NodePtr) :=
  foldM (fun appended _ => n ← append_new_node kind; mret (appended ++ [n]))
        [] (seq 0 count).

(** The topological positions of the nodes appended to an empty graph, in
    the order they were appended; empty if appending raises. *)
Definition appended_positions (kind : NodeKind) (count : nat) : list Z :=
  match append_nodes kind count Graph_new with
  | (Ok appended, g) => map (fun n => topo_position_ (all_nodes g !!! n)) appended
  | (Err _, _) => []
  end.

(** C4, as worded: the k-th of ten appended nodes sits at [MIN + stride * k]. *)
Definition append_claim : Prop :=
  forall k : nat, (1 <= k <= 10)%nat ->
    appended_positions prim_Undefined 10 !! (k - 1)%nat
    = Some (kLowerBound + kAppendInterval * Z.of_nat k).

(** C4, as worded, fails already for the first node: it is placed at the
    midpoint 0 of the index, not at [MIN + stride]. *)
Lemma append_claim_fails : ~ append_claim.
Proof.
  intros H. specialize (H 1%nat ltac:(lia)). vm_compute in H. discriminate H.
Qed.

(** C4, amended: starting from an empty graph, appending 10 nodes one after
    another assigns the k-th appended node (k in 1..10) the topological
    position [kMidPoint + stride * (k - 1)], where [kMidPoint] is 0 and
    [stride] is the append interval 2^40. *)
Theorem append_positions (kind : NodeKind) (k : nat) :
  (1 <= k <= 10)%nat ->
  appended_positions kind 10 !! (k - 1)%nat
  = Some (kMidPoint + kAppendInterval * (Z.of_nat k - 1)).
Proof.
  intros Hk.
  assert (Hpos : appended_positions kind 10
                 = map (fun j => kMidPoint + kAppendInterval * Z.of_nat j) (seq 0 10)).
  { vm_compute. reflexivity. }
  rewrite Hpos, list_lookup_fmap.
  rewrite lookup_seq_lt by lia.
  cbn [fmap option_fmap option_map]. f_equal.
  unfold kMidPoint, kAppendInterval. lia.
Qed.

Lemma append_positions_witness :
  appended_positions prim_Undefined 10 !! (3 - 1)%nat
  = Some (kMidPoint + kAppendInterval * (Z.of_nat 3 - 1)).
Proof. apply (append_positions prim_Undefined 3). lia. Defined.

(** The graph with one node appended, and that node. *)
Definition one_node_graph : Graph := snd (append_new_node prim_Undefined Graph_new).
Definition the_one_node : NodePtr := 3%positive.

(** *** [tryMove] onto itself *)

(** C10: for every live node [n] (a node in the node list of a block),
    [tryMove n n side] with either side returns [true] and leaves the graph
    unchanged: no block position, topological position or link is changed. *)
Theorem tryMove_self (g : Graph) (n : NodePtr) (side : MoveSide) :
  next_ (all_nodes g !!! n) <> None ->
  tryMove n n side g = (Ok true, g).
Proof.
  intros Hlive. unfold tryMove.
  assert (Hin : inBlockList n g = (Ok true, g)).
  { unfold inBlockList, node. rewrite bind_gets.
    destruct (next_ (all_nodes g !!! n)); [reflexivity | contradiction]. }
  rewrite (bind_Ok _ _ _ _ _ Hin). cbv beta iota.
  rewrite (bind_Ok _ _ _ _ _ Hin). cbv beta iota.
  cbn [andb]. unfold JIT_ASSERT, node. cbv beta iota.
  rewrite bind_ret, !bind_gets.
  rewrite !bool_decide_eq_true_2 by reflexivity. reflexivity.
Qed.

Lemma tryMove_self_witness :
  tryMove the_one_node the_one_node AFTER one_node_graph = (Ok true, one_node_graph).
Proof. apply tryMove_self. vm_compute. discriminate. Defined.

(** ** More of the graph: inputs, uses and the node list *)

Ltac simp_graph :=
  repeat progress (cbn [all_nodes all_values all_blocks unique_names_ next_unique_ block_
       set_all_nodes set_all_values set_all_blocks set_unique_names_ set_next_unique_
       next_ prev_ kind_ inputs_ outputs_ blocks_ owning_block_ schema_ topo_position_
       set_next_ set_prev_ set_inputs_ set_outputs_ set_blocks_ set_owning_block_
       set_schema_ set_topo_position_
       node_ offset_ unique_ uses_ unique_name_ type_
       set_offset_ set_uses_ set_unique_name_ set_type_];
  rewrite ?lookup_total_insert_eq).

Ltac norm := cbv beta iota; repeat (rewrite bind_assoc; cbv beta iota).

(** *** Inputs and uses *)

(** [inputs_[i]], an access that is not bounds-checked: reading past the
    end is undefined in the source and a [NullPointer] here, as is going
    through an input that was dropped. *)
Definition input_at (this : NodePtr) (i : nat) : IR ValuePtr :=
  nd ← node this;
  match inputs_ nd !! i with
  | Some (Some v) => mret v
  | _ => throw NullPointer
  end.

(** [use_list::iterator Node::findUseForInput(size_t i)]: the input and the
    index of its first use that equals [Use(this, i)]. *)
Definition findUseForInput (this : NodePtr) (i : nat) : IR (ValuePtr * nat) :=
  input ← input_at this i;
  x ← value input;
  match list_find (fun u => u = mkUse this (Z.of_nat i)) (uses_ x) with
  | Some (use_it, _) => mret (input, use_it)
  | None => throw AssertFailed
  end.

(** [Value* Node::dropInput(size_t i)] *)
Definition dropInput (this : NodePtr) (i : nat) : IR ValuePtr :=
  nd ← node this;
  JIT_ASSERT (i <? length (inputs_ nd))%nat;;
  '(input_node, use_it) ← findUseForInput this i;
  update_value input_node (fun x => set_uses_ (delete use_it (uses_ x)) x);;
  update_node this (fun nd => set_inputs_ (<[i := None]> (inputs_ nd)) nd);;
  mret input_node.

(** [it->offset--], [use->offset += 1] on the use an iterator points at *)
Definition shift_use (delta : Z) (use_it : nat) (x : Value) : Value :=
  set_uses_ (alter (fun u => mkUse (user u) (wrap64 (offset u + delta))) use_it (uses_ x)) x.

(** [void Node::removeInput(size_t i)] *)
Definition removeInput (this : NodePtr) (i : nat) : IR unit :=
  update_node this (set_schema_ None);;
  _ ← dropInput this i;
  (* everything after this input shifts left, so we need to update their
     use offsets to match *)
  nd ← node this;
  forM_ (seq (i + 1) (length (inputs_ nd) - (i + 1)))
        (fun j => '(input, it) ← findUseForInput this j;
                  update_value input (shift_use (-1) it));;
  update_node this (fun nd => set_inputs_ (delete i (inputs_ nd)) nd).

(** [void Node::removeAllInputs()] *)
Definition removeAllInputs (this : NodePtr) : IR unit :=
  update_node this (set_schema_ None);;
  nd ← node this;
  forM_ (seq 0 (length (inputs_ nd))) (fun i => _ ← dropInput this i; mret tt);;
  update_node this (set_inputs_ []).

(** [Value* Node::insertInput(size_t i, Value* value)] *)
Definition insertInput (this : NodePtr) (i : nat) (v : ValuePtr) : IR ValuePtr :=
  update_node this (set_schema_ None);;
  nd ← node this;
  forM_ (seq i (length (inputs_ nd) - i))
        (fun use_itr => '(input, use) ← findUseForInput this use_itr;
                        update_value input (shift_use 1 use));;
  update_node this (fun nd =>
    set_inputs_ (take i (inputs_ nd) ++ Some v :: drop i (inputs_ nd)) nd);;
  update_value v (fun x => set_uses_ (uses_ x ++ [mkUse this (Z.of_nat i)]) x);;
  mret v.

(** [Value* Node::replaceInput(size_t i, Value * newValue)] *)
Definition replaceInput (this : NodePtr) (i : nat) (newValue : ValuePtr) : IR ValuePtr :=
  update_node this (set_schema_ None);;
  old ← dropInput this i;
  update_node this (fun nd => set_inputs_ (<[i := Some newValue]> (inputs_ nd)) nd);;
  update_value newValue (fun x => set_uses_ (uses_ x ++ [mkUse this (Z.of_nat i)]) x);;
  mret old.

(** [void Node::replaceInputWith(Value * from, Value * to)] *)
Definition replaceInputWith (this : NodePtr) (from to : ValuePtr) : IR unit :=
  update_node this (set_schema_ None);;
  nd ← node this;
  forM_ (seq 0 (length (inputs_ nd)))
        (fun i =>
           nd ← node this;
           if bool_decide (inputs_ nd !! i = Some (Some from))
           then _ ← replaceInput this i to; mret tt
           else mret tt).

(** [void Value::replaceFirstUseWith(Value * newValue)].  [uses()[0]] on
    an empty list is undefined in the source, a [NullPointer] here; so is
    the write to [inputs_[u.offset]] past the end, which is no write here. *)
Definition replaceFirstUseWith (this newValue : ValuePtr) : IR unit :=
  x ← value this;
  u ← nonnull (head (uses_ x));
  update_node (user u) (fun nd =>
    set_inputs_ (<[Z.to_nat (offset u) := Some newValue]> (inputs_ nd)) nd);;
  update_value newValue (fun y => set_uses_ (uses_ y ++ [u]) y);;
  update_value this (fun x => set_uses_ (tail (uses_ x)) x).

(** [void Value::replaceAllUsesWith(Value * newValue)].  Each turn of the
    loop moves one use away, unless [newValue] is the value itself, where
    the use moves to the back of the same list: a loop that takes more turns
    than there were uses never ends. *)
Fixpoint replaceAllUsesWith_loop (fuel : nat) (this newValue : ValuePtr) : IR unit :=
  x ← value this;
  if bool_decide (uses_ x = []) then mret tt
  else
    match fuel with
    | O => throw Diverges
    | S fuel' =>
        replaceFirstUseWith this newValue;;
        replaceAllUsesWith_loop fuel' this newValue
    end.

Definition replaceAllUsesWith (this newValue : ValuePtr) : IR unit :=
  x ← value this;
  replaceAllUsesWith_loop (length (uses_ x)) this newValue.

(** [void Node::replaceAllUsesWith(Node * n)] *)
Definition Node_replaceAllUsesWith (this n : NodePtr) : IR unit :=
  nd ← node this;
  nn ← node n;
  JIT_ASSERT (length (outputs_ nd) =? length (outputs_ nn))%nat;;
  let nOutputs := length (outputs_ nd) in
  forM_ (seq 0 nOutputs)
        (fun i =>
           nd ← node this;
           nn ← node n;
           o ← nonnull (outputs_ nd !! i);
           o' ← nonnull (outputs_ nn !! i);
           replaceAllUsesWith o o').

(** [Value* Node::insertOutput(size_t i)].  Inserting past the end of the
    outputs is undefined in the source; here the value goes to the end. *)
Definition insertOutput (this : NodePtr) (i : nat) : IR ValuePtr :=
  update_node this (set_schema_ None);;
  v ← Value_new this (Z.of_nat i);
  update_node this (fun nd =>
    set_outputs_ (take i (outputs_ nd) ++ v :: drop i (outputs_ nd)) nd);;
  nd ← node this;
  forM_ (drop (i + 1) (outputs_ nd))
        (fun o => update_value o (fun x => set_offset_ (wrap64 (offset_ x + 1)) x));;
  nd ← node this;
  match outputs_ nd !! i with
  | Some o => mret o
  | None => throw (RuntimeError "vector::at")
  end.

(** *** Queries do not touch the graph *)

(** The graph is the same before and after, whether the query returns or
    throws. *)
Definition unchanged : relation Graph := fun g g' => g' = g.

#[global] Instance unchanged_refl : Reflexive unchanged.
Proof. intros g. reflexivity. Qed.
#[global] Instance unchanged_trans : Transitive unchanged.
Proof. intros g1 g2 g3 H1 H2. unfold unchanged in *. congruence. Qed.

Ltac query_step :=
  match goal with
  | |- Frame _ (_ ≫= _) => apply Frame_bind; [typeclasses eauto | | intros ?]
  | |- Frame _ (mret _) => apply Frame_ret; typeclasses eauto
  | |- Frame _ (throw _) => apply Frame_throw; typeclasses eauto
  | |- Frame _ (gets _) => apply Frame_gets; typeclasses eauto
  | |- Frame _ get => apply Frame_get; typeclasses eauto
  | |- Frame _ (node _) => apply Frame_gets; typeclasses eauto
  | |- Frame _ (value _) => apply Frame_gets; typeclasses eauto
  | |- Frame _ (block _) => apply Frame_gets; typeclasses eauto
  | |- Frame _ (JIT_ASSERT _) => unfold JIT_ASSERT
  | |- Frame _ (nonnull _) => unfold nonnull
  | |- Frame _ (match ?x with _ => _ end) => destruct x
  | |- Frame _ (if ?x then _ else _) => destruct x
  end.

Ltac query := repeat first [query_step | assumption].

Lemma unchanged_foldM {A B} (body : B -> A -> IR B) (l : list A) :
  (forall acc x, Frame unchanged (body acc x)) ->
  forall acc, Frame unchanged (foldM body acc l).
Proof.
  intros Hbody. induction l as [| x l IH]; intros acc; simpl; query.
  - apply Hbody.
  - apply IH.
Qed.

Lemma unchanged_inBlockList n : Frame unchanged (inBlockList n).
Proof. unfold inBlockList. query. Qed.

Lemma unchanged_isAfter_rhs fuel lhs : forall rhs, Frame unchanged (isAfter_rhs fuel lhs rhs).
Proof.
  induction fuel as [| fuel IH]; intros rhs; simpl; query. apply IH.
Qed.

Lemma unchanged_isAfter_lhs fuel n : forall lhs, Frame unchanged (isAfter_lhs fuel lhs n).
Proof.
  induction fuel as [| fuel IH]; intros lhs; simpl; query.
  - apply unchanged_isAfter_rhs.
  - apply IH.
Qed.

Lemma unchanged_isAfter this n : Frame unchanged (isAfter this n).
Proof. unfold isAfter. query. apply unchanged_isAfter_lhs. Qed.

Lemma unchanged_isBefore this n : Frame unchanged (isBefore this n).
Proof. unfold isBefore. query. apply unchanged_isAfter. Qed.

Lemma unchanged_enclosing_node fuel target :
  forall curNode, Frame unchanged (enclosing_node fuel target curNode).
Proof.
  induction fuel as [| fuel IH]; intros curNode; simpl; query. apply IH.
Qed.

Lemma unchanged_getUsersSameBlock n : Frame unchanged (getUsersSameBlock n).
Proof.
  unfold getUsersSameBlock. query. apply unchanged_foldM. intros users output.
  query. apply unchanged_foldM. intros users' use. query.
  apply unchanged_enclosing_node.
Qed.

Lemma unchanged_WorkingSet_add ws n : Frame unchanged (WorkingSet_add ws n).
Proof. unfold WorkingSet_add. query. apply unchanged_getUsersSameBlock. Qed.

Lemma unchanged_WorkingSet_eraseMover ws : Frame unchanged (WorkingSet_eraseMover ws).
Proof. unfold WorkingSet_eraseMover. query. apply unchanged_getUsersSameBlock. Qed.

Lemma unchanged_WorkingSet_dependsOn ws n : Frame unchanged (WorkingSet_dependsOn ws n).
Proof.
  unfold WorkingSet_dependsOn, WorkingSet_consumesFrom. query.
  - apply unchanged_isAfter.
  - apply unchanged_getUsersSameBlock.
Qed.

Lemma unchanged_tryMove_scan fuel direction movePoint :
  forall workingSet curNode,
    Frame unchanged (tryMove_scan fuel direction movePoint workingSet curNode).
Proof.
  induction fuel as [| fuel IH]; intros workingSet curNode; simpl; query;
    first [apply unchanged_WorkingSet_dependsOn | apply unchanged_WorkingSet_add
          | apply IH].
Qed.

Lemma unchanged_Ok {A} (m : IR A) g a g' :
  Frame unchanged m -> m g = (Ok a, g') -> g' = g.
Proof. intros Hm H. exact (Frame_run _ _ _ _ _ Hm H). Qed.

(** A block with two nodes, the second using the output of the first. *)
Definition producer_consumer : IR (NodePtr * NodePtr) :=
  b ← gets block_;
  producer ← create aten_add 1;
  appendNode b producer;;
  consumer ← create aten_mul 1;
  nd ← node producer;
  v ← nonnull (head (outputs_ nd));
  addInput consumer v;;
  appendNode b consumer;;
  mret (producer, consumer).

Definition two_nodes : Graph := snd (producer_consumer Graph_new).

(** X14: a refused move changes nothing.  When [tryMove] returns [false]
    the graph is the one it was called on: no node was moved, relinked or
    given a new position. *)
Theorem tryMove_refused_leaves_graph (this movePoint : NodePtr) (moveSide : MoveSide)
    (g g' : Graph) :
  tryMove this movePoint moveSide g = (Ok false, g') -> g' = g.
Proof.
  unfold tryMove. intros H.
  apply bind_Ok_inv in H as (a & g1 & H1 & H).
  apply unchanged_Ok in H1 as ->; [| apply unchanged_inBlockList].
  apply bind_Ok_inv in H as (b & g1 & H1 & H).
  apply unchanged_Ok in H1 as ->;
    [| destruct a; [apply unchanged_inBlockList | query]].
  apply bind_Ok_inv in H as ([] & g1 & H1 & H).
  apply unchanged_Ok in H1 as ->; [| query].
  rewrite !bind_node in H.
  apply bind_Ok_inv in H as ([] & g1 & H1 & H).
  apply unchanged_Ok in H1 as ->; [| query].
  destruct (bool_decide (this = movePoint)); [discriminate H |].
  apply bind_Ok_inv in H as (ws & g1 & H1 & H).
  apply unchanged_Ok in H1 as ->; [| apply unchanged_WorkingSet_add].
  apply bind_Ok_inv in H as (after & g1 & H1 & H).
  apply unchanged_Ok in H1 as ->; [| apply unchanged_isAfter].
  rewrite bind_node, bind_get in H.
  apply bind_Ok_inv in H as (ws' & g1 & H1 & H).
  apply unchanged_Ok in H1 as ->; [| apply unchanged_tryMove_scan].
  apply bind_Ok_inv in H as (before & g1 & H1 & H).
  apply unchanged_Ok in H1 as ->;
    [| destruct moveSide; [apply unchanged_isBefore | query]].
  apply bind_Ok_inv in H as (after' & g1 & H1 & H).
  apply unchanged_Ok in H1 as ->;
    [| destruct moveSide; [query | apply unchanged_isAfter]].
  apply bind_Ok_inv in H as (ws'' & g1 & H1 & H).
  apply unchanged_Ok in H1 as ->;
    [| destruct (before || after'); [apply unchanged_WorkingSet_eraseMover | query]].
  apply bind_Ok_inv in H as (blocked & g1 & H1 & H).
  apply unchanged_Ok in H1 as ->; [| apply unchanged_WorkingSet_dependsOn].
  destruct blocked.
  - injection H as <-. reflexivity.
  - apply bind_Ok_inv in H as ([] & g1 & _ & H). discriminate H.
Qed.

Lemma tryMove_refused_leaves_graph_witness :
  fst (tryMove 4%positive 3%positive BEFORE two_nodes) = Ok false /\
  snd (tryMove 4%positive 3%positive BEFORE two_nodes) = two_nodes.
Proof.
  split; [vm_compute; reflexivity |].
  apply (tryMove_refused_leaves_graph 4%positive 3%positive BEFORE).
  vm_compute. reflexivity.
Defined.

Lemma list_find_last {A} (P : A -> Prop) `{!forall x, Decision (P x)} (l : list A) x :
  Forall (fun y => ~ P y) l -> P x ->
  list_find P (l ++ [x]) = Some (length l, x).
Proof.
  intros Hl Hx. apply list_find_Some. split; [| split].
  - rewrite lookup_app_r by lia. rewrite Nat.sub_diag. reflexivity.
  - exact Hx.
  - intros j y Hj Hlt. rewrite lookup_app_l in Hj by exact Hlt.
    exact (proj1 (Forall_lookup _ _) Hl j y Hj).
Qed.

Lemma set_all_values_id (g : Graph) v :
  is_Some (all_values g !! v) ->
  set_all_values (<[v := all_values g !!! v]> (all_values g)) g = g.
Proof.
  intros [x Hx]. rewrite (lookup_total_correct _ _ _ Hx), insert_id by exact Hx.
  destruct g; reflexivity.
Qed.


(** A node with no inputs and a value to feed it. *)
Definition unused_pair : IR (NodePtr * ValuePtr) :=
  producer ← create aten_add 1;
  consumer ← create aten_mul 1;
  nd ← node producer;
  v ← nonnull (head (outputs_ nd));
  mret (consumer, v).

Definition two_unlinked : Graph := snd (unused_pair Graph_new).

(** X15: [removeInput] undoes [addInput].  Adding a value as the last
    input of a node and removing that input again gives back the graph,
    with the use list of the value and the inputs of the node as before;
    only the cached schema of the node is cleared.  The value is alive and
    has no use at that input before. *)
Theorem addInput_then_removeInput (g : Graph) (this : NodePtr) (v : ValuePtr) :
  let nd := all_nodes g !!! this in
  let last := length (inputs_ nd) in
  is_Some (all_values g !! v) ->
  mkUse this (Z.of_nat last) ∉ uses_ (all_values g !!! v) ->
  (addInput this v;; removeInput this last) g =
  (Ok tt, set_all_nodes (<[this := set_schema_ None nd]> (all_nodes g)) g).
Proof.
  intros nd last Hlive Hfresh.
  unfold addInput. rewrite !bind_assoc, bind_update_node.
  rewrite bind_assoc, bind_node. simp_graph. fold nd. simp_graph. fold last.
  rewrite bind_assoc, bind_update_value, bind_assoc, bind_update_node, bind_ret.
  simp_graph.
  unfold removeInput. rewrite bind_update_node. simp_graph.
  (* dropInput *)
  unfold dropInput. rewrite !bind_assoc, bind_node. simp_graph.
  rewrite bind_assoc, bind_JIT_ASSERT_true
    by (apply Nat.ltb_lt; rewrite length_app; simpl; lia).
  unfold findUseForInput, input_at. rewrite !bind_assoc, bind_node. simp_graph.
  rewrite (lookup_app_r (inputs_ nd)) by (unfold last; lia).
  unfold last at 1. rewrite Nat.sub_diag. cbn [lookup list_lookup].
  rewrite bind_ret, bind_assoc, bind_value. simp_graph.
  rewrite (list_find_last (fun u => u = mkUse this (Z.of_nat last)))
    by (try reflexivity; apply Forall_forall; intros u Hu ->; contradiction).
  rewrite bind_ret. cbv beta iota.
  rewrite bind_assoc, bind_update_value. simp_graph.
  rewrite (delete_middle (uses_ (all_values g !!! v)) []), app_nil_r.
  rewrite bind_assoc, bind_update_node, bind_ret. simp_graph.
  (* the loop over the later inputs is empty *)
  rewrite bind_node. simp_graph.
  rewrite length_insert, length_app. cbn [length].
  replace (length (inputs_ nd) + 1 - (last + 1))%nat with 0%nat by (unfold last; lia).
  cbn [seq forM_]. rewrite bind_ret.
  unfold update_node, modify. simp_graph.
  f_equal. unfold set_all_nodes, set_all_values. simp_graph.
  rewrite !insert_insert_eq.
  assert (Hin : delete (length (inputs_ nd)) (<[last := None]> (inputs_ nd ++ [Some v]))
                = inputs_ nd).
  { unfold last. rewrite insert_app_r_alt, Nat.sub_diag by lia. cbn [insert list_insert].
    rewrite (delete_middle (inputs_ nd) []), app_nil_r. reflexivity. }
  rewrite Hin.
  assert (Hval : <[v := set_uses_ (uses_ (all_values g !!! v))
                          (set_uses_ (uses_ (all_values g !!! v) ++
                                      [mkUse this (Z.of_nat last)]) (all_values g !!! v))]>
                   (all_values g) = all_values g).
  { destruct Hlive as [x Hx]. rewrite (lookup_total_correct _ _ _ Hx).
    apply insert_id. rewrite Hx. destruct x; reflexivity. }
  rewrite Hval. reflexivity.
Qed.


Lemma addInput_then_removeInput_witness :
  (addInput 4%positive 1%positive;; removeInput 4%positive 0%nat) two_unlinked =
  (Ok tt, set_all_nodes
            (<[4%positive := set_schema_ None (all_nodes two_unlinked !!! 4%positive)]>
               (all_nodes two_unlinked)) two_unlinked).
Proof.
  apply (addInput_then_removeInput two_unlinked 4%positive 1%positive).
  - vm_compute. eexists. reflexivity.
  - assert (Huses : uses_ (all_values two_unlinked !!! 1%positive) = [])
      by (vm_compute; reflexivity).
    rewrite Huses. apply not_elem_of_nil.
Defined.

(** *** Replacing a value *)

(** The input [i] of node [n]. *)
Definition input_of (g : Graph) (n : NodePtr) (i : nat) : option (option ValuePtr) :=
  inputs_ (all_nodes g !!! n) !! i.

Lemma replaceFirstUseWith_step (g : Graph) (this newValue : ValuePtr) u rest :
  this <> newValue ->
  uses_ (all_values g !!! this) = u :: rest ->
  exists g',
    replaceFirstUseWith this newValue g = (Ok tt, g') /\
    uses_ (all_values g' !!! this) = rest /\
    uses_ (all_values g' !!! newValue) = uses_ (all_values g !!! newValue) ++ [u] /\
    (forall n, length (inputs_ (all_nodes g' !!! n)) = length (inputs_ (all_nodes g !!! n))) /\
    (forall n i, input_of g' n i = input_of g n i \/ input_of g' n i = Some (Some newValue)) /\
    ((Z.to_nat (offset u) < length (inputs_ (all_nodes g !!! user u)))%nat ->
     input_of g' (user u) (Z.to_nat (offset u)) = Some (Some newValue)).
Proof.
  intros Hne Huses. unfold replaceFirstUseWith.
  rewrite bind_value, Huses. cbn [head]. rewrite bind_nonnull_Some.
  rewrite bind_update_node, bind_update_value.
  eexists. split; [reflexivity |]. unfold input_of. simp_graph.
  rewrite (lookup_total_insert_ne _ this newValue) by exact Hne.
  rewrite (lookup_total_insert_ne _ newValue this) by congruence.
  rewrite Huses. simp_graph.
  split; [reflexivity |]. split; [reflexivity |].
  split; [| split].
  - intros n. destruct (decide (n = user u)) as [-> | Hn].
    + rewrite lookup_total_insert_eq. simp_graph. apply length_insert.
    + rewrite lookup_total_insert_ne by congruence. reflexivity.
  - intros n i. destruct (decide (n = user u)) as [-> | Hn].
    + rewrite lookup_total_insert_eq. simp_graph.
      destruct (decide (i = Z.to_nat (offset u))) as [-> | Hi].
      * destruct (decide (Z.to_nat (offset u)
                          < length (inputs_ (all_nodes g !!! user u)))%nat).
        -- right. apply list_lookup_insert_eq. assumption.
        -- left. rewrite list_insert_ge by lia. reflexivity.
      * left. apply list_lookup_insert_ne. congruence.
    + left. rewrite lookup_total_insert_ne by congruence. reflexivity.
  - intros Hin. apply list_lookup_insert_eq. exact Hin.
Qed.

Lemma replaceAllUsesWith_loop_spec (this newValue : ValuePtr) :
  this <> newValue ->
  forall l g fuel,
    uses_ (all_values g !!! this) = l ->
    (length l <= fuel)%nat ->
    exists g',
      replaceAllUsesWith_loop fuel this newValue g = (Ok tt, g') /\
      uses_ (all_values g' !!! this) = [] /\
      uses_ (all_values g' !!! newValue) = uses_ (all_values g !!! newValue) ++ l /\
      (forall n, length (inputs_ (all_nodes g' !!! n)) = length (inputs_ (all_nodes g !!! n))) /\
      (forall n i, input_of g' n i = input_of g n i \/ input_of g' n i = Some (Some newValue)) /\
      (forall u, u ∈ l ->
         (Z.to_nat (offset u) < length (inputs_ (all_nodes g !!! user u)))%nat ->
         input_of g' (user u) (Z.to_nat (offset u)) = Some (Some newValue)).
Proof.
  intros Hne. induction l as [| u rest IH]; intros g fuel Huses Hfuel.
  - assert (Hrun : replaceAllUsesWith_loop fuel this newValue g = (Ok tt, g)).
    { destruct fuel; cbn [replaceAllUsesWith_loop];
        rewrite bind_value, Huses; reflexivity. }
    exists g. split; [exact Hrun |]. split; [exact Huses |].
    rewrite app_nil_r. split; [reflexivity |]. split; [reflexivity |].
    split; [auto |]. intros u Hu. inversion Hu.
  - destruct fuel as [| fuel]; [simpl in Hfuel; lia |].
    cbn [replaceAllUsesWith_loop]. rewrite bind_value, Huses.
    rewrite bool_decide_eq_false_2 by discriminate.
    destruct (replaceFirstUseWith_step g this newValue u rest Hne Huses)
      as (g1 & Hstep & Hthis1 & Hnew1 & Hlen1 & Hin1 & Hu1).
    rewrite (bind_Ok _ _ _ _ _ Hstep). cbv beta.
    destruct (IH g1 fuel Hthis1 ltac:(simpl in Hfuel; lia))
      as (g' & Hrun & Hthis & Hnew & Hlen & Hin & Hall).
    exists g'. split; [exact Hrun |]. split; [exact Hthis |].
    split; [rewrite Hnew, Hnew1, <- app_assoc; reflexivity |].
    split; [intros n; rewrite Hlen; apply Hlen1 |].
    split.
    + intros n i. destruct (Hin n i) as [Heq | Heq]; [| right; exact Heq].
      rewrite Heq. apply Hin1.
    + intros u' Hu' Hrange. apply elem_of_cons in Hu' as [-> | Hu'].
      * destruct (Hin (user u) (Z.to_nat (offset u))) as [Heq | Heq]; [| exact Heq].
        rewrite Heq. apply Hu1. exact Hrange.
      * apply Hall; [exact Hu' |]. rewrite Hlen1. exact Hrange.
Qed.

(** X16: [replaceAllUsesWith] moves every use.  For a different
    [newValue] the call returns; afterwards the value has no use,
    [newValue] has its own uses followed by the moved ones in order, every
    input slot that a moved use names holds [newValue], and no other input
    slot has changed. *)
Theorem replaceAllUsesWith_moves_all_uses (g : Graph) (this newValue : ValuePtr) :
  this <> newValue ->
  exists g',
    replaceAllUsesWith this newValue g = (Ok tt, g') /\
    uses_ (all_values g' !!! this) = [] /\
    uses_ (all_values g' !!! newValue)
      = uses_ (all_values g !!! newValue) ++ uses_ (all_values g !!! this) /\
    (forall u, u ∈ uses_ (all_values g !!! this) ->
       (Z.to_nat (offset u) < length (inputs_ (all_nodes g !!! user u)))%nat ->
       input_of g' (user u) (Z.to_nat (offset u)) = Some (Some newValue)) /\
    (forall n i, input_of g' n i = input_of g n i \/ input_of g' n i = Some (Some newValue)).
Proof.
  intros Hne. unfold replaceAllUsesWith. rewrite bind_value.
  destruct (replaceAllUsesWith_loop_spec this newValue Hne
              (uses_ (all_values g !!! this)) g
              (length (uses_ (all_values g !!! this))) eq_refl (le_n _))
    as (g' & Hrun & Hthis & Hnew & _ & Hin & Hall).
  exists g'. auto.
Qed.

Lemma replaceAllUsesWith_moves_all_uses_witness :
  exists g',
    replaceAllUsesWith 1%positive 2%positive two_nodes = (Ok tt, g') /\
    uses_ (all_values g' !!! 1%positive) = [] /\
    uses_ (all_values g' !!! 2%positive) = [mkUse 4%positive 0].
Proof.
  destruct (replaceAllUsesWith_moves_all_uses two_nodes 1%positive 2%positive)
    as (g' & Hrun & Hthis & Hnew & _); [discriminate |].
  exists g'. split; [exact Hrun |]. split; [exact Hthis |].
  rewrite Hnew. vm_compute. reflexivity.
Defined.

Lemma replaceAllUsesWith_loop_self (this : ValuePtr) :
  forall fuel g,
    uses_ (all_values g !!! this) <> [] ->
    fst (replaceAllUsesWith_loop fuel this this g) = Err Diverges.
Proof.
  induction fuel as [| fuel IH]; intros g Huses;
    cbn [replaceAllUsesWith_loop]; rewrite bind_value;
    rewrite bool_decide_eq_false_2 by exact Huses; [reflexivity |].
  unfold replaceFirstUseWith. rewrite bind_assoc, bind_value.
  destruct (uses_ (all_values g !!! this)) as [| u rest] eqn:Hu; [contradiction |].
  cbn [head]. rewrite bind_assoc, bind_nonnull_Some.
  rewrite bind_assoc, bind_update_node, bind_assoc, bind_update_value, bind_update_value.
  apply IH. simp_graph. rewrite Hu. cbn [tail app].
  destruct rest; discriminate.
Qed.

(** X17: replacing the uses of a value by the value itself does not end.
    If the value has a use, the loop of [replaceAllUsesWith] with
    [newValue] the value itself does not finish in any number of turns:
    each turn moves the first use to the back of the same list. *)
Theorem replaceAllUsesWith_self_never_ends (g : Graph) (this : ValuePtr) :
  uses_ (all_values g !!! this) <> [] ->
  (forall fuel, fst (replaceAllUsesWith_loop fuel this this g) = Err Diverges) /\
  fst (replaceAllUsesWith this this g) = Err Diverges.
Proof.
  intros Huses. split.
  - intros fuel. apply replaceAllUsesWith_loop_self. exact Huses.
  - unfold replaceAllUsesWith. rewrite bind_value.
    apply replaceAllUsesWith_loop_self. exact Huses.
Qed.

Lemma replaceAllUsesWith_self_never_ends_witness :
  fst (replaceAllUsesWith 1%positive 1%positive two_nodes) = Err Diverges.
Proof.
  apply (replaceAllUsesWith_self_never_ends two_nodes 1%positive).
  vm_compute. discriminate.
Defined.

(** *** Outputs *)

(** The outputs of [n] are values of the graph, made for [n], unused, and
    each records its index as its offset. *)
Definition fresh_outputs (g : Graph) (n : NodePtr) : Prop :=
  forall (j : nat) (o : ValuePtr),
    outputs_ (all_nodes g !!! n) !! j = Some o ->
    exists x, all_values g !! o = Some x /\
              node_ x = n /\ offset_ x = Z.of_nat j /\ uses_ x = [].

Lemma bind_Value_new {B} n off (k : ValuePtr -> IR B) g :
  (Value_new n off ≫= k) g =
  k (fresh (dom (all_values g)))
    (set_next_unique_ (wrap64 (next_unique_ g + 1))
       (set_all_values
          (<[fresh (dom (all_values g)) :=
               mkValue n off (next_unique_ g) [] EmptyString Types.DynamicType]>
             (all_values g)) g)).
Proof. reflexivity. Qed.

Lemma addOutput_fresh_outputs (g : Graph) (n : NodePtr) :
  fresh_outputs g n ->
  exists v g',
    addOutput n g = (Ok v, g') /\
    outputs_ (all_nodes g' !!! n) = outputs_ (all_nodes g !!! n) ++ [v] /\
    fresh_outputs g' n /\
    (forall m, m <> n -> all_nodes g' !! m = all_nodes g !! m) /\
    kind_ (all_nodes g' !!! n) = kind_ (all_nodes g !!! n) /\
    inputs_ (all_nodes g' !!! n) = inputs_ (all_nodes g !!! n).
Proof.
  intros Hfresh. unfold addOutput. rewrite bind_node, bind_Value_new.
  set (v := fresh (dom (all_values g))).
  assert (Hv : all_values g !! v = None).
  { apply not_elem_of_dom. apply is_fresh. }
  rewrite !bind_update_node. exists v. eexists. split; [reflexivity |].
  unfold fresh_outputs. simp_graph. split; [reflexivity |]. split; [| split].
  - intros j o Hj. apply lookup_app_Some in Hj as [Hj | [Hlen Hj]].
    + destruct (Hfresh j o Hj) as (x & Hx & Hrest). exists x. split; [| exact Hrest].
      rewrite lookup_insert_ne; [exact Hx |]. intros <-. congruence.
    + destruct (j - length (outputs_ (all_nodes g !!! n)))%nat as [| k] eqn:Hk;
        [| destruct k; discriminate Hj].
      injection Hj as <-. eexists. split; [apply lookup_insert_eq |].
      simp_graph. repeat split. f_equal. lia.
  - intros m Hm. rewrite !lookup_insert_ne by congruence. reflexivity.
  - split; reflexivity.
Qed.

Lemma create_outputs_loop (n : NodePtr) (count : nat) :
  forall (start : nat) (g : Graph),
    fresh_outputs g n ->
    exists g',
      forM_ (seq start count) (fun _ => _ ← addOutput n; mret tt) g = (Ok tt, g') /\
      length (outputs_ (all_nodes g' !!! n))
        = (length (outputs_ (all_nodes g !!! n)) + count)%nat /\
      fresh_outputs g' n /\
      (forall m, m <> n -> all_nodes g' !! m = all_nodes g !! m) /\
      kind_ (all_nodes g' !!! n) = kind_ (all_nodes g !!! n) /\
      inputs_ (all_nodes g' !!! n) = inputs_ (all_nodes g !!! n).
Proof.
  induction count as [| count IH]; intros start g Hfresh.
  - exists g. split; [reflexivity |]. split; [lia |]. auto.
  - cbn [seq]. rewrite forM__cons.
    destruct (addOutput_fresh_outputs g n Hfresh)
      as (v & g1 & Hadd & Hout1 & Hfresh1 & Hother1 & Hkind1 & Hin1).
    rewrite bind_assoc, (bind_Ok _ _ _ _ _ Hadd). cbv beta. rewrite bind_ret.
    destruct (IH (S start) g1 Hfresh1)
      as (g' & Hrun & Hlen & Hfresh' & Hother & Hkind & Hin).
    exists g'. split; [exact Hrun |].
    split; [rewrite Hlen, Hout1, length_app; simpl; lia |].
    split; [exact Hfresh' |]. split; [| split; congruence].
    intros m Hm. rewrite Hother by exact Hm. apply Hother1. exact Hm.
Qed.

(** X18: [create] builds a fresh, unplaced node.  [Graph::create]
    returns a node that was not in the graph and leaves all other nodes as
    they were; the new node has the kind asked for, no inputs and
    [num_outputs] outputs, each of them a new value of that node whose
    offset is its index in the output list. *)
Theorem create_makes_indexed_outputs (g : Graph) (kind : NodeKind) (num_outputs : nat) :
  exists n g',
    create kind num_outputs g = (Ok n, g') /\
    all_nodes g !! n = None /\
    (forall m, m <> n -> all_nodes g' !! m = all_nodes g !! m) /\
    kind_ (all_nodes g' !!! n) = kind /\
    inputs_ (all_nodes g' !!! n) = [] /\
    length (outputs_ (all_nodes g' !!! n)) = num_outputs /\
    fresh_outputs g' n /\
    outputs_indexed g' n.
Proof.
  unfold create, Node_new. rewrite bind_eq. cbv beta iota zeta.
  set (n := fresh (dom (all_nodes g))).
  set (g0 := set_all_nodes _ g).
  assert (Hn : all_nodes g !! n = None).
  { apply not_elem_of_dom. apply is_fresh. }
  assert (Hfresh0 : fresh_outputs g0 n).
  { intros j o. subst g0. simp_graph. rewrite lookup_nil. discriminate. }
  destruct (create_outputs_loop n num_outputs 0 g0 Hfresh0)
    as (g' & Hrun & Hlen & Hfresh & Hother & Hkind & Hin).
  rewrite (bind_Ok _ _ _ _ _ Hrun). exists n, g'. split; [reflexivity |].
  split; [exact Hn |].
  split.
  { intros m Hm. rewrite Hother by exact Hm. subst g0. simp_graph.
    apply lookup_insert_ne. congruence. }
  subst g0. revert Hlen Hkind Hin. simp_graph. intros Hlen Hkind Hin.
  split; [exact Hkind |]. split; [exact Hin |]. split; [exact Hlen |].
  split; [exact Hfresh |].
  intros j o Hj. destruct (Hfresh j o Hj) as (x & Hx & _ & Hoff & _).
  rewrite (lookup_total_correct _ _ _ Hx). exact Hoff.
Qed.

(** *** The node list of a block *)

(** Following [next] from [cur] visits the nodes [l], in this order, and
    then arrives at [last]. *)
Fixpoint node_chain (g : Graph) (cur last : NodePtr) (l : list NodePtr) : Prop :=
  match l with
  | [] => cur = last
  | n :: l' =>
      cur = n /\ n <> last /\
      exists nx, next_ (all_nodes g !!! n) = Some nx /\ node_chain g nx last l'
  end.

(** The topological positions grow strictly along [l]. *)
Definition increasing (g : Graph) (l : list NodePtr) : Prop :=
  forall (i j : nat) (n m : NodePtr),
    l !! i = Some n -> l !! j = Some m -> (i < j)%nat ->
    topo_position_ (all_nodes g !!! n) < topo_position_ (all_nodes g !!! m).

Lemma node_chain_unique g last l1 : forall cur l2,
  node_chain g cur last l1 -> node_chain g cur last l2 -> l1 = l2.
Proof.
  induction l1 as [| n l1 IH]; intros cur [| m l2] H1 H2; simpl in *.
  - reflexivity.
  - destruct H2 as (-> & Hne & _). congruence.
  - destruct H1 as (-> & Hne & _). congruence.
  - destruct H1 as (-> & _ & nx & Hnx & H1), H2 as (<- & _ & nx' & Hnx' & H2).
    rewrite Hnx in Hnx'. injection Hnx' as <-. f_equal. eapply IH; eassumption.
Qed.

Lemma node_chain_drop g last l : forall cur k n,
  node_chain g cur last l -> l !! k = Some n -> node_chain g n last (drop k l).
Proof.
  induction l as [| m l IH]; intros cur k n Hc Hk; [rewrite lookup_nil in Hk; discriminate |].
  destruct k as [| k].
  - injection Hk as <-. destruct Hc as (-> & Hrest). simpl. split; [reflexivity | exact Hrest].
  - destruct Hc as (_ & _ & nx & _ & Hc). simpl. eapply IH; eassumption.
Qed.

Lemma node_chain_NoDup g last l : forall cur, node_chain g cur last l -> NoDup l.
Proof.
  induction l as [| n l IH]; intros cur Hc; [constructor |].
  pose proof Hc as Hc0.
  destruct Hc as (-> & Hne & nx & Hnx & Hc). constructor; [| eapply IH; exact Hc].
  intros Hin. apply list_elem_of_lookup in Hin as [k Hk].
  pose proof (node_chain_drop _ _ _ _ _ _ Hc Hk) as Hd.
  pose proof (node_chain_unique _ _ _ _ _ Hc0 Hd) as Heq.
  apply (f_equal length) in Heq. rewrite length_drop in Heq. simpl in Heq. lia.
Qed.

Lemma node_chain_ext g g' last l : forall cur,
  (forall n, n ∈ l -> next_ (all_nodes g' !!! n) = next_ (all_nodes g !!! n)) ->
  node_chain g cur last l -> node_chain g' cur last l.
Proof.
  induction l as [| n l IH]; intros cur Hext Hc; [exact Hc |].
  destruct Hc as (-> & Hne & nx & Hnx & Hc). simpl. split; [reflexivity |].
  split; [exact Hne |]. exists nx. split.
  - rewrite Hext by left. exact Hnx.
  - apply IH; [| exact Hc]. intros m Hm. apply Hext. right. exact Hm.
Qed.

(** The fields of a node other than its position. *)
Definition same_links (a b : Node) : Prop :=
  set_topo_position_ 0 a = set_topo_position_ 0 b.

(** What the loop of [reIndexTopology] has done when it returns. *)
Lemma reIndexTopology_loop_spec (last : NodePtr) (l : list NodePtr) :
  forall (g g' : Graph) (cur : NodePtr) (curPos : Z) (fuel : nat),
    node_chain g cur last l ->
    (length l <= fuel)%nat ->
    reIndexTopology_loop fuel last cur curPos g = (Ok tt, g') ->
    (forall k n, l !! k = Some n ->
       topo_position_ (all_nodes g' !!! n)
       = curPos + kAppendInterval * (Z.of_nat k + 1)) /\
    (forall m, m ∉ l -> all_nodes g' !! m = all_nodes g !! m) /\
    (forall m, same_links (all_nodes g' !!! m) (all_nodes g !!! m)) /\
    (forall m, is_Some (all_nodes g !! m) -> is_Some (all_nodes g' !! m)) /\
    all_values g' = all_values g /\ all_blocks g' = all_blocks g.
Proof.
  induction l as [| n l IH]; intros g g' cur curPos fuel Hc Hfuel Hrun.
  - simpl in Hc. subst cur.
    assert (Hg : g' = g).
    { destruct fuel; cbn [reIndexTopology_loop] in Hrun;
        rewrite bool_decide_eq_true_2 in Hrun by reflexivity;
        injection Hrun as <-; reflexivity. }
    subst g'. split; [intros k n Hk; rewrite lookup_nil in Hk; discriminate |].
    repeat split; auto.
  - pose proof (node_chain_NoDup _ _ _ _ Hc) as Hnd.
    apply NoDup_cons in Hnd as [Hnotin Hnd].
    destruct Hc as (-> & Hne & nx & Hnx & Hc).
    destruct fuel as [| fuel]; [simpl in Hfuel; lia |].
    cbn [reIndexTopology_loop] in Hrun.
    rewrite bool_decide_eq_false_2 in Hrun by exact Hne.
    apply bind_Ok_inv in Hrun as ([] & g0 & Hassert & Hrun).
    unfold JIT_ASSERT in Hassert.
    destruct (curPos <=? kUpperBound - kAppendInterval); [| discriminate Hassert].
    injection Hassert as <-.
    cbv zeta in Hrun. rewrite bind_update_node, bind_node in Hrun.
    revert Hrun. simp_graph. rewrite Hnx, bind_nonnull_Some.
    set (g1 := set_all_nodes _ g). intros Hrun.
    assert (Hc1 : node_chain g1 nx last l).
    { eapply node_chain_ext; [| exact Hc]. intros m Hm. subst g1. simp_graph.
      rewrite lookup_total_insert_ne by (intros ->; contradiction). reflexivity. }
    cbn [length] in Hfuel.
    destruct (IH g1 g' nx (curPos + kAppendInterval) fuel Hc1 ltac:(lia) Hrun)
      as (Hpos & Hother & Hlinks & Hlive & Hvals & Hblocks).
    split; [| split; [| split; [| split]]].
    + intros [| k] m Hk.
      * injection Hk as <-. rewrite lookup_total_alt, Hother by exact Hnotin.
        rewrite <- lookup_total_alt. subst g1. simp_graph. lia.
      * rewrite (Hpos k m Hk). lia.
    + intros m Hm. apply not_elem_of_cons in Hm as [Hmn Hm].
      rewrite Hother by exact Hm. subst g1. simp_graph.
      apply lookup_insert_ne. congruence.
    + intros m. unfold same_links in *. rewrite Hlinks. subst g1. simp_graph.
      destruct (decide (m = n)) as [-> | Hm].
      * rewrite lookup_total_insert_eq. reflexivity.
      * rewrite lookup_total_insert_ne by congruence. reflexivity.
    + intros m Hm. apply Hlive. subst g1. simp_graph.
      apply lookup_insert_is_Some'. right. exact Hm.
    + subst g1. split; [rewrite Hvals | rewrite Hblocks]; reflexivity.
Qed.

(** The loop returns when the index has room for the nodes. *)
Lemma reIndexTopology_loop_returns (last : NodePtr) (l : list NodePtr) :
  forall (g : Graph) (cur : NodePtr) (curPos : Z) (fuel : nat),
    node_chain g cur last l ->
    (length l <= fuel)%nat ->
    curPos + kAppendInterval * Z.of_nat (length l) <= kUpperBound ->
    exists g', reIndexTopology_loop fuel last cur curPos g = (Ok tt, g').
Proof.
  induction l as [| n l IH]; intros g cur curPos fuel Hc Hfuel Hroom.
  - simpl in Hc. subst cur. exists g.
    destruct fuel; cbn [reIndexTopology_loop];
      rewrite bool_decide_eq_true_2 by reflexivity; reflexivity.
  - pose proof (node_chain_NoDup _ _ _ _ Hc) as Hnd.
    apply NoDup_cons in Hnd as [Hnotin Hnd].
    destruct Hc as (-> & Hne & nx & Hnx & Hc).
    destruct fuel as [| fuel]; [simpl in Hfuel; lia |].
    cbn [reIndexTopology_loop]. rewrite bool_decide_eq_false_2 by exact Hne.
    cbn [length] in Hroom, Hfuel.
    assert (Hstride : 0 < kAppendInterval) by (unfold kAppendInterval; lia).
    rewrite bind_JIT_ASSERT_true by (apply Z.leb_le; nia).
    cbv zeta. rewrite bind_update_node, bind_node. simp_graph. rewrite Hnx.
    rewrite bind_nonnull_Some.
    apply IH; [| lia | nia].
    eapply node_chain_ext; [| exact Hc]. intros m Hm. simp_graph.
    rewrite lookup_total_insert_ne by (intros ->; contradiction). reflexivity.
Qed.

Lemma chain_length_le_size (g : Graph) cur last l :
  node_chain g cur last l ->
  (forall n, n ∈ l -> is_Some (all_nodes g !! n)) ->
  (length l <= size (all_nodes g))%nat.
Proof.
  intros Hc Hlive. pose proof (node_chain_NoDup _ _ _ _ Hc) as Hnd.
  rewrite <- size_dom, <- (size_list_to_set (C := gset positive) l) by exact Hnd.
  apply subseteq_size. intros n Hn. apply elem_of_list_to_set in Hn.
  apply elem_of_dom. apply Hlive. exact Hn.
Qed.

(** X19: [reIndexTopology] spaces the nodes evenly.  For a block whose
    node list is [l], and an index with room for it, the call returns and
    the k-th node (from 0) gets the position
    [kLowerBound + kAppendInterval * (k + 1)]; the positions grow strictly
    along the list, nodes outside the list are untouched and no link of any
    node changes. *)
Theorem reIndexTopology_spaces_evenly (g : Graph) (b : BlockPtr)
    (first : NodePtr) (l : list NodePtr) :
  let returnNode := output_ (all_blocks g !!! b) in
  next_ (all_nodes g !!! returnNode) = Some first ->
  node_chain g first returnNode l ->
  (forall n, n ∈ l -> is_Some (all_nodes g !! n)) ->
  kLowerBound + kAppendInterval * Z.of_nat (length l) <= kUpperBound ->
  exists g',
    reIndexTopology b g = (Ok tt, g') /\
    (forall k n, l !! k = Some n ->
       topo_position_ (all_nodes g' !!! n)
       = kLowerBound + kAppendInterval * (Z.of_nat k + 1)) /\
    increasing g' l /\
    (forall m, m ∉ l -> all_nodes g' !! m = all_nodes g !! m) /\
    (forall m, same_links (all_nodes g' !!! m) (all_nodes g !!! m)).
Proof.
  intros returnNode Hfirst Hc Hlive Hroom.
  unfold reIndexTopology. rewrite bind_eq. unfold block at 1, gets at 1.
  cbv beta iota. fold returnNode.
  rewrite bind_node, Hfirst, bind_nonnull_Some, bind_get.
  pose proof (chain_length_le_size _ _ _ _ Hc Hlive) as Hfuel.
  destruct (reIndexTopology_loop_returns returnNode l g first kLowerBound
              (size (all_nodes g)) Hc Hfuel Hroom) as (g' & Hrun).
  destruct (reIndexTopology_loop_spec returnNode l g g' first kLowerBound
              (size (all_nodes g)) Hc Hfuel Hrun) as (Hpos & Hother & Hlinks & _).
  clear Hfuel.
  exists g'. split; [exact Hrun |]. split; [exact Hpos |].
  split; [| split; assumption].
  intros i j n m Hi Hj Hlt. rewrite (Hpos _ _ Hi), (Hpos _ _ Hj).
  unfold kAppendInterval. lia.
Qed.

(** The node list of block [b] is [l]: following [next] from the return
    node visits [l] and comes back to the return node, whose [prev] is the
    last node of [l]; the nodes are alive and owned by [b]. *)
Definition block_nodes (g : Graph) (b : BlockPtr) (l : list NodePtr) : Prop :=
  let returnNode := output_ (all_blocks g !!! b) in
  (exists first, next_ (all_nodes g !!! returnNode) = Some first /\
                 node_chain g first returnNode l) /\
  prev_ (all_nodes g !!! returnNode) = Some (default returnNode (last l)) /\
  owning_block_ (all_nodes g !!! returnNode) = Some b /\
  forall n, n ∈ l -> is_Some (all_nodes g !! n) /\
                     owning_block_ (all_nodes g !!! n) = Some b.

Lemma two_nodes_block : block_nodes two_nodes 1%positive [3; 4]%positive.
Proof.
  assert (Hr : output_ (all_blocks two_nodes !!! 1%positive) = 1%positive)
    by (vm_compute; reflexivity).
  unfold block_nodes. rewrite Hr. split; [| split; [| split]].
  - exists 3%positive. split; [vm_compute; reflexivity |].
    cbn [node_chain]. split; [reflexivity |]. split; [discriminate |].
    exists 4%positive. split; [vm_compute; reflexivity |].
    split; [reflexivity |]. split; [discriminate |].
    exists 1%positive. split; [vm_compute; reflexivity | reflexivity].
  - vm_compute. reflexivity.
  - vm_compute. reflexivity.
  - intros n Hn. apply elem_of_cons in Hn as [-> | Hn];
      [| apply list_elem_of_singleton in Hn as ->];
      (split; [vm_compute; eexists; reflexivity | vm_compute; reflexivity]).
Qed.

Lemma reIndexTopology_spaces_evenly_witness :
  exists g',
    reIndexTopology 1%positive two_nodes = (Ok tt, g') /\
    topo_position_ (all_nodes g' !!! 3%positive) = kLowerBound + kAppendInterval /\
    topo_position_ (all_nodes g' !!! 4%positive) = kLowerBound + 2 * kAppendInterval.
Proof.
  destruct two_nodes_block as ((first & Hfirst & Hc) & _ & _ & Hl).
  destruct (reIndexTopology_spaces_evenly two_nodes 1%positive first [3; 4]%positive)
    as (g' & Hrun & Hpos & _).
  - exact Hfirst.
  - exact Hc.
  - intros n Hn. apply Hl, Hn.
  - vm_compute. discriminate.
  - exists g'. split; [exact Hrun |]. split.
    + rewrite (Hpos 0%nat 3%positive eq_refl). reflexivity.
    + rewrite (Hpos 1%nat 4%positive eq_refl). reflexivity.
Defined.

Lemma node_chain_last g r l : forall cur p,
  node_chain g cur r l -> last l = Some p ->
  next_ (all_nodes g !!! p) = Some r /\ p <> r.
Proof.
  induction l as [| n l IH]; intros cur p Hc Hlast; [discriminate |].
  destruct Hc as (-> & Hne & nx & Hnx & Hc).
  destruct l as [| m l].
  - injection Hlast as <-. simpl in Hc. subst nx. auto.
  - eapply IH; [exact Hc |]. exact Hlast.
Qed.

Lemma node_chain_snoc g g' r n l : forall cur,
  node_chain g cur r l ->
  n <> r ->
  (forall m, m ∈ l -> Some m <> last l ->
     next_ (all_nodes g' !!! m) = next_ (all_nodes g !!! m)) ->
  (forall p, last l = Some p -> next_ (all_nodes g' !!! p) = Some n) ->
  next_ (all_nodes g' !!! n) = Some r ->
  node_chain g' (if decide (l = []) then n else cur) r (l ++ [n]).
Proof.
  induction l as [| m l IH]; intros cur Hc Hnr Hkeep Hlast Hn.
  - simpl. split; [reflexivity |]. split; [exact Hnr |]. eauto.
  - pose proof (node_chain_NoDup _ _ _ _ Hc) as Hnd.
    apply NoDup_cons in Hnd as [Hm _].
    destruct Hc as (-> & Hne & nx & Hnx & Hc).
    rewrite decide_False by discriminate. cbn [app node_chain].
    split; [reflexivity |]. split; [exact Hne |].
    destruct l as [| m' l].
    + exists n. split; [apply Hlast; reflexivity |].
      simpl. split; [reflexivity |]. split; [exact Hnr |]. eauto.
    + exists nx. split.
      * rewrite Hkeep; [exact Hnx | left |].
        intros Heq. apply Hm. change (last (m :: m' :: l)) with (last (m' :: l)) in Heq.
        symmetry in Heq. apply last_Some_elem_of in Heq. exact Heq.
      * specialize (IH nx Hc Hnr). rewrite decide_False in IH by discriminate.
        apply IH.
        -- intros x Hx Hxl. apply Hkeep; [right; exact Hx | exact Hxl].
        -- intros p Hp. apply Hlast. exact Hp.
        -- exact Hn.
Qed.


Lemma inBlockList_unplaced (g : Graph) (n : NodePtr) :
  next_ (all_nodes g !!! n) = None -> prev_ (all_nodes g !!! n) = None ->
  inBlockList n g = (Ok false, g).
Proof.
  intros Hnext Hprev. unfold inBlockList. rewrite bind_node, Hnext, Hprev. reflexivity.
Qed.

Lemma inBlockList_placed (g : Graph) (n x : NodePtr) :
  next_ (all_nodes g !!! n) = Some x -> inBlockList n g = (Ok true, g).
Proof. intros Hnext. unfold inBlockList. rewrite bind_node, Hnext. reflexivity. Qed.

(** The graph after [insertAfter] has linked [n] behind [p] and in front of
    the return node [r], before the position of [n] is assigned. *)
Definition linked_at_end (g : Graph) (n p r : NodePtr) : Graph :=
  let g := set_all_nodes
             (<[n := set_owning_block_ (owning_block_ (all_nodes g !!! p))
                       (all_nodes g !!! n)]> (all_nodes g)) g in
  let g := set_all_nodes (<[p := set_next_ (Some n) (all_nodes g !!! p)]> (all_nodes g)) g in
  let g := set_all_nodes (<[n := set_prev_ (Some p) (all_nodes g !!! n)]> (all_nodes g)) g in
  let g := set_all_nodes (<[n := set_next_ (Some r) (all_nodes g !!! n)]> (all_nodes g)) g in
  set_all_nodes (<[r := set_prev_ (Some n) (all_nodes g !!! r)]> (all_nodes g)) g.

Lemma appendNode_links (g : Graph) (b : BlockPtr) (n : NodePtr) (l : list NodePtr) :
  let r := output_ (all_blocks g !!! b) in
  let p := default r (last l) in
  block_nodes g b l ->
  next_ (all_nodes g !!! n) = None -> prev_ (all_nodes g !!! n) = None ->
  n ∉ l -> n <> r ->
  appendNode b n g = (assignTopoPosition n;; mret n) (linked_at_end g n p r) /\
  next_ (all_nodes g !!! p) = Some r /\ n <> p /\
  owning_block_ (all_nodes g !!! p) = Some b.
Proof.
  intros r p ((first & Hfirst & Hc) & Hprev & Hown & Hl) Hnext Hnprev Hnl Hnr.
  fold r in Hfirst, Hc, Hprev, Hown. fold p in Hprev.
  assert (Hp : next_ (all_nodes g !!! p) = Some r /\ n <> p /\
               owning_block_ (all_nodes g !!! p) = Some b).
  { subst p. destruct (last l) as [q |] eqn:Hlast; cbn [default].
    - destruct (node_chain_last _ _ _ _ _ Hc Hlast) as [Hq _].
      pose proof (last_Some_elem_of _ _ Hlast) as Hin.
      split; [exact Hq |]. split; [intros ->; contradiction |]. apply Hl, Hin.
    - apply last_None in Hlast. subst l. simpl in Hc. subst first. auto. }
  destruct Hp as (Hpnext & Hnp & Hpown). split; [| auto].
  unfold appendNode. rewrite (bind_Ok _ _ _ _ _ (inBlockList_unplaced g n Hnext Hnprev)).
  norm. cbn [negb]. rewrite bind_JIT_ASSERT_true by reflexivity.
  rewrite bind_eq. unfold block at 1, gets at 1. norm. fold r.
  unfold insertBefore. norm.
  rewrite (bind_Ok _ _ _ _ _ (inBlockList_placed g r first Hfirst)). norm.
  rewrite bind_JIT_ASSERT_true by reflexivity. norm.
  rewrite bind_node, Hprev. norm.
  unfold insertAfter. norm. rewrite bind_nonnull_Some. norm.
  rewrite (bind_Ok _ _ _ _ _ (inBlockList_unplaced g n Hnext Hnprev)). norm.
  rewrite (bind_Ok _ _ _ _ _ (inBlockList_placed g p r Hpnext)). norm.
  cbn [negb andb]. rewrite bind_JIT_ASSERT_true by reflexivity. norm.
  rewrite bind_node, Hpown. norm.
  rewrite bind_JIT_ASSERT_true by (apply bool_decide_eq_true_2; discriminate). norm.
  rewrite bind_update_node. norm. rewrite bind_node. norm. simp_graph.
  rewrite (lookup_total_insert_ne _ n p) by exact Hnp. rewrite Hpnext.
  do 3 (rewrite bind_update_node; norm). rewrite bind_nonnull_Some. norm.
  rewrite bind_update_node. norm.
  unfold linked_at_end. cbv zeta. simp_graph.
  rewrite !(lookup_total_insert_ne _ n p) by exact Hnp. rewrite Hpown.
  rewrite !bind_eq.
  match goal with |- context [assignTopoPosition n ?x] =>
    destruct (assignTopoPosition n x) as [[[] | e] g3] end; reflexivity.
Qed.

Lemma linked_at_end_node (g : Graph) (n p r m : NodePtr) :
  n <> p -> n <> r ->
  all_nodes (linked_at_end g n p r) !!! m =
  if decide (m = n) then
    set_next_ (Some r) (set_prev_ (Some p)
      (set_owning_block_ (owning_block_ (all_nodes g !!! p)) (all_nodes g !!! n)))
  else
    (if decide (m = r) then set_prev_ (Some n) else id)
      ((if decide (m = p) then set_next_ (Some n) else id) (all_nodes g !!! m)).
Proof.
  intros Hnp Hnr. unfold linked_at_end. cbv zeta. simp_graph.
  rewrite !lookup_total_insert.
  repeat (case_decide; subst; try congruence); simp_graph; try reflexivity.
Qed.

Lemma linked_at_end_live (g : Graph) (n p r m : NodePtr) :
  is_Some (all_nodes g !! m) \/ m = n ->
  is_Some (all_nodes (linked_at_end g n p r) !! m).
Proof.
  intros Hm. unfold linked_at_end. cbv zeta. simp_graph.
  rewrite !lookup_insert_is_Some'. destruct Hm as [Hm | ->]; auto 10.
Qed.

Lemma same_links_fields (a b : Node) :
  same_links a b ->
  next_ a = next_ b /\ prev_ a = prev_ b /\ owning_block_ a = owning_block_ b.
Proof.
  destruct a, b. unfold same_links, set_topo_position_. cbn.
  intros H. inversion H. auto.
Qed.

Lemma block_nodes_same_links (g g' : Graph) (b : BlockPtr) (l : list NodePtr) :
  block_nodes g b l ->
  (forall m, same_links (all_nodes g' !!! m) (all_nodes g !!! m)) ->
  (forall m, is_Some (all_nodes g !! m) -> is_Some (all_nodes g' !! m)) ->
  all_blocks g' = all_blocks g ->
  block_nodes g' b l.
Proof.
  intros ((first & Hfirst & Hc) & Hprev & Hown & Hl) Hlinks Hlive Hblocks.
  unfold block_nodes. rewrite Hblocks.
  pose proof (fun m => same_links_fields _ _ (Hlinks m)) as Hf.
  split; [| split; [| split]].
  - exists first. split; [rewrite (proj1 (Hf _)); exact Hfirst |].
    eapply node_chain_ext; [| exact Hc]. intros m _. apply Hf.
  - rewrite (proj1 (proj2 (Hf _))). exact Hprev.
  - rewrite (proj2 (proj2 (Hf _))). exact Hown.
  - intros m Hm. destruct (Hl m Hm) as [Hm1 Hm2]. split; [apply Hlive, Hm1 |].
    rewrite (proj2 (proj2 (Hf _))). exact Hm2.
Qed.

Lemma linked_at_end_block_nodes (g : Graph) (b : BlockPtr) (n : NodePtr) (l : list NodePtr) :
  let r := output_ (all_blocks g !!! b) in
  let p := default r (last l) in
  block_nodes g b l ->
  n ∉ l -> n <> r -> n <> p ->
  owning_block_ (all_nodes g !!! p) = Some b ->
  block_nodes (linked_at_end g n p r) b (l ++ [n]).
Proof.
  intros r p ((first & Hfirst & Hc) & Hprev & Hown & Hl) Hnl Hnr Hnp Hpown.
  fold r in Hfirst, Hc, Hprev, Hown. fold p in Hprev.
  assert (Hblocks : all_blocks (linked_at_end g n p r) = all_blocks g) by reflexivity.
  unfold block_nodes. rewrite Hblocks. fold r.
  assert (Hlast : forall q, last l = Some q -> q = p /\ p <> r /\ q ∈ l).
  { intros q Hq. subst p. rewrite Hq. cbn [default].
    split; [reflexivity |]. split; [| eapply last_Some_elem_of; exact Hq].
    eapply node_chain_last; eassumption. }
  split; [| split; [| split]].
  - exists (if decide (l = []) then n else first). split.
    + rewrite linked_at_end_node by assumption.
      rewrite decide_False by congruence. rewrite decide_True by reflexivity.
      destruct l as [| x l'] eqn:Hl'.
      * simpl in Hc. subst first. subst p. cbn [last default].
        rewrite decide_True by reflexivity. reflexivity.
      * rewrite (decide_False (P := x :: l' = [])) by (intros ?; discriminate).
        destruct (last (x :: l')) as [q |] eqn:Hq;
          [| apply last_None in Hq; discriminate].
        destruct (Hlast q eq_refl) as (_ & Hpr & _).
        rewrite decide_False by congruence. cbn [set_prev_ next_ id]. exact Hfirst.
    + apply (node_chain_snoc g); try assumption.
      * intros m Hm Hml. rewrite linked_at_end_node by assumption.
        rewrite decide_False by (intros ->; contradiction).
        assert (Hmp : m <> p).
        { intros Hmp. destruct (last l) as [q |] eqn:Hq.
          - destruct (Hlast q eq_refl) as (Hqp & _). congruence.
          - apply last_None in Hq. subst l. inversion Hm. }
        rewrite (decide_False (P := m = p)) by exact Hmp.
        destruct (decide (m = r)); reflexivity.
      * intros q Hq. destruct (Hlast q Hq) as (-> & Hpr & _).
        rewrite linked_at_end_node by assumption.
        rewrite decide_False by congruence.
        rewrite (decide_True (P := p = p)) by reflexivity.
        destruct (decide (p = r)); reflexivity.
      * rewrite linked_at_end_node by assumption.
        rewrite decide_True by reflexivity. reflexivity.
  - rewrite last_snoc. cbn [default].
    rewrite linked_at_end_node by assumption.
    rewrite decide_False by congruence. rewrite decide_True by reflexivity.
    reflexivity.
  - rewrite linked_at_end_node by assumption.
    rewrite decide_False by congruence. rewrite decide_True by reflexivity.
    cbn [set_prev_ owning_block_]. destruct (decide (r = p)); exact Hown.
  - intros m Hm. apply elem_of_app in Hm as [Hm | Hm].
    + destruct (Hl m Hm) as [Hm1 Hm2]. split; [apply linked_at_end_live; left; exact Hm1 |].
      rewrite linked_at_end_node by assumption.
      rewrite decide_False by (intros ->; contradiction).
      destruct (decide (m = r)), (decide (m = p)); exact Hm2.
    + apply list_elem_of_singleton in Hm as ->.
      split; [apply linked_at_end_live; right; reflexivity |].
      rewrite linked_at_end_node by assumption.
      rewrite decide_True by reflexivity. exact Hpown.
Qed.

Lemma linked_at_end_topo (g : Graph) (n p r m : NodePtr) :
  n <> p -> n <> r ->
  topo_position_ (all_nodes (linked_at_end g n p r) !!! m)
  = topo_position_ (all_nodes g !!! m).
Proof.
  intros Hnp Hnr. rewrite linked_at_end_node by assumption.
  destruct (decide (m = n)) as [-> |]; [reflexivity |].
  destruct (decide (m = r)), (decide (m = p)); reflexivity.
Qed.

(** Giving [n] a position above the last node's keeps the order. *)
Lemma increasing_snoc (g g' : Graph) (l : list NodePtr) (n : NodePtr) :
  increasing g l -> n ∉ l ->
  (forall m, m ∈ l ->
     topo_position_ (all_nodes g' !!! m) = topo_position_ (all_nodes g !!! m)) ->
  (forall p, last l = Some p ->
     topo_position_ (all_nodes g !!! p) < topo_position_ (all_nodes g' !!! n)) ->
  increasing g' (l ++ [n]).
Proof.
  intros Hinc Hnl Hkeep Hlast i j x y Hi Hj Hlt.
  assert (Hil : (i < length l)%nat).
  { apply lookup_lt_Some in Hj. rewrite length_app in Hj. simpl in Hj. lia. }
  rewrite lookup_app_l in Hi by exact Hil.
  pose proof (list_elem_of_lookup_2 _ _ _ Hi) as Hx.
  rewrite (Hkeep x Hx).
  destruct (decide (j < length l)%nat) as [Hjl | Hjl].
  - rewrite lookup_app_l in Hj by exact Hjl.
    rewrite (Hkeep y (list_elem_of_lookup_2 _ _ _ Hj)). eapply Hinc; eassumption.
  - rewrite lookup_app_r in Hj by lia.
    apply list_lookup_singleton_Some in Hj as [Hj ->].
    destruct (last l) as [p |] eqn:Hp;
      [| apply last_None in Hp; subst l; simpl in Hil; lia].
    specialize (Hlast p eq_refl).
    rewrite last_lookup in Hp.
    destruct (decide (i = pred (length l))) as [-> | Hne].
    + rewrite Hp in Hi. injection Hi as <-. exact Hlast.
    + assert (topo_position_ (all_nodes g !!! x) < topo_position_ (all_nodes g !!! p)).
      { apply (Hinc i (pred (length l))); [exact Hi | exact Hp | lia]. }
      lia.
Qed.

(** Setting the position of the appended node above the last node's. *)
Lemma update_topo_keeps_order (g g2 g3 : Graph) (b : BlockPtr) (l : list NodePtr)
    (n : NodePtr) (pos : Z) :
  block_nodes g2 b (l ++ [n]) -> increasing g l -> n ∉ l ->
  (forall m, topo_position_ (all_nodes g2 !!! m) = topo_position_ (all_nodes g !!! m)) ->
  update_node n (set_topo_position_ pos) g2 = (Ok tt, g3) ->
  (forall q, last l = Some q -> topo_position_ (all_nodes g !!! q) < pos) ->
  block_nodes g3 b (l ++ [n]) /\ increasing g3 (l ++ [n]).
Proof.
  intros Hb2 Hinc Hnl Htopo2 Hu Hpos. unfold update_node, modify in Hu.
  injection Hu as <-. split.
  - apply (block_nodes_same_links g2); [exact Hb2 | | | reflexivity].
    + intros m. simp_graph. destruct (decide (m = n)) as [-> | Hm].
      * rewrite lookup_total_insert_eq. reflexivity.
      * rewrite lookup_total_insert_ne by congruence. reflexivity.
    + intros m Hm. simp_graph. apply lookup_insert_is_Some'. right. exact Hm.
  - apply (increasing_snoc g); [exact Hinc | exact Hnl | |].
    + intros m Hm. simp_graph.
      rewrite lookup_total_insert_ne by (intros ->; contradiction). apply Htopo2.
    + intros q Hq. simp_graph. apply Hpos, Hq.
Qed.

Lemma appendNode_order_spec (g g' : Graph) (b : BlockPtr) (n res : NodePtr)
    (l : list NodePtr) :
  block_nodes g b l ->
  increasing g l ->
  next_ (all_nodes g !!! n) = None -> prev_ (all_nodes g !!! n) = None ->
  n ∉ l -> n <> output_ (all_blocks g !!! b) ->
  appendNode b n g = (Ok res, g') ->
  res = n /\ block_nodes g' b (l ++ [n]) /\ increasing g' (l ++ [n]).
Proof.
  intros Hb Hinc Hnext Hprev Hnl Hnr Hrun.
  destruct (appendNode_links g b n l Hb Hnext Hprev Hnl Hnr)
    as (Heq & Hpnext & Hnp & Hpown).
  set (r := output_ (all_blocks g !!! b)) in *.
  set (p := default r (last l)) in *.
  pose proof (linked_at_end_block_nodes g b n l Hb Hnl Hnr Hnp Hpown) as Hb2.
  fold r p in Hb2.
  assert (Hblocks2 : all_blocks (linked_at_end g n p r) = all_blocks g) by reflexivity.
  assert (Hn2 : all_nodes (linked_at_end g n p r) !!! n =
    set_next_ (Some r) (set_prev_ (Some p)
      (set_owning_block_ (owning_block_ (all_nodes g !!! p)) (all_nodes g !!! n)))).
  { rewrite linked_at_end_node by assumption.
    rewrite decide_True by reflexivity. reflexivity. }
  assert (Htopo2 : forall m, topo_position_ (all_nodes (linked_at_end g n p r) !!! m)
                             = topo_position_ (all_nodes g !!! m)).
  { intros m. apply linked_at_end_topo; assumption. }
  rewrite Heq in Hrun. clear Heq.
  generalize dependent (linked_at_end g n p r). intros g2 Hrun Hb2 Hblocks2 Hn2 Htopo2.
  apply bind_Ok_inv in Hrun as ([] & g3 & Hassign & Hret).
  injection Hret as <- <-. split; [reflexivity |].
  pose proof (fun pos => update_topo_keeps_order g g2 g3 b l n pos Hb2 Hinc Hnl Htopo2)
    as Hupd.
  unfold assignTopoPosition in Hassign.
  rewrite bind_node, Hn2 in Hassign.
  cbn [owning_block_ set_next_ set_prev_ set_owning_block_ next_ prev_] in Hassign.
  rewrite Hpown, bind_nonnull_Some in Hassign.
  rewrite bind_eq in Hassign. unfold block at 1, gets at 1 in Hassign.
  cbv beta iota zeta in Hassign. rewrite Hblocks2 in Hassign. fold r in Hassign.
  rewrite !bind_nonnull_Some, !bind_node in Hassign.
  rewrite bool_decide_eq_true_2 in Hassign by reflexivity.
  rewrite (Htopo2 p) in Hassign.
  destruct (last l) as [q |] eqn:Hq.
  - assert (Hpq : p = q) by reflexivity.
    destruct Hb as ((first & Hfirst & Hc) & _). fold r in Hfirst, Hc.
    destruct (node_chain_last _ _ _ _ _ Hc Hq) as [_ Hqr].
    rewrite bool_decide_eq_false_2 in Hassign by congruence.
    destruct (kUpperBound - kAppendInterval <=? topo_position_ (all_nodes g !!! p)) eqn:Hedge.
    + (* the index is rebuilt *)
      unfold reIndexTopology in Hassign.
      rewrite bind_eq in Hassign. unfold block at 1, gets at 1 in Hassign.
      cbv beta iota in Hassign. rewrite Hblocks2 in Hassign. fold r in Hassign.
      destruct Hb2 as ((first2 & Hfirst2 & Hc2) & Hprev2 & Hown2 & Hl2).
      rewrite Hblocks2 in Hfirst2, Hc2, Hprev2, Hown2. fold r in Hfirst2, Hc2, Hprev2, Hown2.
      rewrite bind_node, Hfirst2, bind_nonnull_Some, bind_get in Hassign.
      assert (Hfuel : (length (l ++ [n]) <= size (all_nodes g2))%nat).
      { eapply chain_length_le_size; [exact Hc2 |]. intros m Hm. apply Hl2, Hm. }
      destruct (reIndexTopology_loop_spec r (l ++ [n]) g2 g3 first2 kLowerBound
                  (size (all_nodes g2)) Hc2 Hfuel Hassign)
        as (Hpos & _ & Hlinks & Hlive & _ & Hblocks3).
      split.
      * apply (block_nodes_same_links g2); try assumption.
        unfold block_nodes. rewrite Hblocks2. fold r. eauto 10.
      * intros i j x y Hi Hj Hlt. rewrite (Hpos _ _ Hi), (Hpos _ _ Hj).
        unfold kAppendInterval. lia.
    + apply (Hupd _ Hassign). intros q' [= <-]. rewrite <- Hpq.
      unfold kAppendInterval. lia.
  - assert (Hpr : p = r) by reflexivity.
    rewrite bool_decide_eq_true_2 in Hassign by congruence.
    apply (Hupd _ Hassign). intros q' [=].
Qed.

(** [appendNode] returns when the index has room for one more node. *)
Lemma appendNode_returns (g : Graph) (b : BlockPtr) (n : NodePtr) (l : list NodePtr) :
  block_nodes g b l ->
  next_ (all_nodes g !!! n) = None -> prev_ (all_nodes g !!! n) = None ->
  n ∉ l -> n <> output_ (all_blocks g !!! b) ->
  kLowerBound + kAppendInterval * Z.of_nat (length l + 1) <= kUpperBound ->
  exists g', appendNode b n g = (Ok n, g').
Proof.
  intros Hb Hnext Hprev Hnl Hnr Hroom.
  destruct (appendNode_links g b n l Hb Hnext Hprev Hnl Hnr)
    as (Heq & Hpnext & Hnp & Hpown).
  set (r := output_ (all_blocks g !!! b)) in *.
  set (p := default r (last l)) in *.
  pose proof (linked_at_end_block_nodes g b n l Hb Hnl Hnr Hnp Hpown) as Hb2.
  fold r p in Hb2.
  assert (Hblocks2 : all_blocks (linked_at_end g n p r) = all_blocks g) by reflexivity.
  assert (Hn2 : all_nodes (linked_at_end g n p r) !!! n =
    set_next_ (Some r) (set_prev_ (Some p)
      (set_owning_block_ (owning_block_ (all_nodes g !!! p)) (all_nodes g !!! n)))).
  { rewrite linked_at_end_node by assumption.
    rewrite decide_True by reflexivity. reflexivity. }
  rewrite Heq. clear Heq.
  generalize dependent (linked_at_end g n p r). intros g2 Hb2 Hblocks2 Hn2.
  cut (exists g3, assignTopoPosition n g2 = (Ok tt, g3)).
  { intros (g3 & Hg3). exists g3. rewrite bind_eq, Hg3. reflexivity. }
  unfold assignTopoPosition.
  rewrite bind_node, Hn2.
  cbn [owning_block_ set_next_ set_prev_ set_owning_block_ next_ prev_].
  rewrite Hpown, bind_nonnull_Some.
  rewrite bind_eq. unfold block at 1, gets at 1.
  cbv beta iota zeta. rewrite Hblocks2. fold r.
  rewrite !bind_nonnull_Some, !bind_node.
  rewrite bool_decide_eq_true_2 by reflexivity.
  destruct (bool_decide (r = p)); [unfold update_node, modify; eauto |].
  destruct (_ <=? _); [| unfold update_node, modify; eauto].
  unfold reIndexTopology.
  rewrite bind_eq. unfold block at 1, gets at 1.
  cbv beta iota. rewrite Hblocks2. fold r.
  destruct Hb2 as ((first2 & Hfirst2 & Hc2) & Hprev2 & Hown2 & Hl2).
  rewrite Hblocks2 in Hfirst2, Hc2. fold r in Hfirst2, Hc2.
  rewrite bind_node, Hfirst2, bind_nonnull_Some, bind_get.
  apply (reIndexTopology_loop_returns r (l ++ [n])); [exact Hc2 | |].
  - eapply chain_length_le_size; [exact Hc2 |]. intros m Hm. apply Hl2, Hm.
  - rewrite length_app. exact Hroom.
Qed.

(** X20: [appendNode] puts the node at the end and keeps the order.  For
    a block whose node list is [l] with strictly growing positions, and an
    unplaced node [n], [appendNode] returns [n]; the node list of the block
    is then [l ++ [n]] and the positions still grow strictly along it,
    whether [n] got the midpoint, the position after the last node, or the
    whole list was re-indexed. *)
Theorem appendNode_keeps_order (g : Graph) (b : BlockPtr) (n : NodePtr)
    (l : list NodePtr) :
  block_nodes g b l ->
  increasing g l ->
  next_ (all_nodes g !!! n) = None -> prev_ (all_nodes g !!! n) = None ->
  n ∉ l -> n <> output_ (all_blocks g !!! b) ->
  kLowerBound + kAppendInterval * Z.of_nat (length l + 1) <= kUpperBound ->
  exists g',
    appendNode b n g = (Ok n, g') /\
    block_nodes g' b (l ++ [n]) /\ increasing g' (l ++ [n]).
Proof.
  intros Hb Hinc Hnext Hprev Hnl Hnr Hroom.
  destruct (appendNode_returns g b n l Hb Hnext Hprev Hnl Hnr Hroom) as (g' & Hrun).
  exists g'. split; [exact Hrun |].
  eapply appendNode_order_spec; eassumption.
Qed.

(** One node in the top-level block and a second one, not yet placed. *)
Definition one_placed_one_new : Graph := snd (create prim_Undefined 0 one_node_graph).

Lemma one_placed_one_new_block : block_nodes one_placed_one_new 1%positive [3%positive].
Proof.
  assert (Hr : output_ (all_blocks one_placed_one_new !!! 1%positive) = 1%positive)
    by (vm_compute; reflexivity).
  unfold block_nodes. rewrite Hr. split; [| split; [| split]].
  - exists 3%positive. split; [vm_compute; reflexivity |].
    cbn [node_chain]. split; [reflexivity |]. split; [discriminate |].
    exists 1%positive. split; [vm_compute; reflexivity | reflexivity].
  - vm_compute. reflexivity.
  - vm_compute. reflexivity.
  - intros n Hn. apply list_elem_of_singleton in Hn as ->.
    split; [vm_compute; eexists; reflexivity | vm_compute; reflexivity].
Qed.

Lemma appendNode_keeps_order_witness :
  exists g',
    appendNode 1%positive 4%positive one_placed_one_new = (Ok 4%positive, g') /\
    block_nodes g' 1%positive [3; 4]%positive /\
    increasing g' [3; 4]%positive.
Proof.
  apply (appendNode_keeps_order one_placed_one_new 1%positive 4%positive [3%positive]).
  - apply one_placed_one_new_block.
  - intros i j n m Hi Hj Hlt. apply lookup_lt_Some in Hj. simpl in Hj. lia.
  - vm_compute. reflexivity.
  - vm_compute. reflexivity.
  - rewrite list_elem_of_singleton. discriminate.
  - vm_compute. discriminate.
  - vm_compute. discriminate.
Defined.

(** *** [insertOutput] *)

(** One turn of the loop of [insertOutput]. *)
Definition increment_offset (m : gmap positive Value) (o : ValuePtr) : gmap positive Value :=
  <[o := set_offset_ (wrap64 (offset_ (m !!! o) + 1)) (m !!! o)]> m.

Lemma forM_increment (l : list ValuePtr) (g : Graph) :
  forM_ l (fun o => update_value o (fun x => set_offset_ (wrap64 (offset_ x + 1)) x)) g
  = (Ok tt, set_all_values (foldl increment_offset (all_values g) l) g).
Proof.
  revert g. induction l as [| o l IH]; intros g.
  - destruct g; reflexivity.
  - rewrite forM__cons. cbn [foldl]. rewrite bind_update_value, IH.
    destruct g; reflexivity.
Qed.

Lemma foldl_increment_notin (l : list ValuePtr) : forall m o,
  o ∉ l -> foldl increment_offset m l !! o = m !! o.
Proof.
  induction l as [| x l IH]; intros m o Hnotin; [reflexivity |].
  apply not_elem_of_cons in Hnotin as [Hne Hnotin].
  cbn [foldl]. rewrite IH by exact Hnotin.
  unfold increment_offset. apply lookup_insert_ne. congruence.
Qed.

Lemma foldl_increment_in (l : list ValuePtr) : forall m o,
  NoDup l -> o ∈ l ->
  foldl increment_offset m l !!! o
  = set_offset_ (wrap64 (offset_ (m !!! o) + 1)) (m !!! o).
Proof.
  induction l as [| x l IH]; intros m o Hnd Hin; [inversion Hin |].
  apply NoDup_cons in Hnd as [Hx Hnd]. cbn [foldl].
  apply elem_of_cons in Hin as [-> | Hin].
  - rewrite lookup_total_alt, foldl_increment_notin by exact Hx.
    unfold increment_offset. rewrite lookup_insert_eq. reflexivity.
  - rewrite IH by assumption.
    assert (o <> x) by (intros ->; contradiction).
    unfold increment_offset. rewrite lookup_total_insert_ne by congruence.
    reflexivity.
Qed.

Lemma lookup_insert_at {A} (l : list A) (i : nat) (x : A) (j : nat) :
  (i <= length l)%nat ->
  (take i l ++ x :: drop i l) !! j =
  if (j <? i)%nat then l !! j
  else if (j =? i)%nat then Some x
  else l !! (j - 1)%nat.
Proof.
  intros Hi. destruct (Nat.ltb_spec j i) as [Hlt | Hge].
  - rewrite lookup_app_l by (rewrite length_take; lia). apply lookup_take_lt. exact Hlt.
  - rewrite lookup_app_r by (rewrite length_take; lia).
    rewrite length_take, Nat.min_l by exact Hi.
    destruct (Nat.eqb_spec j i) as [-> | Hne].
    + rewrite Nat.sub_diag. reflexivity.
    + destruct (j - i)%nat as [| k] eqn:Hk; [lia |]. cbn [lookup list_lookup].
      change (drop i l !! k = l !! (j - 1)%nat). rewrite lookup_drop. f_equal. lia.
Qed.

(** X28: [insertOutput] keeps the outputs indexed.  For a node whose
    outputs are alive and record their index as offset, and an index [i] up
    to the number of outputs, [insertOutput i] returns a value that was not
    in the graph, puts it at index [i] of the outputs, adds one to the
    offset of each output that followed and leaves the others alone, so
    that every output again records its index. *)
Theorem insertOutput_keeps_outputs_indexed (g : Graph) (this : NodePtr) (i : nat) :
  let outs := outputs_ (all_nodes g !!! this) in
  let v := fresh (dom (all_values g)) in
  (i <= length outs)%nat ->
  Z.of_nat (length outs) < 2 ^ 64 ->
  (forall o, o ∈ outs -> is_Some (all_values g !! o)) ->
  outputs_indexed g this ->
  exists g',
    insertOutput this i g = (Ok v, g') /\
    all_values g !! v = None /\
    outputs_ (all_nodes g' !!! this) = take i outs ++ v :: drop i outs /\
    node_ (all_values g' !!! v) = this /\
    (forall j o, outs !! j = Some o ->
       offset_ (all_values g' !!! o)
       = if (j <? i)%nat then offset_ (all_values g !!! o)
         else offset_ (all_values g !!! o) + 1) /\
    (forall o, o ∉ outs -> o <> v -> all_values g' !! o = all_values g !! o) /\
    outputs_indexed g' this.
Proof.
  intros outs v Hi Hbound Hlive Hinv.
  assert (Hfresh : all_values g !! v = None).
  { apply not_elem_of_dom. apply is_fresh. }
  unfold outputs_indexed in Hinv. fold outs in Hinv.
  assert (Hv : fresh (dom (all_values g)) = v) by reflexivity.
  assert (Houts : outputs_ (all_nodes g !!! this) = outs) by reflexivity.
  clearbody v outs.
  assert (Hv_out : v ∉ outs).
  { intros Hin. destruct (Hlive v Hin) as [x Hx]. congruence. }
  assert (Hnd : NoDup outs).
  { apply NoDup_alt. intros j1 j2 o H1 H2. apply Hinv in H1, H2. lia. }
  unfold insertOutput.
  rewrite bind_update_node, bind_Value_new, bind_update_node, bind_node.
  simp_graph. rewrite Hv, insert_insert_eq, Houts.
  assert (Hdrop : drop (i + 1) (take i outs ++ v :: drop i outs) = drop i outs).
  { rewrite drop_app_ge by (rewrite length_take; lia).
    rewrite length_take, Nat.min_l by exact Hi.
    replace (i + 1 - i)%nat with 1%nat by lia. reflexivity. }
  rewrite Hdrop.
  rewrite bind_eq, forM_increment. cbv beta iota. rewrite bind_node. simp_graph.
  rewrite lookup_insert_at, Nat.ltb_irrefl, Nat.eqb_refl by exact Hi.
  eexists. split; [reflexivity |]. simp_graph.
  assert (Hv_drop : v ∉ drop i outs).
  { intros Hin. apply Hv_out. eapply elem_of_sublist; [exact Hin | apply sublist_drop]. }
  assert (Hold : forall j o, outs !! j = Some o ->
    foldl increment_offset
      (<[v := mkValue this (Z.of_nat i) (next_unique_ g) [] EmptyString Types.DynamicType]>
         (all_values g)) (drop i outs) !!! o
    = if (j <? i)%nat then all_values g !!! o
      else set_offset_ (offset_ (all_values g !!! o) + 1) (all_values g !!! o)).
  { intros j o Hj.
    assert (Hov : o <> v).
    { intros ->. apply Hv_out. eapply list_elem_of_lookup_2. exact Hj. }
    destruct (Nat.ltb_spec j i) as [Hlt | Hge].
    - rewrite lookup_total_alt, foldl_increment_notin.
      + rewrite lookup_insert_ne by congruence. rewrite <- lookup_total_alt. reflexivity.
      + intros Hin. apply list_elem_of_lookup in Hin as [j' Hj'].
        rewrite lookup_drop in Hj'.
        pose proof (NoDup_lookup _ _ _ _ Hnd Hj Hj'). lia.
    - rewrite foldl_increment_in.
      + rewrite lookup_total_insert_ne by congruence. f_equal.
        rewrite (Hinv j o Hj). apply wrap64_small.
        pose proof (lookup_lt_Some _ _ _ Hj). unfold in_u64. lia.
      + eapply sublist_NoDup; [exact Hnd | apply sublist_drop].
      + apply list_elem_of_lookup. exists (j - i)%nat.
        rewrite lookup_drop. replace (i + (j - i))%nat with j by lia. exact Hj. }
  assert (Hnew : foldl increment_offset
      (<[v := mkValue this (Z.of_nat i) (next_unique_ g) [] EmptyString Types.DynamicType]>
         (all_values g)) (drop i outs) !!! v
    = mkValue this (Z.of_nat i) (next_unique_ g) [] EmptyString Types.DynamicType).
  { rewrite lookup_total_alt, foldl_increment_notin by exact Hv_drop.
    rewrite lookup_insert_eq. reflexivity. }
  split; [exact Hfresh |]. split; [reflexivity |].
  split; [rewrite Hnew; reflexivity |].
  split; [| split].
  - intros j o Hj. rewrite (Hold j o Hj). destruct (j <? i)%nat; reflexivity.
  - intros o Ho Hov. rewrite foldl_increment_notin.
    + apply lookup_insert_ne. congruence.
    + intros Hin. apply Ho. eapply elem_of_sublist; [exact Hin | apply sublist_drop].
  - intros j o. simp_graph. rewrite lookup_insert_at by exact Hi.
    destruct (Nat.ltb_spec j i) as [Hlt | Hge].
    + intros Hj. rewrite (Hold j o Hj).
      rewrite (proj2 (Nat.ltb_lt _ _)) by exact Hlt. apply Hinv, Hj.
    + destruct (Nat.eqb_spec j i) as [-> | Hne].
      * intros [= <-]. rewrite Hnew. reflexivity.
      * intros Hj. rewrite (Hold (j - 1)%nat o Hj).
        rewrite (proj2 (Nat.ltb_ge _ _)) by lia. cbn [offset_ set_offset_].
        rewrite (Hinv _ _ Hj). lia.
Qed.

Lemma insertOutput_keeps_outputs_indexed_witness :
  exists g',
    insertOutput 3%positive 1 three_outputs = (Ok 4%positive, g') /\
    outputs_ (all_nodes g' !!! 3%positive) = [1; 4; 2; 3]%positive /\
    outputs_indexed g' 3%positive.
Proof.
  destruct (insertOutput_keeps_outputs_indexed three_outputs 3%positive 1)
    as (g' & Hrun & _ & Houts & _ & _ & _ & Hidx).
  - vm_compute. lia.
  - vm_compute. reflexivity.
  - intros o Ho.
    assert (Houts : outputs_ (all_nodes three_outputs !!! 3%positive) = [1; 2; 3]%positive)
      by (vm_compute; reflexivity).
    rewrite Houts in Ho.
    repeat (apply elem_of_cons in Ho as [-> | Ho]; [vm_compute; eexists; reflexivity |]).
    inversion Ho.
  - apply three_outputs_indexed.
  - exists g'. split; [exact Hrun |]. split; [exact Houts | exact Hidx].
Defined.

(** *** Taking a node out of the list *)

(** The [prev] links along the node list [l]: each node points back to the
    node before it, the first one to [before]. *)
Fixpoint prev_chain (g : Graph) (before : NodePtr) (l : list NodePtr) : Prop :=
  match l with
  | [] => True
  | n :: l' => prev_ (all_nodes g !!! n) = Some before /\ prev_chain g n l'
  end.

(** The graph after [removeFromList] has taken [n] from between [p] and [x]. *)
Definition unlinked (g : Graph) (n p x : NodePtr) : Graph :=
  let g := set_all_nodes (<[n := set_owning_block_ None (all_nodes g !!! n)]> (all_nodes g)) g in
  let g := set_all_nodes (<[p := set_next_ (Some x) (all_nodes g !!! p)]> (all_nodes g)) g in
  let g := set_all_nodes (<[x := set_prev_ (Some p) (all_nodes g !!! x)]> (all_nodes g)) g in
  let g := set_all_nodes (<[n := set_next_ None (all_nodes g !!! n)]> (all_nodes g)) g in
  set_all_nodes (<[n := set_prev_ None (all_nodes g !!! n)]> (all_nodes g)) g.

Lemma removeFromList_unlinked (g : Graph) (n p x : NodePtr) :
  next_ (all_nodes g !!! n) = Some x ->
  prev_ (all_nodes g !!! n) = Some p ->
  removeFromList n g = (Ok tt, unlinked g n p x).
Proof.
  intros Hnext Hprev. unfold removeFromList.
  rewrite (bind_Ok _ _ _ _ _ (inBlockList_placed g n x Hnext)). norm.
  rewrite bind_JIT_ASSERT_true by reflexivity. norm.
  rewrite bind_update_node. norm. rewrite bind_node. norm. simp_graph.
  rewrite Hprev, Hnext. rewrite bind_nonnull_Some. norm.
  rewrite bind_update_node. norm. rewrite bind_nonnull_Some. norm.
  rewrite bind_update_node. norm. rewrite bind_update_node. norm.
  reflexivity.
Qed.

Lemma unlinked_node (g : Graph) (n p x m : NodePtr) :
  n <> p -> n <> x ->
  all_nodes (unlinked g n p x) !!! m =
  if decide (m = n) then
    set_prev_ None (set_next_ None (set_owning_block_ None (all_nodes g !!! n)))
  else
    (if decide (m = x) then set_prev_ (Some p) else id)
      ((if decide (m = p) then set_next_ (Some x) else id) (all_nodes g !!! m)).
Proof.
  intros Hnp Hnx. unfold unlinked. cbv zeta. simp_graph.
  rewrite !lookup_total_insert.
  repeat (case_decide; subst; try congruence); simp_graph; try reflexivity.
Qed.

Lemma unlinked_live (g : Graph) (n p x m : NodePtr) :
  is_Some (all_nodes g !! m) -> is_Some (all_nodes (unlinked g n p x) !! m).
Proof.
  intros Hm. unfold unlinked. cbv zeta. simp_graph.
  rewrite !lookup_insert_is_Some'. auto 10.
Qed.

(** The chain without [n]. *)
Lemma node_chain_remove g g' r n l2 : forall l1 cur,
  node_chain g cur r (l1 ++ n :: l2) ->
  (forall m, m ∈ l1 ++ l2 -> Some m <> last l1 ->
     next_ (all_nodes g' !!! m) = next_ (all_nodes g !!! m)) ->
  (forall q, last l1 = Some q ->
     next_ (all_nodes g' !!! q) = next_ (all_nodes g !!! n)) ->
  exists x, next_ (all_nodes g !!! n) = Some x /\
            node_chain g' (if decide (l1 = []) then x else cur) r (l1 ++ l2).
Proof.
  induction l1 as [| a l1 IH]; intros cur Hc Hkeep Hlast.
  - cbn [app] in *. destruct Hc as (-> & Hne & x & Hx & Hc). exists x.
    split; [exact Hx |]. rewrite decide_True by reflexivity.
    eapply node_chain_ext; [| exact Hc]. intros m Hm. apply Hkeep; [exact Hm |].
    cbn. discriminate.
  - pose proof (node_chain_NoDup _ _ _ _ Hc) as Hnd.
    cbn [app] in Hc, Hnd |- *. apply NoDup_cons in Hnd as [Ha Hnd].
    destruct Hc as (-> & Hne & a2 & Ha2 & Hc).
    destruct (IH a2 Hc) as (x & Hx & Hc').
    + intros m Hm Hml. apply Hkeep; [right; exact Hm |].
      destruct l1 as [| b l1]; [cbn; intros [= ->] |].
      * apply Ha. apply elem_of_app. apply elem_of_app in Hm as [Hm | Hm]; [inversion Hm |].
        right. right. exact Hm.
      * exact Hml.
    + intros q Hq. apply Hlast. destruct l1; [discriminate Hq | exact Hq].
    + exists x. split; [exact Hx |]. rewrite decide_False by discriminate.
      cbn [node_chain]. split; [reflexivity |].
      split; [exact Hne |].
      destruct l1 as [| b l1].
      * rewrite decide_True in Hc' by reflexivity. exists x. split; [| exact Hc'].
        rewrite (Hlast a eq_refl). exact Hx.
      * rewrite decide_False in Hc' by discriminate. exists a2. split; [| exact Hc'].
        rewrite Hkeep; [exact Ha2 | left |].
        intros Heq. apply Ha. apply elem_of_app. left.
        eapply last_Some_elem_of. symmetry. exact Heq.
Qed.

Lemma node_chain_not_last g r l : forall cur m,
  node_chain g cur r l -> m ∈ l -> m <> r.
Proof.
  induction l as [| a l IH]; intros cur m Hc Hm; [inversion Hm |].
  destruct Hc as (-> & Hne & nx & _ & Hc).
  apply elem_of_cons in Hm as [-> | Hm]; [exact Hne | eapply IH; eassumption].
Qed.

Lemma node_chain_head g r l : forall cur,
  node_chain g cur r l -> cur = default r (head l).
Proof. destruct l; intros cur Hc; [exact Hc | apply Hc]. Qed.

Lemma prev_chain_ext g g' l : forall before,
  (forall m, m ∈ l -> prev_ (all_nodes g' !!! m) = prev_ (all_nodes g !!! m)) ->
  prev_chain g before l -> prev_chain g' before l.
Proof.
  induction l as [| a l IH]; intros before Hext Hp; [exact I |].
  destruct Hp as [Ha Hp]. split; [rewrite Hext by left; exact Ha |].
  apply IH; [| exact Hp]. intros m Hm. apply Hext. right. exact Hm.
Qed.

(** The [prev] links without [n]. *)
Lemma prev_chain_remove g g' n l2 : forall l1 before,
  NoDup (l1 ++ n :: l2) ->
  prev_chain g before (l1 ++ n :: l2) ->
  (forall m, m ∈ l1 ++ l2 -> Some m <> head l2 ->
     prev_ (all_nodes g' !!! m) = prev_ (all_nodes g !!! m)) ->
  (forall y, head l2 = Some y ->
     prev_ (all_nodes g' !!! y) = Some (default before (last l1))) ->
  prev_chain g' before (l1 ++ l2).
Proof.
  induction l1 as [| a l1 IH]; intros before Hnd Hp Hkeep Hhead.
  - cbn [app] in *. destruct Hp as [_ Hp]. apply NoDup_cons in Hnd as [_ Hnd].
    destruct l2 as [| y l2]; [exact I |]. destruct Hp as [_ Hp].
    apply NoDup_cons in Hnd as [Hy _]. split; [apply (Hhead y eq_refl) |].
    eapply prev_chain_ext; [| exact Hp]. intros m Hm. apply Hkeep; [right; exact Hm |].
    cbn. intros [= ->]. contradiction.
  - cbn [app] in Hnd, Hp |- *. apply NoDup_cons in Hnd as [Ha Hnd]. destruct Hp as [Hpa Hp].
    split.
    + rewrite Hkeep; [exact Hpa | left |]. intros Heq. apply Ha.
      apply elem_of_app. right. right. destruct l2; [discriminate Heq |].
      injection Heq as ->. left.
    + apply IH; [exact Hnd | exact Hp | |].
      * intros m Hm. apply Hkeep. right. exact Hm.
      * intros y Hy. rewrite (Hhead y Hy). f_equal.
        rewrite last_cons. destruct (last l1); reflexivity.
Qed.

(** X29: [removeFromList] takes one node out and keeps the others.  For a
    block whose node list is [l1 ++ n :: l2] with its [prev] links in
    place, [removeFromList n] returns; the node list of the block is then
    [l1 ++ l2] with its [prev] links in place, [n] has no neighbours and no
    owning block, and no topological position, value or block has
    changed. *)
Theorem removeFromList_keeps_the_others (g : Graph) (b : BlockPtr) (n : NodePtr)
    (l1 l2 : list NodePtr) :
  let returnNode := output_ (all_blocks g !!! b) in
  block_nodes g b (l1 ++ n :: l2) ->
  prev_chain g returnNode (l1 ++ n :: l2) ->
  exists g',
    removeFromList n g = (Ok tt, g') /\
    block_nodes g' b (l1 ++ l2) /\
    prev_chain g' returnNode (l1 ++ l2) /\
    next_ (all_nodes g' !!! n) = None /\
    prev_ (all_nodes g' !!! n) = None /\
    owning_block_ (all_nodes g' !!! n) = None /\
    (forall m, topo_position_ (all_nodes g' !!! m) = topo_position_ (all_nodes g !!! m)) /\
    all_values g' = all_values g /\ all_blocks g' = all_blocks g.
Proof.
  intros r ((first & Hfirst & Hc) & Hprevr & Hownr & Hl) Hp.
  fold r in Hfirst, Hc, Hprevr, Hownr.
  pose proof (node_chain_NoDup _ _ _ _ Hc) as Hnd.
  pose proof (fun m => node_chain_not_last _ _ _ _ m Hc) as Hnotr.
  assert (Hn_l1 : n ∉ l1).
  { apply NoDup_app in Hnd as (_ & Hdis & _). intros Hin. apply (Hdis n Hin). left. }
  assert (Hn_l2 : n ∉ l2).
  { apply NoDup_app in Hnd as (_ & _ & Hnd2). apply NoDup_cons in Hnd2 as [H _]. exact H. }
  assert (Hnr : n <> r).
  { apply Hnotr. apply elem_of_app. right. left. }
  assert (Hdisj : forall m, m ∈ l1 -> m ∉ l2).
  { apply NoDup_app in Hnd as (_ & Hdis & _). intros m Hm Hin. apply (Hdis m Hm). right. exact Hin. }
  (* the neighbours of [n] *)
  set (p := default r (last l1)).
  set (x := default r (head l2)).
  assert (Hnext : next_ (all_nodes g !!! n) = Some x).
  { assert (Hk : (l1 ++ n :: l2) !! length l1 = Some n).
    { rewrite lookup_app_r by lia. rewrite Nat.sub_diag. reflexivity. }
    pose proof (node_chain_drop _ _ _ _ _ _ Hc Hk) as Hd.
    rewrite drop_app_length in Hd. destruct Hd as (_ & _ & nx & Hnx & Hd).
    rewrite Hnx. f_equal. apply (node_chain_head _ _ _ _ Hd). }
  assert (Hprev : prev_ (all_nodes g !!! n) = Some p).
  { clear -Hp. subst p. revert Hp. generalize r. induction l1 as [| a l1 IH]; intros r0 Hp.
    - apply Hp.
    - destruct Hp as [_ Hp]. rewrite (IH a Hp). f_equal.
      rewrite last_cons. destruct (last l1); reflexivity. }
  assert (Hp_cases : (l1 = [] /\ p = r) \/ (p ∈ l1 /\ last l1 = Some p)).
  { subst p. destruct (last l1) as [q |] eqn:Hq.
    - right. split; [eapply last_Some_elem_of; exact Hq | reflexivity].
    - left. apply last_None in Hq. auto. }
  assert (Hx_cases : (l2 = [] /\ x = r) \/ (x ∈ l2 /\ head l2 = Some x)).
  { subst x. destruct l2 as [| y l2]; [left; auto |]. right. split; [left | reflexivity]. }
  assert (Hnp : n <> p).
  { destruct Hp_cases as [[_ ->] | [Hin _]]; [exact Hnr | intros ->; contradiction]. }
  assert (Hnx : n <> x).
  { destruct Hx_cases as [[_ ->] | [Hin _]]; [exact Hnr | intros ->; contradiction]. }
  exists (unlinked g n p x).
  split; [apply removeFromList_unlinked; assumption |].
  pose proof (fun m => unlinked_node g n p x m Hnp Hnx) as Hnode.
  assert (Hother : forall m, m ∈ l1 ++ l2 -> m <> n /\ m <> r).
  { intros m Hm. split.
    - intros ->. apply elem_of_app in Hm as [Hm | Hm]; contradiction.
    - apply Hnotr. apply elem_of_app in Hm as [Hm | Hm]; apply elem_of_app; [left | right; right]; exact Hm. }
  assert (Hnext' : forall m, m <> n -> m <> p ->
            next_ (all_nodes (unlinked g n p x) !!! m) = next_ (all_nodes g !!! m)).
  { intros m Hmn Hmp. rewrite Hnode. rewrite decide_False by exact Hmn.
    rewrite (decide_False (P := m = p)) by exact Hmp.
    destruct (decide (m = x)); reflexivity. }
  assert (Hprev' : forall m, m <> n -> m <> x ->
            prev_ (all_nodes (unlinked g n p x) !!! m) = prev_ (all_nodes g !!! m)).
  { intros m Hmn Hmx. rewrite Hnode. rewrite decide_False by exact Hmn.
    rewrite (decide_False (P := m = x)) by exact Hmx.
    destruct (decide (m = p)); reflexivity. }
  assert (Hown' : forall m, m <> n ->
            owning_block_ (all_nodes (unlinked g n p x) !!! m)
            = owning_block_ (all_nodes g !!! m)).
  { intros m Hmn. rewrite Hnode. rewrite decide_False by exact Hmn.
    destruct (decide (m = x)), (decide (m = p)); reflexivity. }
  assert (Hp_next : p <> n -> next_ (all_nodes (unlinked g n p x) !!! p) = Some x).
  { intros Hpn. rewrite Hnode. rewrite decide_False by exact Hpn.
    rewrite (decide_True (P := p = p)) by reflexivity.
    destruct (decide (p = x)); reflexivity. }
  assert (Hx_prev : x <> n -> prev_ (all_nodes (unlinked g n p x) !!! x) = Some p).
  { intros Hxn. rewrite Hnode. rewrite decide_False by exact Hxn.
    rewrite (decide_True (P := x = x)) by reflexivity. reflexivity. }
  split; [| split; [| split; [| split; [| split; [| split; [| split]]]]]].
  - (* the node list *)
    unfold block_nodes. change (all_blocks (unlinked g n p x)) with (all_blocks g). fold r.
    split; [| split; [| split]].
    + destruct (node_chain_remove g (unlinked g n p x) r n l2 l1 first Hc) as (x' & Hx' & Hc').
      * intros m Hm Hml. destruct (Hother m Hm) as [Hmn Hmr]. apply Hnext'; [exact Hmn |].
        destruct Hp_cases as [[_ ->] | [_ Hlast]]; [exact Hmr | congruence].
      * intros q Hq. destruct Hp_cases as [[-> _] | [_ Hlast]]; [discriminate Hq |].
        assert (q = p) as -> by congruence. rewrite Hnext. apply Hp_next. congruence.
      * assert (x' = x) as -> by congruence.
        exists (if decide (l1 = []) then x else first). split; [| exact Hc'].
        destruct Hp_cases as [[-> Hpr] | [Hin _]].
        -- rewrite decide_True by reflexivity. rewrite <- Hpr. apply Hp_next. congruence.
        -- rewrite decide_False by (intros ->; inversion Hin).
           rewrite Hnext'; [exact Hfirst | congruence |].
           intros <-. apply (Hnotr r); [| reflexivity]. apply elem_of_app. left. exact Hin.
    + destruct Hx_cases as [[-> Hxr] | [Hin Hhead]].
      * rewrite app_nil_r. rewrite <- Hxr. apply Hx_prev. congruence.
      * rewrite Hprev'; [| congruence |].
        -- rewrite Hprevr. f_equal. f_equal.
           destruct l2 as [| y l2]; [inversion Hin |].
           rewrite !last_app. cbn [last]. rewrite !last_cons.
           destruct (last l2); reflexivity.
        -- intros <-. apply (Hnotr r); [| reflexivity].
           apply elem_of_app. right. right. exact Hin.
    + rewrite Hown' by congruence. exact Hownr.
    + intros m Hm. destruct (Hother m Hm) as [Hmn Hmr].
      assert (Hold : m ∈ l1 ++ n :: l2).
      { apply elem_of_app in Hm as [Hm | Hm]; apply elem_of_app; [left | right; right]; exact Hm. }
      destruct (Hl m Hold) as [Hlive Hown]. split; [apply unlinked_live, Hlive |].
      rewrite Hown' by exact Hmn. exact Hown.
  - (* the links back *)
    apply (prev_chain_remove g _ n l2 l1 r Hnd Hp).
    + intros m Hm Hmh. destruct (Hother m Hm) as [Hmn Hmr]. apply Hprev'; [exact Hmn |].
      destruct Hx_cases as [[_ ->] | [_ Hhead]]; [exact Hmr | congruence].
    + intros y Hy. destruct Hx_cases as [[-> _] | [_ Hhead]]; [discriminate Hy |].
      assert (y = x) as -> by congruence. apply Hx_prev. congruence.
  - rewrite Hnode, decide_True by reflexivity. reflexivity.
  - rewrite Hnode, decide_True by reflexivity. reflexivity.
  - rewrite Hnode, decide_True by reflexivity. reflexivity.
  - intros m. rewrite Hnode.
    destruct (decide (m = n)) as [-> |]; [reflexivity |].
    destruct (decide (m = x)), (decide (m = p)); reflexivity.
  - reflexivity.
  - reflexivity.
Qed.

Lemma removeFromList_keeps_the_others_witness :
  exists g',
    removeFromList 3%positive two_nodes = (Ok tt, g') /\
    block_nodes g' 1%positive [4%positive] /\
    prev_chain g' 1%positive [4%positive].
Proof.
  assert (Hr : output_ (all_blocks two_nodes !!! 1%positive) = 1%positive)
    by (vm_compute; reflexivity).
  destruct (removeFromList_keeps_the_others two_nodes 1%positive 3%positive [] [4%positive])
    as (g' & Hrun & Hb & Hp & _).
  - apply two_nodes_block.
  - rewrite Hr. cbn [app prev_chain].
    split; [vm_compute; reflexivity |]. split; [vm_compute; reflexivity | exact I].
  - exists g'. rewrite Hr in Hp. auto.
Defined.

End IR.


(** ** torch/csrc/jit/passes/alias_analysis.cpp *)

Module AliasAnalysis.
Import Types.
Export IR(NodeKind(..)).
Local Open Scope Z_scope.

(** *** The immutable snapshot of the graph the pass reads

    The pass never changes the graph, so it runs over the graph as a tree:
    a node with its inputs, outputs and sub-blocks, a block with its
    inputs, nodes and outputs.  A [Value*] is the identity of the value
    together with its type. *)

Record Value := mkValue {
  unique : positive;
  type : TypePtr
}.

(** An alias set symbol: ["alias::n"], or the wildcard ["alias::*"]. *)
Inductive Symbol :=
| alias (n : Z)
| wildcardSet.

#[global] Instance Symbol_eq_dec : EqDecision Symbol.
Proof. solve_decision. Defined.

#[global] Instance Symbol_countable : Countable Symbol :=
  inj_countable'
    (fun s => match s with alias n => Some n | wildcardSet => None end)
    (fun o => match o with Some n => alias n | None => wildcardSet end)
    (fun s => match s with alias _ => eq_refl | wildcardSet => eq_refl end).

(** Modelled from the spec: [AliasInfo] is declared in
    torch/csrc/jit/alias_info.h, which is not among the sources.  It carries
    a set of alias-set symbols and a write flag; it is a wildcard when the
    wildcard symbol is in the set; [containedTypes_] counts the annotations
    of contained types. *)
Record AliasInfo := mkAliasInfo {
  isWrite : bool;
  sets : gset Symbol;
  containedTypes : nat
}.

Definition AliasInfo_new : AliasInfo := mkAliasInfo false ∅ 0.
Definition createWildcard : AliasInfo := mkAliasInfo false {[wildcardSet]} 0.
Definition isWildcard (a : AliasInfo) : bool := bool_decide (wildcardSet ∈ sets a).
Definition addSet (s : Symbol) (a : AliasInfo) : AliasInfo :=
  mkAliasInfo (isWrite a) ({[s]} ∪ sets a) (containedTypes a).
Definition unionWith (other : AliasInfo) (a : AliasInfo) : AliasInfo :=
  mkAliasInfo (isWrite a) (sets a ∪ sets other) (containedTypes a).
Definition isSubsetOf (a other : AliasInfo) : bool :=
  bool_decide (sets a ⊆ sets other).

(** Modelled from the spec: [FunctionSchema] and [Argument] come from the
    operator registry, an external collaborator: arguments and returns with
    their alias annotations, [is_vararg], [is_varret]. *)
Record Argument := mkArgument {
  alias_info : option AliasInfo
}.

Record FunctionSchema := mkFunctionSchema {
  arguments : list Argument;
  returns : list Argument;
  is_vararg : bool;
  is_varret : bool
}.

#[warnings="-register-all"]
Inductive Node :=
| mkNode (id : positive) (kind : NodeKind) (inputs outputs : list Value)
         (blocks : list Block)
         (maybeSchema : option FunctionSchema)  (* the operator found for the node *)
         (Subgraph : option Block)              (* g(attr::Subgraph)->block() *)
with Block :=
| mkBlock (inputs : list Value) (nodes : list Node) (outputs : list Value).

Definition Node_id (n : Node) : positive := let 'mkNode i _ _ _ _ _ _ := n in i.
Definition Node_kind (n : Node) : NodeKind := let 'mkNode _ k _ _ _ _ _ := n in k.
Definition Node_inputs (n : Node) : list Value := let 'mkNode _ _ i _ _ _ _ := n in i.
Definition Node_outputs (n : Node) : list Value := let 'mkNode _ _ _ o _ _ _ := n in o.
Definition Node_blocks (n : Node) : list Block := let 'mkNode _ _ _ _ b _ _ := n in b.
Definition Node_maybeSchema (n : Node) : option FunctionSchema :=
  let 'mkNode _ _ _ _ _ s _ := n in s.
Definition Block_inputs (b : Block) : list Value := let 'mkBlock i _ _ := b in i.
Definition Block_nodes (b : Block) : list Node := let 'mkBlock _ n _ := b in n.
Definition Block_outputs (b : Block) : list Value := let 'mkBlock _ _ o := b in o.

(** The types of two values can be equal and still be two objects.  Where
    the pass compares types as pointers it needs the address of the object:
    [type_object v] is the address of the object that the type of the input
    [v] is, past its [Optional] if it has one. *)
Record Graph := mkGraph {
  graph_inputs : list Value;
  graph_block : Block;
  type_object : Value -> positive
}.

(** *** The alias database *)

Record AliasDb := mkAliasDb {
  latestSymbol_ : Symbol;
  valueToAlias_ : gmap positive AliasInfo;
  aliasToWrites_ : gmap Symbol (gset positive)
}.

Definition AliasDb_new : AliasDb := mkAliasDb (alias 0) ∅ ∅.

Inductive Error :=
| AssertFailed                     (* JIT_ASSERT *)
| OutOfRange                       (* at() on a missing index or key *)
| NoSchema                         (* schema() of a node without operator *)
| ErrorReport (node : positive)    (* "Alias information not found for node." *)
| Diverges.                        (* the [while] of [analyzeLoop] never ends *)

Abbreviation Analysis := (M Error AliasDb).

Definition JIT_ASSERT (b : bool) : Analysis unit :=
  if b then mret tt else throw AssertFailed.

(** [x.at(i)] *)
Definition at_ {A} (x : option A) : Analysis A :=
  match x with Some a => mret a | None => throw OutOfRange end.

Definition set_latestSymbol_ (v : Symbol) (db : AliasDb) : AliasDb :=
  mkAliasDb v (valueToAlias_ db) (aliasToWrites_ db).
Definition set_valueToAlias_ (v : gmap positive AliasInfo) (db : AliasDb) : AliasDb :=
  mkAliasDb (latestSymbol_ db) v (aliasToWrites_ db).
Definition set_aliasToWrites_ (v : gmap Symbol (gset positive)) (db : AliasDb) : AliasDb :=
  mkAliasDb (latestSymbol_ db) (valueToAlias_ db) v.

(** [aliasToWrites_[alias].insert(node)] *)
Definition record_write (a : Symbol) (node : positive) : Analysis unit :=
  modify (fun db =>
    set_aliasToWrites_
      (<[a := {[node]} ∪ default ∅ (aliasToWrites_ db !! a)]> (aliasToWrites_ db)) db).

(** Modelled from the spec: [at::ArrayRef::slice(N)] is in ArrayRef.h,
    which is not among the sources: the elements from index [N] on, asserted
    to exist. *)
Definition slice {A} (n : nat) (l : list A) : Analysis (list A) :=
  if (n <=? length l)%nat then mret (drop n l) else throw AssertFailed.

Section Analysis.
(** Modelled from the spec: [Type::isSubtypeOf] is declared in
    ATen/core/jit_type.h, which is not among the sources. *)
Variable isSubtypeOf : TypePtr -> TypePtr -> bool.

(** [bool shouldAnnotate(TypePtr type)] *)
Fixpoint shouldAnnotate_type (t : TypePtr) : bool :=
  isSubtypeOf t DynamicType
  || match kind t with ListTypeKind => true | _ => false end
  || match kind t with TupleTypeKind => true | _ => false end
  || match t with
     | OptionalType elem => shouldAnnotate_type elem
     | _ => false
     end.

(** [bool shouldAnnotate(const Value* v)]: we only need to annotate values
    that either are mutable or could contain mutable types. *)
Definition shouldAnnotate (v : Value) : bool := shouldAnnotate_type (type v).

(** [Symbol AliasDb::getFreshAlias() const] *)
Definition getFreshAlias : Analysis Symbol :=
  db ← get;
  match latestSymbol_ db with
  | alias num =>
      modify (set_latestSymbol_ (alias (num + 1)));;
      mret (alias (num + 1))
  | wildcardSet => throw AssertFailed
  end.

(** [void AliasDb::addAlias(const Value* value, AliasInfo alias)]: give this
    alias to the value; if the value already has alias info, union with this
    alias *)
Definition addAlias_info (v : Value) (a : AliasInfo) : Analysis unit :=
  if negb (shouldAnnotate v) then mret tt
  else
    modify (fun db =>
      match valueToAlias_ db !! unique v with
      | Some old => set_valueToAlias_ (<[unique v := unionWith a old]> (valueToAlias_ db)) db
      | None => set_valueToAlias_ (<[unique v := a]> (valueToAlias_ db)) db
      end).

(** [void AliasDb::addAlias(const Value* value, Symbol alias)] *)
Definition addAlias_symbol (v : Value) (a : Symbol) : Analysis unit :=
  if negb (shouldAnnotate v) then mret tt
  else
    modify (fun db =>
      match valueToAlias_ db !! unique v with
      | Some old => set_valueToAlias_ (<[unique v := addSet a old]> (valueToAlias_ db)) db
      | None => set_valueToAlias_ (<[unique v := addSet a AliasInfo_new]> (valueToAlias_ db)) db
      end).

(** [void AliasDb::addAlias(const Value* value, const Value* from)]: union
    the alias info of [value] with [from] *)
Definition addAlias (v : Value) (from : Value) : Analysis unit :=
  if negb (shouldAnnotate v) then JIT_ASSERT (negb (shouldAnnotate from))
  else
    db ← get;
    a ← at_ (valueToAlias_ db !! unique from);
    addAlias_info v a.

(** [void AliasDb::mapAliases(at::ArrayRef<Value*> to, at::ArrayRef<Value*> from)] *)
Definition mapAliases (to from : list Value) : Analysis unit :=
  JIT_ASSERT (length to =? length from)%nat;;
  forM_ (zip to from) (fun '(t, f) => addAlias t f).

(** [void AliasDb::giveFreshAlias(const Value* value)] *)
Definition giveFreshAlias (v : Value) : Analysis unit :=
  db ← get;
  match valueToAlias_ db !! unique v with
  | Some _ =>
      (* Inside a loop, we may have given a fresh alias to this value
         already, so skip *)
      mret tt
  | None =>
      a ← getFreshAlias;
      addAlias_symbol v a
  end.

(** Modelled from the spec: [Node::output] and [Node::input] are in ir.h,
    which is not among the sources: the only output, the only input of a
    node, asserted to be the only one. *)
Definition the_only {A} (l : list A) : Analysis A :=
  match l with
  | [x] => mret x
  | _ => throw AssertFailed
  end.

(** Modelled from the spec: [AliasInfo::set] is in alias_info.h: the one
    symbol of a formal annotation, asserted to be the only one. *)
Definition set_ (a : AliasInfo) : Analysis Symbol := the_only (elements (sets a)).

(** [void AliasDb::analyzeCreator(Node* node)]: for nodes that generate a
    fresh value from nothing *)
Definition analyzeCreator (node : Node) : Analysis unit :=
  output ← the_only (Node_outputs node);
  giveFreshAlias output.

(** [void AliasDb::analyzeExtractor(Node* node)]: for nodes that extract
    values from a composite type *)
Definition analyzeExtractor (node : Node) : Analysis unit :=
  forM_ (Node_outputs node) (fun output => addAlias_info output createWildcard).

(** [void AliasDb::analyzeChunk(Node* node)]: for torch.chunk(), all
    returned tensors may alias the input tensor *)
Definition analyzeChunk (node : Node) : Analysis unit :=
  input ← the_only (Node_inputs node);
  db ← get;
  a ← at_ (valueToAlias_ db !! unique input);
  forM_ (Node_outputs node) (fun output => addAlias_info output a).

(** Record all writes: [for alias in info.sets() if formal->isWrite() ...] *)
Definition record_writes (formal info : AliasInfo) (node : Node) : Analysis unit :=
  forM_ (elements (sets info))
        (fun a => if isWrite formal then record_write a (Node_id node) else mret tt).

(** [AliasDb::analyze(Node* node)] after the [switch]: the node has a schema. *)
Definition analyzeSchematized (node : Node) : Analysis unit :=
  schema ← match Node_maybeSchema node with
           | Some schema => mret schema
           | None => throw NoSchema
           end;
  (if is_vararg schema || is_varret schema then
     (* We don't have alias info for this node. Either schematize it, or
        add it an analyze* method for it. *)
     if existsb shouldAnnotate (Node_outputs node)
     then throw (ErrorReport (Node_id node))
     else mret tt
   else mret tt);;
  (* Bind formal alias annotation to actual alias sets *)
  formalToActual ←
    foldM (fun (formalToActual : gmap Symbol AliasInfo) '(i, argument) =>
             actualValue ← at_ (Node_inputs node !! i);
             match alias_info argument with
             | None => mret formalToActual  (* there's no alias annotation *)
             | Some formal =>
                 JIT_ASSERT (containedTypes formal =? 0)%nat;;
                 JIT_ASSERT (negb (isWildcard formal));;
                 formalAlias ← set_ formal;
                 match formalToActual !! formalAlias with
                 | Some _ => mret formalToActual  (* we've already bound this alias *)
                 | None =>
                     db ← get;
                     actualAlias ← at_ (valueToAlias_ db !! unique actualValue);
                     record_writes formal actualAlias node;;
                     mret (<[formalAlias := actualAlias]> formalToActual)
                 end
             end)
          ({[wildcardSet := createWildcard]} : gmap Symbol AliasInfo)
          (imap pair (arguments schema));
  (* Use the formal-actual mapping to give aliases to the outputs *)
  forM_ (imap pair (returns schema))
        (fun '(i, ret) =>
           actual ← at_ (Node_outputs node !! i);
           match alias_info ret with
           | None => giveFreshAlias actual  (* this is a fresh tensor *)
           | Some formal =>
               JIT_ASSERT (containedTypes formal =? 0)%nat;;
               formalAlias ← set_ formal;
               outputAlias ← at_ ((formalToActual : gmap Symbol AliasInfo) !! formalAlias);
               record_writes formal outputAlias node;;
               addAlias_info actual outputAlias
           end).

(** The [while (notConverged)] of [analyzeLoop]; [iteration] is one turn of
    the loop and returns [notConverged]. *)
Fixpoint analyzeLoop_while (fuel : nat) (iteration : Analysis bool) : Analysis unit :=
  match fuel with
  | O => throw Diverges
  | S fuel' =>
      notConverged ← iteration;
      if (notConverged : bool) then analyzeLoop_while fuel' iteration
      else mret tt
  end.

(** The last [for] of a turn of [analyzeLoop]: merge alias info from block
    outputs to the node inputs. *)
Definition analyzeLoop_merge (loopCarriedInputs blockOutputs : list Value) : Analysis bool :=
  foldM (fun (notConverged : bool) '(i, output) =>
           input ← at_ (loopCarriedInputs !! i);
           db ← get;
           notConverged ←
             match valueToAlias_ db !! unique input with
             | Some _ =>
                 (* Check whether or not this would change anything *)
                 out_alias ← match valueToAlias_ db !! unique output with
                             | Some a => mret a
                             | None => throw AssertFailed
                             end;
                 if negb (isSubsetOf out_alias out_alias) then mret true
                 else mret notConverged
             | None => mret notConverged
             end;
           addAlias input output;;
           mret notConverged)
        false (imap pair blockOutputs).

(** One turn of the loop of [analyzeLoop], given the analysis of the body. *)
Definition analyzeLoop_iteration (analyze_body : Analysis unit)
    (loopCarriedInputs blockInputs blockOutputs outputs : list Value) : Analysis bool :=
  (* Copy node input aliases to block input *)
  mapAliases blockInputs loopCarriedInputs;;
  (* Populate block output alias info by analyzing the body *)
  analyze_body;;
  (* Copy the alias info from the block output to the node output *)
  mapAliases outputs blockOutputs;;
  (* Merge alias info from block outputs to the node inputs. *)
  analyzeLoop_merge loopCarriedInputs blockOutputs.

(** [void AliasDb::analyzeLoop(Node* node)], given the analysis of the body *)
Definition analyzeLoop (fuel : nat) (analyze_body : Analysis unit)
    (inputs outputs body_inputs body_outputs : list Value) : Analysis unit :=
  loopCarriedInputs ← slice 2 inputs;  (* skip max, cond *)
  blockInputs ← slice 1 body_inputs;   (* skip trip *)
  blockOutputs ← slice 1 body_outputs; (* skip trip *)
  JIT_ASSERT (length loopCarriedInputs =? length blockInputs)%nat;;
  JIT_ASSERT (length blockOutputs =? length outputs)%nat;;
  (* Run alias analysis on the loop body, iterating until the block output
     alias info converges. *)
  analyzeLoop_while fuel
    (analyzeLoop_iteration analyze_body loopCarriedInputs blockInputs blockOutputs outputs).

(** [void AliasDb::analyze(Node* node)], with [analyzeIf], [analyzeLoop] and
    [analyzeSubgraph] in place, and [void AliasDb::analyze(Block* block)] as
    the loop over the nodes of the block.  [fuel] bounds each [while]. *)
Fixpoint analyzeNode (fuel : nat) (node : Node) {struct node} : Analysis unit :=
  match node with
  | mkNode id kind inputs outputs blocks maybeSchema Subgraph =>
      match kind with
      | prim_If =>
          (* For if statements, the alias set of an output is the union of
             the alias sets generated by the if and else block *)
          match blocks with
          | mkBlock _ true_nodes true_outputs
              :: mkBlock _ false_nodes false_outputs :: _ =>
              forM_ true_nodes (analyzeNode fuel);;
              forM_ false_nodes (analyzeNode fuel);;
              forM_ (imap pair outputs)
                    (fun '(i, nodeOutput) =>
                       trueOutput ← at_ (true_outputs !! i);
                       falseOutput ← at_ (false_outputs !! i);
                       addAlias nodeOutput trueOutput;;
                       addAlias nodeOutput falseOutput)
          | _ => throw OutOfRange
          end
      | prim_Loop =>
          match blocks with
          | mkBlock body_inputs body_nodes body_outputs :: _ =>
              analyzeLoop fuel (forM_ body_nodes (analyzeNode fuel))
                          inputs outputs body_inputs body_outputs
          | [] => throw OutOfRange
          end
      | prim_FusionGroup | prim_DifferentiableGraph =>
          match Subgraph with
          | Some (mkBlock sub_inputs sub_nodes sub_outputs) =>
              mapAliases sub_inputs inputs;;
              forM_ sub_nodes (analyzeNode fuel);;
              mapAliases outputs sub_outputs
          | None => throw OutOfRange
          end
      | prim_Constant | prim_ListConstruct | prim_TupleConstruct
      | prim_Undefined | prim_FusedConcat => analyzeCreator node
      | prim_TupleUnpack | prim_TupleIndex | prim_TupleSlice
      | prim_ListUnpack | prim_PythonOp => analyzeExtractor node
      | prim_ConstantChunk => analyzeChunk node
      | aten_add | aten_sub | aten_mul | aten_div =>
          (* This is necessary because we sometimes get unschematized
             combinations of Tensor/primitive. *)
          match maybeSchema with
          | None => analyzeCreator node
          | Some _ => analyzeSchematized node
          end
      | _ => analyzeSchematized node
      end
  end.

(** [void AliasDb::analyze(Block* block)] *)
Definition analyzeBlock (fuel : nat) (block : Block) : Analysis unit :=
  forM_ (Block_nodes block) (analyzeNode fuel).

(** The maps [listTypeAliases] (by kind of the element type) and
    [tupleTypeAliases] of [analyze].  The latter is a
    [std::map<TupleTypePtr, Symbol>]: its keys are shared pointers, compared
    by the address of the type object, not by what the type is. *)
Definition find_kind (k : TypeKind) (m : list (TypeKind * Symbol)) : option Symbol :=
  snd <$> List.find (fun p => bool_decide (fst p = k)) m.

Definition find_type (t : positive) (m : list (positive * Symbol)) : option Symbol :=
  snd <$> List.find (fun p => bool_decide (fst p = t)) m.

(** [void AliasDb::analyze(std::shared_ptr<Graph> graph)] *)
Definition analyze (fuel : nat) (graph : Graph) : Analysis unit :=
  (* Assign aliases to the graph's inputs, assuming that all inputs of a
     given type may alias to each other. *)
  tensorAlias ← getFreshAlias;
  _ ← foldM
        (fun '(listTypeAliases, tupleTypeAliases) input =>
           let inputType := type input in
           (* unwrap optional types *)
           let inputType := match inputType with
                            | OptionalType elem => elem
                            | _ => inputType
                            end in
           if isSubtypeOf inputType DynamicType then
             addAlias_symbol input tensorAlias;;
             mret (listTypeAliases, tupleTypeAliases)
           else
             match inputType with
             | ListType containedType =>
                 (* All tensor subtypes may alias to each other, so we should
                    consider all lists of them to alias to each other. *)
                 let containedKind :=
                   if isSubtypeOf containedType DynamicType then DynamicTypeKind
                   else kind containedType in
                 match find_kind containedKind listTypeAliases with
                 | Some a =>
                     addAlias_symbol input a;;
                     mret (listTypeAliases, tupleTypeAliases)
                 | None =>
                     a ← getFreshAlias;
                     addAlias_symbol input a;;
                     mret ((containedKind, a) :: listTypeAliases, tupleTypeAliases)
                 end
             | TupleType _ =>
                 let tupleType := type_object graph input in
                 match find_type tupleType tupleTypeAliases with
                 | Some a =>
                     addAlias_symbol input a;;
                     mret (listTypeAliases, tupleTypeAliases)
                 | None =>
                     a ← getFreshAlias;
                     addAlias_symbol input a;;
                     mret (listTypeAliases, (tupleType, a) :: tupleTypeAliases)
                 end
             | _ =>
                 JIT_ASSERT (negb (shouldAnnotate input));;
                 mret (listTypeAliases, tupleTypeAliases)
             end)
        (([] : list (TypeKind * Symbol)), ([] : list (positive * Symbol)))
        (graph_inputs graph);
  analyzeBlock fuel (graph_block graph).

End Analysis.

(** *** The loop whose body swaps its two carried tensors

<<
  %max : int = prim::Constant()       %cond : bool = prim::Constant()
  %a : Tensor = prim::Constant()      %b : Tensor = prim::Constant()
  %o1 : Tensor, %o2 : Tensor = prim::Loop(%max, %cond, %a, %b)
    block0(%trip : int, %x : Tensor, %y : Tensor) {
      %c : bool = prim::Constant()
      -> (%c, %y, %x)
    }
>> *)

Definition v_max : Value := mkValue 1 IntType.
Definition v_cond : Value := mkValue 2 BoolType.
Definition v_a : Value := mkValue 3 DynamicType.
Definition v_b : Value := mkValue 4 DynamicType.
Definition v_trip : Value := mkValue 5 IntType.
Definition v_x : Value := mkValue 6 DynamicType.
Definition v_y : Value := mkValue 7 DynamicType.
Definition v_c : Value := mkValue 8 BoolType.
Definition v_o1 : Value := mkValue 9 DynamicType.
Definition v_o2 : Value := mkValue 10 DynamicType.

Definition swap_body : Block :=
  mkBlock [v_trip; v_x; v_y]
          [mkNode 5 prim_Constant [] [v_c] [] None None]
          [v_c; v_y; v_x].

Definition swap_loop : Node :=
  mkNode 6 prim_Loop [v_max; v_cond; v_a; v_b] [v_o1; v_o2] [swap_body] None None.

(** The graph has no inputs; every value has a type object of its own. *)
Definition swap_graph : Graph :=
  mkGraph []
    (mkBlock []
       [mkNode 1 prim_Constant [] [v_max] [] None None;
        mkNode 2 prim_Constant [] [v_cond] [] None None;
        mkNode 3 prim_Constant [] [v_a] [] None None;
        mkNode 4 prim_Constant [] [v_b] [] None None;
        swap_loop]
       [])
    unique.

(** The database the analysis of the swap loop ends with, and the database
    after the loop is analysed once more. *)
Definition swap_db : AliasDb := snd (analyze subtype 1 swap_graph AliasDb_new).
Definition swap_db' : AliasDb := snd (analyzeNode subtype 1 swap_loop swap_db).

(** The alias sets of a value in a database. *)
Definition alias_sets (db : AliasDb) (v : Value) : option (gset Symbol) :=
  sets <$> valueToAlias_ db !! unique v.

(** *** The loop never takes a second turn *)

Section LoopFacts.
Variable isSubtypeOf : TypePtr -> TypePtr -> bool.

Lemma isSubsetOf_refl (a : AliasInfo) : isSubsetOf a a = true.
Proof. apply bool_decide_eq_true_2. reflexivity. Qed.

Lemma analyzeLoop_merge_from (loopCarriedInputs : list Value) (pairs : list (nat * Value)) :
  forall db,
    match fst (foldM (fun (notConverged : bool) '(i, output) =>
                        input ← at_ (loopCarriedInputs !! i);
                        db ← get;
                        notConverged ←
                          match valueToAlias_ db !! unique input with
                          | Some _ =>
                              out_alias ← match valueToAlias_ db !! unique output with
                                          | Some a => mret a
                                          | None => throw AssertFailed
                                          end;
                              if negb (isSubsetOf out_alias out_alias) then mret true
                              else mret notConverged
                          | None => mret notConverged
                          end;
                        addAlias isSubtypeOf input output;;
                        mret notConverged)
                     false pairs db) with
    | Ok notConverged => notConverged = false
    | Err _ => True
    end.
Proof.
  induction pairs as [| [i output] pairs IH]; intros db; [reflexivity |].
  cbn [foldM]. rewrite bind_eq.
  match goal with |- context [match ?step db with _ => _ end] =>
    assert (Hstep : match fst (step db) with Ok nc => nc = false | Err _ => True end)
  end.
  { destruct (loopCarriedInputs !! i) as [input |]; [| exact I].
    cbn [at_]. rewrite bind_ret. cbv beta. rewrite bind_get. cbv beta.
    destruct (valueToAlias_ db !! unique input) as [a |].
    - rewrite bind_assoc.
      destruct (valueToAlias_ db !! unique output) as [out_alias |];
        [| rewrite bind_throw; exact I].
      rewrite bind_ret. cbv beta. rewrite isSubsetOf_refl. cbn [negb].
      rewrite bind_ret. cbv beta. rewrite bind_eq.
      destruct (addAlias isSubtypeOf input output db) as [[[] | e] db']; [reflexivity | exact I].
    - rewrite bind_ret. cbv beta. rewrite bind_eq.
      destruct (addAlias isSubtypeOf input output db) as [[[] | e] db']; [reflexivity | exact I]. }
  match goal with |- context [match ?step db with _ => _ end] =>
    destruct (step db) as [[nc | e] db'] end; [| exact I].
  cbn [fst] in Hstep. subst nc. apply IH.
Qed.

(** A turn of the loop of [analyzeLoop] never reports [notConverged]. *)
Lemma analyzeLoop_iteration_converged analyze_body lci bi bo outs db :
  match fst (analyzeLoop_iteration isSubtypeOf analyze_body lci bi bo outs db) with
  | Ok notConverged => notConverged = false
  | Err _ => True
  end.
Proof.
  unfold analyzeLoop_iteration. rewrite bind_eq.
  destruct (mapAliases isSubtypeOf bi lci db) as [[[] | e] db1]; [| exact I].
  rewrite bind_eq. destruct (analyze_body db1) as [[[] | e] db2]; [| exact I].
  rewrite bind_eq.
  destruct (mapAliases isSubtypeOf outs bo db2) as [[[] | e] db3]; [| exact I].
  apply analyzeLoop_merge_from.
Qed.

(** Whatever the body does, with any fuel at all the [while] of
    [analyzeLoop] runs its body exactly once. *)
Lemma analyzeLoop_while_once analyze_body lci bi bo outs fuel db :
  analyzeLoop_while (S fuel)
    (analyzeLoop_iteration isSubtypeOf analyze_body lci bi bo outs) db
  = (_ ← analyzeLoop_iteration isSubtypeOf analyze_body lci bi bo outs; mret tt) db.
Proof.
  cbn [analyzeLoop_while]. rewrite !bind_eq.
  pose proof (analyzeLoop_iteration_converged analyze_body lci bi bo outs db) as H.
  destruct (analyzeLoop_iteration isSubtypeOf analyze_body lci bi bo outs db)
    as [[nc | e] db']; [| reflexivity].
  cbn [fst] in H. subst nc. reflexivity.
Qed.

End LoopFacts.

(** C1: on the swap loop the analysis stops after one turn of the loop,
    with the block inputs [%x] and [%y] of the body in one alias set each,
    although one more analysis of the loop puts both in both sets: the alias
    information the analysis ends with is not a fixpoint. *)
Theorem swap_loop_stops_before_fixpoint (fuel : nat) :
  exists db db',
    analyze subtype (S fuel) swap_graph AliasDb_new = (Ok tt, db) /\
    alias_sets db v_a = Some {[alias 4; alias 5]} /\
    alias_sets db v_x = Some {[alias 4]} /\
    alias_sets db v_y = Some {[alias 5]} /\
    analyzeNode subtype (S fuel) swap_loop db = (Ok tt, db') /\
    alias_sets db' v_x = Some {[alias 4; alias 5]} /\
    alias_sets db' v_y = Some {[alias 4; alias 5]}.
Proof.
  exists swap_db, swap_db'.
  split; [vm_compute; reflexivity |].
  split; [vm_compute; reflexivity |].
  split; [vm_compute; reflexivity |].
  split; [vm_compute; reflexivity |].
  split; [vm_compute; reflexivity |].
  split; vm_compute; reflexivity.
Qed.

(** ** More of the pass: the queries, and what the analysis keeps *)

(** *** The queries on the database *)

(** [valueToAlias_.count(v) != 0 && p(valueToAlias_.at(v))] *)
Definition annotated_with (db : AliasDb) (p : AliasInfo -> bool) (v : Value) : bool :=
  match valueToAlias_ db !! unique v with
  | Some a => p a
  | None => false
  end.

(** [bool AliasDb::hasWildcard(const Node* n) const] *)
Definition hasWildcard (db : AliasDb) (n : Node) : bool :=
  if existsb (annotated_with db isWildcard) (Node_inputs n) then true
  else if existsb (annotated_with db isWildcard) (Node_outputs n) then true
  else false.

(** [bool AliasDb::hasWrites(const Node* n) const] *)
Definition hasWrites (db : AliasDb) (n : Node) : bool :=
  existsb (annotated_with db isWrite) (Node_inputs n).

(** [std::unordered_set<Node*> AliasDb::getWritersForNode(const Node* n) const] *)
Definition getWritersForNode (db : AliasDb) (n : Node) : gset positive :=
  (* Get all alias sets of this node *)
  let add_sets (aliasSets : gset Symbol) (v : Value) :=
    match valueToAlias_ db !! unique v with
    | Some a => aliasSets ∪ sets a
    | None => aliasSets
    end in
  (* ... check the inputs *)
  let aliasSets := foldl add_sets ∅ (Node_inputs n) in
  (* ... and the outputs *)
  let aliasSets := foldl add_sets aliasSets (Node_outputs n) in
  (* Then get the union of all writers to all those alias sets *)
  foldl (fun (writers : gset positive) alias =>
           match aliasToWrites_ db !! alias with
           | Some ws => writers ∪ ws
           | None => writers
           end)
        ∅ (elements aliasSets).

(** *** The analysis only adds *)

(** From [db] to [db'] nothing was taken away: every annotated value is
    still annotated, with at least the alias sets it had and the same write
    flag; every recorded writer is still recorded; the counter of fresh
    alias sets has not gone back. *)
Definition grows (db db' : AliasDb) : Prop :=
  (forall k a, valueToAlias_ db !! k = Some a ->
     exists a', valueToAlias_ db' !! k = Some a' /\ sets a ⊆ sets a' /\
                isWrite a' = isWrite a /\ containedTypes a' = containedTypes a) /\
  (forall s w, aliasToWrites_ db !! s = Some w ->
     exists w', aliasToWrites_ db' !! s = Some w' /\ w ⊆ w') /\
  (forall n, latestSymbol_ db = alias n ->
     exists n', latestSymbol_ db' = alias n' /\ n <= n').

#[global] Instance grows_refl : Reflexive grows.
Proof.
  intros db. split; [| split].
  - intros k a Hk. exists a. auto.
  - intros s w Hs. exists w. auto.
  - intros n Hn. exists n. split; [exact Hn | lia].
Qed.

#[global] Instance grows_trans : Transitive grows.
Proof.
  intros db1 db2 db3 (Hv1 & Hw1 & Hl1) (Hv2 & Hw2 & Hl2). split; [| split].
  - intros k a Hk. destruct (Hv1 k a Hk) as (a' & Hk' & Hs & Hf & Hc).
    destruct (Hv2 k a' Hk') as (a'' & Hk'' & Hs' & Hf' & Hc').
    exists a''. split; [exact Hk'' |]. split; [etransitivity; eassumption |].
    split; congruence.
  - intros s w Hs. destruct (Hw1 s w Hs) as (w' & Hs' & Hsub).
    destruct (Hw2 s w' Hs') as (w'' & Hs'' & Hsub').
    exists w''. split; [exact Hs'' | etransitivity; eassumption].
  - intros n Hn. destruct (Hl1 n Hn) as (n' & Hn' & Hle).
    destruct (Hl2 n' Hn') as (n'' & Hn'' & Hle').
    exists n''. split; [exact Hn'' | lia].
Qed.

Lemma Frame_forM_ {E S A} (R : S -> S -> Prop) `{!Reflexive R} `{!Transitive R}
    (l : list A) (body : A -> M E S unit) :
  (forall x, x ∈ l -> Frame R (body x)) -> Frame R (forM_ l body).
Proof.
  induction l as [| x l IH]; intros Hbody.
  - apply Frame_ret. assumption.
  - rewrite forM__cons. apply Frame_bind; [assumption | apply Hbody; left |].
    intros _. apply IH. intros y Hy. apply Hbody. right. exact Hy.
Qed.

Lemma Frame_foldM {E S A B} (R : S -> S -> Prop) `{!Reflexive R} `{!Transitive R}
    (body : B -> A -> M E S B) (l : list A) :
  (forall acc x, x ∈ l -> Frame R (body acc x)) ->
  forall acc, Frame R (foldM body acc l).
Proof.
  induction l as [| x l IH]; intros Hbody acc.
  - apply Frame_ret. assumption.
  - cbn [foldM]. apply Frame_bind; [assumption | apply Hbody; left |].
    intros acc'. apply IH. intros a y Hy. apply Hbody. right. exact Hy.
Qed.

Lemma grows_set_valueToAlias (db : AliasDb) (k : positive) (a : AliasInfo) :
  (forall old, valueToAlias_ db !! k = Some old ->
     sets old ⊆ sets a /\ isWrite a = isWrite old /\
     containedTypes a = containedTypes old) ->
  grows db (set_valueToAlias_ (<[k := a]> (valueToAlias_ db)) db).
Proof.
  intros Hold. split; [| split].
  - intros k' a' Hk'. cbn [valueToAlias_ set_valueToAlias_].
    destruct (decide (k' = k)) as [-> | Hne].
    + rewrite lookup_insert_eq. exists a. split; [reflexivity |]. apply Hold, Hk'.
    + rewrite lookup_insert_ne by congruence. exists a'. auto.
  - intros s w Hs. exists w. auto.
  - intros n Hn. exists n. split; [exact Hn | lia].
Qed.

Lemma grows_set_latestSymbol (db : AliasDb) (n n' : Z) :
  latestSymbol_ db = alias n -> n <= n' ->
  grows db (set_latestSymbol_ (alias n') db).
Proof.
  intros Hn Hle. split; [| split].
  - intros k a Hk. exists a. auto.
  - intros s w Hs. exists w. auto.
  - intros m Hm. exists n'. split; [reflexivity |]. rewrite Hn in Hm.
    injection Hm as <-. exact Hle.
Qed.

Lemma grows_record_write a node : Frame grows (record_write a node).
Proof.
  apply Frame_modify. intros db. split; [| split].
  - intros k i Hk. exists i. auto.
  - intros s w Hs. cbn [aliasToWrites_ set_aliasToWrites_].
    destruct (decide (s = a)) as [-> | Hne].
    + rewrite lookup_insert_eq, Hs. eexists. split; [reflexivity |].
      cbn [default]. apply union_subseteq_r.
    + rewrite lookup_insert_ne by congruence. exists w. auto.
  - intros n Hn. exists n. split; [exact Hn | lia].
Qed.

(** The nodes below a node, by induction on the tree. *)
Section NodeInduction.
Variable P : Node -> Prop.
Hypothesis step : forall id kind inputs outputs blocks maybeSchema Subgraph,
  Forall (fun b => Forall P (Block_nodes b)) blocks ->
  match Subgraph with Some b => Forall P (Block_nodes b) | None => True end ->
  P (mkNode id kind inputs outputs blocks maybeSchema Subgraph).

Fixpoint Node_nested_ind (n : Node) : P n :=
  match n with
  | mkNode id kind inputs outputs blocks maybeSchema Subgraph =>
      step id kind inputs outputs blocks maybeSchema Subgraph
        ((fix blocks_ind (bs : list Block) : Forall (fun b => Forall P (Block_nodes b)) bs :=
            match bs with
            | [] => List.Forall_nil _
            | b :: bs' => List.Forall_cons _ _ _ (Block_nested_ind b) (blocks_ind bs')
            end) blocks)
        (match Subgraph
           return match Subgraph with Some b => Forall P (Block_nodes b) | None => True end
         with
         | Some b => Block_nested_ind b
         | None => I
         end)
  end
with Block_nested_ind (b : Block) : Forall P (Block_nodes b) :=
  match b with
  | mkBlock inputs nodes outputs =>
      (fix nodes_ind (ns : list Node) : Forall P ns :=
         match ns with
         | [] => List.Forall_nil _
         | n :: ns' => List.Forall_cons _ _ _ (Node_nested_ind n) (nodes_ind ns')
         end) nodes
  end.
End NodeInduction.

(** What every step of the analysis keeps, the analysis of a node keeps:
    the control flow nodes only combine [addAlias] and the analysis of the
    nodes below them. *)
Section FrameAnalysis.
Variable isSubtypeOf : TypePtr -> TypePtr -> bool.
Variable R : AliasDb -> AliasDb -> Prop.
Context `{!Reflexive R} `{!Transitive R}.
Hypothesis R_addAlias : forall v from, Frame R (addAlias isSubtypeOf v from).
Hypothesis R_analyzeCreator : forall node, Frame R (analyzeCreator isSubtypeOf node).
Hypothesis R_analyzeExtractor : forall node, Frame R (analyzeExtractor isSubtypeOf node).
Hypothesis R_analyzeChunk : forall node, Frame R (analyzeChunk isSubtypeOf node).
Hypothesis R_analyzeSchematized : forall node, Frame R (analyzeSchematized isSubtypeOf node).

Ltac analysis_step :=
  match goal with
  | |- Frame _ (_ ≫= _) => apply Frame_bind; [typeclasses eauto | | intros ?]
  | |- Frame _ (mret _) => apply Frame_ret; typeclasses eauto
  | |- Frame _ (throw _) => apply Frame_throw; typeclasses eauto
  | |- Frame _ (gets _) => apply Frame_gets; typeclasses eauto
  | |- Frame _ get => apply Frame_get; typeclasses eauto
  | |- Frame _ (JIT_ASSERT _) => unfold JIT_ASSERT
  | |- Frame _ (at_ _) => unfold at_
  | |- Frame _ (slice _ _) => unfold slice
  | |- Frame _ (addAlias _ _ _) => apply R_addAlias
  | |- Frame _ (forM_ _ _) => apply Frame_forM_; [typeclasses eauto .. | intros ? ?]
  | |- Frame _ (foldM _ _ _) => apply Frame_foldM; [typeclasses eauto .. | intros ? ? ?]
  | |- Frame _ (match ?x with _ => _ end) => destruct x
  | |- Frame _ (if ?x then _ else _) => destruct x
  | |- Frame _ ((match ?x with _ => _ end) _) => destruct x; cbv beta
  end.
Ltac analysis_frames := repeat first [assumption | analysis_step].

Lemma Frame_mapAliases to from : Frame R (mapAliases isSubtypeOf to from).
Proof using Type*. unfold mapAliases. analysis_frames. Qed.

Lemma Frame_analyzeLoop_while iteration :
  Frame R iteration -> forall fuel, Frame R (analyzeLoop_while fuel iteration).
Proof using Type*.
  intros Hit. induction fuel as [| fuel IH]; cbn [analyzeLoop_while]; analysis_frames.
Qed.

Lemma Frame_analyzeLoop_merge lci bo : Frame R (analyzeLoop_merge isSubtypeOf lci bo).
Proof using Type*. unfold analyzeLoop_merge. analysis_frames. Qed.

Lemma Frame_analyzeLoop fuel analyze_body inputs outputs body_inputs body_outputs :
  Frame R analyze_body ->
  Frame R (analyzeLoop isSubtypeOf fuel analyze_body inputs outputs
                       body_inputs body_outputs).
Proof using Type*.
  intros Hbody. unfold analyzeLoop.
  repeat first [assumption | apply Frame_analyzeLoop_while | analysis_step].
  unfold analyzeLoop_iteration.
  repeat first [assumption | apply Frame_mapAliases | apply Frame_analyzeLoop_merge
               | analysis_step].
Qed.

Lemma Frame_analyzeNode fuel node : Frame R (analyzeNode isSubtypeOf fuel node).
Proof using Type*.
  induction node as [id kind inputs outputs blocks maybeSchema Subgraph IHb IHs]
    using Node_nested_ind.
  assert (Hnodes : forall b, Forall (fun n => Frame R (analyzeNode isSubtypeOf fuel n))
                               (Block_nodes b) ->
                   Frame R (forM_ (Block_nodes b) (analyzeNode isSubtypeOf fuel))).
  { intros b Hb. apply Frame_forM_; [typeclasses eauto .. |].
    intros n Hn. rewrite Forall_forall in Hb. apply Hb, Hn. }
  pose proof (R_analyzeCreator (mkNode id kind inputs outputs blocks maybeSchema Subgraph))
    as Hcreator.
  pose proof (R_analyzeExtractor (mkNode id kind inputs outputs blocks maybeSchema Subgraph))
    as Hextractor.
  pose proof (R_analyzeChunk (mkNode id kind inputs outputs blocks maybeSchema Subgraph))
    as Hchunk.
  pose proof (R_analyzeSchematized (mkNode id kind inputs outputs blocks maybeSchema Subgraph))
    as Hschema.
  cbn [analyzeNode].
  destruct kind; try assumption.
  - (* prim::If *)
    destruct blocks as [| [ti tn to] [| [fi fn fo] blocks]];
      try (apply Frame_throw; typeclasses eauto).
    apply Forall_cons in IHb as [Ht IHb]. apply Forall_cons in IHb as [Hf _].
    apply Hnodes in Ht, Hf. cbn [Block_nodes] in Ht, Hf. analysis_frames.
  - (* prim::Loop *)
    destruct blocks as [| [bi bn bo] blocks]; [apply Frame_throw; typeclasses eauto |].
    apply Forall_cons in IHb as [Hb _]. apply Hnodes in Hb. cbn [Block_nodes] in Hb.
    apply Frame_analyzeLoop. exact Hb.
  - (* prim::FusionGroup *)
    destruct Subgraph as [[si sn so] |]; [| apply Frame_throw; typeclasses eauto].
    apply Hnodes in IHs. cbn [Block_nodes] in IHs.
    repeat first [assumption | apply Frame_mapAliases | analysis_step].
  - (* prim::DifferentiableGraph *)
    destruct Subgraph as [[si sn so] |]; [| apply Frame_throw; typeclasses eauto].
    apply Hnodes in IHs. cbn [Block_nodes] in IHs.
    repeat first [assumption | apply Frame_mapAliases | analysis_step].
  - destruct maybeSchema; assumption.
  - destruct maybeSchema; assumption.
  - destruct maybeSchema; assumption.
  - destruct maybeSchema; assumption.
Qed.

Lemma Frame_analyzeBlock fuel block : Frame R (analyzeBlock isSubtypeOf fuel block).
Proof using Type*.
  unfold analyzeBlock. apply Frame_forM_; [typeclasses eauto .. |].
  intros n _. apply Frame_analyzeNode.
Qed.

End FrameAnalysis.

Section Grows.
Variable isSubtypeOf : TypePtr -> TypePtr -> bool.

Lemma grows_getFreshAlias : Frame grows getFreshAlias.
Proof.
  intros db. unfold getFreshAlias. rewrite bind_get.
  destruct (latestSymbol_ db) as [num |] eqn:Hl; [| reflexivity].
  cbn. apply (grows_set_latestSymbol db num); [exact Hl | lia].
Qed.

Lemma grows_addAlias_info v a : Frame grows (addAlias_info isSubtypeOf v a).
Proof.
  unfold addAlias_info. destruct (negb _); [apply Frame_ret; typeclasses eauto |].
  apply Frame_modify. intros db.
  destruct (valueToAlias_ db !! unique v) as [old |] eqn:Hold;
    apply grows_set_valueToAlias; intros old' Hold'; [| congruence].
  rewrite Hold in Hold'. injection Hold' as <-. cbn [unionWith sets isWrite containedTypes].
  split; [apply union_subseteq_l | auto].
Qed.

Lemma grows_addAlias_symbol v a : Frame grows (addAlias_symbol isSubtypeOf v a).
Proof.
  unfold addAlias_symbol. destruct (negb _); [apply Frame_ret; typeclasses eauto |].
  apply Frame_modify. intros db.
  destruct (valueToAlias_ db !! unique v) as [old |] eqn:Hold;
    apply grows_set_valueToAlias; intros old' Hold'; [| congruence].
  rewrite Hold in Hold'. injection Hold' as <-. cbn [addSet sets isWrite containedTypes].
  split; [apply union_subseteq_r | auto].
Qed.

Ltac grows_step :=
  match goal with
  | |- Frame _ (_ ≫= _) => apply Frame_bind; [typeclasses eauto | | intros ?]
  | |- Frame _ (mret _) => apply Frame_ret; typeclasses eauto
  | |- Frame _ (throw _) => apply Frame_throw; typeclasses eauto
  | |- Frame _ (gets _) => apply Frame_gets; typeclasses eauto
  | |- Frame _ get => apply Frame_get; typeclasses eauto
  | |- Frame _ (JIT_ASSERT _) => unfold JIT_ASSERT
  | |- Frame _ (at_ _) => unfold at_
  | |- Frame _ (the_only _) => unfold the_only
  | |- Frame _ (slice _ _) => unfold slice
  | |- Frame _ (set_ _) => unfold set_
  | |- Frame _ getFreshAlias => apply grows_getFreshAlias
  | |- Frame _ (addAlias_info _ _ _) => apply grows_addAlias_info
  | |- Frame _ (addAlias_symbol _ _ _) => apply grows_addAlias_symbol
  | |- Frame _ (record_write _ _) => apply grows_record_write
  | |- Frame _ (forM_ _ _) => apply Frame_forM_; [typeclasses eauto .. | intros ? ?]
  | |- Frame _ (foldM _ _ _) => apply Frame_foldM; [typeclasses eauto .. | intros ? ? ?]
  | |- Frame _ (match ?x with _ => _ end) => destruct x
  | |- Frame _ (if ?x then _ else _) => destruct x
  | |- Frame _ ((match ?x with _ => _ end) _) => destruct x; cbv beta
  end.
Ltac grows_auto := repeat first [assumption | grows_step].

Lemma grows_addAlias v from : Frame grows (addAlias isSubtypeOf v from).
Proof. unfold addAlias. grows_auto. Qed.

Lemma grows_mapAliases to from : Frame grows (mapAliases isSubtypeOf to from).
Proof. unfold mapAliases. grows_auto. apply grows_addAlias. Qed.

Lemma grows_giveFreshAlias v : Frame grows (giveFreshAlias isSubtypeOf v).
Proof. unfold giveFreshAlias. grows_auto. Qed.

Lemma grows_analyzeCreator node : Frame grows (analyzeCreator isSubtypeOf node).
Proof. unfold analyzeCreator. grows_auto. apply grows_giveFreshAlias. Qed.

Lemma grows_analyzeExtractor node : Frame grows (analyzeExtractor isSubtypeOf node).
Proof. unfold analyzeExtractor. grows_auto. Qed.

Lemma grows_analyzeChunk node : Frame grows (analyzeChunk isSubtypeOf node).
Proof. unfold analyzeChunk. grows_auto. Qed.

Lemma grows_record_writes formal info node : Frame grows (record_writes formal info node).
Proof. unfold record_writes. grows_auto. Qed.

Lemma grows_analyzeSchematized node : Frame grows (analyzeSchematized isSubtypeOf node).
Proof.
  unfold analyzeSchematized.
  repeat first [assumption | apply grows_record_writes | apply grows_giveFreshAlias
               | grows_step].
Qed.

Lemma grows_analyzeNode fuel node : Frame grows (analyzeNode isSubtypeOf fuel node).
Proof.
  apply Frame_analyzeNode; try typeclasses eauto.
  - apply grows_addAlias.
  - apply grows_analyzeCreator.
  - apply grows_analyzeExtractor.
  - apply grows_analyzeChunk.
  - apply grows_analyzeSchematized.
Qed.

Lemma grows_analyzeBlock fuel block : Frame grows (analyzeBlock isSubtypeOf fuel block).
Proof.
  unfold analyzeBlock. apply Frame_forM_; [typeclasses eauto .. |].
  intros n _. apply grows_analyzeNode.
Qed.

Lemma grows_analyze fuel graph : Frame grows (analyze isSubtypeOf fuel graph).
Proof.
  unfold analyze.
  repeat first [assumption | apply grows_analyzeBlock | grows_step].
Qed.

End Grows.

(** *** What is in the database *)

(** A symbol that [getFreshAlias] has handed out by the time the counter
    stands at [n], or the wildcard. *)
Definition handed_out (n : Z) (s : Symbol) : Prop :=
  s = wildcardSet \/ exists j, s = alias j /\ j <= n.

(** Alias info as the analysis stores it: the write flag is not set and
    all its sets have been handed out. *)
Definition stored_info (n : Z) (a : AliasInfo) : Prop :=
  isWrite a = false /\ forall s, s ∈ sets a -> handed_out n s.

Definition well_formed (db : AliasDb) : Prop :=
  exists n, latestSymbol_ db = alias n /\
            forall k a, valueToAlias_ db !! k = Some a -> stored_info n a.

(** [a] could be stored in [db]. *)
Definition storable (db : AliasDb) (a : AliasInfo) : Prop :=
  exists n, latestSymbol_ db = alias n /\ stored_info n a.

Definition usable (db : AliasDb) (s : Symbol) : Prop :=
  exists n, latestSymbol_ db = alias n /\ handed_out n s.

Definition keeps_well_formed : relation AliasDb :=
  fun db db' => well_formed db -> well_formed db'.

#[global] Instance keeps_well_formed_refl : Reflexive keeps_well_formed.
Proof. intros db H. exact H. Qed.
#[global] Instance keeps_well_formed_trans : Transitive keeps_well_formed.
Proof. intros db1 db2 db3 H1 H2 H. apply H2, H1, H. Qed.

Lemma handed_out_mono n n' s : n <= n' -> handed_out n s -> handed_out n' s.
Proof.
  intros Hle [-> | (j & -> & Hj)]; [left; reflexivity |].
  right. exists j. split; [reflexivity | lia].
Qed.

Lemma stored_info_mono n n' a : n <= n' -> stored_info n a -> stored_info n' a.
Proof.
  intros Hle [Hw Hs]. split; [exact Hw |].
  intros s Hin. eapply handed_out_mono; [exact Hle | apply Hs, Hin].
Qed.

Lemma storable_grows db db' a : grows db db' -> storable db a -> storable db' a.
Proof.
  intros (_ & _ & Hl) (n & Hn & Ha). destruct (Hl n Hn) as (n' & Hn' & Hle).
  exists n'. split; [exact Hn' |]. eapply stored_info_mono; eassumption.
Qed.

Lemma usable_grows db db' s : grows db db' -> usable db s -> usable db' s.
Proof.
  intros (_ & _ & Hl) (n & Hn & Hs). destruct (Hl n Hn) as (n' & Hn' & Hle).
  exists n'. split; [exact Hn' |]. eapply handed_out_mono; eassumption.
Qed.

Lemma well_formed_lookup db k a :
  well_formed db -> valueToAlias_ db !! k = Some a -> storable db a.
Proof. intros (n & Hn & Hall) Hk. exists n. split; [exact Hn | eapply Hall, Hk]. Qed.

Lemma storable_createWildcard db : well_formed db -> storable db createWildcard.
Proof.
  intros (n & Hn & _). exists n. split; [exact Hn |]. split; [reflexivity |].
  intros s Hs. cbn [createWildcard sets] in Hs.
  apply elem_of_singleton in Hs as ->. left. reflexivity.
Qed.

Lemma well_formed_insert db k a :
  well_formed db -> storable db a ->
  well_formed (set_valueToAlias_ (<[k := a]> (valueToAlias_ db)) db).
Proof.
  intros (n & Hn & Hall) (n' & Hn' & Ha).
  assert (n' = n) as -> by congruence.
  exists n. split; [exact Hn |]. intros k' a'. cbn [valueToAlias_ set_valueToAlias_].
  destruct (decide (k' = k)) as [-> | Hne].
  - rewrite lookup_insert_eq. intros [= <-]. exact Ha.
  - rewrite lookup_insert_ne by congruence. apply Hall.
Qed.

(** Invariants of the loops. *)
Lemma forM__invariant {E S A} (I X : S -> Prop) (l : list A) (body : A -> M E S unit) :
  (forall x s, x ∈ l -> I s ->
     match body x s with (Ok _, s') => I s' | (Err _, s') => X s' end) ->
  forall s, I s ->
    match forM_ l body s with (Ok _, s') => I s' | (Err _, s') => X s' end.
Proof.
  induction l as [| x l IH]; intros Hbody s Hs; [exact Hs |].
  rewrite forM__cons, bind_eq.
  specialize (Hbody x s (list_elem_of_here _ _) Hs) as Hx.
  destruct (body x s) as [[[] | e] s1]; [| exact Hx].
  apply IH; [| exact Hx]. intros y s' Hy. apply Hbody. right. exact Hy.
Qed.

Lemma foldM_invariant {E S A B} (I : B -> S -> Prop) (X : S -> Prop)
    (body : B -> A -> M E S B) (l : list A) :
  (forall acc x s, x ∈ l -> I acc s ->
     match body acc x s with (Ok acc', s') => I acc' s' | (Err _, s') => X s' end) ->
  forall acc s, I acc s ->
    match foldM body acc l s with (Ok acc', s') => I acc' s' | (Err _, s') => X s' end.
Proof.
  induction l as [| x l IH]; intros Hbody acc s Hs; [exact Hs |].
  cbn [foldM]. rewrite bind_eq.
  specialize (Hbody acc x s (list_elem_of_here _ _) Hs) as Hx.
  destruct (body acc x s) as [[acc' | e] s1]; [| exact Hx].
  apply IH; [| exact Hx]. intros a y s' Hy. apply Hbody. right. exact Hy.
Qed.

Section WellFormed.
Variable isSubtypeOf : TypePtr -> TypePtr -> bool.

Lemma getFreshAlias_spec db n :
  latestSymbol_ db = alias n ->
  getFreshAlias db = (Ok (alias (n + 1)), set_latestSymbol_ (alias (n + 1)) db).
Proof. intros Hn. unfold getFreshAlias. rewrite bind_get, Hn. reflexivity. Qed.

Lemma well_formed_getFreshAlias : Frame keeps_well_formed getFreshAlias.
Proof.
  intros db (n & Hn & Hall). rewrite (getFreshAlias_spec db n Hn). cbn [snd].
  exists (n + 1). split; [reflexivity |]. intros k a Hk.
  eapply stored_info_mono; [| apply (Hall k a Hk)]. lia.
Qed.

Lemma well_formed_record_write a node : Frame keeps_well_formed (record_write a node).
Proof. intros db Hwf. exact Hwf. Qed.

Lemma well_formed_record_writes formal info node :
  Frame keeps_well_formed (record_writes formal info node).
Proof.
  unfold record_writes. apply Frame_forM_; [typeclasses eauto .. |].
  intros a _. destruct (isWrite formal);
    [apply well_formed_record_write | apply Frame_ret; typeclasses eauto].
Qed.

Lemma well_formed_addAlias_info v a db :
  well_formed db -> storable db a ->
  well_formed (snd (addAlias_info isSubtypeOf v a db)).
Proof.
  intros Hwf Ha. unfold addAlias_info. destruct (negb _); [exact Hwf |].
  cbn [modify snd].
  destruct (valueToAlias_ db !! unique v) as [old |] eqn:Hold;
    apply well_formed_insert; try assumption.
  destruct (well_formed_lookup db _ _ Hwf Hold) as (n & Hn & Hw & Hs).
  destruct Ha as (n' & Hn' & Hw' & Hs'). assert (n' = n) as -> by congruence.
  exists n. split; [exact Hn |]. split; [exact Hw |].
  cbn [unionWith sets]. intros s Hin. apply elem_of_union in Hin as [Hin | Hin]; auto.
Qed.

Lemma well_formed_addAlias_symbol v s db :
  well_formed db -> usable db s ->
  well_formed (snd (addAlias_symbol isSubtypeOf v s db)).
Proof.
  intros Hwf (n' & Hn' & Hs'). unfold addAlias_symbol. destruct (negb _); [exact Hwf |].
  cbn [modify snd].
  destruct (valueToAlias_ db !! unique v) as [old |] eqn:Hold;
    apply well_formed_insert; try assumption.
  - destruct (well_formed_lookup db _ _ Hwf Hold) as (n & Hn & Hw & Hs).
    assert (n' = n) as -> by congruence.
    exists n. split; [exact Hn |]. split; [exact Hw |].
    cbn [addSet sets]. intros s0 Hin. apply elem_of_union in Hin as [Hin | Hin]; auto.
    apply elem_of_singleton in Hin as ->. exact Hs'.
  - exists n'. split; [exact Hn' |]. split; [reflexivity |].
    cbn [addSet sets AliasInfo_new]. intros s0 Hin.
    apply elem_of_union in Hin as [Hin | Hin]; [| apply elem_of_empty in Hin as []].
    apply elem_of_singleton in Hin as ->. exact Hs'.
Qed.

Lemma well_formed_addAlias v from : Frame keeps_well_formed (addAlias isSubtypeOf v from).
Proof.
  intros db Hwf. unfold addAlias.
  destruct (negb (shouldAnnotate isSubtypeOf v)).
  - unfold JIT_ASSERT. destruct (negb _); exact Hwf.
  - rewrite bind_get.
    destruct (valueToAlias_ db !! unique from) as [a |] eqn:Hfrom; [| exact Hwf].
    cbn [at_]. rewrite bind_ret. apply well_formed_addAlias_info; [exact Hwf |].
    eapply well_formed_lookup; eassumption.
Qed.

Lemma well_formed_giveFreshAlias v : Frame keeps_well_formed (giveFreshAlias isSubtypeOf v).
Proof.
  intros db Hwf. unfold giveFreshAlias. rewrite bind_get.
  destruct (valueToAlias_ db !! unique v); [exact Hwf |].
  pose proof Hwf as (n & Hn & _).
  rewrite bind_eq, (getFreshAlias_spec db n Hn).
  apply well_formed_addAlias_symbol.
  - pose proof (well_formed_getFreshAlias db Hwf) as H.
    rewrite (getFreshAlias_spec db n Hn) in H. exact H.
  - exists (n + 1). split; [reflexivity |]. right. exists (n + 1). split; [reflexivity | lia].
Qed.

Lemma forM_addAlias_info_well_formed (a : AliasInfo) (l : list Value) :
  Frame (fun db db' => well_formed db /\ storable db a -> well_formed db')
        (forM_ l (fun output => addAlias_info isSubtypeOf output a)).
Proof.
  intros db [Hwf Ha].
  pose proof (forM__invariant (fun db => well_formed db /\ storable db a)
                (fun db => well_formed db /\ storable db a) l
                (fun output => addAlias_info isSubtypeOf output a)) as H.
  lapply H.
  - clear H. intros H. specialize (H db (conj Hwf Ha)).
    destruct (forM_ _ _ db) as [[[] | e] db']; apply H.
  - clear H. intros x s _ [Hs Hsa].
    pose proof (well_formed_addAlias_info x a s Hs Hsa) as Hwf'.
    pose proof (grows_addAlias_info isSubtypeOf x a s) as Hg.
    destruct (addAlias_info isSubtypeOf x a s) as [[[] | e] s'];
      (split; [exact Hwf' | eapply storable_grows; eassumption]).
Qed.

Lemma well_formed_mapAliases to from : Frame keeps_well_formed (mapAliases isSubtypeOf to from).
Proof.
  unfold mapAliases. apply Frame_bind; [typeclasses eauto | |].
  - unfold JIT_ASSERT. destruct (_ =? _)%nat;
      [apply Frame_ret | apply Frame_throw]; typeclasses eauto.
  - intros _. apply Frame_forM_; [typeclasses eauto .. |].
    intros [t f] _. apply well_formed_addAlias.
Qed.

Lemma well_formed_analyzeCreator node : Frame keeps_well_formed (analyzeCreator isSubtypeOf node).
Proof.
  unfold analyzeCreator, the_only. apply Frame_bind; [typeclasses eauto | |].
  - destruct (Node_outputs node) as [| x [| y l]];
      [apply Frame_throw | apply Frame_ret | apply Frame_throw]; typeclasses eauto.
  - intros output. apply well_formed_giveFreshAlias.
Qed.

Lemma well_formed_analyzeExtractor node :
  Frame keeps_well_formed (analyzeExtractor isSubtypeOf node).
Proof.
  intros db Hwf. unfold analyzeExtractor.
  apply forM_addAlias_info_well_formed. split; [exact Hwf |].
  apply storable_createWildcard, Hwf.
Qed.

Lemma well_formed_analyzeChunk node : Frame keeps_well_formed (analyzeChunk isSubtypeOf node).
Proof.
  intros db Hwf. unfold analyzeChunk, the_only.
  destruct (Node_inputs node) as [| input [| y l]]; try exact Hwf.
  rewrite bind_ret, bind_get.
  destruct (valueToAlias_ db !! unique input) as [a |] eqn:Ha; [| exact Hwf].
  cbn [at_]. rewrite bind_ret.
  apply forM_addAlias_info_well_formed. split; [exact Hwf |].
  eapply well_formed_lookup; eassumption.
Qed.

(** The bindings of formal to actual alias sets can be stored. *)
Definition bindings_storable (db : AliasDb) (formalToActual : gmap Symbol AliasInfo) : Prop :=
  forall s a, formalToActual !! s = Some a -> storable db a.

Lemma bindings_storable_grows db db' m :
  grows db db' -> bindings_storable db m -> bindings_storable db' m.
Proof. intros Hg Hm s a Hs. eapply storable_grows; [exact Hg | eapply Hm, Hs]. Qed.

Lemma well_formed_bind_formals node (args : list (nat * Argument)) :
  forall formalToActual db,
    well_formed db -> bindings_storable db formalToActual ->
    match foldM (fun (formalToActual : gmap Symbol AliasInfo) '(i, argument) =>
             actualValue ← at_ (Node_inputs node !! i);
             match alias_info argument with
             | None => mret formalToActual
             | Some formal =>
                 JIT_ASSERT (containedTypes formal =? 0)%nat;;
                 JIT_ASSERT (negb (isWildcard formal));;
                 formalAlias ← set_ formal;
                 match formalToActual !! formalAlias with
                 | Some _ => mret formalToActual
                 | None =>
                     db ← get;
                     actualAlias ← at_ (valueToAlias_ db !! unique actualValue);
                     record_writes formal actualAlias node;;
                     mret (<[formalAlias := actualAlias]> formalToActual)
                 end
             end) formalToActual args db
    with
    | (Ok formalToActual', db') => well_formed db' /\ bindings_storable db' formalToActual'
    | (Err _, db') => well_formed db'
    end.
Proof.
  intros formalToActual db Hwf Hm.
  apply (foldM_invariant (fun m db => well_formed db /\ bindings_storable db m) well_formed);
    [| split; assumption].
  clear. intros m [i argument] db _ [Hwf Hm].
  destruct (Node_inputs node !! i) as [actualValue |]; [| exact Hwf].
  cbn [at_]. rewrite bind_ret.
  destruct (alias_info argument) as [formal |]; [| split; assumption].
  unfold JIT_ASSERT.
  destruct (containedTypes formal =? 0)%nat; [| exact Hwf]. rewrite bind_ret.
  destruct (negb (isWildcard formal)); [| exact Hwf]. rewrite bind_ret.
  unfold set_, the_only.
  destruct (elements (sets formal)) as [| formalAlias [| y l]]; try exact Hwf.
  rewrite bind_ret.
  destruct (m !! formalAlias) eqn:Hbound; [split; assumption |].
  rewrite bind_get.
  destruct (valueToAlias_ db !! unique actualValue) as [actualAlias |] eqn:Ha;
    [| exact Hwf].
  cbn [at_]. rewrite bind_ret, bind_eq.
  pose proof (well_formed_record_writes formal actualAlias node db Hwf) as Hwf'.
  pose proof (grows_record_writes formal actualAlias node db) as Hg.
  destruct (record_writes formal actualAlias node db) as [[[] | e] db']; [| exact Hwf'].
  cbn [snd] in Hwf', Hg. split; [exact Hwf' |].
  intros s a. destruct (decide (s = formalAlias)) as [-> | Hne].
  - rewrite lookup_insert_eq. intros [= <-].
    eapply storable_grows; [exact Hg |]. eapply well_formed_lookup; eassumption.
  - rewrite lookup_insert_ne by congruence. intros Hs.
    eapply storable_grows; [exact Hg | eapply Hm, Hs].
Qed.

Lemma well_formed_analyzeSchematized node :
  Frame keeps_well_formed (analyzeSchematized isSubtypeOf node).
Proof.
  intros db Hwf. unfold analyzeSchematized.
  destruct (Node_maybeSchema node) as [schema |]; [| exact Hwf].
  rewrite bind_ret.
  assert (Hcheck : forall k : unit -> Analysis unit,
    (forall db, well_formed db -> well_formed (snd (k tt db))) ->
    well_formed (snd (((if is_vararg schema || is_varret schema
                        then if existsb (shouldAnnotate isSubtypeOf) (Node_outputs node)
                             then throw (ErrorReport (Node_id node))
                             else mret tt
                        else mret tt) ≫= k) db))).
  { intros k Hk. destruct (_ || _); [destruct (existsb _ _) |];
      rewrite ?bind_ret, ?bind_throw; try exact Hwf; apply Hk, Hwf. }
  apply Hcheck. clear db Hwf Hcheck. intros db Hwf.
  rewrite bind_eq.
  assert (Hinit : bindings_storable db ({[wildcardSet := createWildcard]})).
  { intros s a Hs. apply lookup_singleton_Some in Hs as [_ <-].
    apply storable_createWildcard, Hwf. }
  pose proof (well_formed_bind_formals node (imap pair (arguments schema)) _ db Hwf Hinit)
    as Hfold.
  match goal with |- context [match ?m with _ => _ end] =>
    change m with (foldM (fun (formalToActual : gmap Symbol AliasInfo) '(i, argument) =>
             actualValue ← at_ (Node_inputs node !! i);
             match alias_info argument with
             | None => mret formalToActual
             | Some formal =>
                 JIT_ASSERT (containedTypes formal =? 0)%nat;;
                 JIT_ASSERT (negb (isWildcard formal));;
                 formalAlias ← set_ formal;
                 match formalToActual !! formalAlias with
                 | Some _ => mret formalToActual
                 | None =>
                     db ← get;
                     actualAlias ← at_ (valueToAlias_ db !! unique actualValue);
                     record_writes formal actualAlias node;;
                     mret (<[formalAlias := actualAlias]> formalToActual)
                 end
             end) ({[wildcardSet := createWildcard]}) (imap pair (arguments schema)) db)
  end.
  destruct (foldM _ _ _ db) as [[formalToActual | e] db1]; [| exact Hfold].
  destruct Hfold as [Hwf1 Hm1].
  pose proof (forM__invariant (E := Error)
    (fun db => well_formed db /\ bindings_storable db formalToActual) well_formed
    (imap pair (returns schema))) as Hloop.
  match goal with |- context [forM_ _ ?body] => specialize (Hloop body) end.
  lapply Hloop.
  - clear Hloop. intros Hloop. specialize (Hloop db1 (conj Hwf1 Hm1)).
    destruct (forM_ _ _ db1) as [[[] | e] db2]; apply Hloop.
  - clear. intros [i ret] db _ [Hwf Hm].
    destruct (Node_outputs node !! i) as [actual |]; [| exact Hwf].
    cbn [at_]. rewrite bind_ret.
    destruct (alias_info ret) as [formal |].
    + unfold JIT_ASSERT.
      destruct (containedTypes formal =? 0)%nat; [| exact Hwf]. rewrite bind_ret.
      unfold set_, the_only.
      destruct (elements (sets formal)) as [| formalAlias [| y l]]; try exact Hwf.
      rewrite bind_ret.
      destruct (formalToActual !! formalAlias) as [outputAlias |] eqn:Hout;
        [| exact Hwf].
      cbn [at_]. rewrite bind_ret, bind_eq.
      pose proof (well_formed_record_writes formal outputAlias node db Hwf) as Hwf'.
      pose proof (grows_record_writes formal outputAlias node db) as Hg.
      destruct (record_writes formal outputAlias node db) as [[[] | e] db']; [| exact Hwf'].
      cbn [snd] in Hwf', Hg.
      assert (Ha : storable db' outputAlias).
      { eapply storable_grows; [exact Hg | eapply Hm, Hout]. }
      pose proof (well_formed_addAlias_info actual outputAlias db' Hwf' Ha) as Hwf''.
      pose proof (grows_addAlias_info isSubtypeOf actual outputAlias db') as Hg'.
      destruct (addAlias_info isSubtypeOf actual outputAlias db') as [[[] | e] db''];
        [| exact Hwf''].
      split; [exact Hwf'' |].
      eapply bindings_storable_grows; [| exact Hm]. etransitivity; eassumption.
    + pose proof (well_formed_giveFreshAlias actual db Hwf) as Hwf'.
      pose proof (grows_giveFreshAlias isSubtypeOf actual db) as Hg.
      destruct (giveFreshAlias isSubtypeOf actual db) as [[[] | e] db']; [| exact Hwf'].
      split; [exact Hwf' |]. eapply bindings_storable_grows; eassumption.
Qed.

Lemma well_formed_analyzeNode fuel node :
  Frame keeps_well_formed (analyzeNode isSubtypeOf fuel node).
Proof.
  apply Frame_analyzeNode; try typeclasses eauto.
  - apply well_formed_addAlias.
  - apply well_formed_analyzeCreator.
  - apply well_formed_analyzeExtractor.
  - apply well_formed_analyzeChunk.
  - apply well_formed_analyzeSchematized.
Qed.

(** The alias sets [analyze] keeps for the inputs of the graph are usable. *)
Definition input_aliases_usable (db : AliasDb) (tensorAlias : Symbol)
    (aliases : list (TypeKind * Symbol) * list (positive * Symbol)) : Prop :=
  well_formed db /\ usable db tensorAlias /\
  Forall (fun p => usable db (snd p)) (fst aliases) /\
  Forall (fun p => usable db (snd p)) (snd aliases).

Lemma find_kind_usable db k m a :
  Forall (fun p => usable db (snd p)) m -> find_kind k m = Some a -> usable db a.
Proof.
  unfold find_kind. intros Hm Ha.
  destruct (List.find _ m) as [p |] eqn:Hp; [| discriminate].
  injection Ha as <-. apply List.find_some in Hp as [Hp _].
  rewrite Forall_forall in Hm. apply Hm. apply list_elem_of_In, Hp.
Qed.

Lemma find_type_usable db t m a :
  Forall (fun p => usable db (snd p)) m -> find_type t m = Some a -> usable db a.
Proof.
  unfold find_type. intros Hm Ha.
  destruct (List.find _ m) as [p |] eqn:Hp; [| discriminate].
  injection Ha as <-. apply List.find_some in Hp as [Hp _].
  rewrite Forall_forall in Hm. apply Hm. apply list_elem_of_In, Hp.
Qed.

Lemma Forall_usable_grows db db' {A} (m : list (A * Symbol)) :
  grows db db' -> Forall (fun p => usable db (snd p)) m ->
  Forall (fun p => usable db' (snd p)) m.
Proof.
  intros Hg Hm. eapply Forall_impl; [exact Hm |]. intros p. apply usable_grows, Hg.
Qed.

(** Giving an input a usable alias set keeps the sets usable. *)
Lemma input_aliases_addAlias_symbol db tensorAlias aliases input a :
  input_aliases_usable db tensorAlias aliases -> usable db a ->
  match (addAlias_symbol isSubtypeOf input a;; mret aliases) db with
  | (Ok aliases', db') => input_aliases_usable db' tensorAlias aliases'
  | (Err _, db') => well_formed db'
  end.
Proof.
  intros (Hwf & Ht & Hl & Hp) Ha. rewrite bind_eq.
  pose proof (well_formed_addAlias_symbol input a db Hwf Ha) as Hwf'.
  pose proof (grows_addAlias_symbol isSubtypeOf input a db) as Hg.
  destruct (addAlias_symbol isSubtypeOf input a db) as [[[] | e] db']; [| exact Hwf'].
  cbn [snd] in Hwf', Hg. split; [exact Hwf' |]. split; [eapply usable_grows; eassumption |].
  split; eapply Forall_usable_grows; eassumption.
Qed.

Lemma input_aliases_getFreshAlias db tensorAlias aliases :
  input_aliases_usable db tensorAlias aliases ->
  exists n, getFreshAlias db = (Ok (alias (n + 1)), set_latestSymbol_ (alias (n + 1)) db) /\
            input_aliases_usable (set_latestSymbol_ (alias (n + 1)) db) tensorAlias aliases /\
            usable (set_latestSymbol_ (alias (n + 1)) db) (alias (n + 1)).
Proof.
  intros (Hwf & Ht & Hl & Hp). pose proof Hwf as (n & Hn & _). exists n.
  pose proof (getFreshAlias_spec db n Hn) as Hrun. split; [exact Hrun |].
  pose proof (well_formed_getFreshAlias db Hwf) as Hwf'.
  pose proof (grows_getFreshAlias db) as Hg. rewrite Hrun in Hwf', Hg. cbn [snd] in Hwf', Hg.
  split.
  - split; [exact Hwf' |]. split; [eapply usable_grows; eassumption |].
    split; eapply Forall_usable_grows; eassumption.
  - exists (n + 1). split; [reflexivity |]. right. exists (n + 1). split; [reflexivity | lia].
Qed.

Lemma well_formed_analyze fuel graph : Frame keeps_well_formed (analyze isSubtypeOf fuel graph).
Proof.
  intros db Hwf. unfold analyze. rewrite bind_eq.
  pose proof Hwf as (n & Hn & _). rewrite (getFreshAlias_spec db n Hn).
  pose proof (well_formed_getFreshAlias db Hwf) as Hwf1.
  rewrite (getFreshAlias_spec db n Hn) in Hwf1. cbn [snd] in Hwf1.
  set (db1 := set_latestSymbol_ (alias (n + 1)) db) in *.
  set (tensorAlias := alias (n + 1)).
  assert (Hinit : input_aliases_usable db1 tensorAlias ([], [])).
  { split; [exact Hwf1 |]. split; [| split; constructor].
    exists (n + 1). split; [reflexivity |]. right. exists (n + 1). split; [reflexivity | lia]. }
  rewrite bind_eq.
  match goal with |- context [foldM ?body ?acc ?l db1] =>
    pose proof (foldM_invariant (fun aliases db => input_aliases_usable db tensorAlias aliases)
                  well_formed body l)
      as Hfold
  end.
  lapply Hfold.
  - clear Hfold. intros Hfold. specialize (Hfold _ db1 Hinit).
    destruct (foldM _ _ _ db1) as [[aliases | e] db2]; [| exact Hfold].
    destruct Hfold as (Hwf2 & _). cbv beta iota.
    apply (Frame_analyzeBlock isSubtypeOf keeps_well_formed); try exact Hwf2.
    + apply well_formed_addAlias.
    + apply well_formed_analyzeCreator.
    + apply well_formed_analyzeExtractor.
    + apply well_formed_analyzeChunk.
    + apply well_formed_analyzeSchematized.
  - clear. intros [listTypeAliases tupleTypeAliases] input s _ Hacc.
    pose proof Hacc as (Hwf & Ht & Hl & Hp). cbn [fst snd] in Hl, Hp.
    destruct (isSubtypeOf _ DynamicType).
    { apply input_aliases_addAlias_symbol; assumption. }
    destruct (match type input with OptionalType elem => elem | _ => type input end)
      as [| | | | | | | | | | | elements | containedType | | |] eqn:Hty.
    all: try (unfold JIT_ASSERT; destruct (negb (shouldAnnotate isSubtypeOf input));
              [exact Hacc | exact Hwf]).
    + destruct (find_type _ tupleTypeAliases) as [a |] eqn:Hfind.
      * apply input_aliases_addAlias_symbol; [exact Hacc |].
        eapply find_type_usable; eassumption.
      * destruct (input_aliases_getFreshAlias s tensorAlias _ Hacc)
          as (m & Hrun & (Hwf' & Ht' & Hl' & Hp') & Ha).
        rewrite bind_eq, Hrun.
        apply input_aliases_addAlias_symbol; [| exact Ha].
        split; [exact Hwf' |]. split; [exact Ht' |]. split; [exact Hl' |].
        constructor; assumption.
    + destruct (find_kind _ listTypeAliases) as [a |] eqn:Hfind.
      * apply input_aliases_addAlias_symbol; [exact Hacc |].
        eapply find_kind_usable; eassumption.
      * destruct (input_aliases_getFreshAlias s tensorAlias _ Hacc)
          as (m & Hrun & (Hwf' & Ht' & Hl' & Hp') & Ha).
        rewrite bind_eq, Hrun.
        apply input_aliases_addAlias_symbol; [| exact Ha].
        split; [exact Hwf' |]. split; [exact Ht' |]. split; [| exact Hp'].
        constructor; assumption.
Qed.


End WellFormed.

Lemma well_formed_new : well_formed AliasDb_new.
Proof. exists 0. split; [reflexivity |]. intros k a Hk. discriminate Hk. Qed.

(** X21: the analysis only adds.  Whatever node or graph is analysed, and
    whether the analysis returns or throws, every value annotated before is
    still annotated afterwards with at least the alias sets it had, every
    recorded writer is still recorded, and the counter of fresh alias sets
    has not gone back. *)
Theorem analysis_only_adds (isSubtypeOf : TypePtr -> TypePtr -> bool) (fuel : nat) :
  (forall node db, grows db (snd (analyzeNode isSubtypeOf fuel node db))) /\
  (forall graph db, grows db (snd (analyze isSubtypeOf fuel graph db))).
Proof.
  split.
  - intros node db. apply grows_analyzeNode.
  - intros graph db. apply grows_analyze.
Qed.

(** X22: [hasWrites] never answers [true].  The analysis records writes
    per alias set in [aliasToWrites_] and never sets the write flag of the
    alias info it stores for a value; so after analysing a graph from a
    well-formed database, such as the empty one, [hasWrites] is [false] for
    every node. *)
Theorem hasWrites_never_true (isSubtypeOf : TypePtr -> TypePtr -> bool) (fuel : nat)
    (graph : Graph) (db : AliasDb) (n : Node) :
  well_formed db ->
  hasWrites (snd (analyze isSubtypeOf fuel graph db)) n = false.
Proof.
  intros Hwf. apply (well_formed_analyze isSubtypeOf fuel graph) in Hwf.
  destruct Hwf as (m & _ & Hall).
  unfold hasWrites. apply not_true_is_false. intros Hex.
  apply existsb_exists in Hex as (v & _ & Hv). unfold annotated_with in Hv.
  destruct (valueToAlias_ _ !! unique v) as [a |] eqn:Ha; [| discriminate].
  destruct (Hall _ _ Ha) as [Hw _]. congruence.
Qed.

Lemma hasWrites_never_true_witness :
  hasWrites (snd (analyze subtype 1 swap_graph AliasDb_new)) swap_loop = false.
Proof. apply hasWrites_never_true. apply well_formed_new. Defined.

(** X25: the analysis keeps the database well-formed.  If no stored alias
    info has its write flag set and every stored alias set is the wildcard
    or was handed out by the counter, the same holds after analysing any
    node or graph, whether the analysis returns or throws. *)
Theorem analysis_keeps_well_formed (isSubtypeOf : TypePtr -> TypePtr -> bool) (fuel : nat)
    (db : AliasDb) :
  well_formed db ->
  (forall node, well_formed (snd (analyzeNode isSubtypeOf fuel node db))) /\
  (forall graph, well_formed (snd (analyze isSubtypeOf fuel graph db))).
Proof.
  intros Hwf. split.
  - intros node. apply well_formed_analyzeNode, Hwf.
  - intros graph. apply well_formed_analyze, Hwf.
Qed.

Lemma analysis_keeps_well_formed_witness :
  (forall node, well_formed (snd (analyzeNode subtype 1 node AliasDb_new))) /\
  (forall graph, well_formed (snd (analyze subtype 1 graph AliasDb_new))).
Proof. apply analysis_keeps_well_formed. apply well_formed_new. Defined.

(** X24: a created value gets an alias set of its own.  In a well-formed
    database, [analyzeCreator] on a node whose only output should be
    annotated and is not annotated yet returns; the output is then in
    exactly one alias set, the next one of the counter, no other value is in
    that set, and the alias info of all other values is unchanged. *)
Theorem analyzeCreator_gives_unshared_set (isSubtypeOf : TypePtr -> TypePtr -> bool)
    (node : Node) (output : Value) (db : AliasDb) :
  well_formed db ->
  Node_outputs node = [output] ->
  shouldAnnotate isSubtypeOf output = true ->
  valueToAlias_ db !! unique output = None ->
  exists n db',
    latestSymbol_ db = alias n /\
    analyzeCreator isSubtypeOf node db = (Ok tt, db') /\
    alias_sets db' output = Some {[alias (n + 1)]} /\
    (forall k, k <> unique output -> valueToAlias_ db' !! k = valueToAlias_ db !! k) /\
    (forall k a, k <> unique output -> valueToAlias_ db' !! k = Some a ->
       alias (n + 1) ∉ sets a).
Proof.
  intros (n & Hn & Hall) Hout Hann Hnew.
  exists n. eexists. split; [exact Hn |].
  unfold analyzeCreator, the_only. rewrite Hout, bind_ret.
  unfold giveFreshAlias. rewrite bind_get, Hnew.
  rewrite bind_eq, (getFreshAlias_spec db n Hn).
  unfold addAlias_symbol. rewrite Hann. cbn [negb]. unfold modify.
  cbn [set_latestSymbol_ valueToAlias_]. rewrite Hnew. split; [reflexivity |].
  unfold alias_sets. cbn [valueToAlias_ set_valueToAlias_ set_latestSymbol_].
  split; [| split].
  - rewrite lookup_insert_eq. cbn [fmap option_fmap option_map addSet sets AliasInfo_new].
    f_equal. apply (right_id_L ∅ (∪)).
  - intros k Hk. rewrite lookup_insert_ne by congruence. reflexivity.
  - intros k a Hk. rewrite lookup_insert_ne by congruence. intros Ha Hin.
    destruct (Hall k a Ha) as [_ Hs].
    destruct (Hs _ Hin) as [Hw | (j & Hj & Hle)]; [discriminate |].
    injection Hj as <-. lia.
Qed.

Lemma analyzeCreator_gives_unshared_set_witness :
  exists n db',
    latestSymbol_ swap_db = alias n /\
    analyzeCreator subtype (mkNode 7 prim_Constant [] [mkValue 11 DynamicType] [] None None)
                   swap_db = (Ok tt, db') /\
    alias_sets db' (mkValue 11 DynamicType) = Some {[alias (n + 1)]} /\
    (forall k, k <> 11%positive -> valueToAlias_ db' !! k = valueToAlias_ swap_db !! k) /\
    (forall k a, k <> 11%positive -> valueToAlias_ db' !! k = Some a -> alias (n + 1) ∉ sets a).
Proof.
  apply (analyzeCreator_gives_unshared_set subtype
           (mkNode 7 prim_Constant [] [mkValue 11 DynamicType] [] None None)
           (mkValue 11 DynamicType) swap_db).
  - apply (well_formed_analyze subtype 1 swap_graph). apply well_formed_new.
  - reflexivity.
  - reflexivity.
  - vm_compute. reflexivity.
Defined.

(** *** The inputs of the graph *)

(** What a loop has done for an element stays done. *)
Lemma foldM_marks {E S A B} (R : S -> S -> Prop) `{!Reflexive R} `{!Transitive R}
    (P : A -> Prop) (mark : A -> S -> Prop)
    (body : B -> A -> M E S B) (l : list A) :
  (forall acc x, Frame R (body acc x)) ->
  (forall acc x s acc' s', body acc x s = (Ok acc', s') -> P x -> mark x s') ->
  (forall x s s', mark x s -> R s s' -> mark x s') ->
  forall acc s acc' s',
    foldM body acc l s = (Ok acc', s') ->
    forall x, x ∈ l -> P x -> mark x s'.
Proof.
  intros Hframe Hbody Hkeep. induction l as [| y l IH]; intros acc s acc' s' Hrun x Hx HP.
  - inversion Hx.
  - cbn [foldM] in Hrun. apply bind_Ok_inv in Hrun as (acc1 & s1 & Hy & Hrest).
    apply elem_of_cons in Hx as [-> | Hx].
    + eapply Hkeep; [eapply Hbody; eassumption |].
      eapply Frame_run; [| exact Hrest].
      apply Frame_foldM; try assumption. intros a z _. apply Hframe.
    + eapply IH; eassumption.
Qed.

Section Inputs.
Variable isSubtypeOf : TypePtr -> TypePtr -> bool.

(** An input that is a tensor, or an optional tensor. *)
Definition is_tensor_input (input : Value) : bool :=
  isSubtypeOf match type input with
              | OptionalType elem => elem
              | _ => type input
              end DynamicType.

Lemma shouldAnnotate_type_subtype t :
  isSubtypeOf t DynamicType = true -> shouldAnnotate_type isSubtypeOf t = true.
Proof. intros H. destruct t; cbn [shouldAnnotate_type]; rewrite H; reflexivity. Qed.

Lemma tensor_input_annotated input :
  is_tensor_input input = true -> shouldAnnotate isSubtypeOf input = true.
Proof.
  unfold is_tensor_input, shouldAnnotate. intros H.
  destruct (type input) eqn:Hty; try (apply shouldAnnotate_type_subtype; exact H).
  cbn [shouldAnnotate_type]. rewrite (shouldAnnotate_type_subtype _ H).
  rewrite !orb_true_r. reflexivity.
Qed.

(** [s] is one of the alias sets of [v]. *)
Definition in_alias_set (db : AliasDb) (v : Value) (s : Symbol) : Prop :=
  exists a, valueToAlias_ db !! unique v = Some a /\ s ∈ sets a.

Lemma in_alias_set_grows db db' v s :
  in_alias_set db v s -> grows db db' -> in_alias_set db' v s.
Proof.
  intros (a & Ha & Hs) (Hv & _). destruct (Hv _ _ Ha) as (a' & Ha' & Hsub & _).
  exists a'. split; [exact Ha' | apply Hsub, Hs].
Qed.

Lemma addAlias_symbol_in_alias_set v s db :
  shouldAnnotate isSubtypeOf v = true ->
  in_alias_set (snd (addAlias_symbol isSubtypeOf v s db)) v s.
Proof.
  intros Hann. unfold addAlias_symbol. rewrite Hann. cbn [negb]. unfold modify. cbn [snd].
  destruct (valueToAlias_ db !! unique v) as [old |];
    cbn [valueToAlias_ set_valueToAlias_]; eexists;
    (split; [apply lookup_insert_eq |]); cbn [addSet sets];
    apply elem_of_union_l, elem_of_singleton; reflexivity.
Qed.

(** X23: all tensor inputs of a graph share one alias set.  When
    [analyze] returns, every input of the graph that is a tensor or an
    optional tensor is in the alias set that [analyze] made first, the one
    after the counter it started from. *)
Theorem tensor_inputs_share_a_set (fuel : nat) (graph : Graph) (db db' : AliasDb) (n : Z) :
  latestSymbol_ db = alias n ->
  analyze isSubtypeOf fuel graph db = (Ok tt, db') ->
  forall input, input ∈ graph_inputs graph -> is_tensor_input input = true ->
    in_alias_set db' input (alias (n + 1)).
Proof.
  intros Hn Hrun input Hin Htensor. unfold analyze in Hrun.
  rewrite bind_eq, (getFreshAlias_spec db n Hn) in Hrun.
  apply bind_Ok_inv in Hrun as (aliases & db2 & Hfold & Hblock).
  eapply in_alias_set_grows;
    [| eapply Frame_run; [apply (grows_analyzeBlock isSubtypeOf fuel) | exact Hblock]].
  revert Hfold. 
  match goal with |- foldM ?body _ _ _ = _ -> _ =>
    intros Hfold;
    apply (foldM_marks grows (fun input => is_tensor_input input = true)
             (fun input db => in_alias_set db input (alias (n + 1)))
             body _) with (x := input) in Hfold
  end; try assumption.
  - clear. intros [l t] x.
    repeat first [apply grows_addAlias_symbol | apply grows_getFreshAlias
                 | match goal with
                   | |- Frame _ (_ ≫= _) => apply Frame_bind; [typeclasses eauto | | intros ?]
                   | |- Frame _ (mret _) => apply Frame_ret; typeclasses eauto
                   | |- Frame _ (throw _) => apply Frame_throw; typeclasses eauto
                   | |- Frame _ (JIT_ASSERT _) => unfold JIT_ASSERT
                   | |- Frame _ (match ?x with _ => _ end) => destruct x
                   | |- Frame _ (if ?x then _ else _) => destruct x
                   end].
  - clear. intros [l t] x s acc' s' Hstep Htensor.
    unfold is_tensor_input in Htensor. rewrite Htensor in Hstep.
    apply bind_Ok_inv in Hstep as ([] & s1 & Hadd & Hret).
    injection Hret as _ <-.
    pose proof (addAlias_symbol_in_alias_set x (alias (n + 1)) s
                  (tensor_input_annotated x Htensor)) as H.
    rewrite Hadd in H. exact H.
  - clear. intros x s s'. apply in_alias_set_grows.
Qed.

End Inputs.

(** A graph with two tensor inputs, one of them optional, an integer input
    and no nodes. *)
Definition v_opt : Value := mkValue 12 (OptionalType DynamicType).
Definition inputs_graph : Graph := mkGraph [v_a; v_max; v_opt] (mkBlock [] [] []) unique.

(** Two inputs of the same tuple type share an alias set when their types
    are one object, and get an alias set each when they are two objects. *)
Definition v_t1 : Value := mkValue 13 (TupleType [IntType]).
Definition v_t2 : Value := mkValue 14 (TupleType [IntType]).

Example tuple_inputs_one_type_object :
  let db := snd (analyze subtype 0
                   (mkGraph [v_t1; v_t2] (mkBlock [] [] []) (fun _ => 1%positive))
                   AliasDb_new) in
  alias_sets db v_t1 = Some {[alias 2]} /\ alias_sets db v_t2 = Some {[alias 2]} /\
  latestSymbol_ db = alias 2.
Proof.
  split; [vm_compute; reflexivity |]. split; vm_compute; reflexivity.
Qed.

Example tuple_inputs_two_type_objects :
  let db := snd (analyze subtype 0
                   (mkGraph [v_t1; v_t2] (mkBlock [] [] []) unique) AliasDb_new) in
  alias_sets db v_t1 = Some {[alias 2]} /\ alias_sets db v_t2 = Some {[alias 3]} /\
  latestSymbol_ db = alias 3.
Proof.
  split; [vm_compute; reflexivity |]. split; vm_compute; reflexivity.
Qed.

Lemma tensor_inputs_share_a_set_witness :
  in_alias_set (snd (analyze subtype 0 inputs_graph AliasDb_new)) v_a (alias (0 + 1)) /\
  in_alias_set (snd (analyze subtype 0 inputs_graph AliasDb_new)) v_opt (alias (0 + 1)).
Proof.
  split.
  - apply (tensor_inputs_share_a_set subtype 0 inputs_graph AliasDb_new _ 0);
      [reflexivity | vm_compute; reflexivity | | reflexivity].
    apply list_elem_of_here.
  - apply (tensor_inputs_share_a_set subtype 0 inputs_graph AliasDb_new _ 0);
      [reflexivity | vm_compute; reflexivity | | reflexivity].
    do 2 apply list_elem_of_further. apply list_elem_of_here.
Defined.

(** *** Writers *)

(** [node] is recorded as a writer to the alias set [s]. *)
Definition writes_to (db : AliasDb) (node : positive) (s : Symbol) : Prop :=
  exists ws, aliasToWrites_ db !! s = Some ws /\ node ∈ ws.

Lemma writes_to_grows db db' node s :
  writes_to db node s -> grows db db' -> writes_to db' node s.
Proof.
  intros (ws & Hs & Hin) (_ & Hw & _). destruct (Hw _ _ Hs) as (ws' & Hs' & Hsub).
  exists ws'. split; [exact Hs' | apply Hsub, Hin].
Qed.

Lemma foldl_add_sets (db : AliasDb) (vs : list Value) : forall (acc : gset Symbol) s,
  s ∈ foldl (fun (aliasSets : gset Symbol) v =>
               match valueToAlias_ db !! unique v with
               | Some a => aliasSets ∪ sets a
               | None => aliasSets
               end) acc vs
  <-> s ∈ acc \/ exists v, v ∈ vs /\ in_alias_set db v s.
Proof.
  induction vs as [| v vs IH]; intros acc s; cbn [foldl].
  - split; [auto |]. intros [H | (v & Hv & _)]; [exact H | inversion Hv].
  - rewrite IH. split.
    + intros [Hacc | (u & Hu & Hs)].
      * destruct (valueToAlias_ db !! unique v) as [a |] eqn:Ha; [| auto].
        apply elem_of_union in Hacc as [Hacc | Hacc]; [auto |].
        right. exists v. split; [left |]. exists a. auto.
      * right. exists u. split; [right; exact Hu | exact Hs].
    + intros [Hacc | (u & Hu & Hs)].
      * left. destruct (valueToAlias_ db !! unique v); [apply elem_of_union_l |]; exact Hacc.
      * apply elem_of_cons in Hu as [-> | Hu]; [| right; exists u; auto].
        left. destruct Hs as (a & Ha & Hs). rewrite Ha. apply elem_of_union_r, Hs.
Qed.

Lemma foldl_writers (db : AliasDb) (l : list Symbol) : forall (acc : gset positive) w,
  w ∈ foldl (fun (writers : gset positive) alias =>
               match aliasToWrites_ db !! alias with
               | Some ws => writers ∪ ws
               | None => writers
               end) acc l
  <-> w ∈ acc \/ exists s, s ∈ l /\ writes_to db w s.
Proof.
  induction l as [| x l IH]; intros acc w; cbn [foldl].
  - split; [auto |]. intros [H | (s & Hs & _)]; [exact H | inversion Hs].
  - rewrite IH. split.
    + intros [Hacc | (s & Hs & Hw)].
      * destruct (aliasToWrites_ db !! x) as [ws |] eqn:Hx; [| auto].
        apply elem_of_union in Hacc as [Hacc | Hacc]; [auto |].
        right. exists x. split; [left |]. exists ws. auto.
      * right. exists s. split; [right; exact Hs | exact Hw].
    + intros [Hacc | (s & Hs & Hw)].
      * left. destruct (aliasToWrites_ db !! x); [apply elem_of_union_l |]; exact Hacc.
      * apply elem_of_cons in Hs as [-> | Hs]; [| right; exists s; auto].
        left. destruct Hw as (ws & Hx & Hw). rewrite Hx. apply elem_of_union_r, Hw.
Qed.

(** The writers of a node are the nodes recorded as writers to an alias
    set of one of its inputs or outputs. *)
Lemma getWritersForNode_spec (db : AliasDb) (n : Node) (w : positive) :
  w ∈ getWritersForNode db n <->
  exists v s, (v ∈ Node_inputs n \/ v ∈ Node_outputs n) /\
              in_alias_set db v s /\ writes_to db w s.
Proof.
  unfold getWritersForNode. rewrite foldl_writers. split.
  - intros [Hw | (s & Hs & Hw)]; [apply elem_of_empty in Hw as [] |].
    apply elem_of_elements, foldl_add_sets in Hs as [Hs | (v & Hv & Hs)].
    + apply foldl_add_sets in Hs as [Hs | (v & Hv & Hs)]; [apply elem_of_empty in Hs as [] |].
      exists v, s. auto.
    + exists v, s. auto.
  - intros (v & s & Hv & Hs & Hw). right. exists s. split; [| exact Hw].
    apply elem_of_elements, foldl_add_sets. destruct Hv as [Hv | Hv].
    + left. apply foldl_add_sets. right. exists v. auto.
    + right. exists v. auto.
Qed.

Ltac grows_frames :=
  repeat first
    [ assumption
    | apply grows_getFreshAlias | apply grows_addAlias_info | apply grows_addAlias_symbol
    | apply grows_record_write | apply grows_record_writes | apply grows_giveFreshAlias
    | apply grows_addAlias
    | match goal with
      | |- Frame _ (_ ≫= _) => apply Frame_bind; [typeclasses eauto | | intros ?]
      | |- Frame _ (mret _) => apply Frame_ret; typeclasses eauto
      | |- Frame _ (throw _) => apply Frame_throw; typeclasses eauto
      | |- Frame _ get => apply Frame_get; typeclasses eauto
      | |- Frame _ (JIT_ASSERT _) => unfold JIT_ASSERT
      | |- Frame _ (at_ _) => unfold at_
      | |- Frame _ (the_only _) => unfold the_only
      | |- Frame _ (set_ _) => unfold set_
      | |- Frame _ (forM_ _ _) => apply Frame_forM_; [typeclasses eauto .. | intros ? ?]
      | |- Frame _ (foldM _ _ _) => apply Frame_foldM; [typeclasses eauto .. | intros ? ? ?]
      | |- Frame _ (match ?x with _ => _ end) => destruct x
      | |- Frame _ (if ?x then _ else _) => destruct x
      | |- Frame _ ((match ?x with _ => _ end) _) => destruct x; cbv beta
      end ].

Lemma record_writes_records (formal info : AliasInfo) (node : Node) (db : AliasDb) :
  isWrite formal = true ->
  exists db',
    record_writes formal info node db = (Ok tt, db') /\
    forall s, s ∈ sets info -> writes_to db' (Node_id node) s.
Proof.
  intros Hw. unfold record_writes. rewrite Hw.
  assert (Hloop : forall l db, exists db',
    forM_ l (fun a => record_write a (Node_id node)) db = (Ok tt, db') /\
    forall s, s ∈ l -> writes_to db' (Node_id node) s).
  { clear. induction l as [| x l IH]; intros db.
    - exists db. split; [reflexivity |]. intros s Hs. inversion Hs.
    - rewrite forM__cons.
      set (db1 := set_aliasToWrites_
             (<[x := {[Node_id node]} ∪ default ∅ (aliasToWrites_ db !! x)]>
                (aliasToWrites_ db)) db).
      rewrite (bind_Ok _ _ db tt db1) by reflexivity.
      destruct (IH db1) as (db' & Hrun & Hrec).
      exists db'. split; [exact Hrun |].
      intros s Hs. apply elem_of_cons in Hs as [-> | Hs]; [| apply Hrec, Hs].
      eapply writes_to_grows;
        [| eapply Frame_run; [| exact Hrun]; grows_frames].
      eexists. cbn [aliasToWrites_ set_aliasToWrites_]. split; [apply lookup_insert_eq |].
      apply elem_of_union_l, elem_of_singleton. reflexivity. }
  destruct (Hloop (elements (sets info)) db) as (db' & Hrun & Hrec).
  exists db'. split; [exact Hrun |]. intros s Hs. apply Hrec, elem_of_elements, Hs.
Qed.

Section Writers.
Variable isSubtypeOf : TypePtr -> TypePtr -> bool.

(** X26: a written first argument makes the node a writer.  When the
    schema of a node annotates its first argument as written and the first
    input is annotated, then after [analyzeSchematized] returns, the node is
    recorded as a writer to every alias set that input had, and
    [getWritersForNode] reports it for every node with an input or output
    in one of those sets. *)
Theorem written_argument_records_writer (node : Node) (schema : FunctionSchema)
    (formal : AliasInfo) (rest : list Argument) (actualValue : Value)
    (inputs' : list Value) (actualAlias : AliasInfo) (db db' : AliasDb) :
  Node_maybeSchema node = Some schema ->
  arguments schema = mkArgument (Some formal) :: rest ->
  Node_inputs node = actualValue :: inputs' ->
  isWrite formal = true ->
  valueToAlias_ db !! unique actualValue = Some actualAlias ->
  analyzeSchematized isSubtypeOf node db = (Ok tt, db') ->
  (forall s, s ∈ sets actualAlias -> writes_to db' (Node_id node) s) /\
  (forall m v s, v ∈ Node_inputs m \/ v ∈ Node_outputs m ->
     in_alias_set db' v s -> s ∈ sets actualAlias ->
     Node_id node ∈ getWritersForNode db' m).
Proof.
  intros Hschema Hargs Hinputs Hwrite Hactual Hrun.
  cut (forall s, s ∈ sets actualAlias -> writes_to db' (Node_id node) s).
  { intros Hrec. split; [exact Hrec |]. intros m v s Hv Hs Hin.
    apply getWritersForNode_spec. exists v, s. auto. }
  unfold analyzeSchematized in Hrun. rewrite Hschema, bind_ret in Hrun.
  apply bind_Ok_inv in Hrun as ([] & db0 & Hcheck & Hrun).
  assert (db0 = db) as ->.
  { destruct (_ || _); [destruct (existsb _ _) |];
      first [discriminate Hcheck | injection Hcheck as <-; reflexivity]. }
  clear Hcheck.
  apply bind_Ok_inv in Hrun as (formalToActual & db2 & Hfold & Hloop).
  rewrite Hargs in Hfold. cbn [imap foldM] in Hfold.
  apply bind_Ok_inv in Hfold as (bound & db1 & Hstep & Hfold).
  rewrite Hinputs in Hstep. cbn [lookup list_lookup at_] in Hstep.
  rewrite bind_ret in Hstep. cbn [alias_info] in Hstep. unfold JIT_ASSERT in Hstep.
  destruct (containedTypes formal =? 0)%nat; [| discriminate Hstep].
  rewrite bind_ret in Hstep.
  destruct (isWildcard formal) eqn:Hwild; [discriminate Hstep |].
  cbn [negb] in Hstep. rewrite bind_ret in Hstep.
  unfold set_, the_only in Hstep.
  destruct (elements (sets formal)) as [| formalAlias [| y l]] eqn:Hformal;
    try discriminate Hstep.
  rewrite bind_ret in Hstep.
  assert (Hne : formalAlias <> wildcardSet).
  { intros ->. unfold isWildcard in Hwild. apply bool_decide_eq_false in Hwild.
    apply Hwild, elem_of_elements. rewrite Hformal. left. }
  rewrite lookup_singleton_ne in Hstep by congruence.
  rewrite bind_get, Hactual in Hstep. cbn [at_] in Hstep. rewrite bind_ret in Hstep.
  destruct (record_writes_records formal actualAlias node db Hwrite) as (db1' & Hrec & Hall).
  rewrite (bind_Ok _ _ _ _ _ Hrec) in Hstep. injection Hstep as <- <-.
  intros s Hs. specialize (Hall s Hs).
  eapply writes_to_grows; [exact Hall |].
  transitivity db2.
  - eapply Frame_run; [| exact Hfold]. grows_frames.
  - eapply Frame_run; [| exact Hloop]. grows_frames.
Qed.

Lemma addAlias_info_in_alias_set v a db :
  shouldAnnotate isSubtypeOf v = true ->
  forall s, s ∈ sets a -> in_alias_set (snd (addAlias_info isSubtypeOf v a db)) v s.
Proof.
  intros Hann s Hs. unfold addAlias_info. rewrite Hann. cbn [negb]. unfold modify. cbn [snd].
  destruct (valueToAlias_ db !! unique v) as [old |];
    cbn [valueToAlias_ set_valueToAlias_]; eexists;
    (split; [apply lookup_insert_eq |]); [| exact Hs].
  cbn [unionWith sets]. apply elem_of_union_r, Hs.
Qed.

Lemma addAlias_info_returns v a db :
  fst (addAlias_info isSubtypeOf v a db) = Ok tt.
Proof. unfold addAlias_info. destruct (negb _); reflexivity. Qed.

Lemma forM_addAlias_info_marks (a : AliasInfo) (l : list Value) : forall db,
  exists db',
    forM_ l (fun output => addAlias_info isSubtypeOf output a) db = (Ok tt, db') /\
    forall output s, output ∈ l -> shouldAnnotate isSubtypeOf output = true ->
      s ∈ sets a -> in_alias_set db' output s.
Proof.
  induction l as [| x l IH]; intros db.
  - exists db. split; [reflexivity |]. intros o s Ho. inversion Ho.
  - rewrite forM__cons, bind_eq.
    pose proof (addAlias_info_returns x a db) as Hret.
    pose proof (fun Hann => addAlias_info_in_alias_set x a db Hann) as Hmark.
    destruct (addAlias_info isSubtypeOf x a db) as [r db1]. cbn [fst snd] in Hret, Hmark.
    subst r. destruct (IH db1) as (db' & Hrun & Hrec).
    exists db'. split; [exact Hrun |].
    intros o s Ho Hann Hs. apply elem_of_cons in Ho as [-> | Ho]; [| apply Hrec; assumption].
    eapply in_alias_set_grows; [apply Hmark; assumption |].
    eapply Frame_run; [| exact Hrun]. grows_frames.
Qed.

(** X27: the outputs of an extractor node are wildcards.
    [analyzeExtractor] always returns; afterwards every output that should
    be annotated is in the wildcard set, and if there is such an output
    [hasWildcard] answers [true] for the node. *)
Theorem extractor_outputs_are_wildcards (node : Node) (db : AliasDb) :
  exists db',
    analyzeExtractor isSubtypeOf node db = (Ok tt, db') /\
    (forall output, output ∈ Node_outputs node ->
       shouldAnnotate isSubtypeOf output = true ->
       in_alias_set db' output wildcardSet) /\
    ((exists output, output ∈ Node_outputs node /\
                     shouldAnnotate isSubtypeOf output = true) ->
     hasWildcard db' node = true).
Proof.
  unfold analyzeExtractor.
  destruct (forM_addAlias_info_marks createWildcard (Node_outputs node) db)
    as (db' & Hrun & Hrec).
  assert (Hall : forall output, output ∈ Node_outputs node ->
                   shouldAnnotate isSubtypeOf output = true ->
                   in_alias_set db' output wildcardSet).
  { intros o Ho Hann. apply Hrec; [exact Ho | exact Hann |].
    cbn [createWildcard sets]. apply elem_of_singleton. reflexivity. }
  exists db'. split; [exact Hrun |]. split; [exact Hall |].
  intros (o & Ho & Hann). unfold hasWildcard.
  destruct (existsb _ (Node_inputs node)); [reflexivity |].
  assert (Hex : existsb (annotated_with db' isWildcard) (Node_outputs node) = true).
  { apply existsb_exists. exists o. split; [apply list_elem_of_In, Ho |].
    destruct (Hall o Ho Hann) as (a & Ha & Hs). unfold annotated_with. rewrite Ha.
    apply bool_decide_eq_true_2, Hs. }
  rewrite Hex. reflexivity.
Qed.

End Writers.

(** [aten::add_(Tensor(a!) self, Tensor other) -> Tensor(a!)] applied to
    [%a] and [%b] of the swap graph. *)
Definition add__schema : FunctionSchema :=
  mkFunctionSchema
    [mkArgument (Some (mkAliasInfo true {[alias 0]} 0)); mkArgument None]
    [mkArgument (Some (mkAliasInfo true {[alias 0]} 0))]
    false false.

Definition add__node : Node :=
  mkNode 7 aten_add [v_a; v_b] [mkValue 11 DynamicType] [] (Some add__schema) None.

Lemma written_argument_records_writer_witness :
  7%positive ∈ getWritersForNode (snd (analyzeSchematized subtype add__node swap_db)) swap_loop.
Proof.
  destruct (valueToAlias_ swap_db !! unique v_a) as [actualAlias |] eqn:Hactual;
    [| vm_compute in Hactual; discriminate Hactual].
  assert (Hs : alias 4 ∈ sets actualAlias).
  { vm_compute in Hactual. injection Hactual as <-. cbn [sets]. set_solver. }
  destruct (written_argument_records_writer subtype add__node add__schema
              (mkAliasInfo true {[alias 0]} 0) [mkArgument None] v_a [v_b] actualAlias
              swap_db (snd (analyzeSchematized subtype add__node swap_db)))
    as [_ Hwriters];
    [reflexivity | reflexivity | reflexivity | reflexivity | exact Hactual
    | vm_compute; reflexivity |].
  apply (Hwriters swap_loop v_a (alias 4)).
  - left. cbn. do 2 apply list_elem_of_further. apply list_elem_of_here.
  - eapply in_alias_set_grows; [| apply (grows_analyzeSchematized subtype add__node)].
    exists actualAlias. auto.
  - exact Hs.
Defined.

End AliasAnalysis.
